(** * RAMCloud master storage engine: a shallow embedding of MasterServer.cc

    The file has three parts.  The first part embeds the data model and the
    member functions of [MasterServer] and [SegmentLocatorChooser] as
    executable Rocq definitions, written in the order of the C++ source.
    The second part defines the vocabulary of the properties: invariants,
    checks that evaluate and the inputs of the concrete runs.  The third
    part states and proves the properties.

    Conventions.
    - [uint64_t] and [uint32_t] values are integers of type [Z]; every
      arithmetic operation of the source that can overflow is followed by
      [wrap64] (or [wrap32]), and every narrowing conversion of the source
      is written out.
    - A C++ member function is a computation in the monad [M]: it takes the
      server state and returns the new state with an [Outcome].  A thrown
      exception keeps the state reached at the throw.
    - [const Object*] values are references into the log ([nat] positions);
      [Table*] values are addresses into [tableHeap]. *)

From stdpp Require Import gmap list strings sorting.
From Stdlib Require Import ZArith Lia.

Local Open Scope Z_scope.

(* ===================================================================== *)
(** * Part 1: the embedding                                               *)
(* ===================================================================== *)

(** ** Machine integers *)

Definition wrap64 (z : Z) : Z := z mod 2 ^ 64.
Definition wrap32 (z : Z) : Z := z mod 2 ^ 32.
Definition UINT64_MAX : Z := 2 ^ 64 - 1.

(** A key of the two hash tables: (table id, object id). *)
Abbreviation Key := (Z * Z)%type.

(** ** Records of the log *)

(** [struct Object]; the field names carry the prefix [obj_] because [id]
    is taken in Rocq.  [obj_data] is the payload, one character per byte. *)
Record Object := mkObject {
  obj_id : Z;
  obj_table : Z;
  obj_version : Z;
  obj_checksum : Z;
  obj_data_len : Z;
  obj_data : string;
}.

Record ObjectTombstone := mkTombstone {
  segmentId : Z;
  tableId : Z;
  objectId : Z;
  objectVersion : Z;
}.

(** Modelled from the spec: the constructor [ObjectTombstone(segmentId, o)]
    is declared in a header that is not under src/.  It copies the key and
    the version of the object it supersedes and stores the segment id it
    is given. *)
Definition ObjectTombstone_new (segId : Z) (o : Object) : ObjectTombstone :=
  {| segmentId := segId;
     tableId := obj_table o;
     objectId := obj_id o;
     objectVersion := obj_version o |}.

(** Modelled from the spec: [Object::size()], the header (four u64 and one
    u32, packed) plus [data_len]. *)
Definition Object_size (o : Object) : Z := 36 + obj_data_len o.

(** [sizeof(ObjectTombstone)]: four u64. *)
Definition sizeof_ObjectTombstone : Z := 32.

Inductive LogEntryType :=
| LOG_ENTRY_TYPE_OBJ
| LOG_ENTRY_TYPE_OBJTOMB
| LOG_ENTRY_TYPE_SEGHEADER
| LOG_ENTRY_TYPE_SEGFOOTER.

(** What an entry holds: the bytes of an object or of a tombstone. *)
Inductive LogPayload :=
| PObj (o : Object)
| PTomb (t : ObjectTombstone).

Definition payloadType (p : LogPayload) : LogEntryType :=
  match p with
  | PObj _ => LOG_ENTRY_TYPE_OBJ
  | PTomb _ => LOG_ENTRY_TYPE_OBJTOMB
  end.

(** ** Exceptions and the state-and-exception monad *)

Inductive Exception :=
| TableDoesntExistException
| ObjectDoesntExistException
| ObjectExistsException
| WrongVersionException
| SegmentRecoveryFailedException
| UnimplementedRequestError.

(** How a call ends: it returns, it throws, an [assert] of the source
    fails (the process aborts), it dereferences a pointer that refers to
    nothing, or a loop of the source does not end within the fuel of the
    model. *)
Inductive Outcome (A : Type) :=
| Ok (a : A)
| Throw (e : Exception)
| AssertFailed
| InvalidPointer
| OutOfFuel.
Arguments Ok {A} a.
Arguments Throw {A} e.
Arguments AssertFailed {A}.
Arguments InvalidPointer {A}.
Arguments OutOfFuel {A}.

Definition M (S A : Type) : Type := S -> S * Outcome A.

Definition ret {S A} (a : A) : M S A := fun s => (s, Ok a).

Definition bind {S A B} (m : M S A) (f : A -> M S B) : M S B :=
  fun s =>
    match m s with
    | (s', Ok a) => f a s'
    | (s', Throw e) => (s', Throw e)
    | (s', AssertFailed) => (s', AssertFailed)
    | (s', InvalidPointer) => (s', InvalidPointer)
    | (s', OutOfFuel) => (s', OutOfFuel)
    end.

Definition throw {S A} (e : Exception) : M S A := fun s => (s, Throw e).
Definition assert {S} (b : bool) : M S unit :=
  fun s => if b then (s, Ok tt) else (s, AssertFailed).
Definition get {S} : M S S := fun s => (s, Ok s).
Definition put {S} (s : S) : M S unit := fun _ => (s, Ok tt).
Definition modify {S} (f : S -> S) : M S unit := fun s => (f s, Ok tt).
(** A result computed without the state (a pure helper that can throw). *)
Definition lift {S A} (o : Outcome A) : M S A := fun s => (s, o).

Notation "'let!' x := c1 'in' c2" := (bind c1 (fun x => c2))
  (at level 10, x name, c1 at level 100, c2 at level 200,
   format "'[v' 'let!'  x  :=  c1  'in' '/' c2 ']'").
Notation "c1 ;; c2" := (bind c1 (fun _ => c2))
  (at level 100, c2 at level 200, right associativity).

(** ** RejectRules *)

(** [struct RejectRules]: the four flags are [uint8_t] in the source and
    are only tested for being non-zero; [rr_exists] renames [exists]. *)
Record RejectRules := mkRejectRules {
  givenVersion : Z;
  doesntExist : bool;
  rr_exists : bool;
  versionLeGiven : bool;
  versionNeGiven : bool;
}.

(** Modelled from the spec: the constant [VERSION_NONEXISTENT] is declared
    in a header that is not under src/; it is the version that no object
    has.  No proof below depends on its value. *)
Definition VERSION_NONEXISTENT : Z := 0.

(** [MasterServer::rejectOperation]: it reads no member of the server, so
    it is a function of its two arguments. *)
Definition rejectOperation (rejectRules : RejectRules) (version : Z)
  : Outcome unit :=
  if version =? VERSION_NONEXISTENT then
    if doesntExist rejectRules then Throw ObjectDoesntExistException
    else Ok tt
  else if rr_exists rejectRules then Throw ObjectExistsException
  else if versionLeGiven rejectRules && (version <=? givenVersion rejectRules)
  then Throw WrongVersionException
  else if versionNeGiven rejectRules
          && negb (version =? givenVersion rejectRules)
  then Throw WrongVersionException
  else Ok tt.

(** The table of section 4.3 of the specification, row by row, first
    match wins; the last line is the case in which no row matches. *)
Inductive Decision :=
| Accept
| Reject (e : Exception).

Definition rejectRules_table (rules : RejectRules) (currentVersion : Z)
  : list (bool * Decision) :=
  [ ((currentVersion =? VERSION_NONEXISTENT) && doesntExist rules,
     Reject ObjectDoesntExistException);
    ((currentVersion =? VERSION_NONEXISTENT), Accept);
    (rr_exists rules, Reject ObjectExistsException);
    (versionLeGiven rules && (currentVersion <=? givenVersion rules),
     Reject WrongVersionException);
    (versionNeGiven rules && negb (currentVersion =? givenVersion rules),
     Reject WrongVersionException) ].

Fixpoint firstMatch (rows : list (bool * Decision)) : Decision :=
  match rows with
  | [] => Accept
  | (c, d) :: rest => if c then d else firstMatch rest
  end.

Definition decisionOf (o : Outcome unit) : option Decision :=
  match o with
  | Ok _ => Some Accept
  | Throw e => Some (Reject e)
  | _ => None
  end.

(** ** The log *)

(** Modelled from the spec: class [Log] (Log.h and Log.cc are not under
    src/).  Section 4.1: [append] writes into the current open segment and
    rotates to a new segment when the entry would not fit; [free] marks an
    entry dead and is idempotent; [getSegmentId] names the segment that
    holds an entry; a segment is live while it is the open one or holds an
    entry that is not dead.  A reference is the position of the entry in
    [logEntries], so an entry never moves (the cleaner is not modelled). *)
Record LogEntry := mkLogEntry {
  payload : LogPayload;
  entrySegment : Z;
  entryLength : Z;
  live : bool;
}.

Record Log := mkLog {
  logEntries : list LogEntry;
  headSegment : Z;
  headBytes : Z;
  segmentCapacity : Z;
  bytesAppended : Z;
}.

Definition Log_append (l : Log) (p : LogPayload) (len : Z) : Log * nat :=
  let rotate := segmentCapacity l <? headBytes l + len in
  let seg := if rotate then wrap64 (headSegment l + 1) else headSegment l in
  let used := if rotate then len else headBytes l + len in
  ({| logEntries := logEntries l ++ [mkLogEntry p seg len true];
      headSegment := seg;
      headBytes := used;
      segmentCapacity := segmentCapacity l;
      bytesAppended := wrap64 (bytesAppended l + len) |},
   length (logEntries l)).

Definition markDead (e : LogEntry) : LogEntry :=
  {| payload := payload e; entrySegment := entrySegment e;
     entryLength := entryLength e; live := false |}.

Definition Log_free (l : Log) (ref : nat) : Log :=
  {| logEntries := alter markDead ref (logEntries l);
     headSegment := headSegment l;
     headBytes := headBytes l;
     segmentCapacity := segmentCapacity l;
     bytesAppended := bytesAppended l |}.

Definition Log_getSegmentId (l : Log) (ref : nat) : option Z :=
  entrySegment <$> logEntries l !! ref.

Definition Log_isSegmentLive (l : Log) (segId : Z) : bool :=
  (segId =? headSegment l)
  || existsb (fun e => live e && (entrySegment e =? segId)) (logEntries l).

(** What a [const Object*] points to. *)
Definition Log_object (l : Log) (ref : nat) : option Object :=
  match logEntries l !! ref with
  | Some e => match payload e with PObj o => Some o | PTomb _ => None end
  | None => None
  end.

(** ** Tables and tablets *)

(** Modelled from the spec: class [Table] (Table.h is not under src/).
    Section 3: a Table holds two monotone counters, a key allocator and a
    version floor that [RaiseVersion] lifts.  The first key and the first
    version are those of scenario 1 of section 8. *)
Record Table := mkTable {
  tbl_tableId : Z;
  nextKey : Z;
  nextVersion : Z;
}.

Definition Table_new (tableId : Z) : Table :=
  {| tbl_tableId := tableId; nextKey := 1; nextVersion := 1 |}.

(** [ProtoBuf::Tablets::Tablet]; [user_data] holds the [Table*]. *)
Record Tablet := mkTablet {
  table_id : Z;
  start_object_id : Z;
  end_object_id : Z;
  service_locator : string;
  server_id : Z;
  user_data : Z;
}.

Definition set_user_data (p : Z) (t : Tablet) : Tablet :=
  {| table_id := table_id t; start_object_id := start_object_id t;
     end_object_id := end_object_id t; service_locator := service_locator t;
     server_id := server_id t; user_data := p |}.

(** ** The server *)

(** The calls that the server makes on the log and on the object map, as
    they happen, oldest first.  This history is not a member of the C++
    class; it records the order of the calls, which the final state of the
    log does not show. *)
Inductive Event :=
| EvLogFree (ref : nat)
| EvLogAppend (p : LogPayload) (len : Z) (ref : nat)
| EvMapReplace (k : Key) (ref : nat)
| EvMapRemove (k : Key).

(** The members of [MasterServer] that the modelled functions use.
    [tableHeap] is the part of the heap that holds the [Table] objects and
    [heapNext] the address that the next [new Table] returns (never 0). *)
Record MasterServer := mkMasterServer {
  serverId : Z;
  localLocator : string;
  bytesWritten : Z;
  log : Log;
  objectMap : gmap Key nat;
  tablets : list Tablet;
  tableHeap : gmap Z Table;
  heapNext : Z;
  trace : list Event;
}.

Definition with_log (l : Log) (ev : list Event) (s : MasterServer) :=
  {| serverId := serverId s; localLocator := localLocator s;
     bytesWritten := bytesWritten s; log := l; objectMap := objectMap s;
     tablets := tablets s; tableHeap := tableHeap s; heapNext := heapNext s;
     trace := trace s ++ ev |}.

Definition with_objectMap (m : gmap Key nat) (ev : list Event)
  (s : MasterServer) :=
  {| serverId := serverId s; localLocator := localLocator s;
     bytesWritten := bytesWritten s; log := log s; objectMap := m;
     tablets := tablets s; tableHeap := tableHeap s; heapNext := heapNext s;
     trace := trace s ++ ev |}.

Definition with_tables (ts : list Tablet) (h : gmap Z Table) (n : Z)
  (s : MasterServer) :=
  {| serverId := serverId s; localLocator := localLocator s;
     bytesWritten := bytesWritten s; log := log s; objectMap := objectMap s;
     tablets := ts; tableHeap := h; heapNext := n; trace := trace s |}.

Definition with_bytesWritten (b : Z) (s : MasterServer) :=
  {| serverId := serverId s; localLocator := localLocator s;
     bytesWritten := b; log := log s; objectMap := objectMap s;
     tablets := tablets s; tableHeap := tableHeap s; heapNext := heapNext s;
     trace := trace s |}.

(** The server as its constructor leaves it: no tablet, nothing in the
    hash table, an empty log whose segments hold [capacity] bytes. *)
Definition MasterServer_new (id : Z) (locator : string) (capacity : Z)
  : MasterServer :=
  {| serverId := id; localLocator := locator; bytesWritten := 0;
     log := {| logEntries := []; headSegment := 0; headBytes := 0;
               segmentCapacity := capacity; bytesAppended := 0 |};
     objectMap := ∅; tablets := []; tableHeap := ∅; heapNext := 1;
     trace := [] |}.

(** *** Calls on the members *)

Definition log_append (p : LogPayload) (len : Z) : M MasterServer nat :=
  fun s =>
    let r := Log_append (log s) p len in
    (with_log (fst r) [EvLogAppend p len (snd r)] s, Ok (snd r)).

Definition log_free (ref : nat) : M MasterServer unit :=
  fun s => (with_log (Log_free (log s) ref) [EvLogFree ref] s, Ok tt).

Definition log_getSegmentId (ref : nat) : M MasterServer Z :=
  fun s =>
    match Log_getSegmentId (log s) ref with
    | Some seg => (s, Ok seg)
    | None => (s, InvalidPointer)
    end.

(** Modelled from the spec: class [HashTable], of which [ObjectMap] and
    [ObjectTombstoneMap] are instances (HashTable.h is not under src/).
    Section 4.2: a mapping from (tableId, objectId) to a reference, with
    [lookup], [replace] and [remove]; [prefetch] changes nothing that can
    be observed.  The mapping is a finite map; the result [None] of
    [lookup] is the null pointer. *)
Definition objectMap_lookup (tableId id : Z) : M MasterServer (option nat) :=
  fun s => (s, Ok (objectMap s !! (tableId, id))).

Definition objectMap_replace (tableId id : Z) (ref : nat)
  : M MasterServer unit :=
  fun s =>
    (with_objectMap (<[(tableId, id) := ref]> (objectMap s))
       [EvMapReplace (tableId, id) ref] s, Ok tt).

Definition objectMap_remove (tableId id : Z) : M MasterServer unit :=
  fun s =>
    (with_objectMap (delete (tableId, id) (objectMap s))
       [EvMapRemove (tableId, id)] s, Ok tt).

(** Reading through a [const Object*]. *)
Definition deref (ref : nat) : M MasterServer Object :=
  fun s =>
    match Log_object (log s) ref with
    | Some o => (s, Ok o)
    | None => (s, InvalidPointer)
    end.

Definition derefOpt (o : option nat) : M MasterServer (option Object) :=
  match o with
  | Some ref => let! obj := deref ref in ret (Some obj)
  | None => ret None
  end.

(** Reading and writing through a [Table*]. *)
Definition withTable {A} (t : Z) (f : Table -> Table * A) : M MasterServer A :=
  fun s =>
    match tableHeap s !! t with
    | Some tbl =>
        let '(tbl', a) := f tbl in
        (with_tables (tablets s) (<[t := tbl']> (tableHeap s)) (heapNext s) s,
         Ok a)
    | None => (s, InvalidPointer)
    end.

(** Modelled from the spec: [Table::AllocateVersion] hands out the floor
    and moves it up by one; [allocatedVersion] is the Table afterwards. *)
Definition allocatedVersion (tbl : Table) : Table :=
  {| tbl_tableId := tbl_tableId tbl; nextKey := nextKey tbl;
     nextVersion := wrap64 (nextVersion tbl + 1) |}.

Definition Table_AllocateVersion (t : Z) : M MasterServer Z :=
  withTable t (fun tbl => (allocatedVersion tbl, nextVersion tbl)).

(** Modelled from the spec: [Table::RaiseVersion] lifts the floor to
    [minimum] when it is below it; [raisedVersion] is the Table
    afterwards. *)
Definition raisedVersion (minimum : Z) (tbl : Table) : Table :=
  {| tbl_tableId := tbl_tableId tbl; nextKey := nextKey tbl;
     nextVersion := if nextVersion tbl <? minimum then minimum
                    else nextVersion tbl |}.

Definition Table_RaiseVersion (t : Z) (minimum : Z) : M MasterServer unit :=
  withTable t (fun tbl => (raisedVersion minimum tbl, tt)).

(** Modelled from the spec: [Table::AllocateKey] skips the ids that are in
    the index.  [fuel] bounds the number of ids it skips. *)
Fixpoint skipKeys (fuel : nat) (m : gmap Key nat) (tableId key : Z)
  : option Z :=
  match m !! (tableId, key) with
  | None => Some key
  | Some _ =>
      match fuel with
      | O => None
      | S fuel' => skipKeys fuel' m tableId (wrap64 (key + 1))
      end
  end.

Definition Table_AllocateKey (t : Z) : M MasterServer Z :=
  fun s =>
    match tableHeap s !! t with
    | Some tbl =>
        match skipKeys (size (objectMap s)) (objectMap s)
                (tbl_tableId tbl) (nextKey tbl) with
        | Some key =>
            (with_tables (tablets s)
               (<[t := {| tbl_tableId := tbl_tableId tbl; nextKey := key;
                          nextVersion := nextVersion tbl |}]> (tableHeap s))
               (heapNext s) s, Ok key)
        | None => (s, OutOfFuel)
        end
    | None => (s, InvalidPointer)
    end.

(** *** MasterServer::getTable (MasterServer.cc, lines 812-823) *)

(** The parameter [tableId] is [uint32_t] in the source: an argument is
    narrowed on the call.  The result is the [Table*] of the first tablet
    that holds the object. *)
Definition tabletHolds (tableId32 objectId : Z) (tablet : Tablet) : bool :=
  (table_id tablet =? tableId32)
  && (start_object_id tablet <=? objectId)
  && (objectId <=? end_object_id tablet).

Definition getTable (tableId objectId : Z) : M MasterServer Z :=
  fun s =>
    match find (tabletHolds (wrap32 tableId) objectId) (tablets s) with
    | Some tablet => (s, Ok (user_data tablet))
    | None => (s, Throw TableDoesntExistException)
    end.

(** *** MasterServer::read (lines 275-297) *)

(** The result is the reply payload and [respHdr.version]. *)
Definition read (tableId id : Z) (rejectRules : RejectRules)
  : M MasterServer (string * Z) :=
  getTable tableId id ;;
  let! o := objectMap_lookup tableId id in
  match o with
  | None => throw ObjectDoesntExistException
  | Some ref =>
      let! obj := deref ref in
      lift (rejectOperation rejectRules (obj_version obj)) ;;
      ret (obj_data obj, obj_version obj)
  end.

(** *** MasterServer::storeData (lines 993-1043) *)

(** [data] stands for the [dataLength] bytes of the request payload that
    start at [dataOffset].  The result is [*newVersion]. *)
Definition storeData (tableId id : Z) (rejectRules : RejectRules)
  (data : string) : M MasterServer Z :=
  let dataLength := Z.of_nat (String.length data) in
  let! t := getTable tableId id in
  let! o := objectMap_lookup tableId id in
  let! prev := derefOpt o in
  let version :=
    match prev with
    | Some obj => obj_version obj
    | None => VERSION_NONEXISTENT
    end in
  lift (rejectOperation rejectRules version) ;;
  let! newVersion :=
    match prev with
    | Some obj => ret (wrap64 (obj_version obj + 1))
    | None => Table_AllocateVersion t
    end in
  assert (match prev with
          | Some obj => obj_version obj <? newVersion
          | None => true
          end) ;;
  let newObject :=
    {| obj_id := id; obj_table := tableId; obj_version := newVersion;
       obj_checksum := 0x0BE70BE70BE70BE7; obj_data_len := dataLength;
       obj_data := data |} in
  match o, prev with
  | Some ref, Some obj =>
      log_free ref ;;
      let! segId := log_getSegmentId ref in
      log_append (PTomb (ObjectTombstone_new segId obj))
        sizeof_ObjectTombstone ;;
      ret tt
  | _, _ => ret tt
  end ;;
  let! objPtr := log_append (PObj newObject) (Object_size newObject) in
  objectMap_replace tableId id objPtr ;;
  let! stored := deref objPtr in
  modify (fun s => with_bytesWritten (wrap64 (bytesWritten s + dataLength)) s) ;;
  ret (obj_version stored).

(** *** MasterServer::write (lines 785-793) *)

Definition write (tableId id : Z) (rejectRules : RejectRules) (data : string)
  : M MasterServer Z :=
  storeData tableId id rejectRules data.

(** *** MasterServer::create (lines 233-249) *)

(** The result is [(respHdr.id, respHdr.version)]. *)
Definition create (tableId : Z) (data : string) : M MasterServer (Z * Z) :=
  let! t := getTable tableId UINT64_MAX in
  let! id := Table_AllocateKey t in
  let rejectRules :=
    {| givenVersion := 0; doesntExist := false; rr_exists := true;
       versionLeGiven := false; versionNeGiven := false |} in
  let! version := storeData tableId id rejectRules data in
  ret (id, version).

(** *** MasterServer::remove (lines 673-698) *)

(** [uninit] is the value that the member [tomb.segmentId] holds before
    [tomb] is constructed: the source passes it to the constructor of
    [tomb] itself.  The result is [respHdr.version], [None] when the
    function returns before it writes the field. *)
Definition remove (tableId id : Z) (rejectRules : RejectRules) (uninit : Z)
  : M MasterServer (option Z) :=
  let! t := getTable tableId id in
  let! o := objectMap_lookup tableId id in
  match o with
  | None =>
      lift (rejectOperation rejectRules VERSION_NONEXISTENT) ;;
      ret None
  | Some ref =>
      let! obj := deref ref in
      lift (rejectOperation rejectRules (obj_version obj)) ;;
      Table_RaiseVersion t (wrap64 (obj_version obj + 1)) ;;
      let tomb := ObjectTombstone_new uninit obj in
      log_free ref ;;
      log_append (PTomb tomb) sizeof_ObjectTombstone ;;
      objectMap_remove tableId id ;;
      ret (Some (obj_version obj))
  end.

(** *** MasterServer::setTablets (lines 711-764) *)

(** [Tables], a [std::map<uint32_t, Table*>]: the key type narrows every
    table id that indexes the map.  A null pointer is 0. *)
Abbreviation Tables := (gmap Z Z).

(** The first loop: the map from table id to Table of the tablets served
    so far. *)
Definition collectTables (oldTablets : list Tablet) : Tables :=
  foldl (fun tables oldTablet =>
           <[wrap32 (table_id oldTablet) := user_data oldTablet]> tables)
        ∅ oldTablets.

(** The test of the inner loop: some new tablet has the id [oldTable.first]. *)
Definition stillServed (newTablets : list Tablet) (first : Z) : bool :=
  existsb (fun newTablet => first =? table_id newTablet) newTablets.

(** [delete table]: the Table leaves the heap.  [delete] of a null pointer
    does nothing; an address that holds no Table is a wild pointer (a
    Table that was deleted before, say). *)
Definition deleteTable (table : Z) : M MasterServer unit :=
  fun s =>
    if table =? 0 then (s, Ok tt)
    else match tableHeap s !! table with
         | Some _ =>
             (with_tables (tablets s) (delete table (tableHeap s))
                (heapNext s) s, Ok tt)
         | None => (s, InvalidPointer)
         end.

(** The order of a [std::map] on its entries: the order of the keys. *)
Definition entryLe (a b : Z * Z) : Prop := a.1 <= b.1.

#[global] Instance entryLe_dec (a b : Z * Z) : base.Decision (entryLe a b).
Proof. unfold entryLe. apply _. Defined.

(** The entries of [tables] as a loop over the map visits them, in the
    ascending order of the keys. *)
Definition Tables_entries (tables : Tables) : list (Z * Z) :=
  merge_sort entryLe (map_to_list tables).

(** The second loop, over the entries [oldTables] of the map; the inner
    loop reads the member [tablets], which holds [newTablets] by then.  It
    assigns NULL to a copy of the map entry ([Tables::value_type oldTable]
    is a copy), so [tables] keeps the address of a Table it deletes. *)
Fixpoint deleteOldTables (oldTables : list (Z * Z)) (newTablets : list Tablet)
  : M MasterServer unit :=
  match oldTables with
  | [] => ret tt
  | oldTable :: rest =>
      (if stillServed newTablets (fst oldTable) then ret tt
       else deleteTable (snd oldTable)) ;;
      deleteOldTables rest newTablets
  end.

(** The body of the third loop; [tables[key]] of an absent key is NULL. *)
Definition assignTable (st : Tables * gmap Z Table * Z) (newTablet : Tablet)
  : (Tables * gmap Z Table * Z) * Tablet :=
  let '(tables, heap, next) := st in
  let key := wrap32 (table_id newTablet) in
  let table := default 0 (tables !! key) in
  if table =? 0 then
    ((<[key := next]> tables,
      <[next := Table_new (table_id newTablet)]> heap,
      next + 1),
     set_user_data next newTablet)
  else ((tables, heap, next), set_user_data table newTablet).

Fixpoint assignTables (st : Tables * gmap Z Table * Z) (ts : list Tablet)
  : (Tables * gmap Z Table * Z) * list Tablet :=
  match ts with
  | [] => (st, [])
  | newTablet :: rest =>
      let '(st1, tablet1) := assignTable st newTablet in
      let '(st2, rest') := assignTables st1 rest in
      (st2, tablet1 :: rest')
  end.

(** The three loops and, between the first and the second, the assignment
    [tablets = newTablets]. *)
Definition setTablets (newTablets : list Tablet) : M MasterServer unit :=
  let! s := get in
  let tables := collectTables (tablets s) in
  modify (with_tables newTablets (tableHeap s) (heapNext s)) ;;
  deleteOldTables (Tables_entries tables) newTablets ;;
  modify (fun s1 =>
            let '((_, heap', next'), tablets') :=
              assignTables (tables, tableHeap s1, heapNext s1) (tablets s1) in
            with_tables tablets' heap' next' s1).

(** ** Recovery *)

(** *** SegmentLocatorChooser (lines 38-129) *)

Inductive ServerType :=
| MASTER
| BACKUP.

(** [ProtoBuf::ServerList::Entry], the fields that the chooser reads. *)
Record ServerListEntry := mkServerListEntry {
  has_segment_id : bool;
  segment_id : Z;
  server_type : ServerType;
  entry_service_locator : string;
}.

(** [LocatorMap], a [std::multimap<uint64_t, string>]: the pairs in the
    order of their keys, pairs of one key in the order of their
    insertion. *)
Abbreviation LocatorMap := (list (Z * string)).

Fixpoint multimap_insert (k : Z) (v : string) (m : LocatorMap) : LocatorMap :=
  match m with
  | [] => [(k, v)]
  | (k', v') :: rest =>
      if k <? k' then (k, v) :: m else (k', v') :: multimap_insert k v rest
  end.

(** [map.equal_range(segmentId)]. *)
Definition equal_range (m : LocatorMap) (segId : Z) : LocatorMap :=
  filter (fun e => fst e = segId) m.

(** [std::unique]: one element of every run of equal elements. *)
Fixpoint unique (l : list Z) : list Z :=
  match l with
  | x :: rest =>
      match rest with
      | y :: _ => if x =? y then unique rest else x :: unique rest
      | [] => [x]
      end
  | [] => []
  end.

(** The members [map] and [ids] carry the prefix [chooser_]. *)
Record SegmentLocatorChooser := mkChooser {
  chooser_map : LocatorMap;
  chooser_ids : list Z;
}.

(** The constructor; [shuffle] is what [std::random_shuffle] does to the
    list of ids in this run. *)
Definition SegmentLocatorChooser_new (shuffle : list Z -> list Z)
  (list : list ServerListEntry) : SegmentLocatorChooser :=
  let m :=
    foldl (fun m server =>
             if negb (has_segment_id server) then m
             else match server_type server with
                  | MASTER => m
                  | BACKUP =>
                      multimap_insert (segment_id server)
                        (entry_service_locator server) m
                  end)
          [] list in
  {| chooser_map := m; chooser_ids := shuffle (unique (fst <$> m)) |}.

(** [SegmentLocatorChooser::get]; [tsc] is the value of [rdtsc()]. *)
Definition SegmentLocatorChooser_get (c : SegmentLocatorChooser)
  (segId : Z) (tsc : Z) : Outcome string :=
  let range := equal_range (chooser_map c) segId in
  let count := Z.of_nat (length range) in
  match range with
  | [] => Throw SegmentRecoveryFailedException
  | _ :: _ =>
      match range !! Z.to_nat (tsc mod count) with
      | Some e => Ok (snd e)
      | None => InvalidPointer
      end
  end.

Definition SegmentLocatorChooser_getSegmentIdList (c : SegmentLocatorChooser)
  : list Z := chooser_ids c.

(** [SegmentLocatorChooser::markAsDown]: it erases the first pair of the
    range that has the locator. *)
Fixpoint eraseFirst (segId : Z) (locator : string) (m : LocatorMap)
  : LocatorMap :=
  match m with
  | [] => []
  | (k, v) :: rest =>
      if (k =? segId) && bool_decide (v = locator) then rest
      else (k, v) :: eraseFirst segId locator rest
  end.

Definition SegmentLocatorChooser_markAsDown (c : SegmentLocatorChooser)
  (segId : Z) (locator : string) : SegmentLocatorChooser :=
  {| chooser_map := eraseFirst segId locator (chooser_map c);
     chooser_ids := chooser_ids c |}.

(** *** MasterServer::recoverSegment (lines 554-667) *)

(** [ObjectTombstoneMap]: the tombstones are copies on the heap that only
    the map refers to, so the map holds them by value; [free] of a
    tombstone that left the map has no effect that the model shows. *)
Abbreviation ObjectTombstoneMap := (gmap Key ObjectTombstone).

(** Modelled from the spec: class [SegmentIterator] (SegmentIterator.h is
    not under src/).  Section 4.6: the replay visits each typed record of
    the segment buffer, in order.  A buffer is the list of its entries;
    an entry that is neither an object nor a tombstone keeps only its
    type. *)
Inductive SegmentEntry :=
| EntryObj (recoverObj : Object)
| EntryTomb (recoverTomb : ObjectTombstone)
| EntryOther (type : LogEntryType).

Definition isNull {A} (p : option A) : bool :=
  match p with None => true | Some _ => false end.

(** The branch of the loop for [LOG_ENTRY_TYPE_OBJ]. *)
Definition objMinSuccessor (localObj : option Object)
  (tomb : option ObjectTombstone) : Z :=
  match localObj, tomb with
  | Some l, _ => wrap64 (obj_version l + 1)
  | None, Some t => wrap64 (objectVersion t + 1)
  | None, None => 0
  end.

Definition recoverObject (recoverObj : Object)
  (tombstoneMap : ObjectTombstoneMap) : M MasterServer ObjectTombstoneMap :=
  let objId := obj_id recoverObj in
  let tblId := obj_table recoverObj in
  let! localRef := objectMap_lookup tblId objId in
  let tomb := tombstoneMap !! (tblId, objId) in
  assert (isNull tomb || isNull localRef) ;;
  let! localObj := derefOpt localRef in
  let minSuccessor := objMinSuccessor localObj tomb in
  if minSuccessor <=? obj_version recoverObj then
    let! newObj := log_append (PObj recoverObj) (Object_size recoverObj) in
    objectMap_replace tblId objId newObj ;;
    let tombstoneMap' :=
      match tomb with
      | Some _ => delete (tblId, objId) tombstoneMap
      | None => tombstoneMap
      end in
    match localRef with
    | Some ref => log_free ref
    | None => ret tt
    end ;;
    ret tombstoneMap'
  else ret tombstoneMap.

(** The branch of the loop for [LOG_ENTRY_TYPE_OBJTOMB]. *)
Definition tombMinSuccessor (localObj : option Object)
  (tomb : option ObjectTombstone) : Z :=
  match localObj, tomb with
  | Some l, _ => obj_version l
  | None, Some t => wrap64 (objectVersion t + 1)
  | None, None => 0
  end.

Definition recoverTombstone (recoverTomb : ObjectTombstone)
  (tombstoneMap : ObjectTombstoneMap) : M MasterServer ObjectTombstoneMap :=
  let objId := objectId recoverTomb in
  let tblId := tableId recoverTomb in
  let! localRef := objectMap_lookup tblId objId in
  let tomb := tombstoneMap !! (tblId, objId) in
  assert (isNull tomb || isNull localRef) ;;
  let! localObj := derefOpt localRef in
  let minSuccessor := tombMinSuccessor localObj tomb in
  if minSuccessor <=? objectVersion recoverTomb then
    let tombstoneMap' := <[(tblId, objId) := recoverTomb]> tombstoneMap in
    match localRef with
    | Some ref => objectMap_remove tblId objId ;; log_free ref
    | None => ret tt
    end ;;
    ret tombstoneMap'
  else ret tombstoneMap.

(** One turn of the loop.  The prefetches change nothing that the model
    shows and are left out. *)
Definition recoverEntry (e : SegmentEntry) (tombstoneMap : ObjectTombstoneMap)
  : M MasterServer ObjectTombstoneMap :=
  match e with
  | EntryObj recoverObj => recoverObject recoverObj tombstoneMap
  | EntryTomb recoverTomb => recoverTombstone recoverTomb tombstoneMap
  | EntryOther _ => ret tombstoneMap
  end.

(** [buffer] is the sequence of entries that the iterator finds in the
    bytes of the segment. *)
Fixpoint recoverSegment (segId : Z) (buffer : list SegmentEntry)
  (tombstoneMap : ObjectTombstoneMap) : M MasterServer ObjectTombstoneMap :=
  match buffer with
  | [] => ret tombstoneMap
  | e :: rest =>
      let! tombstoneMap' := recoverEntry e tombstoneMap in
      recoverSegment segId rest tombstoneMap'
  end.

(** *** MasterServer::recover, the helper (lines 348-429) *)

(** Modelled from the spec: [BackupClient::GetRecoveryData] (BackupClient.h
    is not under src/).  Section 6: the call returns the bytes of a
    segment filtered to the tablets that it is given, or ends with a
    transport or client exception. *)
Inductive RpcResult :=
| RpcData (buffer : list SegmentEntry)
| RpcTransportException
| RpcClientException.

(** What lies outside the server in one run of [recover]: the permutation
    that [std::random_shuffle] applies, and the answer of the backup at a
    locator to [getRecoveryData(masterId, segmentId, tablets)]. *)
Record RecoveryEnv := mkRecoveryEnv {
  env_shuffle : list Z -> list Z;
  env_getRecoveryData : string -> Z -> Z -> list Tablet -> RpcResult;
}.

(** [struct Task], an RPC in flight. *)
Record Task := mkTask {
  task_segmentId : Z;
  task_backupLocator : string;
}.

(** The server with the locals of [recover]: the tombstone map, the array
    [tasks] (an empty [ObjectTub] is [None]), the ids from [segIdsIt] to
    [segIdsEnd], the counter [activeSegments], and the values that the
    coming calls of [rdtsc()] and of [rpc.isReady()] return (0 and [true]
    once a list is used up).  [rec_replayed] is no local of the C++
    function: it records the segment ids of the calls of [recoverSegment]
    as they happen, oldest first, which the final state of the server does
    not show. *)
Record Recovery := mkRecovery {
  rec_master : MasterServer;
  rec_tombstoneMap : ObjectTombstoneMap;
  rec_tasks : list (option Task);
  rec_segIds : list Z;
  rec_activeSegments : Z;
  rec_tscs : list Z;
  rec_ready : list bool;
  rec_replayed : list Z;
}.

Definition with_master (m : MasterServer) (tm : ObjectTombstoneMap)
  (r : Recovery) : Recovery :=
  {| rec_master := m; rec_tombstoneMap := tm; rec_tasks := rec_tasks r;
     rec_segIds := rec_segIds r; rec_activeSegments := rec_activeSegments r;
     rec_tscs := rec_tscs r; rec_ready := rec_ready r;
     rec_replayed := rec_replayed r |}.

Definition with_tasks (t : list (option Task)) (r : Recovery) : Recovery :=
  {| rec_master := rec_master r; rec_tombstoneMap := rec_tombstoneMap r;
     rec_tasks := t; rec_segIds := rec_segIds r;
     rec_activeSegments := rec_activeSegments r;
     rec_tscs := rec_tscs r; rec_ready := rec_ready r;
     rec_replayed := rec_replayed r |}.

Definition with_segIds (l : list Z) (r : Recovery) : Recovery :=
  {| rec_master := rec_master r; rec_tombstoneMap := rec_tombstoneMap r;
     rec_tasks := rec_tasks r; rec_segIds := l;
     rec_activeSegments := rec_activeSegments r;
     rec_tscs := rec_tscs r; rec_ready := rec_ready r;
     rec_replayed := rec_replayed r |}.

Definition with_activeSegments (n : Z) (r : Recovery) : Recovery :=
  {| rec_master := rec_master r; rec_tombstoneMap := rec_tombstoneMap r;
     rec_tasks := rec_tasks r; rec_segIds := rec_segIds r;
     rec_activeSegments := n;
     rec_tscs := rec_tscs r; rec_ready := rec_ready r;
     rec_replayed := rec_replayed r |}.

Definition with_oracles (t : list Z) (b : list bool) (r : Recovery)
  : Recovery :=
  {| rec_master := rec_master r; rec_tombstoneMap := rec_tombstoneMap r;
     rec_tasks := rec_tasks r; rec_segIds := rec_segIds r;
     rec_activeSegments := rec_activeSegments r;
     rec_tscs := t; rec_ready := b; rec_replayed := rec_replayed r |}.

Definition rdtsc : M Recovery Z :=
  fun r =>
    match rec_tscs r with
    | [] => (r, Ok 0)
    | x :: rest => (with_oracles rest (rec_ready r) r, Ok x)
    end.

Definition rpc_isReady : M Recovery bool :=
  fun r =>
    match rec_ready r with
    | [] => (r, Ok true)
    | b :: rest => (with_oracles (rec_tscs r) rest r, Ok b)
    end.

Definition with_replayed (l : list Z) (r : Recovery) : Recovery :=
  {| rec_master := rec_master r; rec_tombstoneMap := rec_tombstoneMap r;
     rec_tasks := rec_tasks r; rec_segIds := rec_segIds r;
     rec_activeSegments := rec_activeSegments r;
     rec_tscs := rec_tscs r; rec_ready := rec_ready r; rec_replayed := l |}.

(** A call of [recoverSegment] on the server and the tombstone map. *)
Definition callRecoverSegment (segId : Z) (buffer : list SegmentEntry)
  : M Recovery unit :=
  modify (fun r => with_replayed (rec_replayed r ++ [segId]) r) ;;
  fun r =>
    match recoverSegment segId buffer (rec_tombstoneMap r) (rec_master r) with
    | (m, Ok tm) => (with_master m tm r, Ok tt)
    | (m, Throw e) => (with_master m (rec_tombstoneMap r) r, Throw e)
    | (m, AssertFailed) => (with_master m (rec_tombstoneMap r) r, AssertFailed)
    | (m, InvalidPointer) =>
        (with_master m (rec_tombstoneMap r) r, InvalidPointer)
    | (m, OutOfFuel) => (with_master m (rec_tombstoneMap r) r, OutOfFuel)
    end.

(** [task.construct(masterId, segmentId, chooser.get(segmentId).c_str(),
    tablets)] on the slot [slot]. *)
Definition constructTask (chooser : SegmentLocatorChooser) (slot : nat)
  (segId : Z) : M Recovery unit :=
  let! tsc := rdtsc in
  let! locator := lift (SegmentLocatorChooser_get chooser segId tsc) in
  modify (fun r => with_tasks (<[slot := Some (mkTask segId locator)]>
                                 (rec_tasks r)) r).

(** The loop "Start RPCs" over the slots that remain. *)
Fixpoint startTasks (chooser : SegmentLocatorChooser) (slots : list nat)
  : M Recovery unit :=
  match slots with
  | [] => ret tt
  | slot :: rest =>
      let! r := get in
      match rec_segIds r with
      | [] => ret tt
      | segId :: segIds' =>
          modify (with_segIds segIds') ;;
          constructTask chooser slot segId ;;
          modify (fun r => with_activeSegments
                             (wrap32 (rec_activeSegments r + 1)) r) ;;
          startTasks chooser rest
      end
  end.

(** The body of the inner [foreach] of the second loop for one slot whose
    task is ready: the call [(task->rpc)()] with its two [catch] clauses,
    the replay, and the next task of the slot. *)
Definition completeTask (env : RecoveryEnv) (chooser : SegmentLocatorChooser)
  (masterId : Z) (tablets : list Tablet) (slot : nat) (task : Task)
  : M Recovery unit :=
  match env_getRecoveryData env (task_backupLocator task) masterId
          (task_segmentId task) tablets with
  | RpcTransportException => throw SegmentRecoveryFailedException
  | RpcClientException => throw SegmentRecoveryFailedException
  | RpcData buffer =>
      callRecoverSegment (task_segmentId task) buffer ;;
      modify (fun r => with_tasks (<[slot := None]> (rec_tasks r)) r) ;;
      let! r := get in
      match rec_segIds r with
      | [] =>
          modify (fun r => with_activeSegments
                             (wrap32 (rec_activeSegments r - 1)) r)
      | segId :: segIds' =>
          modify (with_segIds segIds') ;;
          constructTask chooser slot segId
      end
  end.

(** The body of the inner [foreach] of the second loop for one slot. *)
Definition pollTask (env : RecoveryEnv) (chooser : SegmentLocatorChooser)
  (masterId : Z) (tablets : list Tablet) (slot : nat) : M Recovery unit :=
  let! r := get in
  match rec_tasks r !! slot with
  | Some (Some task) =>
      let! ready := rpc_isReady in
      if negb ready then ret tt
      else completeTask env chooser masterId tablets slot task
  | _ => ret tt
  end.

Fixpoint pollTasks (env : RecoveryEnv) (chooser : SegmentLocatorChooser)
  (masterId : Z) (tablets : list Tablet) (slots : list nat)
  : M Recovery unit :=
  match slots with
  | [] => ret tt
  | slot :: rest =>
      pollTask env chooser masterId tablets slot ;;
      pollTasks env chooser masterId tablets rest
  end.

(** The loop "As RPCs complete, process them and start more"; [fuel]
    bounds the number of passes over the slots. *)
Fixpoint recoverLoop (fuel : nat) (env : RecoveryEnv)
  (chooser : SegmentLocatorChooser) (masterId : Z) (tablets : list Tablet)
  : M Recovery unit :=
  let! r := get in
  if 0 <? rec_activeSegments r then
    match fuel with
    | O => lift OutOfFuel
    | S fuel' =>
        pollTasks env chooser masterId tablets [0; 1; 2; 3]%nat ;;
        recoverLoop fuel' env chooser masterId tablets
    end
  else ret tt.

(** [srand(rdtsc())] takes a value of [rdtsc()]; what the seed does to
    the run is in [env_shuffle].  [log.sync()] waits for the backups, which
    the model does not have. *)
Definition recover (fuel : nat) (env : RecoveryEnv) (masterId : Z)
  (tablets : list Tablet) (backups : list ServerListEntry)
  : M Recovery unit :=
  rdtsc ;;
  let chooser := SegmentLocatorChooser_new (env_shuffle env) backups in
  modify (fun r =>
            with_activeSegments 0
              (with_segIds (SegmentLocatorChooser_getSegmentIdList chooser)
                 (with_tasks (replicate 4 None) r))) ;;
  startTasks chooser [0; 1; 2; 3]%nat ;;
  recoverLoop fuel env chooser masterId tablets.

(** *** MasterServer::recover, the handler of the RECOVER request
    (lines 437-495) *)

Definition takeOver (s : MasterServer) (tablet : Tablet) : Tablet :=
  {| table_id := table_id tablet; start_object_id := start_object_id tablet;
     end_object_id := end_object_id tablet;
     service_locator := localLocator s; server_id := serverId s;
     user_data := user_data tablet |}.

(** [tscs] and [ready] are the values that [rdtsc()] and [rpc.isReady()]
    return in this run.  The call [coordinator->tabletsRecovered] changes
    nothing in the server. *)
Definition recoverRpc (fuel : nat) (env : RecoveryEnv) (tscs : list Z)
  (ready : list bool) (masterId : Z) (recoveryTablets : list Tablet)
  (backups : list ServerListEntry) : M MasterServer unit :=
  fun s =>
    let r0 :=
      {| rec_master := s; rec_tombstoneMap := ∅;
         rec_tasks := replicate 4 None; rec_segIds := [];
         rec_activeSegments := 0; rec_tscs := tscs; rec_ready := ready;
         rec_replayed := [] |} in
    match recover fuel env masterId recoveryTablets backups r0 with
    | (r1, Ok _) =>
        let s1 := rec_master r1 in
        setTablets (tablets s1 ++ (takeOver s1 <$> recoveryTablets)) s1
    | (r1, Throw e) => (rec_master r1, Throw e)
    | (r1, AssertFailed) => (rec_master r1, AssertFailed)
    | (r1, InvalidPointer) => (rec_master r1, InvalidPointer)
    | (r1, OutOfFuel) => (rec_master r1, OutOfFuel)
    end.

(** *** MasterServer::dispatch and MasterServer::run (lines 182-225) *)

(** A request, with the values that the run takes from outside the server:
    [uninit] for [remove] and the fuel, the environment and the results of
    [rdtsc()] and [rpc.isReady()] for [recover]. *)
Inductive Request :=
| CreateRpc (tableId : Z) (data : string)
| PingRpc
| ReadRpc (tableId id : Z) (rejectRules : RejectRules)
| RecoverRpc (fuel : nat) (env : RecoveryEnv) (tscs : list Z)
    (ready : list bool) (masterId : Z) (recoveryTablets : list Tablet)
    (backups : list ServerListEntry)
| RemoveRpc (tableId id : Z) (rejectRules : RejectRules) (uninit : Z)
| SetTabletsRpc (newTablets : list Tablet)
| WriteRpc (tableId id : Z) (rejectRules : RejectRules) (data : string).

Inductive Response :=
| CreateResponse (id version : Z)
| PingResponse
| ReadResponse (data : string) (version : Z)
| RecoverResponse
| RemoveResponse (version : option Z)
| SetTabletsResponse
| WriteResponse (version : Z).

Definition dispatch (rpc : Request) : M MasterServer Response :=
  match rpc with
  | CreateRpc tableId data =>
      let! r := create tableId data in ret (CreateResponse r.1 r.2)
  | PingRpc => ret PingResponse
  | ReadRpc tableId id rejectRules =>
      let! r := read tableId id rejectRules in ret (ReadResponse r.1 r.2)
  | RecoverRpc fuel env tscs ready masterId recoveryTablets backups =>
      recoverRpc fuel env tscs ready masterId recoveryTablets backups ;;
      ret RecoverResponse
  | RemoveRpc tableId id rejectRules uninit =>
      let! v := remove tableId id rejectRules uninit in
      ret (RemoveResponse v)
  | SetTabletsRpc newTablets =>
      setTablets newTablets ;; ret SetTabletsResponse
  | WriteRpc tableId id rejectRules data =>
      let! v := write tableId id rejectRules data in ret (WriteResponse v)
  end.

(** [run] on the requests that arrive: an exception of a handler goes back
    to the client and the server takes the next request from the state at
    the throw; after a failed [assert], a wild pointer or a loop without
    end there is no next request ([None]). *)
Fixpoint serveAll (rpcs : list Request) (s : MasterServer)
  : option MasterServer :=
  match rpcs with
  | [] => Some s
  | rpc :: rest =>
      match dispatch rpc s with
      | (s', Ok _) => serveAll rest s'
      | (s', Throw _) => serveAll rest s'
      | _ => None
      end
  end.

(** ** The callbacks of the log cleaner (lines 860-991) *)

(** [type == LOG_ENTRY_TYPE_...] on the enumeration. *)
Definition LogEntryType_eqb (a b : LogEntryType) : bool :=
  match a, b with
  | LOG_ENTRY_TYPE_OBJ, LOG_ENTRY_TYPE_OBJ
  | LOG_ENTRY_TYPE_OBJTOMB, LOG_ENTRY_TYPE_OBJTOMB
  | LOG_ENTRY_TYPE_SEGHEADER, LOG_ENTRY_TYPE_SEGHEADER
  | LOG_ENTRY_TYPE_SEGFOOTER, LOG_ENTRY_TYPE_SEGFOOTER => true
  | _, _ => false
  end.

(** What an [ObjectTombstone*] points to. *)
Definition Log_tombstone (l : Log) (ref : nat) : option ObjectTombstone :=
  match logEntries l !! ref with
  | Some e => match payload e with PTomb t => Some t | PObj _ => None end
  | None => None
  end.

(** Reading through an [ObjectTombstone*]. *)
Definition derefTombstone (ref : nat) : M MasterServer ObjectTombstone :=
  fun s =>
    match Log_tombstone (log s) ref with
    | Some t => (s, Ok t)
    | None => (s, InvalidPointer)
    end.

Definition log_isSegmentLive (segId : Z) : M MasterServer bool :=
  fun s => (s, Ok (Log_isSegmentLive (log s) segId)).

(** [try { body } catch (TableDoesntExistException& e) { handler }]. *)
Definition catchTableDoesntExist {A} (body handler : M MasterServer A)
  : M MasterServer A :=
  fun s =>
    match body s with
    | (s', Throw TableDoesntExistException) => handler s'
    | r => r
    end.

(** [objectEvictionCallback] (lines 885-919).  [cookie] is the server, the
    state of the monad; [p] is the entry that the cleaner evicts, [None]
    for a null pointer.  [served] tells whether the [try] block returned;
    the handler of the [catch] ends the function. *)
Definition objectEvictionCallback (type : LogEntryType) (p : option nat)
  (len : Z) : M MasterServer unit :=
  assert (LogEntryType_eqb type LOG_ENTRY_TYPE_OBJ) ;;
  assert (negb (isNull p)) ;;
  match p with
  | None => ret tt
  | Some evictRef =>
      let! evictObj := deref evictRef in
      let! served :=
        catchTableDoesntExist
          (getTable (obj_table evictObj) (obj_id evictObj) ;; ret true)
          (objectMap_remove (obj_table evictObj) (obj_id evictObj) ;;
           ret false) in
      if served then
        let! hashTblObj :=
          objectMap_lookup (obj_table evictObj) (obj_id evictObj) in
        if bool_decide (hashTblObj = Some evictRef) then
          let! newObj :=
            log_append (PObj evictObj) (Object_size evictObj) in
          objectMap_replace (obj_table evictObj) (obj_id evictObj) newObj
        else ret tt
      else ret tt
  end.

(** [tombstoneEvictionCallback] (lines 971-991). *)
Definition tombstoneEvictionCallback (type : LogEntryType) (p : option nat)
  (len : Z) : M MasterServer unit :=
  assert (LogEntryType_eqb type LOG_ENTRY_TYPE_OBJTOMB) ;;
  assert (negb (isNull p)) ;;
  match p with
  | None => ret tt
  | Some ref =>
      let! tomb := derefTombstone ref in
      let! isLive := log_isSegmentLive (segmentId tomb) in
      if isLive then
        log_append (PTomb tomb) sizeof_ObjectTombstone ;; ret tt
      else ret tt
  end.

(** *** MasterServer::~MasterServer (lines 173-180) *)

(** The second loop; [delete table] is [deleteTable] of [setTablets]. *)
Fixpoint deleteTables (tables : list Z) : M MasterServer unit :=
  match tables with
  | [] => ret tt
  | table :: rest => deleteTable table ;; deleteTables rest
  end.

(** The destructor: the [std::set<Table*>] holds every address once and
    is visited in ascending order. *)
Definition MasterServer_destroy : M MasterServer unit :=
  fun s =>
    let tables : gset Z := list_to_set (user_data <$> tablets s) in
    deleteTables (merge_sort Z.le (elements tables)) s.

(** ** The server and the cleaner *)

(** Modelled from the spec: the log cleaner (Log.h and LogCleaner.h are
    not under src/).  Sections 4.7 and 5: for each entry that it evicts,
    the cleaner calls the callback registered for the type of the entry
    and waits for its return; the worker sees the callback as one step.
    The constructor of the server registers [objectEvictionCallback] for
    LOG_ENTRY_TYPE_OBJ and [tombstoneEvictionCallback] for
    LOG_ENTRY_TYPE_OBJTOMB (lines 169-170).  An action of the server is
    then a request or an eviction of the entry [p]. *)
Inductive Action :=
| Serve (rpc : Request)
| EvictObject (p : nat) (len : Z)
| EvictTombstone (p : nat) (len : Z).

Definition act (a : Action) : M MasterServer unit :=
  match a with
  | Serve rpc => dispatch rpc ;; ret tt
  | EvictObject p len =>
      objectEvictionCallback LOG_ENTRY_TYPE_OBJ (Some p) len
  | EvictTombstone p len =>
      tombstoneEvictionCallback LOG_ENTRY_TYPE_OBJTOMB (Some p) len
  end.

(** [serveAll] with evictions between the requests.  An eviction while a
    request is inside [log.append] is not in this model. *)
Fixpoint serveAndClean (acts : list Action) (s : MasterServer)
  : option MasterServer :=
  match acts with
  | [] => Some s
  | a :: rest =>
      match act a s with
      | (s', Ok _) => serveAndClean rest s'
      | (s', Throw _) => serveAndClean rest s'
      | _ => None
      end
  end.

(* ===================================================================== *)
(** * Part 2: the vocabulary of the properties                            *)
(* ===================================================================== *)

(** ** Client operations *)

Definition preconditionError (e : Exception) : bool :=
  match e with
  | TableDoesntExistException | ObjectDoesntExistException
  | ObjectExistsException | WrongVersionException => true
  | _ => false
  end.

(** The log, the object map and the history of calls on them. *)
Definition sameLogAndIndex (s s' : MasterServer) : Prop :=
  log s' = log s /\ objectMap s' = objectMap s /\ trace s' = trace s.

(** The record that [storeData] builds for version [v]. *)
Definition newObjectOf (tableId id v : Z) (data : string) : Object :=
  {| obj_id := id; obj_table := tableId; obj_version := v;
     obj_checksum := 0x0BE70BE70BE70BE7;
     obj_data_len := Z.of_nat (String.length data); obj_data := data |}.

(** ** A small server to evaluate the operations on *)

Definition noRules : RejectRules :=
  {| givenVersion := 0; doesntExist := false; rr_exists := false;
     versionLeGiven := false; versionNeGiven := false |}.

Definition demoTablet (tableId : Z) : Tablet :=
  {| table_id := tableId; start_object_id := 0; end_object_id := UINT64_MAX;
     service_locator := "mock:host=master"; server_id := 1; user_data := 0 |}.

(** A new server that was told to serve table 7. *)
Definition demoServer0 : MasterServer :=
  fst (setTablets [demoTablet 7] (MasterServer_new 1 "mock:host=master" 1000)).

(** ... on which "hello" was written under key (7, 1). *)
Definition demoServer1 : MasterServer :=
  fst (write 7 1 noRules "hello" demoServer0).

(** ... and then overwritten by "world". *)
Definition demoServer2 : MasterServer :=
  fst (write 7 1 noRules "world" demoServer1).

(** ** Segment replay *)

(** The object that the index holds for a key, read through the log. *)
Definition contents (s : MasterServer) : gmap Key Object :=
  omap (Log_object (log s)) (objectMap s).

(** Every reference of the index refers to an object of the log. *)
Definition IndexValid (s : MasterServer) : Prop :=
  forall k ref, objectMap s !! k = Some ref ->
                is_Some (Log_object (log s) ref).

(** I1: no key has both an object and a recovery tombstone. *)
Definition NotBoth (s : MasterServer) (tm : ObjectTombstoneMap) : Prop :=
  forall k, objectMap s !! k = None \/ tm !! k = None.

Definition objKey (o : Object) : Key := (obj_table o, obj_id o).
Definition tombKey (t : ObjectTombstone) : Key := (tableId t, objectId t).

(** What an applied OBJ record does: the record is appended to the log,
    the index refers to the new entry, the tombstone of the key (if any)
    leaves the tombstone map, the old object (if any) is freed. *)
Definition AppliedObj (s : MasterServer) (tm : ObjectTombstoneMap)
  (R : Object) (s' : MasterServer) (tm' : ObjectTombstoneMap) : Prop :=
  exists newRef,
    objectMap s' = <[objKey R := newRef]> (objectMap s)
    /\ Log_object (log s') newRef = Some R
    /\ (forall q o, Log_object (log s) q = Some o ->
                    Log_object (log s') q = Some o)
    /\ tm' = delete (objKey R) tm
    /\ trace s' =
       trace s ++
       [ EvLogAppend (PObj R) (Object_size R) newRef;
         EvMapReplace (objKey R) newRef ]
       ++ match objectMap s !! objKey R with
          | Some old => [EvLogFree old]
          | None => []
          end.

(** What an applied OBJTOMB record does: a copy of the record enters the
    tombstone map (in place of the tombstone of the key, if any), the
    object of the key (if any) leaves the index and is freed. *)
Definition AppliedTomb (s : MasterServer) (tm : ObjectTombstoneMap)
  (R : ObjectTombstone) (s' : MasterServer) (tm' : ObjectTombstoneMap)
  : Prop :=
  objectMap s' = delete (tombKey R) (objectMap s)
  /\ (forall q o, Log_object (log s) q = Some o ->
                  Log_object (log s') q = Some o)
  /\ tm' = <[tombKey R := R]> tm
  /\ trace s' =
     trace s ++
     match objectMap s !! tombKey R with
     | Some old => [EvMapRemove (tombKey R); EvLogFree old]
     | None => []
     end.

(** [minSuccessor] as section 4.6 of the specification writes it, with
    the sums taken on [uint64_t]. *)
Definition specObjMinSuccessor (L : option Object) (T : option ObjectTombstone)
  : Z :=
  match L with
  | Some l => wrap64 (obj_version l + 1)
  | None => match T with
            | Some t => wrap64 (objectVersion t + 1)
            | None => 0
            end
  end.

Definition specTombMinSuccessor (L : option Object)
  (T : option ObjectTombstone) : Z :=
  match L with
  | Some l => obj_version l
  | None => match T with
            | Some t => wrap64 (objectVersion t + 1)
            | None => 0
            end
  end.

(** The key of a record of a segment. *)
Definition entryKey (e : SegmentEntry) : option Key :=
  match e with
  | EntryObj R => Some (objKey R)
  | EntryTomb R => Some (tombKey R)
  | EntryOther _ => None
  end.

(** ** The merge that a replay computes on the contents of the indexes *)

(** The contents of the two indexes: key to object, key to tombstone. *)
Abbreviation Contents := (gmap Key Object * gmap Key ObjectTombstone)%type.

(** The effect of one record on the contents, as far as the check of I1
    passes. *)
Definition mergeEntry (a : Contents) (e : SegmentEntry) : Contents :=
  match e with
  | EntryObj R =>
      if objMinSuccessor (a.1 !! objKey R) (a.2 !! objKey R)
         <=? obj_version R
      then (<[objKey R := R]> a.1, delete (objKey R) a.2)
      else a
  | EntryTomb R =>
      if tombMinSuccessor (a.1 !! tombKey R) (a.2 !! tombKey R)
         <=? objectVersion R
      then (delete (tombKey R) a.1, <[tombKey R := R]> a.2)
      else a
  | EntryOther _ => a
  end.

(** The same on the slot of one key. *)
Definition mergeSlot (x : option Object * option ObjectTombstone)
  (e : SegmentEntry) : option Object * option ObjectTombstone :=
  match e with
  | EntryObj R =>
      if objMinSuccessor x.1 x.2 <=? obj_version R then (Some R, None) else x
  | EntryTomb R =>
      if tombMinSuccessor x.1 x.2 <=? objectVersion R then (None, Some R)
      else x
  | EntryOther _ => x
  end.

Definition slot (a : Contents) (k : Key)
  : option Object * option ObjectTombstone := (a.1 !! k, a.2 !! k).

(** A version below the largest [uint64_t]. *)
Definition belowMax (v : Z) : Prop := 0 <= v < UINT64_MAX.

Definition entryBelowMax (e : SegmentEntry) : Prop :=
  match e with
  | EntryObj R => belowMax (obj_version R)
  | EntryTomb R => belowMax (objectVersion R)
  | EntryOther _ => True
  end.

Definition slotGood (x : option Object * option ObjectTombstone) : Prop :=
  (x.1 = None \/ x.2 = None)
  /\ (forall o, x.1 = Some o -> belowMax (obj_version o))
  /\ (forall t, x.2 = Some t -> belowMax (objectVersion t)).

Definition ContentsGood (a : Contents) : Prop := forall k, slotGood (slot a k).

(** Two records that compete for one slot with one version: the same
    kind, the same key, the same version. *)
Definition sameGeneration (e1 e2 : SegmentEntry) : Prop :=
  match e1, e2 with
  | EntryObj R1, EntryObj R2 =>
      objKey R1 = objKey R2 /\ obj_version R1 = obj_version R2
  | EntryTomb R1, EntryTomb R2 =>
      tombKey R1 = tombKey R2 /\ objectVersion R1 = objectVersion R2
  | _, _ => False
  end.

(** Records of one generation are copies of one another. *)
Definition GenerationsAgree (l : list SegmentEntry) : Prop :=
  forall e1 e2, e1 ∈ l -> e2 ∈ l -> sameGeneration e1 e2 -> e1 = e2.

(** The replay of a stream of segments, one [recoverSegment] after the
    other, as the loop of [recover] calls it for the fetches that
    complete. *)
Fixpoint replaySegments (segments : list (Z * list SegmentEntry))
  (tm : ObjectTombstoneMap) : M MasterServer ObjectTombstoneMap :=
  match segments with
  | [] => ret tm
  | (segId, buffer) :: rest =>
      let! tm' := recoverSegment segId buffer tm in
      replaySegments rest tm'
  end.

(** The records of a stream, segment after segment. *)
Definition streamRecords (segments : list (Z * list SegmentEntry))
  : list SegmentEntry :=
  concat (snd <$> segments).

(** ** setTablets *)

Definition isU32 (z : Z) : Prop := 0 <= z < 2 ^ 32.

(** The tablets and their Tables fit together: every tablet points to a
    Table of the heap, two tablets point to the same Table exactly when
    they have the same table id, and the heap lies below the address that
    the next [new] returns. *)
Definition TablesConsistent (s : MasterServer) : Prop :=
  (forall tb, tb ∈ tablets s ->
              user_data tb <> 0 /\ is_Some (tableHeap s !! user_data tb))
  /\ (forall tb1 tb2, tb1 ∈ tablets s -> tb2 ∈ tablets s ->
                      (table_id tb1 = table_id tb2 <->
                       user_data tb1 = user_data tb2))
  /\ (forall p, is_Some (tableHeap s !! p) -> p < heapNext s)
  /\ 0 < heapNext s.

(** What one turn of the second loop does to the heap when its [delete]
    meets a Table. *)
Definition deleteStep (newTablets : list Tablet) (h : gmap Z Table)
  (oldTable : Z * Z) : gmap Z Table :=
  if stillServed newTablets (fst oldTable) then h
  else delete (snd oldTable) h.

(** The heap that the second loop of [setTablets newTablets] leaves when
    every [delete] meets a Table. *)
Definition deletedHeap (newTablets : list Tablet) (s : MasterServer)
  : gmap Z Table :=
  foldl (deleteStep newTablets) (tableHeap s)
    (Tables_entries (collectTables (tablets s))).

(** What the third loop establishes, from the state [(tables, heap, next)]
    over the tablets [ts]. *)
Definition AssignPost (tables : Tables) (heap : gmap Z Table) (next : Z)
  (ts : list Tablet) (tables' : Tables) (heap' : gmap Z Table) (next' : Z)
  (ts' : list Tablet) : Prop :=
  next <= next'
  /\ (forall q, is_Some (heap' !! q) -> q < next')
  /\ (forall k p, tables' !! k = Some p -> p < next')
  /\ (forall q, q < next -> heap' !! q = heap !! q)
  /\ (forall k p, tables !! k = Some p -> p <> 0 -> tables' !! k = Some p)
  /\ (forall k p,
         tables' !! k = Some p ->
         tables !! k = Some p
         \/ (default 0 (tables !! k) = 0 /\ next <= p
             /\ exists tb, tb ∈ ts /\ wrap32 (table_id tb) = k
                           /\ heap' !! p = Some (Table_new (table_id tb))))
  /\ (forall k1 k2 p, next <= p -> tables' !! k1 = Some p ->
                      tables' !! k2 = Some p -> k1 = k2)
  /\ Forall2 (fun tb tb' =>
                exists p, tables' !! wrap32 (table_id tb) = Some p
                          /\ p <> 0 /\ tb' = set_user_data p tb) ts ts'.

(** ** Versions over a run of requests *)

(** The requests of clients: create, ping, read, remove, write. *)
Definition clientRequest (rpc : Request) : Prop :=
  match rpc with
  | CreateRpc _ _ | PingRpc | ReadRpc _ _ _ | RemoveRpc _ _ _ _
  | WriteRpc _ _ _ _ => True
  | RecoverRpc _ _ _ _ _ _ _ | SetTabletsRpc _ => False
  end.

(** The [Table*] that [getTable] finds for a key. *)
Definition tableOf (s : MasterServer) (key : Key) : option Z :=
  user_data <$> find (tabletHolds (wrap32 key.1) key.2) (tablets s).

(** The version [v'] is covered in the state [s]: the object of the key
    has at least this version or, when the key has no object, the floor of
    its Table lies above it. *)
Definition Below (s : MasterServer) (key : Key) (v' : Z) : Prop :=
  match objectMap s !! key with
  | Some ref =>
      exists cur, Log_object (log s) ref = Some cur /\ v' <= obj_version cur
  | None =>
      forall p tbl, tableOf s key = Some p -> tableHeap s !! p = Some tbl ->
                    v' < nextVersion tbl
  end.

(** The versions of the state stay within [n]: the objects of the index
    have versions from 0 to [n], the floors of the Tables are at most
    [n + 1]. *)
Definition VersionsWithin (n : Z) (s : MasterServer) : Prop :=
  IndexValid s
  /\ (forall key o, contents s !! key = Some o -> 0 <= obj_version o <= n)
  /\ (forall p tbl, tableHeap s !! p = Some tbl ->
                    0 <= nextVersion tbl <= n + 1).

(** What a request keeps, from a state within [n]. *)
Definition StepFacts (n : Z) (s s' : MasterServer) : Prop :=
  VersionsWithin (n + 1) s'
  /\ tablets s' = tablets s
  /\ (forall key v', Below s key v' -> Below s' key v').




(** What a request of a client leaves alone: the tablets, the addresses
    of the heap that hold a Table and the address of the next [new]. *)
Definition sameShape (s s' : MasterServer) : Prop :=
  tablets s' = tablets s /\ heapNext s' = heapNext s
  /\ (forall p, is_Some (tableHeap s' !! p) <-> is_Some (tableHeap s !! p)).



(** ** Checks that evaluate *)

Definition isSome {A} (o : option A) : bool := negb (isNull o).

Definition indexValidb (s : MasterServer) : bool :=
  forallb (fun kr => isSome (Log_object (log s) kr.2))
    (map_to_list (objectMap s)).

Definition notBothb (s : MasterServer) (tm : ObjectTombstoneMap) : bool :=
  forallb (fun kr => isNull (tm !! kr.1)) (map_to_list (objectMap s)).

Definition belowMaxb (v : Z) : bool := (0 <=? v) && (v <? UINT64_MAX).

Definition contentsGoodb (a : Contents) : bool :=
  forallb (fun ko => belowMaxb (obj_version ko.2) && isNull (a.2 !! ko.1))
    (map_to_list a.1)
  && forallb (fun kt => belowMaxb (objectVersion kt.2)) (map_to_list a.2).

Definition entryBelowMaxb (e : SegmentEntry) : bool :=
  match e with
  | EntryObj R => belowMaxb (obj_version R)
  | EntryTomb R => belowMaxb (objectVersion R)
  | EntryOther _ => true
  end.

#[global] Instance Object_eq_dec : EqDecision Object.
Proof. solve_decision. Defined.
#[global] Instance ObjectTombstone_eq_dec : EqDecision ObjectTombstone.
Proof. solve_decision. Defined.
#[global] Instance LogEntryType_eq_dec : EqDecision LogEntryType.
Proof. solve_decision. Defined.
#[global] Instance SegmentEntry_eq_dec : EqDecision SegmentEntry.
Proof. solve_decision. Defined.

Definition sameGenerationb (e1 e2 : SegmentEntry) : bool :=
  match e1, e2 with
  | EntryObj R1, EntryObj R2 =>
      bool_decide (objKey R1 = objKey R2)
      && (obj_version R1 =? obj_version R2)
  | EntryTomb R1, EntryTomb R2 =>
      bool_decide (tombKey R1 = tombKey R2)
      && (objectVersion R1 =? objectVersion R2)
  | _, _ => false
  end.

Definition generationsAgreeb (l : list SegmentEntry) : bool :=
  forallb (fun e1 =>
             forallb (fun e2 =>
                        implb (sameGenerationb e1 e2) (bool_decide (e1 = e2)))
                     l) l.

Definition tablesConsistentb (s : MasterServer) : bool :=
  forallb (fun tb => negb (user_data tb =? 0)
                     && isSome (tableHeap s !! user_data tb)) (tablets s)
  && forallb (fun tb1 =>
                forallb (fun tb2 =>
                           Bool.eqb (table_id tb1 =? table_id tb2)
                             (user_data tb1 =? user_data tb2))
                        (tablets s)) (tablets s)
  && forallb (fun pt => pt.1 <? heapNext s) (map_to_list (tableHeap s))
  && (0 <? heapNext s).

Definition isU32b (z : Z) : bool := (0 <=? z) && (z <? 2 ^ 32).

(** ** Inputs of the concrete runs *)

(** A recovery tombstone of the largest version for key (7, 2), and an
    object of the same key and version. *)
Definition maxTombstone : ObjectTombstone :=
  {| segmentId := 3; tableId := 7; objectId := 2;
     objectVersion := UINT64_MAX |}.

Definition maxObject : Object := newObjectOf 7 2 UINT64_MAX "again".

(** Scenario 5 of section 8: segment A has OBJ{k, v=5}, segment B has
    OBJTOMB{k, v=7}. *)
Definition segmentA : Z * list SegmentEntry :=
  (1, [EntryObj (newObjectOf 7 2 5 "five")]).
Definition segmentB : Z * list SegmentEntry :=
  (2, [EntryTomb {| segmentId := 1; tableId := 7; objectId := 2;
                    objectVersion := 7 |}]).

Definition backup1 : string := "mock:host=backup1".
Definition backup2 : string := "mock:host=backup2".

(** Two backups hold segment 42. *)
Definition demoBackups : list ServerListEntry :=
  [ mkServerListEntry true 42 BACKUP backup1;
    mkServerListEntry true 42 BACKUP backup2 ].

(** The first backup cannot be reached, the second answers. *)
Definition demoEnv : RecoveryEnv :=
  {| env_shuffle := fun l => l;
     env_getRecoveryData := fun locator masterId segId tablets =>
       if bool_decide (locator = backup1) then RpcTransportException
       else RpcData [EntryObj (newObjectOf 8 1 5 "saved")] |}.

(** Two backups, one with segment 1 and one with segment 2, that answer
    every fetch: segment 1 holds the records of [segmentA] and segment 2
    those of [segmentB]. *)
Definition answeringBackups : list ServerListEntry :=
  [ mkServerListEntry true 1 BACKUP backup1;
    mkServerListEntry true 2 BACKUP backup2;
    mkServerListEntry false 0 MASTER "mock:host=master" ].

Definition answeringData (segId : Z) : list SegmentEntry :=
  if segId =? fst segmentA then snd segmentA
  else if segId =? fst segmentB then snd segmentB
  else [].

Definition answeringEnv : RecoveryEnv :=
  {| env_shuffle := fun l => l;
     env_getRecoveryData := fun locator masterId segId tablets =>
       RpcData (answeringData segId) |}.

(** The locals of [recover] on [demoServer0]; the first fetch is not ready
    when it is polled first. *)
Definition demoRecovery : Recovery :=
  {| rec_master := demoServer0; rec_tombstoneMap := ∅;
     rec_tasks := replicate 4 None; rec_segIds := [];
     rec_activeSegments := 0; rec_tscs := [3; 5; 8]; rec_ready := [false];
     rec_replayed := [] |}.

(** ** The loop of recover *)

(** The task of a slot, if the slot holds one. *)
Definition taskAt (r : Recovery) (slot : nat) : option Task :=
  match rec_tasks r !! slot with
  | Some (Some task) => Some task
  | _ => None
  end.

(** The segment ids of the tasks in flight. *)
Definition inFlight (r : Recovery) : list Z :=
  task_segmentId <$> omap id (rec_tasks r).

(** What bounds the passes that are left: the answers "not ready" to
    come, the ids to fetch and the tasks in flight. *)
Definition recoverMeasure (r : Recovery) : nat :=
  (length (rec_ready r) + length (rec_segIds r) + length (inFlight r))%nat.

(** Every id of the schedule has a locator. *)
Definition ChooserCovers (chooser : SegmentLocatorChooser) : Prop :=
  forall segId, segId ∈ chooser_ids chooser ->
                equal_range (chooser_map chooser) segId <> [].

(** The state of the loop after the segments [done] were replayed, in
    this order, from the contents [a0] and after the calls [pre] of
    [recoverSegment]; [data] gives the records of a segment. *)
Definition RecoverInv (chooser : SegmentLocatorChooser)
  (data : Z -> list SegmentEntry) (a0 : Contents) (pre : list Z)
  (r : Recovery) (done : list Z) : Prop :=
  length (rec_tasks r) = 4%nat
  /\ rec_activeSegments r = Z.of_nat (length (inFlight r))
  /\ (rec_segIds r <> [] -> Forall is_Some (rec_tasks r))
  /\ done ++ inFlight r ++ rec_segIds r ≡ₚ chooser_ids chooser
  /\ IndexValid (rec_master r)
  /\ NotBoth (rec_master r) (rec_tombstoneMap r)
  /\ (contents (rec_master r), rec_tombstoneMap r)
     = foldl mergeEntry a0 (concat (data <$> done))
  /\ rec_replayed r = pre ++ done.

(** ** The chooser of backups *)

(** An entry of the list that the constructor of the chooser keeps: it
    has a segment id and it is a backup. *)
Definition usableBackup (e : ServerListEntry) : Prop :=
  has_segment_id e = true /\ server_type e = BACKUP.

(** The entry offers the locator for the segment. *)
Definition offers (e : ServerListEntry) (segId : Z) (locator : string)
  : Prop :=
  usableBackup e /\ segment_id e = segId /\ entry_service_locator e = locator.

(** The keys of a multimap in ascending order. *)
Definition keysSorted (m : LocatorMap) : Prop :=
  StronglySorted Z.le (fst <$> m).

(** ** The callbacks of the log cleaner *)

(** Every reference of the index is filed under the key of the object it
    refers to. *)
Definition IndexKeyed (s : MasterServer) : Prop :=
  forall k ref o, objectMap s !! k = Some ref ->
                  Log_object (log s) ref = Some o -> objKey o = k.

Definition indexKeyedb (s : MasterServer) : bool :=
  forallb (fun kr => match Log_object (log s) kr.2 with
                     | Some o => bool_decide (objKey o = kr.1)
                     | None => true
                     end)
    (map_to_list (objectMap s)).

(** ** What a replay leaves in the indexes *)

(** The indexes hold, for the key of the record, something at least as
    new as the record: an object of at least its version or a tombstone
    of at least its version (for a tombstone record: an object of a later
    version or a tombstone of at least its version). *)
Definition supersedes (x : option Object * option ObjectTombstone)
  (e : SegmentEntry) : Prop :=
  match e with
  | EntryObj R =>
      (exists o, x.1 = Some o /\ obj_version R <= obj_version o)
      \/ (exists t, x.2 = Some t /\ obj_version R <= objectVersion t)
  | EntryTomb R =>
      (exists o, x.1 = Some o /\ objectVersion R < obj_version o)
      \/ (exists t, x.2 = Some t /\ objectVersion R <= objectVersion t)
  | EntryOther _ => True
  end.

(** The order in which the replay ranks what competes for a key: by
    version, and at one version the tombstone above the object. *)
Definition entryRank (e : SegmentEntry) : Z :=
  match e with
  | EntryObj R => 2 * obj_version R
  | EntryTomb R => 2 * objectVersion R + 1
  | EntryOther _ => -1
  end.

Definition slotRank (x : option Object * option ObjectTombstone) : Z :=
  match x with
  | (Some o, _) => 2 * obj_version o
  | (None, Some t) => 2 * objectVersion t + 1
  | (None, None) => -1
  end.

(** ** Recovery and the tablets *)

(** What a replay leaves alone in the server: the tablets, the Tables,
    the identity of the server and [bytesWritten]. *)
Definition keepsTables (s s' : MasterServer) : Prop :=
  tablets s' = tablets s /\ tableHeap s' = tableHeap s
  /\ heapNext s' = heapNext s /\ serverId s' = serverId s
  /\ localLocator s' = localLocator s /\ bytesWritten s' = bytesWritten s.

(** Every run of the computation, however it ends, relates the state
    before to the state after. *)
Definition preserves {S A} (R : S -> S -> Prop) (m : M S A) : Prop :=
  forall s s' o, m s = (s', o) -> R s s'.

Definition recoveryKeepsTables (r r' : Recovery) : Prop :=
  keepsTables (rec_master r) (rec_master r').

(** ** A server that keeps serving *)

(** The call returns or throws: no [assert] fails, no pointer is wild, no
    loop runs out of fuel. *)
Definition returnsOrThrows {S A} (m : M S A) (s : S) : Prop :=
  exists s' res,
    m s = (s', res) /\ ((exists a, res = Ok a) \/ (exists e, res = Throw e)).

(** Every tablet points to a Table of the heap, and the key counters are
    [uint64_t] values. *)
Definition TablesReady (s : MasterServer) : Prop :=
  (forall tb, tb ∈ tablets s -> is_Some (tableHeap s !! user_data tb))
  /\ (forall p tbl, tableHeap s !! p = Some tbl -> 0 <= nextKey tbl < 2 ^ 64).

(** The state of a server that took at most [n] requests of clients since
    it was new. *)
Definition Serving (n : Z) (s : MasterServer) : Prop :=
  VersionsWithin n s /\ IndexKeyed s /\ TablesReady s
  /\ Z.of_nat (size (objectMap s)) <= n.

(** ** The Tables of the heap *)

(** Every Table of the heap is the Table of some tablet. *)
Definition NoOrphans (s : MasterServer) : Prop :=
  forall p, is_Some (tableHeap s !! p) ->
            exists tb, tb ∈ tablets s /\ user_data tb = p.

Definition noOrphansb (s : MasterServer) : bool :=
  forallb (fun pt => existsb (fun tb => user_data tb =? pt.1) (tablets s))
    (map_to_list (tableHeap s)).

(** Backups that hold one object of table 8 in segment 1 and nothing in
    the other segments. *)
Definition savedData (segId : Z) : list SegmentEntry :=
  if segId =? 1 then [EntryObj (newObjectOf 8 3 5 "saved")] else [].

Definition savedEnv : RecoveryEnv :=
  {| env_shuffle := fun l => l;
     env_getRecoveryData := fun locator masterId segId tablets =>
       RpcData (savedData segId) |}.



(** ** The log as a journal *)

Definition payloadEntry (p : LogPayload) : SegmentEntry :=
  match p with
  | PObj o => EntryObj o
  | PTomb t => EntryTomb t
  end.

(** The records of the log, dead or live, in the order of the appends. *)
Definition logRecords (l : Log) : list SegmentEntry :=
  (fun e => payloadEntry (payload e)) <$> logEntries l.

Definition entryVersion (e : SegmentEntry) : Z :=
  match e with
  | EntryObj R => obj_version R
  | EntryTomb R => objectVersion R
  | EntryOther _ => 0
  end.

(** What a record leaves in the slot of its key when it is applied. *)
Definition slotOf (e : SegmentEntry) : option Object * option ObjectTombstone :=
  match e with
  | EntryObj R => (Some R, None)
  | EntryTomb R => (None, Some R)
  | EntryOther _ => (None, None)
  end.

(** The records tell the contents [c]: the object of a key is a record
    and ranks above every other record of the key; a key without object
    has, for each of its records, a tombstone record that is not below
    it. *)
Definition Tells (l : list SegmentEntry) (c : gmap Key Object) : Prop :=
  (forall k o, c !! k = Some o ->
     EntryObj o ∈ l /\ objKey o = k
     /\ forall e, e ∈ l -> entryKey e = Some k ->
                  entryRank e < entryRank (EntryObj o) \/ e = EntryObj o)
  /\ (forall k e, c !! k = None -> e ∈ l -> entryKey e = Some k ->
        exists t, EntryTomb t ∈ l /\ tombKey t = k
                  /\ entryRank e <= entryRank (EntryTomb t)).

(** The log of a server that took at most [n] requests is a journal of
    its index: the versions of its records are covered by the state and
    are at most [n], and the records tell the contents of the index. *)
Definition Journal (n : Z) (s : MasterServer) : Prop :=
  (forall e k, e ∈ logRecords (log s) -> entryKey e = Some k ->
               0 <= entryVersion e <= n /\ Below s k (entryVersion e))
  /\ Tells (logRecords (log s)) (contents s).

(** [demoServer2] after its object was removed and another was created. *)
Definition demoServer3 : MasterServer :=
  fst (create 7 "more" (fst (remove 7 1 noRules 0 demoServer2))).

(** ** The calls on the log *)

(** The references that [log.free] was called with, oldest first. *)
Definition freedRefs (tr : list Event) : list nat :=
  omap (fun ev => match ev with EvLogFree ref => Some ref | _ => None end) tr.

(** The object entries that [log.append] returned, with their objects. *)
Definition appendedObjects (tr : list Event) : list (nat * Object) :=
  omap (fun ev => match ev with
                  | EvLogAppend (PObj o) _ ref => Some (ref, o)
                  | _ => None
                  end) tr.

(** The calls of [log.free] so far: no entry was freed twice, no entry
    that the index refers to was freed, and what was freed or is in the
    index is an object entry that was appended. *)
Definition FreedOnce (s : MasterServer) : Prop :=
  NoDup (freedRefs (trace s))
  /\ (forall k ref, objectMap s !! k = Some ref ->
                    ref ∉ freedRefs (trace s))
  /\ (forall ref, ref ∈ freedRefs (trace s) ->
                  exists o, (ref, o) ∈ appendedObjects (trace s))
  /\ (forall k ref, objectMap s !! k = Some ref ->
                    exists o, (ref, o) ∈ appendedObjects (trace s)
                              /\ Log_object (log s) ref = Some o).

(** The entries of the log that the calls so far can name. *)
Definition refsBelow (s : MasterServer) : Prop :=
  forall ref o, (ref, o) ∈ appendedObjects (trace s) ->
                (ref < length (logEntries (log s)))%nat.

(** A request of a client, or an eviction. *)
Definition clientAction (a : Action) : Prop :=
  match a with
  | Serve rpc => clientRequest rpc
  | EvictObject _ _ | EvictTombstone _ _ => True
  end.

(** [demoServer2] after the cleaner evicted the entry of "world", the key
    was removed and another object was created. *)
Definition demoActions : list Action :=
  [ Serve (WriteRpc 7 1 noRules "hello"); Serve (WriteRpc 7 1 noRules "world");
    EvictObject 2 41; EvictTombstone 1 32;
    Serve (RemoveRpc 7 1 noRules 0); Serve (CreateRpc 7 "more") ].

(* ===================================================================== *)
(** * Part 3: properties                                                  *)
(* ===================================================================== *)


(** ** RejectRules *)

(** C2: for every RejectRules value and every current version,
    [rejectOperation] decides by first match over the rows of the table of
    section 4.3, in their order, and accepts when no row matches; it is a
    function of (rules, currentVersion) alone. *)
Theorem rejectOperation_first_match (rules : RejectRules) (currentVersion : Z) :
  decisionOf (rejectOperation rules currentVersion)
  = Some (firstMatch (rejectRules_table rules currentVersion)).
Proof.
  unfold rejectOperation, rejectRules_table; cbn [firstMatch].
  destruct (currentVersion =? VERSION_NONEXISTENT); cbn [andb].
  - destruct (doesntExist rules); reflexivity.
  - destruct (rr_exists rules); [reflexivity|].
    destruct (versionLeGiven rules && (currentVersion <=? givenVersion rules));
      [reflexivity|].
    destruct (versionNeGiven rules
              && negb (currentVersion =? givenVersion rules)); reflexivity.
Qed.

(** ** Reasoning about computations in [M] *)

Lemma bind_Ok {S A B} (m : M S A) (f : A -> M S B) s s' b :
  bind m f s = (s', Ok b) <->
  exists s1 a, m s = (s1, Ok a) /\ f a s1 = (s', Ok b).
Proof.
  unfold bind. split.
  - destruct (m s) as [s1 [a|e| | |]]; intros H; try discriminate.
    exists s1, a. auto.
  - intros (s1 & a & -> & H). exact H.
Qed.

Lemma bind_Throw {S A B} (m : M S A) (f : A -> M S B) s s' e :
  bind m f s = (s', Throw e) <->
  m s = (s', Throw e) \/
  exists s1 a, m s = (s1, Ok a) /\ f a s1 = (s', Throw e).
Proof.
  unfold bind. split.
  - destruct (m s) as [s1 [a|e1| | |]]; intros H; try discriminate.
    + right. exists s1, a. auto.
    + left. congruence.
  - intros [-> | (s1 & a & -> & H)]; [reflexivity | exact H].
Qed.

(** One step of a computation whose first call is known. *)
Lemma bind_step {S A B} (m : M S A) (f : A -> M S B) s s1 a :
  m s = (s1, Ok a) -> bind m f s = f a s1.
Proof. unfold bind. intros ->. reflexivity. Qed.

(** A relation between the state before and the state after, through
    the calls of a computation. *)
Lemma preserves_bind {S A B} (R : S -> S -> Prop) `{!PreOrder R}
  (m : M S A) (f : A -> M S B) :
  preserves R m -> (forall a, preserves R (f a)) -> preserves R (bind m f).
Proof.
  intros Hm Hf s s' o H. unfold bind in H.
  destruct (m s) as [s1 [a|e| | |]] eqn:Hms; try (injection H as <- <-);
    try (eapply Hm; exact Hms).
  etransitivity; [eapply Hm; exact Hms | eapply Hf; exact H].
Qed.

Lemma preserves_pure {S A} (R : S -> S -> Prop) `{!PreOrder R} (o : Outcome A) :
  preserves R (lift o).
Proof. intros s s' o' H. unfold lift in H. injection H as <- <-. reflexivity. Qed.

Lemma preserves_ret {S A} (R : S -> S -> Prop) `{!PreOrder R} (a : A) :
  preserves R (ret a).
Proof. apply (preserves_pure R (Ok a)). Qed.

Lemma preserves_assert {S} (R : S -> S -> Prop) `{!PreOrder R} b :
  preserves R (assert b).
Proof.
  intros s s' o H. unfold assert in H.
  destruct b; injection H as <- <-; reflexivity.
Qed.

Lemma preserves_get {S} (R : S -> S -> Prop) `{!PreOrder R} :
  preserves R (@get S).
Proof. intros s s' o H. unfold get in H. injection H as <- <-. reflexivity. Qed.

Lemma preserves_modify {S} (R : S -> S -> Prop) (f : S -> S) :
  (forall s, R s (f s)) -> preserves R (modify f).
Proof. intros Hf s s' o H. unfold modify in H. injection H as <- <-. apply Hf. Qed.

(** ** The log *)

Lemma Log_append_entries l p len :
  logEntries (fst (Log_append l p len))
  = logEntries l
    ++ [mkLogEntry p (headSegment (fst (Log_append l p len))) len true].
Proof. unfold Log_append. cbn. reflexivity. Qed.

Lemma Log_append_ref l p len : snd (Log_append l p len) = length (logEntries l).
Proof. reflexivity. Qed.

Lemma Log_object_append_new l o len :
  Log_object (fst (Log_append l (PObj o) len)) (snd (Log_append l (PObj o) len))
  = Some o.
Proof.
  unfold Log_object. rewrite Log_append_entries, Log_append_ref.
  rewrite lookup_app_r, Nat.sub_diag by lia. reflexivity.
Qed.

Lemma Log_object_append_old l p len ref o :
  Log_object l ref = Some o ->
  Log_object (fst (Log_append l p len)) ref = Some o.
Proof.
  unfold Log_object. rewrite Log_append_entries.
  destruct (logEntries l !! ref) as [e|] eqn:He; [|discriminate].
  rewrite lookup_app_l by (eapply lookup_lt_Some; eassumption).
  rewrite He. auto.
Qed.

Lemma Log_object_free l ref ref' : Log_object (Log_free l ref) ref' = Log_object l ref'.
Proof.
  unfold Log_object, Log_free. cbn.
  destruct (decide (ref = ref')) as [->|Hne].
  - rewrite list_lookup_alter_eq. destruct (logEntries l !! ref'); reflexivity.
  - rewrite list_lookup_alter_ne by done. reflexivity.
Qed.

Lemma Log_getSegmentId_free l ref ref' :
  Log_getSegmentId (Log_free l ref) ref' = Log_getSegmentId l ref'.
Proof.
  unfold Log_getSegmentId, Log_free. cbn.
  destruct (decide (ref = ref')) as [->|Hne].
  - rewrite list_lookup_alter_eq. destruct (logEntries l !! ref'); reflexivity.
  - rewrite list_lookup_alter_ne by done. reflexivity.
Qed.

Lemma Log_free_length l ref :
  length (logEntries (Log_free l ref)) = length (logEntries l).
Proof. unfold Log_free. cbn. apply length_alter. Qed.

#[global] Arguments Log_append : simpl never.
#[global] Arguments Log_free : simpl never.
#[global] Arguments Log_object : simpl never.
#[global] Arguments Log_getSegmentId : simpl never.
#[global] Opaque Log_append Log_free Log_object Log_getSegmentId.

(** ** Client operations *)

Ltac run_M :=
  unfold bind, ret, throw, lift, assert, modify, getTable, objectMap_lookup,
    derefOpt, deref, log_getSegmentId, withTable in *.

Lemma storeData_Throw tableId id rules data s s' e :
  storeData tableId id rules data s = (s', Throw e) -> s' = s.
Proof.
  unfold storeData, Table_AllocateVersion, log_free, log_append,
    objectMap_replace. run_M.
  intros H.
  repeat first [progress run_M | progress simplify_eq/= | case_match];
    reflexivity.
Qed.

Ltac run_ops :=
  unfold storeData, read, remove, Table_AllocateVersion, Table_RaiseVersion,
    log_free, log_append, objectMap_replace, objectMap_remove in *.

Ltac crush_M :=
  repeat first [progress run_M | progress simplify_eq/= | case_match].

Lemma read_Throw tableId id rules s s' e :
  read tableId id rules s = (s', Throw e) -> s' = s.
Proof. run_ops. intros H. crush_M; reflexivity. Qed.

Lemma remove_Throw tableId id rules uninit s s' e :
  remove tableId id rules uninit s = (s', Throw e) -> s' = s.
Proof. run_ops. intros H. crush_M; reflexivity. Qed.

Lemma create_Throw tableId data s s' e :
  create tableId data s = (s', Throw e) -> sameLogAndIndex s s'.
Proof.
  unfold create. intros H.
  apply bind_Throw in H as [H | (s1 & t & Ht & H)].
  { run_M. crush_M. done. }
  assert (s1 = s) as -> by (run_M; crush_M; done).
  apply bind_Throw in H as [H | (s2 & key & Hk & H)].
  { unfold Table_AllocateKey in H. crush_M. }
  assert (sameLogAndIndex s s2) as Hs2.
  { unfold Table_AllocateKey in Hk. crush_M. done. }
  apply bind_Throw in H as [H | (s3 & v & Hv & H)].
  - apply storeData_Throw in H as ->. exact Hs2.
  - discriminate H.
Qed.

(** C8: a read, write, create or remove that fails with a precondition
    error (TableDoesntExist, ObjectDoesntExist, ObjectExists, WrongVersion)
    leaves the log and the object index as they were: nothing was appended
    and nothing freed, and no entry of the index was changed. *)
Theorem precondition_failure_is_atomic (s s' : MasterServer) (e : Exception) :
  preconditionError e = true ->
  (forall tableId id rules,
      read tableId id rules s = (s', Throw e) -> sameLogAndIndex s s')
  /\ (forall tableId id rules data,
      write tableId id rules data s = (s', Throw e) -> sameLogAndIndex s s')
  /\ (forall tableId data,
      create tableId data s = (s', Throw e) -> sameLogAndIndex s s')
  /\ (forall tableId id rules uninit,
      remove tableId id rules uninit s = (s', Throw e) ->
      sameLogAndIndex s s').
Proof.
  intros _. repeat split; intros.
  all: try (apply create_Throw in H; apply H).
  all: first [ apply read_Throw in H | apply storeData_Throw in H
             | apply remove_Throw in H ]; subst; reflexivity.
Qed.

(** The exceptions that the four operations throw are precondition
    errors. *)
Lemma client_operations_throw_precondition_errors s s' e :
  (forall tableId id rules,
      read tableId id rules s = (s', Throw e) -> preconditionError e = true)
  /\ (forall tableId id rules data,
      write tableId id rules data s = (s', Throw e) ->
      preconditionError e = true)
  /\ (forall tableId id rules uninit,
      remove tableId id rules uninit s = (s', Throw e) ->
      preconditionError e = true).
Proof.
  repeat split; intros *; unfold write; run_ops; unfold rejectOperation;
    intros H; crush_M; reflexivity.
Qed.

#[global] Arguments allocatedVersion : simpl never.
#[global] Arguments raisedVersion : simpl never.

(** What an accepted [storeData] did, read off its code. *)
Lemma storeData_Ok tableId id rules data s s' v :
  storeData tableId id rules data s = (s', Ok v) ->
  let newObject := newObjectOf tableId id v data in
  exists t objRef,
    getTable tableId id s = (s, Ok t)
    /\ Log_object (log s') objRef = Some newObject
    /\ objectMap s' = <[(tableId, id) := objRef]> (objectMap s)
    /\ tablets s' = tablets s
    /\ (forall r o, Log_object (log s) r = Some o ->
                    Log_object (log s') r = Some o)
    /\ match objectMap s !! (tableId, id) with
       | Some ref =>
           exists prev segId tombRef,
             Log_object (log s) ref = Some prev
             /\ rejectOperation rules (obj_version prev) = Ok tt
             /\ obj_version prev < v
             /\ v = wrap64 (obj_version prev + 1)
             /\ Log_getSegmentId (log s) ref = Some segId
             /\ tableHeap s' = tableHeap s
             /\ trace s' =
                trace s ++
                [ EvLogFree ref;
                  EvLogAppend (PTomb (ObjectTombstone_new segId prev))
                    sizeof_ObjectTombstone tombRef;
                  EvLogAppend (PObj newObject) (Object_size newObject) objRef;
                  EvMapReplace (tableId, id) objRef ]
       | None =>
           exists tbl,
             tableHeap s !! t = Some tbl
             /\ rejectOperation rules VERSION_NONEXISTENT = Ok tt
             /\ v = nextVersion tbl
             /\ tableHeap s' = <[t := allocatedVersion tbl]> (tableHeap s)
             /\ trace s' =
                trace s ++
                [ EvLogAppend (PObj newObject) (Object_size newObject) objRef;
                  EvMapReplace (tableId, id) objRef ]
       end.
Proof.
  intros H newObject. subst newObject. run_ops. crush_M.
  - (* an object is overwritten *)
    rewrite Log_object_append_new in H. simplify_eq/=.
    rewrite Log_getSegmentId_free in *.
    match goal with Hs : Log_getSegmentId _ _ = Some ?a |- _ =>
      rename a into segId end.
    eexists _, _. split_and!; try reflexivity.
    + apply Log_object_append_new.
    + intros r o' Hr. do 2 apply Log_object_append_old.
      rewrite Log_object_free. exact Hr.
    + match goal with Hu : () |- _ => destruct Hu end.
      eexists _, segId, _. split_and!; try eassumption; try reflexivity.
      * apply Z.ltb_lt. assumption.
      * rewrite <- !app_assoc. reflexivity.
  - (* the key is new *)
    rewrite Log_object_append_new in H. simplify_eq/=.
    eexists _, _. split_and!; try reflexivity.
    + apply Log_object_append_new.
    + intros r o' Hr. apply Log_object_append_old. exact Hr.
    + match goal with Hu : () |- _ => destruct Hu end.
      eexists. split_and!; try eassumption; try reflexivity.
      rewrite <- !app_assoc. reflexivity.
Qed.

(** C3: an accepted write that overwrites an object [prev] of the index
    makes exactly these calls, in this order: Log.free(prev), Log.append of
    a tombstone that carries the id of the segment of [prev], Log.append of
    the new object, and replace on the index with the reference that this
    last append returned.  The free comes before both appends. *)
Theorem storeData_overwrite_call_order
  (s s' : MasterServer) (tableId id : Z) (rules : RejectRules) (data : string)
  (ref : nat) (prev : Object) (v : Z) :
  objectMap s !! (tableId, id) = Some ref ->
  Log_object (log s) ref = Some prev ->
  storeData tableId id rules data s = (s', Ok v) ->
  exists segId tombRef objRef,
    Log_getSegmentId (log s) ref = Some segId
    /\ objectMap s' !! (tableId, id) = Some objRef
    /\ trace s' =
       trace s ++
       [ EvLogFree ref;
         EvLogAppend (PTomb (ObjectTombstone_new segId prev))
           sizeof_ObjectTombstone tombRef;
         EvLogAppend (PObj (newObjectOf tableId id v data))
           (Object_size (newObjectOf tableId id v data)) objRef;
         EvMapReplace (tableId, id) objRef ].
Proof.
  intros Hm Ho H.
  apply storeData_Ok in H as (t & objRef & _ & _ & Hmap & _ & _ & H).
  rewrite Hm in H. destruct H as (prev' & segId & tombRef & Hp & H).
  assert (prev' = prev) as -> by congruence.
  destruct H as (_ & _ & _ & Hseg & _ & Htrace).
  exists segId, tombRef, objRef. split_and!; try assumption.
  rewrite Hmap. apply lookup_insert_eq.
Qed.

(** What an accepted [remove] did, read off its code. *)
Lemma remove_Ok tableId id rules uninit s s' r :
  remove tableId id rules uninit s = (s', Ok r) ->
  exists t,
    getTable tableId id s = (s, Ok t)
    /\ tablets s' = tablets s
    /\ (forall q o, Log_object (log s) q = Some o ->
                    Log_object (log s') q = Some o)
    /\ match objectMap s !! (tableId, id) with
       | None =>
           r = None /\ s' = s
           /\ rejectOperation rules VERSION_NONEXISTENT = Ok tt
       | Some ref =>
           exists prev tbl tombRef,
             Log_object (log s) ref = Some prev
             /\ rejectOperation rules (obj_version prev) = Ok tt
             /\ r = Some (obj_version prev)
             /\ tableHeap s !! t = Some tbl
             /\ tableHeap s' =
                <[t := raisedVersion (wrap64 (obj_version prev + 1)) tbl]>
                  (tableHeap s)
             /\ objectMap s' = delete (tableId, id) (objectMap s)
             /\ trace s' =
                trace s ++
                [ EvLogFree ref;
                  EvLogAppend (PTomb (ObjectTombstone_new uninit prev))
                    sizeof_ObjectTombstone tombRef;
                  EvMapRemove (tableId, id) ]
       end.
Proof.
  intros H. run_ops. crush_M.
  - eexists. split_and!; try reflexivity.
    + intros q o' Hq. apply Log_object_append_old.
      rewrite Log_object_free. exact Hq.
    + match goal with Hu : () |- _ => destruct Hu end.
      eexists _, _, _. split_and!; try eassumption; try reflexivity.
      rewrite <- !app_assoc. reflexivity.
  - eexists. split_and!; try reflexivity; try done.
    match goal with Hu : () |- _ => destruct Hu end. done.
Qed.

Example demo_write_hello :
  snd (write 7 1 noRules "hello" demoServer0) = Ok 1
  /\ objectMap demoServer1 !! (7, 1) = Some 0%nat
  /\ Log_object (log demoServer1) 0 = Some (newObjectOf 7 1 1 "hello").
Proof. vm_compute. auto. Qed.

Example demo_write_world :
  write 7 1 noRules "world" demoServer1 = (demoServer2, Ok 2).
Proof. vm_compute. reflexivity. Qed.

Lemma storeData_overwrite_call_order_witness :
  exists segId tombRef objRef,
    Log_getSegmentId (log demoServer1) 0 = Some segId
    /\ objectMap demoServer2 !! (7, 1) = Some objRef
    /\ trace demoServer2 =
       trace demoServer1 ++
       [ EvLogFree 0;
         EvLogAppend
           (PTomb (ObjectTombstone_new segId (newObjectOf 7 1 1 "hello")))
           sizeof_ObjectTombstone tombRef;
         EvLogAppend (PObj (newObjectOf 7 1 2 "world"))
           (Object_size (newObjectOf 7 1 2 "world")) objRef;
         EvMapReplace (7, 1) objRef ].
Proof.
  apply (storeData_overwrite_call_order demoServer1 demoServer2 7 1 noRules
           "world" 0 (newObjectOf 7 1 1 "hello") 2).
  - vm_compute. reflexivity.
  - vm_compute. reflexivity.
  - vm_compute. reflexivity.
Defined.

(** ** Segment replay *)

Ltac run_recover :=
  unfold recoverObject, recoverTombstone, log_free, log_append,
    objectMap_replace, objectMap_remove in *.

Lemma recoverObject_both R tm s :
  is_Some (objectMap s !! objKey R) -> is_Some (tm !! objKey R) ->
  recoverObject R tm s = (s, AssertFailed).
Proof.
  unfold objKey. intros [r Hr] [t Ht]. run_recover. run_M.
  rewrite Hr, Ht. reflexivity.
Qed.

Lemma recoverTombstone_both R tm s :
  is_Some (objectMap s !! tombKey R) -> is_Some (tm !! tombKey R) ->
  recoverTombstone R tm s = (s, AssertFailed).
Proof.
  unfold tombKey. intros [r Hr] [t Ht]. run_recover. run_M.
  rewrite Hr, Ht. reflexivity.
Qed.

Lemma contents_lookup s k :
  contents s !! k = objectMap s !! k ≫= Log_object (log s).
Proof. unfold contents. apply lookup_omap. Qed.

Lemma isNull_or {A B} (a : option A) (b : option B) :
  isNull a || isNull b = true <-> b = None \/ a = None.
Proof. destruct a, b; cbn; intuition congruence. Qed.

Lemma assert_Ok {S} b (s s' : S) u :
  assert b s = (s', Ok u) -> b = true /\ s' = s.
Proof. unfold assert. destruct b; intros H; simplify_eq. auto. Qed.

Lemma derefOpt_Ok o s s' x :
  derefOpt o s = (s', Ok x) ->
  s' = s /\ x = o ≫= Log_object (log s) /\ (o = None \/ is_Some x).
Proof.
  destruct o as [ref|]; cbn; run_M; intros H.
  - destruct (Log_object (log s) ref) eqn:Hl; simplify_eq/=.
    split_and!; eauto.
  - simplify_eq. auto.
Qed.

Lemma derefOpt_valid o s :
  (forall ref, o = Some ref -> is_Some (Log_object (log s) ref)) ->
  derefOpt o s = (s, Ok (o ≫= Log_object (log s))).
Proof.
  destruct o as [ref|]; cbn; run_M; intros H; [|reflexivity].
  destruct (H ref eq_refl) as [x ->]. reflexivity.
Qed.

(** A returning OBJ step passed the check of I1 and decided by
    [objMinSuccessor]. *)
Lemma recoverObject_Ok R tm s s' tm' :
  recoverObject R tm s = (s', Ok tm') ->
  (objectMap s !! objKey R = None \/ tm !! objKey R = None)
  /\ (objectMap s !! objKey R = None \/ is_Some (contents s !! objKey R))
  /\ ((objMinSuccessor (contents s !! objKey R) (tm !! objKey R)
        <= obj_version R
       /\ AppliedObj s tm R s' tm')
      \/ (obj_version R
          < objMinSuccessor (contents s !! objKey R) (tm !! objKey R)
          /\ s' = s /\ tm' = tm)).
Proof.
  intros H. unfold recoverObject in H. fold (objKey R) in H.
  apply bind_Ok in H as (s1 & localRef & Hlook & H).
  unfold objectMap_lookup in Hlook. fold (objKey R) in Hlook.
  injection Hlook as <- <-.
  apply bind_Ok in H as (s2 & u & Hassert & H).
  apply assert_Ok in Hassert as [Hnb ->]. apply isNull_or in Hnb.
  apply bind_Ok in H as (s3 & localObj & Hderef & H).
  apply derefOpt_Ok in Hderef as (-> & -> & Hvalid).
  rewrite contents_lookup. split; [exact Hnb|]. split; [exact Hvalid|].
  destruct (Z.leb_spec
              (objMinSuccessor (objectMap s !! objKey R ≫= Log_object (log s))
                 (tm !! objKey R)) (obj_version R)) as [Hle|Hgt].
  - left. split; [exact Hle|].
    apply bind_Ok in H as (s4 & newRef & Happ & H).
    unfold log_append in Happ. injection Happ as <- <-.
    apply bind_Ok in H as (s5 & u1 & Hrep & H).
    unfold objectMap_replace in Hrep. injection Hrep as <- _.
    apply bind_Ok in H as (s6 & u2 & Hfree & H).
    unfold ret in H. injection H as <- <-.
    exists (snd (Log_append (log s) (PObj R) (Object_size R))).
    destruct (objectMap s !! objKey R) as [old|] eqn:Hold.
    + unfold log_free in Hfree. injection Hfree as <- _. cbn.
      rewrite Log_object_free. split_and!; try reflexivity.
      * apply Log_object_append_new.
      * intros q o Hq. rewrite Log_object_free.
        apply Log_object_append_old. exact Hq.
      * destruct Hnb as [?|Ht]; [discriminate|].
        rewrite Ht. symmetry. apply delete_id. exact Ht.
      * rewrite <- !app_assoc. reflexivity.
    + unfold ret in Hfree. injection Hfree as <- _. cbn.
      split_and!; try reflexivity.
      * apply Log_object_append_new.
      * intros q o Hq. apply Log_object_append_old. exact Hq.
      * destruct (tm !! objKey R) eqn:Ht; [reflexivity|].
        symmetry. apply delete_id. exact Ht.
      * rewrite <- !app_assoc. reflexivity.
  - right. split; [exact Hgt|]. unfold ret in H.
    injection H as <- <-. auto.
Qed.

(** A returning OBJTOMB step passed the check of I1 and decided by
    [tombMinSuccessor]. *)
Lemma recoverTombstone_Ok R tm s s' tm' :
  recoverTombstone R tm s = (s', Ok tm') ->
  (objectMap s !! tombKey R = None \/ tm !! tombKey R = None)
  /\ (objectMap s !! tombKey R = None \/ is_Some (contents s !! tombKey R))
  /\ ((tombMinSuccessor (contents s !! tombKey R) (tm !! tombKey R)
        <= objectVersion R
       /\ AppliedTomb s tm R s' tm')
      \/ (objectVersion R
          < tombMinSuccessor (contents s !! tombKey R) (tm !! tombKey R)
          /\ s' = s /\ tm' = tm)).
Proof.
  intros H. unfold recoverTombstone in H. fold (tombKey R) in H.
  apply bind_Ok in H as (s1 & localRef & Hlook & H).
  unfold objectMap_lookup in Hlook. fold (tombKey R) in Hlook.
  injection Hlook as <- <-.
  apply bind_Ok in H as (s2 & u & Hassert & H).
  apply assert_Ok in Hassert as [Hnb ->]. apply isNull_or in Hnb.
  apply bind_Ok in H as (s3 & localObj & Hderef & H).
  apply derefOpt_Ok in Hderef as (-> & -> & Hvalid).
  rewrite contents_lookup. split; [exact Hnb|]. split; [exact Hvalid|].
  destruct (Z.leb_spec
              (tombMinSuccessor
                 (objectMap s !! tombKey R ≫= Log_object (log s))
                 (tm !! tombKey R)) (objectVersion R)) as [Hle|Hgt].
  - left. split; [exact Hle|].
    apply bind_Ok in H as (s4 & u1 & Hrem & H).
    unfold ret in H. injection H as <- <-. unfold AppliedTomb.
    destruct (objectMap s !! tombKey R) as [old|] eqn:Hold.
    + apply bind_Ok in Hrem as (s5 & u2 & Hrem & Hfree).
      unfold objectMap_remove in Hrem. injection Hrem as <- _.
      unfold log_free in Hfree. injection Hfree as <- _. cbn.
      split_and!; try reflexivity.
      * intros q o Hq. rewrite Log_object_free. exact Hq.
      * rewrite <- !app_assoc. reflexivity.
    + unfold ret in Hrem. injection Hrem as <- _.
      split_and!; try reflexivity.
      * symmetry. apply delete_id. exact Hold.
      * auto.
      * rewrite app_nil_r. reflexivity.
  - right. split; [exact Hgt|]. unfold ret in H.
    injection H as <- <-. auto.
Qed.

(** Under I1 at the key of the record, and when the reference of the key
    is valid, a step returns. *)
Lemma recoverObject_returns R tm s :
  (forall ref, objectMap s !! objKey R = Some ref ->
               is_Some (Log_object (log s) ref)) ->
  objectMap s !! objKey R = None \/ tm !! objKey R = None ->
  exists s' tm', recoverObject R tm s = (s', Ok tm').
Proof.
  intros Hvalid Hnb. unfold recoverObject. fold (objKey R).
  apply isNull_or in Hnb.
  rewrite (bind_step _ _ s s (objectMap s !! objKey R)) by reflexivity.
  cbn beta.
  rewrite (bind_step _ _ s s tt) by (unfold assert; rewrite Hnb; reflexivity).
  erewrite bind_step by (apply derefOpt_valid; exact Hvalid).
  cbn beta.
  destruct (_ <=? _); [|unfold ret; eauto].
  unfold bind, log_append, objectMap_replace, log_free, ret.
  destruct (objectMap s !! objKey R); eauto.
Qed.

Lemma recoverTombstone_returns R tm s :
  (forall ref, objectMap s !! tombKey R = Some ref ->
               is_Some (Log_object (log s) ref)) ->
  objectMap s !! tombKey R = None \/ tm !! tombKey R = None ->
  exists s' tm', recoverTombstone R tm s = (s', Ok tm').
Proof.
  intros Hvalid Hnb. unfold recoverTombstone. fold (tombKey R).
  apply isNull_or in Hnb.
  rewrite (bind_step _ _ s s (objectMap s !! tombKey R)) by reflexivity.
  cbn beta.
  rewrite (bind_step _ _ s s tt) by (unfold assert; rewrite Hnb; reflexivity).
  erewrite bind_step by (apply derefOpt_valid; exact Hvalid).
  cbn beta.
  destruct (_ <=? _); [|unfold ret; eauto].
  unfold bind, objectMap_remove, log_free, ret.
  destruct (objectMap s !! tombKey R); eauto.
Qed.

Lemma objMinSuccessor_spec L T : objMinSuccessor L T = specObjMinSuccessor L T.
Proof. destruct L, T; reflexivity. Qed.

Lemma tombMinSuccessor_spec L T :
  tombMinSuccessor L T = specTombMinSuccessor L T.
Proof. destruct L, T; reflexivity. Qed.

Lemma wrap64_succ v : 0 <= v < UINT64_MAX -> wrap64 (v + 1) = v + 1.
Proof. unfold wrap64, UINT64_MAX. intros H. apply Z.mod_small. lia. Qed.

Lemma IndexValid_contents s k ref :
  IndexValid s -> objectMap s !! k = Some ref ->
  contents s !! k = Log_object (log s) ref
  /\ is_Some (Log_object (log s) ref).
Proof.
  intros Hv Hk. rewrite contents_lookup, Hk. split; [reflexivity|].
  eapply Hv. exact Hk.
Qed.

(** C1 (amended): during replay, in a state that passes the check of I1
    and whose index holds valid references, a step on an OBJ record R
    returns, and it applies R when R.version >= minSuccessor and leaves
    everything untouched when R.version < minSuccessor, where minSuccessor
    = L ? L.version+1 : (T ? T.objectVersion+1 : 0) on [uint64_t]; a step
    on an OBJTOMB record does the same with minSuccessor = L ? L.version :
    (T ? T.objectVersion+1 : 0).  So a tombstone whose version equals the
    version of the live object is applied, and an object whose version
    equals the version of the tombstone of its key is skipped when that
    version is below 2^64-1. *)
Theorem replay_applies_from_minSuccessor
  (s : MasterServer) (tm : ObjectTombstoneMap) :
  IndexValid s -> NotBoth s tm ->
  (forall R : Object,
      let L := contents s !! objKey R in
      let T := tm !! objKey R in
      exists s' tm',
        recoverObject R tm s = (s', Ok tm')
        /\ (specObjMinSuccessor L T <= obj_version R ->
            AppliedObj s tm R s' tm')
        /\ (obj_version R < specObjMinSuccessor L T -> s' = s /\ tm' = tm)
        /\ (forall t, T = Some t -> obj_version R = objectVersion t ->
                      0 <= obj_version R < UINT64_MAX ->
                      s' = s /\ tm' = tm))
  /\ (forall R : ObjectTombstone,
      let L := contents s !! tombKey R in
      let T := tm !! tombKey R in
      exists s' tm',
        recoverTombstone R tm s = (s', Ok tm')
        /\ (specTombMinSuccessor L T <= objectVersion R ->
            AppliedTomb s tm R s' tm')
        /\ (objectVersion R < specTombMinSuccessor L T ->
            s' = s /\ tm' = tm)
        /\ (forall l, L = Some l -> objectVersion R = obj_version l ->
                      AppliedTomb s tm R s' tm')).
Proof.
  intros Hvalid Hnb. split.
  - intros R L T.
    destruct (recoverObject_returns R tm s) as (s' & tm' & Hrun).
    { intros ref Href. eapply Hvalid. exact Href. }
    { apply Hnb. }
    exists s', tm'. split; [exact Hrun|].
    apply recoverObject_Ok in Hrun as (_ & _ & Hdec).
    rewrite objMinSuccessor_spec in Hdec. fold L T in Hdec.
    split_and!.
    + intros Hle. destruct Hdec as [[_ Ha]|[Hlt _]]; [exact Ha | lia].
    + intros Hlt. destruct Hdec as [[Hle _]|[_ Hs]]; [lia | exact Hs].
    + intros t Ht Hv Hrange.
      destruct Hdec as [[Hle _]|[_ Hs]]; [|exact Hs]. exfalso.
      assert (L = None) as HL.
      { subst L. rewrite contents_lookup.
        destruct (Hnb (objKey R)) as [->|Hn]; [reflexivity|].
        subst T. congruence. }
      rewrite HL, Ht in Hle. cbn in Hle.
      rewrite wrap64_succ in Hle by lia. lia.
  - intros R L T.
    destruct (recoverTombstone_returns R tm s) as (s' & tm' & Hrun).
    { intros ref Href. eapply Hvalid. exact Href. }
    { apply Hnb. }
    exists s', tm'. split; [exact Hrun|].
    apply recoverTombstone_Ok in Hrun as (_ & _ & Hdec).
    rewrite tombMinSuccessor_spec in Hdec. fold L T in Hdec.
    split_and!.
    + intros Hle. destruct Hdec as [[_ Ha]|[Hlt _]]; [exact Ha | lia].
    + intros Hlt. destruct Hdec as [[Hle _]|[_ Hs]]; [lia | exact Hs].
    + intros l Hl Hv.
      destruct Hdec as [[_ Ha]|[Hlt _]]; [exact Ha|]. exfalso.
      rewrite Hl in Hlt. cbn in Hlt. lia.
Qed.

Lemma recoverEntry_Ok_NotBoth e tm s s' tm' :
  NotBoth s tm -> recoverEntry e tm s = (s', Ok tm') -> NotBoth s' tm'.
Proof.
  intros Hnb H k. destruct e as [R|R|ty]; cbn in H.
  - apply recoverObject_Ok in H as (_ & _ & [[_ Ha]|(_ & -> & ->)]);
      [|apply Hnb].
    destruct Ha as (newRef & Hmap & _ & _ & -> & _). rewrite Hmap.
    destruct (decide (k = objKey R)) as [->|Hne].
    + right. apply lookup_delete_eq.
    + rewrite lookup_insert_ne, lookup_delete_ne by done. apply Hnb.
  - apply recoverTombstone_Ok in H as (_ & _ & [[_ Ha]|(_ & -> & ->)]);
      [|apply Hnb].
    destruct Ha as (Hmap & _ & -> & _). rewrite Hmap.
    destruct (decide (k = tombKey R)) as [->|Hne].
    + left. apply lookup_delete_eq.
    + rewrite lookup_insert_ne, lookup_delete_ne by done. apply Hnb.
  - unfold ret in H. injection H as <- <-. apply Hnb.
Qed.

Lemma recoverSegment_app segId pre post tm s s' tm' :
  recoverSegment segId (pre ++ post) tm s = (s', Ok tm') <->
  exists s1 tm1,
    recoverSegment segId pre tm s = (s1, Ok tm1)
    /\ recoverSegment segId post tm1 s1 = (s', Ok tm').
Proof.
  revert tm s. induction pre as [|e pre IH]; intros tm s; cbn.
  - unfold ret. split.
    + intros H. eauto.
    + intros (s1 & tm1 & [= <- <-] & H). exact H.
  - rewrite bind_Ok. split.
    + intros (s0 & tm0 & He & H). apply IH in H as (s1 & tm1 & Hpre & Hpost).
      exists s1, tm1. split; [|exact Hpost].
      apply bind_Ok. eauto.
    + intros (s1 & tm1 & Hpre & Hpost).
      apply bind_Ok in Hpre as (s0 & tm0 & He & Hpre).
      exists s0, tm0. split; [exact He|]. apply IH. eauto.
Qed.

Lemma recoverSegment_Ok_NotBoth segId buffer tm s s' tm' :
  NotBoth s tm -> recoverSegment segId buffer tm s = (s', Ok tm') ->
  NotBoth s' tm'.
Proof.
  revert tm s. induction buffer as [|e buffer IH]; intros tm s Hnb H; cbn in H.
  - unfold ret in H. injection H as <- <-. exact Hnb.
  - apply bind_Ok in H as (s1 & tm1 & He & H).
    eapply IH; [|exact H]. eapply recoverEntry_Ok_NotBoth; eassumption.
Qed.

(** C9: throughout replay no key has both an object in the object index
    and a tombstone in the recovery-tombstone index.  A step checks it on
    entry for the key of its record, and the replay aborts there when it
    fails; an applied OBJ step leaves the key with an object and without a
    tombstone, an applied OBJTOMB step with a tombstone and without an
    object; and when it holds for every key before a segment is replayed,
    it holds for every key after every record of the segment. *)
Theorem replay_keeps_object_and_tombstone_apart :
  (forall e tm s k,
      entryKey e = Some k ->
      is_Some (objectMap s !! k) -> is_Some (tm !! k) ->
      recoverEntry e tm s = (s, AssertFailed))
  /\ (forall R tm s s' tm',
         recoverObject R tm s = (s', Ok tm') ->
         objMinSuccessor (contents s !! objKey R) (tm !! objKey R)
         <= obj_version R ->
         is_Some (objectMap s' !! objKey R) /\ tm' !! objKey R = None)
  /\ (forall R tm s s' tm',
         recoverTombstone R tm s = (s', Ok tm') ->
         tombMinSuccessor (contents s !! tombKey R) (tm !! tombKey R)
         <= objectVersion R ->
         objectMap s' !! tombKey R = None /\ tm' !! tombKey R = Some R)
  /\ (forall e tm s s' tm' k,
         recoverEntry e tm s = (s', Ok tm') ->
         entryKey e = Some k ->
         objectMap s' !! k = None \/ tm' !! k = None)
  /\ (forall segId pre post tm s s' tm',
         NotBoth s tm ->
         recoverSegment segId (pre ++ post) tm s = (s', Ok tm') ->
         exists s1 tm1,
           recoverSegment segId pre tm s = (s1, Ok tm1)
           /\ NotBoth s1 tm1
           /\ recoverSegment segId post tm1 s1 = (s', Ok tm')).
Proof.
  split_and!.
  - intros e tm s k Hk Ho Ht. destruct e as [R|R|ty]; cbn in Hk; simplify_eq.
    + apply recoverObject_both; assumption.
    + apply recoverTombstone_both; assumption.
  - intros R tm s s' tm' H Hle.
    apply recoverObject_Ok in H as (_ & _ & [[_ Ha]|[Hlt _]]); [|lia].
    destruct Ha as (newRef & Hmap & _ & _ & -> & _).
    rewrite Hmap, lookup_insert_eq, lookup_delete_eq. eauto.
  - intros R tm s s' tm' H Hle.
    apply recoverTombstone_Ok in H as (_ & _ & [[_ Ha]|[Hlt _]]); [|lia].
    destruct Ha as (Hmap & _ & -> & _).
    rewrite Hmap, lookup_insert_eq, lookup_delete_eq. eauto.
  - intros e tm s s' tm' k H Hk.
    destruct e as [R|R|ty]; cbn in Hk, H; simplify_eq.
    + apply recoverObject_Ok in H as (Hnb & _ & [[_ Ha]|(_ & -> & ->)]);
        [|exact Hnb].
      destruct Ha as (newRef & _ & _ & _ & -> & _).
      right. apply lookup_delete_eq.
    + apply recoverTombstone_Ok in H as (Hnb & _ & [[_ Ha]|(_ & -> & ->)]);
        [|exact Hnb].
      destruct Ha as (Hmap & _). left. rewrite Hmap. apply lookup_delete_eq.
  - intros segId pre post tm s s' tm' Hnb H.
    apply recoverSegment_app in H as (s1 & tm1 & Hpre & Hpost).
    exists s1, tm1. split_and!; try assumption.
    eapply recoverSegment_Ok_NotBoth; eassumption.
Qed.

(** *** The merge that a replay computes on the contents of the indexes *)

Lemma slot_mergeEntry a e k :
  slot (mergeEntry a e) k =
  if decide (entryKey e = Some k) then mergeSlot (slot a k) e else slot a k.
Proof.
  unfold slot. destruct e as [R|R|ty]; cbn.
  - destruct (decide (Some (objKey R) = Some k)) as [[= ->]|Hne].
    + destruct (_ <=? _); cbn; [|reflexivity].
      rewrite lookup_insert_eq, lookup_delete_eq. reflexivity.
    + destruct (_ <=? _); cbn; [|reflexivity].
      rewrite lookup_insert_ne, lookup_delete_ne by congruence. reflexivity.
  - destruct (decide (Some (tombKey R) = Some k)) as [[= ->]|Hne].
    + destruct (_ <=? _); cbn; [|reflexivity].
      rewrite lookup_insert_eq, lookup_delete_eq. reflexivity.
    + destruct (_ <=? _); cbn; [|reflexivity].
      rewrite lookup_insert_ne, lookup_delete_ne by congruence. reflexivity.
  - reflexivity.
Qed.

Lemma Contents_eq (a b : Contents) : (forall k, slot a k = slot b k) -> a = b.
Proof.
  destruct a as [a1 a2], b as [b1 b2]. unfold slot. cbn. intros H.
  f_equal; apply map_eq; intros k; specialize (H k); congruence.
Qed.

Lemma mergeSlot_good x e : slotGood x -> entryBelowMax e -> slotGood (mergeSlot x e).
Proof.
  intros Hx He. destruct e as [R|R|ty]; cbn in *; try exact Hx.
  - destruct (_ <=? _); [|exact Hx].
    split_and!; cbn; [auto | intros o [= <-]; exact He | intros t [=]].
  - destruct (_ <=? _); [|exact Hx].
    split_and!; cbn; [auto | intros o [=] | intros t [= <-]; exact He].
Qed.

Lemma mergeEntry_good a e :
  ContentsGood a -> entryBelowMax e -> ContentsGood (mergeEntry a e).
Proof.
  intros Ha He k. rewrite slot_mergeEntry.
  destruct (decide _); [apply mergeSlot_good; auto | apply Ha].
Qed.

(** Two records of one key commute on a slot. *)
Lemma mergeSlot_comm x e1 e2 :
  slotGood x -> entryBelowMax e1 -> entryBelowMax e2 ->
  entryKey e1 = entryKey e2 ->
  (sameGeneration e1 e2 -> e1 = e2) ->
  mergeSlot (mergeSlot x e1) e2 = mergeSlot (mergeSlot x e2) e1.
Proof.
  intros (Hnb & Ho & Ht) H1 H2 Hk Htie.
  destruct x as [[l|] [t|]]; cbn in Hnb;
    try (destruct Hnb; discriminate).
  all: try specialize (Ho _ eq_refl); try specialize (Ht _ eq_refl).
  all: destruct e1 as [R1|R1|ty1], e2 as [R2|R2|ty2]; cbn in *;
    try reflexivity; try discriminate.
  all: unfold belowMax in *.
  all: rewrite ?wrap64_succ by assumption.
  all: repeat (match goal with
               | |- context [if ?a <=? ?b then _ else _] =>
                   lazymatch a with
                   | context [if _ then _ else _] => fail
                   | _ => destruct (Z.leb_spec a b)
                   end
               end;
               cbn [fst snd objMinSuccessor tombMinSuccessor];
               rewrite ?wrap64_succ by assumption).
  all: try reflexivity; try lia.
  all: try (assert (Heq : EntryObj R1 = EntryObj R2)
              by (apply Htie; split; [congruence | lia]);
            injection Heq as ->; reflexivity).
  all: try (assert (Heq : EntryTomb R1 = EntryTomb R2)
              by (apply Htie; split; [congruence | lia]);
            injection Heq as ->; reflexivity).
Qed.

Lemma mergeEntry_comm a e1 e2 :
  ContentsGood a -> entryBelowMax e1 -> entryBelowMax e2 ->
  (sameGeneration e1 e2 -> e1 = e2) ->
  mergeEntry (mergeEntry a e1) e2 = mergeEntry (mergeEntry a e2) e1.
Proof.
  intros Ha H1 H2 Htie. apply Contents_eq. intros k.
  rewrite !slot_mergeEntry.
  destruct (decide (entryKey e1 = Some k)) as [Hk1|Hk1],
    (decide (entryKey e2 = Some k)) as [Hk2|Hk2]; try reflexivity.
  apply mergeSlot_comm; auto. congruence.
Qed.

Lemma GenerationsAgree_cons e l : GenerationsAgree (e :: l) -> GenerationsAgree l.
Proof. intros H e1 e2 H1 H2. apply H; apply elem_of_cons; auto. Qed.

Lemma GenerationsAgree_perm l1 l2 :
  l1 ≡ₚ l2 -> GenerationsAgree l1 -> GenerationsAgree l2.
Proof.
  intros Hp H e1 e2 H1 H2. apply H; rewrite Hp; assumption.
Qed.

(** The merge of a list of records does not depend on their order. *)
Lemma merge_permutation l1 l2 :
  l1 ≡ₚ l2 ->
  forall a, ContentsGood a -> Forall entryBelowMax l1 -> GenerationsAgree l1 ->
            foldl mergeEntry a l1 = foldl mergeEntry a l2.
Proof.
  induction 1 as [|x l1 l2 Hp IH|x y l|l1 l2 l3 Hp1 IH1 Hp2 IH2];
    intros a Ha Hall Hagree.
  - reflexivity.
  - cbn. apply Forall_cons in Hall as [Hx Hall]. apply IH.
    + apply mergeEntry_good; assumption.
    + exact Hall.
    + eapply GenerationsAgree_cons. exact Hagree.
  - cbn. apply Forall_cons in Hall as [Hy Hall].
    apply Forall_cons in Hall as [Hx Hall].
    f_equal. apply mergeEntry_comm; try assumption.
    apply Hagree; set_solver.
  - rewrite IH1 by assumption. apply IH2.
    + exact Ha.
    + rewrite <- Hp1. exact Hall.
    + eapply GenerationsAgree_perm; eassumption.
Qed.

Lemma contents_after_insert s s' k r R :
  IndexValid s ->
  objectMap s' = <[k := r]> (objectMap s) ->
  Log_object (log s') r = Some R ->
  (forall q o, Log_object (log s) q = Some o ->
               Log_object (log s') q = Some o) ->
  contents s' = <[k := R]> (contents s) /\ IndexValid s'.
Proof.
  intros Hv Hmap Hr Hkeep. split.
  - apply map_eq. intros k'. rewrite contents_lookup, Hmap.
    destruct (decide (k = k')) as [->|Hne].
    + rewrite !lookup_insert_eq. exact Hr.
    + rewrite !lookup_insert_ne by done. rewrite contents_lookup.
      destruct (objectMap s !! k') as [ref|] eqn:Hk'; [|reflexivity]. cbn.
      destruct (Hv _ _ Hk') as [o Ho]. rewrite Ho. apply Hkeep. exact Ho.
  - intros k' ref. rewrite Hmap.
    destruct (decide (k = k')) as [->|Hne].
    + rewrite lookup_insert_eq. intros [= <-]. eauto.
    + rewrite lookup_insert_ne by done. intros Hk'.
      destruct (Hv _ _ Hk') as [o Ho]. exists o. apply Hkeep. exact Ho.
Qed.

Lemma contents_after_delete s s' k :
  IndexValid s ->
  objectMap s' = delete k (objectMap s) ->
  (forall q o, Log_object (log s) q = Some o ->
               Log_object (log s') q = Some o) ->
  contents s' = delete k (contents s) /\ IndexValid s'.
Proof.
  intros Hv Hmap Hkeep. split.
  - apply map_eq. intros k'. rewrite contents_lookup, Hmap.
    destruct (decide (k = k')) as [->|Hne].
    + rewrite !lookup_delete_eq. reflexivity.
    + rewrite !lookup_delete_ne by done. rewrite contents_lookup.
      destruct (objectMap s !! k') as [ref|] eqn:Hk'; [|reflexivity]. cbn.
      destruct (Hv _ _ Hk') as [o Ho]. rewrite Ho. apply Hkeep. exact Ho.
  - intros k' ref. rewrite Hmap.
    destruct (decide (k = k')) as [->|Hne].
    + rewrite lookup_delete_eq. discriminate.
    + rewrite lookup_delete_ne by done. intros Hk'.
      destruct (Hv _ _ Hk') as [o Ho]. exists o. apply Hkeep. exact Ho.
Qed.

(** A step of the replay computes [mergeEntry] on the contents. *)
Lemma recoverEntry_simulates e tm s :
  IndexValid s -> NotBoth s tm ->
  exists s' tm',
    recoverEntry e tm s = (s', Ok tm')
    /\ (contents s', tm') = mergeEntry (contents s, tm) e
    /\ IndexValid s' /\ NotBoth s' tm'.
Proof.
  intros Hv Hnb. destruct e as [R|R|ty]; cbn [recoverEntry mergeEntry fst snd].
  - destruct (recoverObject_returns R tm s) as (s' & tm' & Hrun);
      [intros ref; apply Hv | apply Hnb |].
    exists s', tm'. split; [exact Hrun|].
    assert (NotBoth s' tm') as Hnb'
        by (eapply (recoverEntry_Ok_NotBoth (EntryObj R)); eassumption).
    apply recoverObject_Ok in Hrun as (_ & _ & [[Hle Ha]|(Hlt & -> & ->)]).
    + apply Z.leb_le in Hle. rewrite Hle.
      destruct Ha as (newRef & Hmap & Hnew & Hkeep & -> & _).
      destruct (contents_after_insert s s' _ _ R Hv Hmap Hnew Hkeep)
        as [-> Hv'].
      auto.
    + apply Z.leb_gt in Hlt. rewrite Hlt. auto.
  - destruct (recoverTombstone_returns R tm s) as (s' & tm' & Hrun);
      [intros ref; apply Hv | apply Hnb |].
    exists s', tm'. split; [exact Hrun|].
    assert (NotBoth s' tm') as Hnb'
        by (eapply (recoverEntry_Ok_NotBoth (EntryTomb R)); eassumption).
    apply recoverTombstone_Ok in Hrun as (_ & _ & [[Hle Ha]|(Hlt & -> & ->)]).
    + apply Z.leb_le in Hle. rewrite Hle.
      destruct Ha as (Hmap & Hkeep & -> & _).
      destruct (contents_after_delete s s' _ Hv Hmap Hkeep) as [-> Hv'].
      auto.
    + apply Z.leb_gt in Hlt. rewrite Hlt. auto.
  - exists s, tm. unfold ret. auto.
Qed.

Lemma recoverSegment_simulates segId buffer tm s :
  IndexValid s -> NotBoth s tm ->
  exists s' tm',
    recoverSegment segId buffer tm s = (s', Ok tm')
    /\ (contents s', tm') = foldl mergeEntry (contents s, tm) buffer
    /\ IndexValid s' /\ NotBoth s' tm'.
Proof.
  revert tm s. induction buffer as [|e buffer IH]; intros tm s Hv Hnb.
  - exists s, tm. cbn. unfold ret. auto.
  - destruct (recoverEntry_simulates e tm s Hv Hnb)
      as (s1 & tm1 & Hrun & Hc & Hv1 & Hnb1).
    destruct (IH tm1 s1 Hv1 Hnb1) as (s' & tm' & Hrest & Hc' & Hv' & Hnb').
    exists s', tm'. cbn. rewrite (bind_step _ _ _ _ _ Hrun).
    split; [exact Hrest|]. rewrite <- Hc. auto.
Qed.

Lemma replaySegments_simulates segments tm s :
  IndexValid s -> NotBoth s tm ->
  exists s' tm',
    replaySegments segments tm s = (s', Ok tm')
    /\ (contents s', tm')
       = foldl mergeEntry (contents s, tm) (streamRecords segments)
    /\ IndexValid s' /\ NotBoth s' tm'.
Proof.
  revert tm s. induction segments as [|[segId buffer] rest IH];
    intros tm s Hv Hnb.
  - exists s, tm. cbn. unfold ret. auto.
  - destruct (recoverSegment_simulates segId buffer tm s Hv Hnb)
      as (s1 & tm1 & Hrun & Hc & Hv1 & Hnb1).
    destruct (IH tm1 s1 Hv1 Hnb1) as (s' & tm' & Hrest & Hc' & Hv' & Hnb').
    exists s', tm'. cbn [replaySegments].
    rewrite (bind_step _ _ _ _ _ Hrun).
    split; [exact Hrest|]. unfold streamRecords. cbn.
    rewrite foldl_app, <- Hc. auto.
Qed.

Lemma ContentsGood_NotBoth s tm :
  IndexValid s -> ContentsGood (contents s, tm) -> NotBoth s tm.
Proof.
  intros Hv Hg k. destruct (Hg k) as ([Hc|Ht] & _); cbn in *; [|auto].
  left. destruct (objectMap s !! k) as [ref|] eqn:Hk; [|reflexivity].
  rewrite contents_lookup, Hk in Hc. cbn in Hc.
  destruct (Hv _ _ Hk) as [o Ho]. congruence.
Qed.

(** C4 (amended): take an index state in which every reference is valid,
    no key has both an object and a tombstone, and every version is
    below 2^64-1, and a stream of segments whose records have versions
    below 2^64-1 and in which two records of the same kind, key and
    version are equal.  Then the replay of the stream and the replay of
    any stream with the same records in another order both return, and
    they end with the same contents of the object index and of the
    recovery-tombstone index. *)
Theorem replay_order_independent
  (s : MasterServer) (tm : ObjectTombstoneMap)
  (segments1 segments2 : list (Z * list SegmentEntry)) :
  IndexValid s ->
  ContentsGood (contents s, tm) ->
  Forall entryBelowMax (streamRecords segments1) ->
  GenerationsAgree (streamRecords segments1) ->
  streamRecords segments1 ≡ₚ streamRecords segments2 ->
  exists s1 tm1 s2 tm2,
    replaySegments segments1 tm s = (s1, Ok tm1)
    /\ replaySegments segments2 tm s = (s2, Ok tm2)
    /\ contents s1 = contents s2
    /\ tm1 = tm2.
Proof.
  intros Hv Hg Hall Hagree Hperm.
  pose proof (ContentsGood_NotBoth s tm Hv Hg) as Hnb.
  destruct (replaySegments_simulates segments1 tm s Hv Hnb)
    as (s1 & tm1 & Hrun1 & Hc1 & _).
  destruct (replaySegments_simulates segments2 tm s Hv Hnb)
    as (s2 & tm2 & Hrun2 & Hc2 & _).
  exists s1, tm1, s2, tm2. split; [exact Hrun1|]. split; [exact Hrun2|].
  assert ((contents s1, tm1) = (contents s2, tm2)) as Heq.
  { rewrite Hc1, Hc2. apply merge_permutation; assumption. }
  injection Heq as -> ->. auto.
Qed.

(** Whole segments in another order are a special case. *)
Lemma streamRecords_perm segments1 segments2 :
  segments1 ≡ₚ segments2 -> streamRecords segments1 ≡ₚ streamRecords segments2.
Proof. intros H. unfold streamRecords. rewrite H. reflexivity. Qed.

(** ** setTablets *)

Lemma wrap32_small z : isU32 z -> wrap32 z = z.
Proof. unfold isU32, wrap32. intros H. apply Z.mod_small. exact H. Qed.

Lemma collectTables_snoc old tb :
  collectTables (old ++ [tb])
  = <[wrap32 (table_id tb) := user_data tb]> (collectTables old).
Proof. unfold collectTables. rewrite foldl_app. reflexivity. Qed.

Lemma collectTables_lookup old k p :
  collectTables old !! k = Some p ->
  exists tb, tb ∈ old /\ wrap32 (table_id tb) = k /\ user_data tb = p.
Proof.
  induction old as [|tb old IH] using rev_ind.
  - unfold collectTables. cbn. rewrite lookup_empty. discriminate.
  - rewrite collectTables_snoc.
    destruct (decide (wrap32 (table_id tb) = k)) as [<-|Hne].
    + rewrite lookup_insert_eq. intros [= <-]. exists tb.
      split; [|auto]. apply elem_of_app. right. apply list_elem_of_singleton.
      reflexivity.
    + rewrite lookup_insert_ne by done. intros H.
      destruct (IH H) as (tb' & Hin & Hk & Hp). exists tb'.
      split; [|auto]. apply elem_of_app. left. exact Hin.
Qed.

Lemma collectTables_elem old tb :
  tb ∈ old ->
  exists tb', tb' ∈ old /\ wrap32 (table_id tb') = wrap32 (table_id tb)
              /\ collectTables old !! wrap32 (table_id tb)
                 = Some (user_data tb').
Proof.
  induction old as [|tb0 old IH] using rev_ind.
  - intros H. apply elem_of_nil in H. destruct H.
  - rewrite collectTables_snoc. intros Hin.
    destruct (decide (wrap32 (table_id tb0) = wrap32 (table_id tb)))
      as [Heq|Hne].
    + rewrite Heq, lookup_insert_eq. exists tb0.
      split; [|auto]. apply elem_of_app. right. apply list_elem_of_singleton.
      reflexivity.
    + rewrite lookup_insert_ne by done.
      apply elem_of_app in Hin as [Hin|Hin].
      * destruct (IH Hin) as (tb' & Hin' & Hk & Hp). exists tb'.
        split; [|auto]. apply elem_of_app. left. exact Hin'.
      * apply list_elem_of_singleton in Hin. subst tb0. congruence.
Qed.

Lemma deleteLoop_None newTablets l h q :
  h !! q = None -> foldl (deleteStep newTablets) h l !! q = None.
Proof.
  revert h. induction l as [|[k p] l IH]; intros h Hq; cbn; [exact Hq|].
  apply IH. unfold deleteStep. cbn. destruct (stillServed _ _); [exact Hq|].
  destruct (decide (p = q)) as [->|Hne];
    [apply lookup_delete_eq | rewrite lookup_delete_ne by done; exact Hq].
Qed.

Lemma deleteLoop_deleted newTablets l h k q :
  (k, q) ∈ l -> stillServed newTablets k = false ->
  foldl (deleteStep newTablets) h l !! q = None.
Proof.
  revert h. induction l as [|[k' p] l IH]; intros h Hin Hs.
  { apply elem_of_nil in Hin. destruct Hin. }
  cbn. apply elem_of_cons in Hin as [[= <- <-]|Hin].
  - apply deleteLoop_None. unfold deleteStep. cbn. rewrite Hs.
    apply lookup_delete_eq.
  - apply IH; assumption.
Qed.

Lemma deleteLoop_kept newTablets l h q :
  (forall k, (k, q) ∈ l -> stillServed newTablets k = true) ->
  foldl (deleteStep newTablets) h l !! q = h !! q.
Proof.
  revert h. induction l as [|[k' p] l IH]; intros h Hs; [reflexivity|].
  cbn. rewrite IH by (intros k Hk; apply Hs; apply elem_of_cons; auto).
  unfold deleteStep. cbn.
  destruct (stillServed newTablets k') eqn:Hk'; [reflexivity|].
  destruct (decide (p = q)) as [->|Hne].
  - rewrite Hs in Hk' by (apply elem_of_cons; auto). discriminate.
  - apply lookup_delete_ne. exact Hne.
Qed.

Lemma deleteLoop_subset newTablets l h q :
  is_Some (foldl (deleteStep newTablets) h l !! q) -> is_Some (h !! q).
Proof.
  intros H. destruct (h !! q) eqn:Hq; [eauto|].
  rewrite deleteLoop_None in H by exact Hq. exact H.
Qed.

Lemma elem_of_Tables_entries (tables : Tables) k p :
  (k, p) ∈ Tables_entries tables <-> tables !! k = Some p.
Proof.
  unfold Tables_entries. rewrite merge_sort_Permutation.
  apply elem_of_map_to_list.
Qed.

(** The second loop returns when the Tables it deletes are Tables of the
    heap, each at one entry of the map. *)
Lemma deleteOldTables_run newTablets l :
  forall s,
    NoDup (l.*2) ->
    (forall k p, (k, p) ∈ l -> stillServed newTablets k = false ->
                 p <> 0 /\ is_Some (tableHeap s !! p)) ->
    deleteOldTables l newTablets s
    = (with_tables (tablets s) (foldl (deleteStep newTablets) (tableHeap s) l)
         (heapNext s) s, Ok tt).
Proof.
  induction l as [|[k p] l IH]; intros s Hnd Hok.
  - destruct s. reflexivity.
  - cbn [fmap list_fmap snd] in Hnd. apply NoDup_cons in Hnd as [Hp Hnd].
    cbn [deleteOldTables foldl fst snd]. unfold deleteStep at 2. cbn [fst snd].
    destruct (stillServed newTablets k) eqn:Hs.
    + unfold bind at 1, ret at 1. apply IH; [exact Hnd|].
      intros k' p' Hin. apply Hok. apply elem_of_cons. auto.
    + destruct (Hok k p ltac:(apply elem_of_cons; auto) Hs) as [Hnz [T HT]].
      unfold bind at 1, deleteTable.
      replace (p =? 0) with false by (symmetry; apply Z.eqb_neq; exact Hnz).
      rewrite HT. rewrite IH; [reflexivity | exact Hnd |].
      intros k' p' Hin Hs'. cbn [tableHeap with_tables].
      destruct (Hok k' p' ltac:(apply elem_of_cons; auto) Hs') as [Hnz' HT'].
      split; [exact Hnz'|]. rewrite lookup_delete_ne; [exact HT'|].
      intros ->. apply Hp. apply list_elem_of_fmap. exists (k', p'). auto.
Qed.

(** [setTablets] from the heap that its second loop leaves. *)
Lemma setTablets_from_deletedHeap newTablets s tables' heap' next' ts' :
  NoDup ((Tables_entries (collectTables (tablets s))).*2) ->
  (forall k p, collectTables (tablets s) !! k = Some p ->
               stillServed newTablets k = false ->
               p <> 0 /\ is_Some (tableHeap s !! p)) ->
  assignTables (collectTables (tablets s), deletedHeap newTablets s,
                heapNext s) newTablets
  = ((tables', heap', next'), ts') ->
  setTablets newTablets s = (with_tables ts' heap' next' s, Ok tt).
Proof.
  intros Hnd Hok Hrun. unfold setTablets.
  unfold bind at 1, get. unfold bind at 1, modify.
  unfold bind at 1. rewrite deleteOldTables_run.
  - cbn [tablets tableHeap heapNext with_tables]. unfold deletedHeap in Hrun.
    rewrite Hrun. reflexivity.
  - exact Hnd.
  - intros k p Hin. apply Hok. apply elem_of_Tables_entries. exact Hin.
Qed.

(** Tablets and Tables that fit together: the second loop meets a Table at
    every [delete]. *)
Lemma TablesConsistent_entries s :
  TablesConsistent s ->
  NoDup ((Tables_entries (collectTables (tablets s))).*2)
  /\ (forall k p, collectTables (tablets s) !! k = Some p ->
                  p <> 0 /\ is_Some (tableHeap s !! p)).
Proof.
  intros (Wvalid & Wsame & _). split.
  - unfold Tables_entries. rewrite merge_sort_Permutation.
    apply NoDup_fmap_2_strong; [|apply NoDup_map_to_list].
    intros [k1 p1] [k2 p2] H1 H2 Heq. cbn in Heq. subst p2.
    apply elem_of_map_to_list in H1, H2.
    destruct (collectTables_lookup _ _ _ H1) as (tb1 & Hin1 & Hk1 & Hp1).
    destruct (collectTables_lookup _ _ _ H2) as (tb2 & Hin2 & Hk2 & Hp2).
    f_equal. rewrite <- Hk1, <- Hk2. f_equal.
    apply (Wsame tb1 tb2 Hin1 Hin2). congruence.
  - intros k p Hk.
    destruct (collectTables_lookup _ _ _ Hk) as (tb & Hin & _ & <-).
    apply Wvalid. exact Hin.
Qed.

Lemma setTablets_Ok newTablets s tables' heap' next' ts' :
  TablesConsistent s ->
  assignTables (collectTables (tablets s), deletedHeap newTablets s,
                heapNext s) newTablets
  = ((tables', heap', next'), ts') ->
  setTablets newTablets s = (with_tables ts' heap' next' s, Ok tt).
Proof.
  intros Hcons. destruct (TablesConsistent_entries s Hcons) as [Hnd Hok].
  apply setTablets_from_deletedHeap; [exact Hnd|].
  intros k p Hk _. exact (Hok k p Hk).
Qed.

Lemma stillServed_true newTablets k :
  stillServed newTablets k = true <->
  exists tb, tb ∈ newTablets /\ table_id tb = k.
Proof.
  unfold stillServed. rewrite existsb_exists. split.
  - intros (tb & Hin & Heq). exists tb. apply list_elem_of_In in Hin.
    apply Z.eqb_eq in Heq. auto.
  - intros (tb & Hin & Heq). exists tb. apply list_elem_of_In in Hin.
    split; [exact Hin|]. apply Z.eqb_eq. auto.
Qed.

Lemma assignTables_post ts :
  forall tables heap next tables' heap' next' ts',
    assignTables (tables, heap, next) ts = ((tables', heap', next'), ts') ->
    0 < next ->
    (forall q, is_Some (heap !! q) -> q < next) ->
    (forall k p, tables !! k = Some p -> p < next) ->
    AssignPost tables heap next ts tables' heap' next' ts'.
Proof.
  induction ts as [|tb ts IH];
    intros tables heap next tables' heap' next' ts' Hrun Hpos Hheap Htables.
  - cbn in Hrun. injection Hrun as <- <- <- <-. unfold AssignPost.
    split_and!; try (intros; auto; fail); try lia; try constructor;
      try assumption.
    intros k1 k2 p Hge H1 _. specialize (Htables k1 p H1). lia.
  - cbn [assignTables] in Hrun.
    destruct (assignTable (tables, heap, next) tb) as [[[tables1 heap1] next1] tb1]
      eqn:Hstep.
    destruct (assignTables (tables1, heap1, next1) ts)
      as [[[tables2 heap2] next2] rest'] eqn:Hrest.
    injection Hrun as <- <- <- <-.
    unfold assignTable in Hstep.
    destruct (default 0 (tables !! wrap32 (table_id tb)) =? 0) eqn:Hnull.
    + (* a new Table *)
      apply Z.eqb_eq in Hnull. injection Hstep as <- <- <- <-.
      assert (Hfresh : heap !! next = None).
      { destruct (heap !! next) eqn:Hn; [|reflexivity].
        specialize (Hheap next (mk_is_Some _ _ Hn)). lia. }
      destruct (IH _ _ _ _ _ _ _ Hrest)
        as (P1 & P2 & P3 & P4 & P5 & P6 & P7 & P8).
      { lia. }
      { intros q [T HT]. destruct (decide (next = q)) as [<-|Hne]; [lia|].
        rewrite lookup_insert_ne in HT by done.
        specialize (Hheap q (mk_is_Some _ _ HT)). lia. }
      { intros k p Hk. destruct (decide (wrap32 (table_id tb) = k)) as [<-|Hne].
        - rewrite lookup_insert_eq in Hk. injection Hk as <-. lia.
        - rewrite lookup_insert_ne in Hk by done.
          specialize (Htables k p Hk). lia. }
      assert (Hkey : tables2 !! wrap32 (table_id tb) = Some next).
      { apply P5; [apply lookup_insert_eq | lia]. }
      unfold AssignPost. split_and!.
      * lia.
      * exact P2.
      * exact P3.
      * intros q Hq. rewrite P4 by lia. apply lookup_insert_ne. lia.
      * intros k p Hk Hp. apply P5; [|exact Hp].
        rewrite lookup_insert_ne; [exact Hk|].
        intros <-. rewrite Hk in Hnull. cbn in Hnull. contradiction.
      * intros k p Hk. destruct (P6 k p Hk) as [Hold|(Hd & Hge & tb' & Hin & Hw & Hh)].
        -- destruct (decide (wrap32 (table_id tb) = k)) as [<-|Hne].
           ++ rewrite lookup_insert_eq in Hold. injection Hold as <-.
              right. split; [exact Hnull|]. split; [lia|].
              exists tb. split; [apply elem_of_cons; auto|].
              split; [reflexivity|].
              rewrite P4 by lia. apply lookup_insert_eq.
           ++ rewrite lookup_insert_ne in Hold by done. left. exact Hold.
        -- right. destruct (decide (wrap32 (table_id tb) = k)) as [<-|Hne].
           ++ rewrite lookup_insert_eq in Hd. cbn in Hd. lia.
           ++ rewrite lookup_insert_ne in Hd by done.
              split; [exact Hd|]. split; [lia|].
              exists tb'. split; [apply elem_of_cons; auto|]. auto.
      * intros k1 k2 p Hge H1 H2.
        destruct (decide (next + 1 <= p)) as [Hbig|Hsmall];
          [eapply P7; eassumption|].
        assert (p = next) as -> by lia.
        assert (Honly : forall k, tables2 !! k = Some next ->
                                  k = wrap32 (table_id tb)).
        { intros k Hk. destruct (P6 k next Hk) as [Hold|(_ & Hge' & _)]; [|lia].
          destruct (decide (wrap32 (table_id tb) = k)) as [<-|Hne];
            [reflexivity|].
          rewrite lookup_insert_ne in Hold by done.
          specialize (Htables k next Hold). lia. }
        rewrite (Honly k1 H1), (Honly k2 H2). reflexivity.
      * constructor; [|exact P8]. exists next. split; [exact Hkey|].
        split; [lia | reflexivity].
    + (* the Table of the map *)
      apply Z.eqb_neq in Hnull. injection Hstep as <- <- <- <-.
      destruct (tables !! wrap32 (table_id tb)) as [table|] eqn:Hk;
        [|cbn in Hnull; contradiction].
      cbn in Hnull. cbn [default].
      destruct (IH _ _ _ _ _ _ _ Hrest Hpos Hheap Htables)
        as (P1 & P2 & P3 & P4 & P5 & P6 & P7 & P8).
      unfold AssignPost. split_and!; try assumption.
      * intros k p Hk'. destruct (P6 k p Hk')
          as [Hold|(Hd & Hge & tb' & Hin & Hw & Hh)]; [left; exact Hold|].
        right. split; [exact Hd|]. split; [exact Hge|].
        exists tb'. split; [apply elem_of_cons; auto|]. auto.
      * constructor; [|exact P8]. exists table.
        split; [apply P5; assumption|]. split; [exact Hnull | reflexivity].
Qed.

Lemma set_user_data_fields p tb :
  table_id (set_user_data p tb) = table_id tb
  /\ user_data (set_user_data p tb) = p.
Proof. split; reflexivity. Qed.

(** C10 (amended): when the tablets and their Tables fit together and all
    table ids of the old and of the new tablets are below 2^32,
    [setTablets(newTablets)] returns and: the new active set is
    [newTablets] with [user_data] set; a table id that is in the old and
    in the new set keeps its Table, unchanged; the Table of a table id
    that is only in the old set is deleted; a table id that is only in the
    new set gets a new Table; and afterwards the tablets and their Tables
    fit together again, so every tablet points to the one Table of its
    table id.  The log and the object map are not touched. *)
Theorem setTablets_keeps_shared_tables
  (s : MasterServer) (newTablets : list Tablet) :
  TablesConsistent s ->
  Forall (fun tb => isU32 (table_id tb)) (tablets s) ->
  Forall (fun tb => isU32 (table_id tb)) newTablets ->
  exists s',
    setTablets newTablets s = (s', Ok tt)
    /\ Forall2 (fun tb tb' => tb' = set_user_data (user_data tb') tb)
         newTablets (tablets s')
    /\ (forall old new',
           old ∈ tablets s -> new' ∈ tablets s' ->
           table_id new' = table_id old ->
           user_data new' = user_data old
           /\ tableHeap s' !! user_data old = tableHeap s !! user_data old)
    /\ (forall old,
           old ∈ tablets s ->
           (forall tb, tb ∈ newTablets -> table_id tb <> table_id old) ->
           tableHeap s' !! user_data old = None)
    /\ (forall new',
           new' ∈ tablets s' ->
           (forall old, old ∈ tablets s -> table_id old <> table_id new') ->
           tableHeap s !! user_data new' = None
           /\ tableHeap s' !! user_data new'
              = Some (Table_new (table_id new')))
    /\ TablesConsistent s'
    /\ log s' = log s /\ objectMap s' = objectMap s.
Proof.
  intros Hcons Uold Unew.
  pose proof Hcons as (Wvalid & Wsame & Wheap & Wpos).
  rewrite Forall_forall in Uold, Unew.
  set (tablesA := collectTables (tablets s)).
  set (heapB := deletedHeap newTablets s).
  destruct (assignTables (tablesA, heapB, heapNext s) newTablets)
    as [[[tables' heap'] next'] ts'] eqn:Hrun.
  exists (with_tables ts' heap' next' s).
  split.
  { apply (setTablets_Ok _ _ tables'); assumption. }
  cbn [tablets tableHeap heapNext log objectMap with_tables].
  (* the first loop *)
  assert (A1 : forall old, old ∈ tablets s ->
                           tablesA !! table_id old = Some (user_data old)).
  { intros old Hin.
    destruct (collectTables_elem _ _ Hin) as (tb' & Hin' & Hk & Hp).
    rewrite !wrap32_small in * by auto.
    fold tablesA in Hp. rewrite Hp. f_equal. apply Wsame; auto. }
  assert (A2 : forall k p, tablesA !! k = Some p ->
                           exists old, old ∈ tablets s /\ table_id old = k
                                       /\ user_data old = p).
  { intros k p Hk. destruct (collectTables_lookup _ _ _ Hk)
      as (tb & Hin & Hw & Hp).
    rewrite wrap32_small in Hw by auto. eauto. }
  (* the second loop *)
  assert (B3 : forall q, is_Some (heapB !! q) -> is_Some (tableHeap s !! q)).
  { intros q. apply deleteLoop_subset. }
  (* the third loop *)
  destruct (assignTables_post _ _ _ _ _ _ _ _ Hrun Wpos)
    as (P1 & P2 & P3 & P4 & P5 & P6 & P7 & P8).
  { intros q Hq. apply Wheap, B3, Hq. }
  { intros k p Hk. destruct (A2 k p Hk) as (old & Hin & _ & <-).
    apply Wheap, Wvalid, Hin. }
  assert (R1 : forall new', new' ∈ ts' ->
               exists tb, tb ∈ newTablets
                          /\ table_id new' = table_id tb
                          /\ user_data new' <> 0
                          /\ tables' !! table_id new' = Some (user_data new')).
  { intros new' Hin. apply list_elem_of_lookup in Hin as [i Hi].
    destruct (Forall2_lookup_r _ _ _ _ _ P8 Hi)
      as (tb & Htb & p & Hp & Hnz & ->).
    exists tb. apply list_elem_of_lookup_2 in Htb.
    rewrite wrap32_small in Hp by auto. cbn. auto. }
  assert (Hserved : forall old tb, old ∈ tablets s -> tb ∈ newTablets ->
                                   table_id tb = table_id old ->
                                   heapB !! user_data old
                                   = tableHeap s !! user_data old).
  { intros old tb Hold Htb Hid. unfold heapB, deletedHeap.
    apply deleteLoop_kept.
    intros k Hk. apply elem_of_Tables_entries in Hk.
    destruct (A2 _ _ Hk) as (old2 & Hold2 & <- & Hp).
    apply stillServed_true. exists tb. split; [exact Htb|].
    rewrite Hid. symmetry. apply Wsame; auto. }
  split_and!.
  - (* the new active set *)
    eapply Forall2_impl; [exact P8|].
    intros tb tb' (p & _ & _ & ->). reflexivity.
  - (* kept *)
    intros old new' Hold Hnew Hid.
    destruct (R1 _ Hnew) as (tb & Htb & Hid' & Hnz & Hp).
    assert (Hq : tables' !! table_id new' = Some (user_data old)).
    { rewrite Hid. apply P5; [apply A1; exact Hold | apply Wvalid; exact Hold]. }
    split; [congruence|].
    rewrite P4 by (apply Wheap, Wvalid, Hold).
    apply (Hserved old tb); congruence.
  - (* deleted *)
    intros old Hold Hgone.
    rewrite P4 by (apply Wheap, Wvalid, Hold).
    unfold heapB, deletedHeap.
    apply (deleteLoop_deleted _ _ _ (table_id old)).
    + apply elem_of_Tables_entries. apply A1. exact Hold.
    + destruct (stillServed newTablets (table_id old)) eqn:Hs; [|reflexivity].
      apply stillServed_true in Hs as (tb & Htb & Hid).
      exfalso. eapply Hgone; eassumption.
  - (* new *)
    intros new' Hnew Hfresh.
    destruct (R1 _ Hnew) as (tb & Htb & Hid & Hnz & Hp).
    destruct (P6 _ _ Hp) as [Hold|(_ & Hge & tb2 & Htb2 & Hw & Hh)].
    + destruct (A2 _ _ Hold) as (old & Hin & Hk & _).
      exfalso. eapply Hfresh; eassumption.
    + rewrite wrap32_small in Hw by auto. rewrite Hw in Hh.
      split; [|exact Hh].
      destruct (tableHeap s !! user_data new') eqn:Hn; [|reflexivity].
      specialize (Wheap _ (mk_is_Some _ _ Hn)). lia.
  - (* the tablets and their Tables fit together *)
    unfold TablesConsistent.
    cbn [tablets tableHeap heapNext with_tables]. split_and!.
    + intros new' Hnew.
      destruct (R1 _ Hnew) as (tb & Htb & Hid & Hnz & Hp).
      split; [exact Hnz|].
      destruct (P6 _ _ Hp) as [Hold|(_ & Hge & tb2 & Htb2 & Hw & Hh)];
        [|rewrite Hh; eauto].
      destruct (A2 _ _ Hold) as (old & Hin & Hk & Hq).
      rewrite <- Hq. rewrite P4 by (apply Wheap, Wvalid, Hin).
      rewrite (Hserved old tb) by congruence. apply Wvalid, Hin.
    + intros n1 n2 Hn1 Hn2.
      destruct (R1 _ Hn1) as (tb1 & Htb1 & Hid1 & Hnz1 & Hp1).
      destruct (R1 _ Hn2) as (tb2 & Htb2 & Hid2 & Hnz2 & Hp2).
      split; [intros Heq; rewrite Heq in Hp1; congruence|].
      intros Heq. rewrite Heq in Hp1.
      destruct (decide (heapNext s <= user_data n2)) as [Hbig|Hsmall];
        [eapply P7; eassumption|].
      destruct (P6 _ _ Hp1) as [Ho1|(_ & Hge & _)]; [|lia].
      destruct (P6 _ _ Hp2) as [Ho2|(_ & Hge & _)]; [|lia].
      destruct (A2 _ _ Ho1) as (old1 & Hin1 & Hk1 & Hq1).
      destruct (A2 _ _ Ho2) as (old2 & Hin2 & Hk2 & Hq2).
      rewrite <- Hk1, <- Hk2. apply Wsame; auto. congruence.
    + exact P2.
    + lia.
  - reflexivity.
  - reflexivity.
Qed.

(** ** Versions over a run of client requests *)

Lemma getTable_Ok tableId id s s' p :
  getTable tableId id s = (s', Ok p) ->
  s' = s /\ tableOf s (tableId, id) = Some p.
Proof.
  unfold getTable, tableOf. cbn.
  destruct (find _ _); intros H; simplify_eq. auto.
Qed.

Lemma VersionsWithin_mono n m s : n <= m -> VersionsWithin n s -> VersionsWithin m s.
Proof.
  intros Hle (Hv & Ho & Ht). split_and!; [exact Hv | |].
  - intros key o Hk. specialize (Ho key o Hk). lia.
  - intros p tbl Hp. specialize (Ht p tbl Hp). lia.
Qed.

Lemma StepFacts_refl n s : VersionsWithin n s -> StepFacts n s s.
Proof.
  intros H. split_and!; [|reflexivity|auto].
  eapply VersionsWithin_mono; [|exact H]. lia.
Qed.

Lemma wrap64_small v : 0 <= v < 2 ^ 64 -> wrap64 v = v.
Proof. intros H. apply Z.mod_small. exact H. Qed.

Lemma contents_Some s key ref o :
  objectMap s !! key = Some ref -> Log_object (log s) ref = Some o ->
  contents s !! key = Some o.
Proof. intros Hk Ho. rewrite contents_lookup, Hk. exact Ho. Qed.

(** An accepted [storeData] from a state within [n]. *)
Lemma storeData_step n tableId id rules data s s' v :
  VersionsWithin n s -> n + 2 < 2 ^ 64 ->
  storeData tableId id rules data s = (s', Ok v) ->
  StepFacts n s s' /\ (forall v', Below s (tableId, id) v' -> v' < v).
Proof.
  intros (Hvalid & Hobj & Htbl) Hroom Hrun.
  apply storeData_Ok in Hrun
    as (tp & objRef & Hget & Hnew & Hmap & Htab & Hkeep & Hcase).
  apply getTable_Ok in Hget as [_ Htable].
  destruct (contents_after_insert s s' _ _ _ Hvalid Hmap Hnew Hkeep)
    as [Hc Hvalid'].
  assert (HtableOf : forall key, tableOf s' key = tableOf s key)
    by (intros key; unfold tableOf; rewrite Htab; reflexivity).
  destruct (objectMap s !! (tableId, id)) as [ref|] eqn:Hold.
  - destruct Hcase
      as (prev & segId & tombRef & Hprev & _ & Hlt & Hv & _ & Hheap & _).
    pose proof (Hobj _ _ (contents_Some _ _ _ _ Hold Hprev)) as Hb.
    rewrite wrap64_small in Hv by lia.
    split; [split_and!|].
    + split_and!; [exact Hvalid' | |].
      * intros key o. rewrite Hc.
        destruct (decide ((tableId, id) = key)) as [<-|Hne].
        -- rewrite lookup_insert_eq. intros [= <-]. cbn. lia.
        -- rewrite lookup_insert_ne by done. intros Hk.
           specialize (Hobj _ _ Hk). lia.
      * intros p tbl. rewrite Hheap. intros Hp.
        specialize (Htbl _ _ Hp). lia.
    + exact Htab.
    + intros key v' Hbelow. unfold Below in *. rewrite Hmap.
      destruct (decide ((tableId, id) = key)) as [<-|Hne].
      * rewrite lookup_insert_eq. rewrite Hold in Hbelow.
        destruct Hbelow as (cur & Hcur & Hle).
        exists (newObjectOf tableId id v data). split; [exact Hnew|].
        cbn. assert (cur = prev) by congruence. subst cur. lia.
      * rewrite lookup_insert_ne by done.
        destruct (objectMap s !! key) as [ref'|].
        -- destruct Hbelow as (cur & Hcur & Hle). exists cur. auto.
        -- rewrite Hheap, HtableOf. exact Hbelow.
    + intros v' Hbelow. unfold Below in Hbelow. rewrite Hold in Hbelow.
      destruct Hbelow as (cur & Hcur & Hle).
      assert (cur = prev) by congruence. subst cur. lia.
  - destruct Hcase as (tbl & Ht & _ & Hv & Hheap & _).
    pose proof (Htbl _ _ Ht) as Hb.
    assert (Hnv : nextVersion (allocatedVersion tbl) = nextVersion tbl + 1).
    { unfold allocatedVersion. cbn. apply wrap64_small. lia. }
    split; [split_and!|].
    + split_and!; [exact Hvalid' | |].
      * intros key o. rewrite Hc.
        destruct (decide ((tableId, id) = key)) as [<-|Hne].
        -- rewrite lookup_insert_eq. intros [= <-]. cbn. lia.
        -- rewrite lookup_insert_ne by done. intros Hk.
           specialize (Hobj _ _ Hk). lia.
      * intros p tbl'. rewrite Hheap.
        destruct (decide (tp = p)) as [<-|Hne].
        -- rewrite lookup_insert_eq. intros [= <-]. lia.
        -- rewrite lookup_insert_ne by done. intros Hp.
           specialize (Htbl _ _ Hp). lia.
    + exact Htab.
    + intros key v' Hbelow. unfold Below in *. rewrite Hmap.
      destruct (decide ((tableId, id) = key)) as [<-|Hne].
      * rewrite lookup_insert_eq. rewrite Hold in Hbelow.
        exists (newObjectOf tableId id v data). split; [exact Hnew|].
        cbn. specialize (Hbelow _ _ Htable Ht). lia.
      * rewrite lookup_insert_ne by done.
        destruct (objectMap s !! key) as [ref'|].
        -- destruct Hbelow as (cur & Hcur & Hle). exists cur. auto.
        -- intros p tbl'. rewrite Hheap, HtableOf. intros Hp.
           destruct (decide (tp = p)) as [<-|Hne'].
           ++ rewrite lookup_insert_eq. intros [= <-].
              specialize (Hbelow _ _ Hp Ht). lia.
           ++ rewrite lookup_insert_ne by done. apply Hbelow. exact Hp.
    + intros v' Hbelow. unfold Below in Hbelow. rewrite Hold in Hbelow.
      specialize (Hbelow _ _ Htable Ht). lia.
Qed.

(** An accepted [remove] from a state within [n]. *)
Lemma remove_step n tableId id rules uninit s s' r :
  VersionsWithin n s -> n + 2 < 2 ^ 64 ->
  remove tableId id rules uninit s = (s', Ok r) ->
  StepFacts n s s'.
Proof.
  intros Hin Hroom Hrun. pose proof Hin as (Hvalid & Hobj & Htbl).
  apply remove_Ok in Hrun as (tp & Hget & Htab & Hkeep & Hcase).
  apply getTable_Ok in Hget as [_ Htable].
  assert (HtableOf : forall key, tableOf s' key = tableOf s key)
    by (intros key; unfold tableOf; rewrite Htab; reflexivity).
  destruct (objectMap s !! (tableId, id)) as [ref|] eqn:Hold.
  2: { destruct Hcase as (_ & -> & _). apply StepFacts_refl. exact Hin. }
  destruct Hcase as (prev & tbl & tombRef & Hprev & _ & _ & Ht & Hheap & Hmap & _).
  destruct (contents_after_delete s s' _ Hvalid Hmap Hkeep) as [Hc Hvalid'].
  pose proof (Hobj _ _ (contents_Some _ _ _ _ Hold Hprev)) as Hb.
  pose proof (Htbl _ _ Ht) as Hbt.
  set (tbl' := raisedVersion (wrap64 (obj_version prev + 1)) tbl) in *.
  assert (Hnv : nextVersion tbl <= nextVersion tbl'
                /\ obj_version prev < nextVersion tbl'
                /\ nextVersion tbl' <= n + 1).
  { unfold tbl', raisedVersion. cbn. rewrite wrap64_small by lia.
    destruct (Z.ltb_spec (nextVersion tbl) (obj_version prev + 1)); lia. }
  split_and!.
  - split_and!; [exact Hvalid' | |].
    + intros key o. rewrite Hc. intros Hk.
      apply lookup_delete_Some in Hk as [_ Hk]. specialize (Hobj _ _ Hk). lia.
    + intros p tbl0. rewrite Hheap.
      destruct (decide (tp = p)) as [<-|Hne].
      * rewrite lookup_insert_eq. intros [= <-]. lia.
      * rewrite lookup_insert_ne by done. intros Hp.
        specialize (Htbl _ _ Hp). lia.
  - exact Htab.
  - intros key v' Hbelow. unfold Below in *. rewrite Hmap.
    destruct (decide ((tableId, id) = key)) as [<-|Hne].
    + rewrite lookup_delete_eq. rewrite Hold in Hbelow.
      destruct Hbelow as (cur & Hcur & Hle).
      assert (cur = prev) by congruence. subst cur.
      intros p tbl0. rewrite Hheap, HtableOf, Htable. intros [= <-].
      rewrite lookup_insert_eq. intros [= <-]. lia.
    + rewrite lookup_delete_ne by done.
      destruct (objectMap s !! key) as [ref'|].
      * destruct Hbelow as (cur & Hcur & Hle). exists cur. auto.
      * intros p tbl0. rewrite Hheap, HtableOf. intros Hp.
        destruct (decide (tp = p)) as [<-|Hne'].
        -- rewrite lookup_insert_eq. intros [= <-].
           specialize (Hbelow _ _ Hp Ht). lia.
        -- rewrite lookup_insert_ne by done. apply Hbelow. exact Hp.
Qed.

Lemma read_Ok tableId id rules s s' r :
  read tableId id rules s = (s', Ok r) -> s' = s.
Proof. run_ops. intros H. crush_M; reflexivity. Qed.

(** [AllocateKey] moves the key counter of one Table and nothing else. *)
Lemma AllocateKey_step n t s s' key :
  VersionsWithin n s -> Table_AllocateKey t s = (s', Ok key) ->
  VersionsWithin n s'
  /\ tablets s' = tablets s
  /\ (forall k v', Below s k v' -> Below s' k v').
Proof.
  intros (Hvalid & Hobj & Htbl) Hrun. unfold Table_AllocateKey in Hrun.
  destruct (tableHeap s !! t) as [tbl|] eqn:Ht; [|discriminate].
  destruct (skipKeys _ _ _ _) as [k0|]; [|discriminate].
  injection Hrun as <- <-.
  split_and!; [split_and!| |].
  - exact Hvalid.
  - exact Hobj.
  - intros p tbl'. cbn.
    destruct (decide (t = p)) as [<-|Hne].
    + rewrite lookup_insert_eq. intros [= <-]. cbn. apply (Htbl _ _ Ht).
    + rewrite lookup_insert_ne by done. apply Htbl.
  - reflexivity.
  - intros k v' Hbelow. unfold Below in *. cbn.
    destruct (objectMap s !! k); [exact Hbelow|].
    intros p tbl'. unfold tableOf. cbn. intros Hp.
    destruct (decide (t = p)) as [<-|Hne].
    + rewrite lookup_insert_eq. intros [= <-]. cbn.
      apply (Hbelow _ _ Hp Ht).
    + rewrite lookup_insert_ne by done. apply Hbelow. exact Hp.
Qed.

Lemma StepFacts_after n s s1 s' :
  VersionsWithin n s1 -> tablets s1 = tablets s ->
  (forall k v', Below s k v' -> Below s1 k v') ->
  StepFacts n s1 s' -> StepFacts n s s'.
Proof.
  intros _ Htab Hb (Hin & Htab' & Hb'). split_and!; [exact Hin|congruence|].
  intros k v' H. apply Hb', Hb, H.
Qed.

(** A client request that returns or throws, from a state within [n]. *)
Lemma dispatch_step n rpc s s' res :
  clientRequest rpc -> VersionsWithin n s -> n + 2 < 2 ^ 64 ->
  dispatch rpc s = (s', res) ->
  (exists r, res = Ok r) \/ (exists e, res = Throw e) ->
  StepFacts n s s'.
Proof.
  intros Hclient Hin Hroom Hrun Halive.
  destruct rpc as [tId data| |tId id rules| |tId id rules uninit| |tId id rules data];
    cbn in Hclient; try contradiction; cbn [dispatch] in Hrun.
  - (* create *)
    assert (Hc : exists res', create tId data s = (s', res')
                 /\ ((exists r, res' = Ok r) \/ (exists e, res' = Throw e))).
    { unfold bind, ret in Hrun.
      destruct (create tId data s) as [s1 [r|e| | |]];
        destruct Halive as [[? ->]|[? ->]]; simplify_eq; eauto. }
    clear Hrun. destruct Hc as (res' & Hrun & Halive').
    unfold create in Hrun. unfold bind at 1 in Hrun.
    destruct (getTable tId UINT64_MAX s) as [s1 [t|e| | |]] eqn:Hget;
      try (destruct Halive' as [[? ->]|[? ->]]; discriminate).
    2: { unfold getTable in Hget. destruct (find _ _); simplify_eq.
         apply StepFacts_refl. exact Hin. }
    apply getTable_Ok in Hget as [-> _].
    unfold bind at 1 in Hrun.
    destruct (Table_AllocateKey t s) as [s2 [key|e| | |]] eqn:Hkey;
      try (destruct Halive' as [[? ->]|[? ->]]; discriminate).
    2: { unfold Table_AllocateKey in Hkey.
         destruct (tableHeap s !! t); [|discriminate].
         destruct (skipKeys _ _ _ _); discriminate. }
    destruct (AllocateKey_step _ _ _ _ _ Hin Hkey) as (Hin2 & Htab2 & Hb2).
    apply (StepFacts_after n s s2 s' Hin2 Htab2 Hb2).
    unfold bind in Hrun.
    destruct (storeData tId key _ data s2) as [s3 [v|e| | |]] eqn:Hstore;
      try (destruct Halive' as [[? ->]|[? ->]]; discriminate).
    + unfold ret in Hrun. injection Hrun as <- _.
      eapply storeData_step; eassumption.
    + injection Hrun as <- _. apply storeData_Throw in Hstore as ->.
      apply StepFacts_refl. exact Hin2.
  - (* ping *)
    unfold ret in Hrun. injection Hrun as <- _. apply StepFacts_refl, Hin.
  - (* read *)
    unfold bind in Hrun.
    destruct (read tId id rules s) as [s1 [r|e| | |]] eqn:Hread;
      try (destruct Halive as [[? ->]|[? ->]]; discriminate).
    + unfold ret in Hrun. injection Hrun as <- _.
      apply read_Ok in Hread as ->. apply StepFacts_refl, Hin.
    + injection Hrun as <- _.
      apply read_Throw in Hread as ->. apply StepFacts_refl, Hin.
  - (* remove *)
    unfold bind in Hrun.
    destruct (remove tId id rules uninit s) as [s1 [r|e| | |]]
      eqn:Hrem;
      try (destruct Halive as [[? ->]|[? ->]]; discriminate).
    + unfold ret in Hrun. injection Hrun as <- _.
      eapply remove_step; eassumption.
    + injection Hrun as <- _.
      apply remove_Throw in Hrem as ->. apply StepFacts_refl, Hin.
  - (* write *)
    unfold bind, write in Hrun.
    destruct (storeData tId id rules data s) as [s1 [r|e| | |]]
      eqn:Hstore;
      try (destruct Halive as [[? ->]|[? ->]]; discriminate).
    + unfold ret in Hrun. injection Hrun as <- _.
      eapply storeData_step; eassumption.
    + injection Hrun as <- _.
      apply storeData_Throw in Hstore as ->. apply StepFacts_refl, Hin.
Qed.

Lemma serveAll_app rpcs1 rpcs2 s s' :
  serveAll (rpcs1 ++ rpcs2) s = Some s' <->
  exists s1, serveAll rpcs1 s = Some s1 /\ serveAll rpcs2 s1 = Some s'.
Proof.
  revert s. induction rpcs1 as [|rpc rpcs1 IH]; intros s; cbn.
  - split; [eauto|]. intros (s1 & [= <-] & H). exact H.
  - destruct (dispatch rpc s) as [s0 [r|e| | |]]; try apply IH.
    all: split; [discriminate | intros (s1 & H & _); discriminate].
Qed.

Lemma assignTables_new_heap ts :
  forall tables heap next tables' heap' next' ts',
    assignTables (tables, heap, next) ts = ((tables', heap', next'), ts') ->
    (forall p tbl, heap !! p = Some tbl -> nextVersion tbl = 1) ->
    forall p tbl, heap' !! p = Some tbl -> nextVersion tbl = 1.
Proof.
  induction ts as [|tb ts IH];
    intros tables heap next tables' heap' next' ts' Hrun Hheap.
  - cbn in Hrun. injection Hrun as <- <- <- <-. exact Hheap.
  - cbn [assignTables] in Hrun.
    destruct (assignTable (tables, heap, next) tb)
      as [[[tables1 heap1] next1] tb1] eqn:Hstep.
    destruct (assignTables (tables1, heap1, next1) ts)
      as [[[tables2 heap2] next2] rest'] eqn:Hrest.
    injection Hrun as <- <- <- <-.
    eapply IH; [exact Hrest|].
    unfold assignTable in Hstep.
    destruct (_ =? 0); injection Hstep as <- <- <- <-; [|exact Hheap].
    intros p tbl. destruct (decide (next = p)) as [<-|Hne].
    + rewrite lookup_insert_eq. intros [= <-]. reflexivity.
    + rewrite lookup_insert_ne by done. apply Hheap.
Qed.

(** [setTablets] on a new server: no Table is deleted. *)
Lemma setTablets_new_run ts id locator capacity :
  exists tables' heap' next' ts',
    assignTables (∅, ∅, 1) ts = ((tables', heap', next'), ts')
    /\ setTablets ts (MasterServer_new id locator capacity)
       = (with_tables ts' heap' next' (MasterServer_new id locator capacity),
          Ok tt).
Proof.
  destruct (assignTables (∅, ∅, 1) ts) as [[[tables' heap'] next'] ts'] eqn:Hrun.
  exists tables', heap', next', ts'. split; [reflexivity|].
  apply (setTablets_from_deletedHeap _ _ tables').
  - unfold Tables_entries, collectTables. cbn [tablets MasterServer_new foldl].
    rewrite map_to_list_empty. cbn. constructor.
  - intros k p Hk. unfold collectTables in Hk. cbn in Hk.
    rewrite lookup_empty in Hk. discriminate.
  - unfold deletedHeap, Tables_entries, collectTables.
    cbn [tablets tableHeap heapNext MasterServer_new foldl].
    rewrite map_to_list_empty. cbn. exact Hrun.
Qed.

(** A new server that was given its tablets is within 0. *)
Lemma setTablets_new_within ts id locator capacity :
  VersionsWithin 0 (fst (setTablets ts (MasterServer_new id locator capacity))).
Proof.
  destruct (setTablets_new_run ts id locator capacity)
    as (tables' & heap' & next' & ts' & Hrun & ->).
  cbn [fst]. split_and!.
  - intros k ref. cbn. rewrite lookup_empty. discriminate.
  - intros key o. rewrite contents_lookup. cbn. rewrite lookup_empty.
    discriminate.
  - intros p tbl Hp. cbn in Hp.
    rewrite (assignTables_new_heap _ _ _ _ _ _ _ _ Hrun) with (p := p);
      [lia| |exact Hp].
    intros q tbl'. rewrite lookup_empty. discriminate.
Qed.

(** ** Versions over a run of requests that keep the table *)

#[local] Instance sameShape_preorder : PreOrder sameShape.
Proof.
  split.
  - intros s. unfold sameShape. auto.
  - intros s1 s2 s3 (A1 & A2 & A3) (B1 & B2 & B3). unfold sameShape.
    split_and!; [congruence | congruence |].
    intros p. rewrite B3. apply A3.
Qed.





























(** ** The checks are sound *)

Lemma indexValidb_sound s : indexValidb s = true -> IndexValid s.
Proof.
  unfold indexValidb. rewrite forallb_forall. intros H k ref Hk.
  apply elem_of_map_to_list, list_elem_of_In in Hk.
  specialize (H _ Hk). cbn in H.
  destruct (Log_object (log s) ref); [eauto | discriminate].
Qed.

Lemma notBothb_sound s tm : notBothb s tm = true -> NotBoth s tm.
Proof.
  unfold notBothb. rewrite forallb_forall. intros H k.
  destruct (objectMap s !! k) as [ref|] eqn:Hk; [|auto]. right.
  apply elem_of_map_to_list, list_elem_of_In in Hk.
  specialize (H _ Hk). cbn in H. destruct (tm !! k); [discriminate|reflexivity].
Qed.

Lemma belowMaxb_sound v : belowMaxb v = true -> belowMax v.
Proof. unfold belowMaxb, belowMax. lia. Qed.

Lemma contentsGoodb_sound a : contentsGoodb a = true -> ContentsGood a.
Proof.
  unfold contentsGoodb. rewrite andb_true_iff, !forallb_forall.
  intros [Ho Ht] k. unfold slotGood, slot. cbn. split_and!.
  - destruct (a.1 !! k) as [o|] eqn:Hk; [|auto]. right.
    apply elem_of_map_to_list, list_elem_of_In in Hk.
    specialize (Ho _ Hk). cbn in Ho. apply andb_true_iff in Ho as [_ Ho].
    destruct (a.2 !! k); [discriminate|reflexivity].
  - intros o Hk. apply elem_of_map_to_list, list_elem_of_In in Hk.
    specialize (Ho _ Hk). cbn in Ho. apply andb_true_iff in Ho as [Ho _].
    apply belowMaxb_sound. exact Ho.
  - intros t Hk. apply elem_of_map_to_list, list_elem_of_In in Hk.
    specialize (Ht _ Hk). cbn in Ht. apply belowMaxb_sound. exact Ht.
Qed.

Lemma entriesBelowMaxb_sound l :
  forallb entryBelowMaxb l = true -> Forall entryBelowMax l.
Proof.
  rewrite forallb_forall, Forall_forall. intros H e He.
  apply list_elem_of_In in He. specialize (H _ He).
  destruct e; cbn in *; [apply belowMaxb_sound; exact H.. | exact I].
Qed.

Lemma generationsAgreeb_sound l :
  generationsAgreeb l = true -> GenerationsAgree l.
Proof.
  unfold generationsAgreeb. rewrite forallb_forall.
  intros H e1 e2 H1 H2 Hs.
  apply list_elem_of_In in H1, H2. specialize (H _ H1).
  rewrite forallb_forall in H. specialize (H _ H2).
  assert (sameGenerationb e1 e2 = true) as Hb.
  { destruct e1, e2; cbn in *; try contradiction; destruct Hs as [Hk Hv];
      apply andb_true_iff; (split; [apply bool_decide_eq_true; exact Hk|]);
      apply Z.eqb_eq; exact Hv. }
  rewrite Hb in H. cbn in H. apply bool_decide_eq_true in H. exact H.
Qed.

Lemma tablesConsistentb_sound s :
  tablesConsistentb s = true -> TablesConsistent s.
Proof.
  unfold tablesConsistentb. rewrite !andb_true_iff, !forallb_forall.
  intros [[[Hv Hs] Hh] Hp]. unfold TablesConsistent. split_and!.
  - intros tb Hin. apply list_elem_of_In in Hin. specialize (Hv _ Hin).
    apply andb_true_iff in Hv as [Hnz Hsome]. split; [lia|].
    destruct (tableHeap s !! user_data tb); [eauto|discriminate].
  - intros tb1 tb2 H1 H2. apply list_elem_of_In in H1, H2.
    specialize (Hs _ H1). rewrite forallb_forall in Hs.
    specialize (Hs _ H2). apply Bool.eqb_prop in Hs.
    rewrite <- !Z.eqb_eq. rewrite Hs. reflexivity.
  - intros p [tbl Hp']. apply elem_of_map_to_list, list_elem_of_In in Hp'.
    specialize (Hh _ Hp'). cbn in Hh. lia.
  - lia.
Qed.

Lemma tabletsU32b_sound ts :
  forallb (fun tb => isU32b (table_id tb)) ts = true ->
  Forall (fun tb => isU32 (table_id tb)) ts.
Proof.
  rewrite forallb_forall, Forall_forall. intros H tb Hin.
  apply list_elem_of_In in Hin. specialize (H _ Hin).
  unfold isU32b, isU32 in *. lia.
Qed.

(** ** The properties on concrete runs *)

Lemma precondition_failure_is_atomic_witness :
  sameLogAndIndex demoServer1
    (fst (write 7 1 (mkRejectRules 0 false true false false) "x" demoServer1)).
Proof.
  refine (proj1 (proj2 (precondition_failure_is_atomic demoServer1 _
                          ObjectExistsException _)) 7 1
            (mkRejectRules 0 false true false false) "x" _).
  - reflexivity.
  - vm_compute. reflexivity.
Defined.

(** C1, counterexample: the tombstone map holds a tombstone of version
    2^64-1 for the key, the index holds no object for it, and an OBJ
    record of that key and version is replayed.  [minSuccessor] wraps to
    0, and the record is applied: the object enters the index and the
    tombstone leaves the map. *)
Lemma replay_applies_object_of_tombstone_version :
  let tm := {[ (7, 2) := maxTombstone ]} : ObjectTombstoneMap in
  let r := recoverObject maxObject tm demoServer0 in
  objectMap demoServer0 !! (7, 2) = None
  /\ obj_version maxObject = objectVersion maxTombstone
  /\ snd r = Ok ∅
  /\ contents (fst r) !! (7, 2) = Some maxObject.
Proof. vm_compute. auto. Qed.

Lemma replay_applies_from_minSuccessor_witness :
  exists s' tm',
    recoverObject (newObjectOf 7 1 1 "late") ∅ demoServer1 = (s', Ok tm')
    /\ s' = demoServer1 /\ tm' = ∅.
Proof.
  assert (Hv : IndexValid demoServer1)
    by (apply indexValidb_sound; vm_compute; reflexivity).
  assert (Hnb : NotBoth demoServer1 ∅)
    by (apply notBothb_sound; vm_compute; reflexivity).
  destruct (proj1 (replay_applies_from_minSuccessor demoServer1 ∅ Hv Hnb)
              (newObjectOf 7 1 1 "late"))
    as (s' & tm' & Hrun & _ & Hskip & _).
  exists s', tm'. split; [exact Hrun|]. apply Hskip. vm_compute. reflexivity.
Defined.

Lemma replay_order_independent_witness :
  exists s1 tm1 s2 tm2,
    replaySegments [segmentA; segmentB] ∅ demoServer1 = (s1, Ok tm1)
    /\ replaySegments [segmentB; segmentA] ∅ demoServer1 = (s2, Ok tm2)
    /\ contents s1 = contents s2
    /\ tm1 = tm2.
Proof.
  apply (replay_order_independent demoServer1 ∅
           [segmentA; segmentB] [segmentB; segmentA]).
  - apply indexValidb_sound. vm_compute. reflexivity.
  - apply contentsGoodb_sound. vm_compute. reflexivity.
  - apply entriesBelowMaxb_sound. vm_compute. reflexivity.
  - apply generationsAgreeb_sound. vm_compute. reflexivity.
  - apply perm_swap.
Defined.

(** C4, counterexample: two streams with the same records, segment by
    segment, that end with different contents of the object index.  In
    the first pair two records have the same key and version and
    different data; in the second pair a record has the version 2^64-1,
    after which [minSuccessor] wraps to 0. *)
Lemma replay_order_dependent :
  let a := (1, [EntryObj (newObjectOf 7 2 5 "a")]) in
  let b := (2, [EntryObj (newObjectOf 7 2 5 "b")]) in
  let big := (1, [EntryObj (newObjectOf 7 3 UINT64_MAX "big")]) in
  let small := (2, [EntryObj (newObjectOf 7 3 3 "small")]) in
  let run segments := replaySegments segments ∅ demoServer0 in
  ([a; b] ≡ₚ [b; a]
   /\ snd (run [a; b]) = Ok ∅ /\ snd (run [b; a]) = Ok ∅
   /\ contents (fst (run [a; b])) <> contents (fst (run [b; a])))
  /\ ([big; small] ≡ₚ [small; big]
      /\ snd (run [big; small]) = Ok ∅ /\ snd (run [small; big]) = Ok ∅
      /\ contents (fst (run [big; small]))
         <> contents (fst (run [small; big]))).
Proof.
  cbv zeta. split; (split; [apply perm_swap|]);
    (split; [vm_compute; reflexivity|]);
    (split; [vm_compute; reflexivity|]).
  - intros H. apply (f_equal (fun m => m !! (7, 2))) in H.
    vm_compute in H. discriminate.
  - intros H. apply (f_equal (fun m => m !! (7, 3))) in H.
    vm_compute in H. discriminate.
Qed.



(** [setTablets] and a Table that it deleted: told three times to serve
    the table 2^32+7, a new server makes a Table under the key 7 of
    [tables], deletes it in the second call (no new tablet has the id 7)
    and leaves its address in the tablet, and runs [delete] on that
    address again in the third call. *)
Example setTablets_deletes_a_Table_twice :
  let newTablet := demoTablet (2 ^ 32 + 7) in
  let s1 := fst (setTablets [newTablet]
                   (MasterServer_new 1 "mock:host=master" 1000)) in
  let s2 := fst (setTablets [newTablet] s1) in
  snd (setTablets [newTablet] s1) = Ok tt
  /\ tablets s2 = [set_user_data 1 newTablet]
  /\ tableHeap s2 !! 1 = None
  /\ snd (setTablets [newTablet] s2) = InvalidPointer.
Proof. vm_compute. auto. Qed.

(** C10, counterexample: the server serves table 7 and is told to serve
    the table 2^32+7 instead.  The table id 2^32+7 is only in the new
    set, and its tablet gets the address of the Table of table 7, which
    the call has deleted: the key type of [Tables] narrows 2^32+7 to 7. *)
Lemma setTablets_narrows_table_id :
  let newTablet := demoTablet (2 ^ 32 + 7) in
  let s' := fst (setTablets [newTablet] demoServer0) in
  table_id <$> tablets demoServer0 = [7]
  /\ tableHeap demoServer0 !! 1 = Some (Table_new 7)
  /\ tablets s' = [set_user_data 1 newTablet]
  /\ tableHeap s' !! 1 = None.
Proof. vm_compute. auto. Qed.

Lemma setTablets_keeps_shared_tables_witness :
  exists s',
    setTablets [demoTablet 7; demoTablet 8] demoServer1 = (s', Ok tt)
    /\ tablets s' = [set_user_data 1 (demoTablet 7);
                     set_user_data 2 (demoTablet 8)]
    /\ tableHeap s' !! 1 = tableHeap demoServer1 !! 1
    /\ tableHeap s' !! 2 = Some (Table_new 8).
Proof.
  destruct (setTablets_keeps_shared_tables demoServer1
              [demoTablet 7; demoTablet 8])
    as (s' & Hrun & _).
  - apply tablesConsistentb_sound. vm_compute. reflexivity.
  - apply tabletsU32b_sound. vm_compute. reflexivity.
  - apply tabletsU32b_sound. vm_compute. reflexivity.
  - exists s'. split; [exact Hrun|].
    assert (s' = fst (setTablets [demoTablet 7; demoTablet 8] demoServer1))
      as -> by (rewrite Hrun; reflexivity).
    vm_compute. auto.
Defined.

(** ** remove and the segment id of its tombstone *)

(** The tombstone that an accepted [remove] appends carries the version of
    the object it removes, and as segment id the value that the member
    held before the tombstone was constructed, whatever the segment of the
    object is. *)
Lemma remove_tombstone_fields tableId id rules uninit s s' ref v :
  objectMap s !! (tableId, id) = Some ref ->
  remove tableId id rules uninit s = (s', Ok v) ->
  exists prev tombRef,
    Log_object (log s) ref = Some prev
    /\ v = Some (obj_version prev)
    /\ trace s' =
       trace s ++
       [ EvLogFree ref;
         EvLogAppend
           (PTomb {| segmentId := uninit; tableId := obj_table prev;
                     objectId := obj_id prev;
                     objectVersion := obj_version prev |})
           sizeof_ObjectTombstone tombRef;
         EvMapRemove (tableId, id) ].
Proof.
  intros Hm H. apply remove_Ok in H as (t & _ & _ & _ & H).
  rewrite Hm in H. destruct H as (prev & tbl & tombRef & Hp & _ & Hv & _ & _ & _ & Ht).
  exists prev, tombRef. auto.
Qed.

(** C6, the code at a failing input: "hello" is in segment 0 of the log;
    [remove] appends a tombstone whose segment id is the value 12345 that
    the member happened to hold. *)
Lemma remove_tombstone_segmentId_uninitialised :
  Log_getSegmentId (log demoServer1) 0 = Some 0
  /\ objectMap demoServer1 !! (7, 1) = Some 0%nat
  /\ snd (remove 7 1 noRules 12345 demoServer1) = Ok (Some 1)
  /\ trace (fst (remove 7 1 noRules 12345 demoServer1)) =
     trace demoServer1 ++
     [ EvLogFree 0;
       EvLogAppend
         (PTomb {| segmentId := 12345; tableId := 7; objectId := 1;
                   objectVersion := 1 |})
         sizeof_ObjectTombstone 1;
       EvMapRemove (7, 1) ].
Proof. vm_compute. auto. Qed.

(** ** recover and a backup that fails *)

(** C5, the code at a failing input: the first value of [rdtsc()] goes to
    [srand], the second makes the chooser pick the first backup, the
    fetch fails, and recovery throws
    SegmentRecoveryFailed although the chooser still has the second backup
    for segment 42 (with which the same recovery returns). *)
Lemma recover_fails_on_first_backup_failure :
  let chooser := SegmentLocatorChooser_new (env_shuffle demoEnv) demoBackups in
  SegmentLocatorChooser_get chooser 42 0 = Ok backup1
  /\ snd (recoverRpc 10 demoEnv [0; 0] [] 99 [demoTablet 8] demoBackups
            demoServer0)
     = Throw SegmentRecoveryFailedException
  /\ SegmentLocatorChooser_get
       (SegmentLocatorChooser_markAsDown chooser 42 backup1) 42 0
     = Ok backup2
  /\ snd (recoverRpc 10 demoEnv [0; 1] [] 99 [demoTablet 8] demoBackups
            demoServer0)
     = Ok tt.
Proof. vm_compute. auto. Qed.


Lemma replay_keeps_object_and_tombstone_apart_witness :
  recoverEntry (EntryObj (newObjectOf 7 1 9 "nine"))
    {[ (7, 1) := {| segmentId := 0; tableId := 7; objectId := 1;
                    objectVersion := 1 |} ]} demoServer1
  = (demoServer1, AssertFailed).
Proof.
  apply (proj1 replay_keeps_object_and_tombstone_apart) with (k := (7, 1)).
  - reflexivity.
  - exists 0%nat. vm_compute. reflexivity.
  - eexists. vm_compute. reflexivity.
Defined.

(** ** AllocateKey finds a key *)

Lemma skipKeys_Some fuel m t k key :
  skipKeys fuel m t k = Some key -> m !! (t, key) = None.
Proof.
  revert k. induction fuel as [|fuel IH]; intros k; cbn.
  - destruct (m !! (t, k)) eqn:Hk; [discriminate|]. intros [= <-]. exact Hk.
  - destruct (m !! (t, k)) eqn:Hk; [apply IH|]. intros [= <-]. exact Hk.
Qed.

Lemma wrap64_add_succ k i :
  wrap64 (wrap64 (k + 1) + Z.of_nat i) = wrap64 (k + Z.of_nat (S i)).
Proof.
  unfold wrap64. rewrite Zplus_mod_idemp_l. f_equal. lia.
Qed.

Lemma skipKeys_None fuel m t k :
  0 <= k < 2 ^ 64 ->
  skipKeys fuel m t k = None ->
  forall i, (i <= fuel)%nat -> is_Some (m !! (t, wrap64 (k + Z.of_nat i))).
Proof.
  revert k. induction fuel as [|fuel IH]; intros k Hk; cbn.
  - destruct (m !! (t, k)) eqn:Hm; [|discriminate]. intros _ i Hi.
    assert (i = 0%nat) as -> by lia. rewrite Z.add_0_r, wrap64_small by lia.
    rewrite Hm. eauto.
  - destruct (m !! (t, k)) eqn:Hm; [|discriminate]. intros Hrest i Hi.
    destruct i as [|i].
    + rewrite Z.add_0_r, wrap64_small by lia. rewrite Hm. eauto.
    + rewrite <- wrap64_add_succ. apply IH; [|exact Hrest|lia].
      unfold wrap64. apply Z.mod_pos_bound. lia.
Qed.

(** With fewer than 2^64 objects in the index, the loop of [AllocateKey]
    ends within the fuel of the model, at a key that is not in the
    index. *)
Lemma skipKeys_returns (m : gmap Key nat) t k :
  0 <= k < 2 ^ 64 -> Z.of_nat (size m) < 2 ^ 64 ->
  exists key, skipKeys (size m) m t k = Some key /\ m !! (t, key) = None.
Proof.
  intros Hk Hsize.
  destruct (skipKeys (size m) m t k) as [key|] eqn:Hrun.
  { exists key. split; [reflexivity|]. eapply skipKeys_Some. exact Hrun. }
  exfalso. pose proof (skipKeys_None _ _ _ _ Hk Hrun) as Hall.
  set (f := fun i : nat => (t, wrap64 (k + Z.of_nat i))).
  set (l := f <$> seq 0 (S (size m))).
  assert (Hnd : NoDup l).
  { apply NoDup_fmap_2_strong; [|apply NoDup_seq].
    intros i j Hi Hj Heq. apply elem_of_seq in Hi, Hj.
    unfold f in Heq. injection Heq as Heq. unfold wrap64 in Heq.
    assert (Hd : ((k + Z.of_nat i) - (k + Z.of_nat j)) mod 2 ^ 64 = 0).
    { rewrite Zminus_mod, Heq, Z.sub_diag. reflexivity. }
    apply Z.mod_divide in Hd; [|lia]. destruct Hd as [c Hc].
    assert (c = 0) by nia. lia. }
  assert (Hsub : (list_to_set l : gset Key) ⊆ dom m).
  { intros x Hx. apply elem_of_list_to_set in Hx.
    apply list_elem_of_fmap in Hx as (i & -> & Hi).
    apply elem_of_seq in Hi. apply elem_of_dom. apply Hall. lia. }
  apply subseteq_size in Hsub.
  rewrite size_list_to_set, size_dom in Hsub by exact Hnd.
  unfold l in Hsub. rewrite length_fmap, length_seq in Hsub. lia.
Qed.

(** ** Further properties of the client operations *)

(** I4: after an accepted remove of an object of version below 2^64-1,
    the floor of the Table of the key lies above the version of the
    removed object. *)
Lemma remove_raises_version_floor
  (tableId id : Z) (rules : RejectRules) (uninit : Z)
  (s s' : MasterServer) (ref : nat) (prev : Object) (v : option Z) :
  objectMap s !! (tableId, id) = Some ref ->
  Log_object (log s) ref = Some prev ->
  0 <= obj_version prev < UINT64_MAX ->
  remove tableId id rules uninit s = (s', Ok v) ->
  v = Some (obj_version prev)
  /\ objectMap s' !! (tableId, id) = None
  /\ exists t tbl,
       tableOf s' (tableId, id) = Some t
       /\ tableHeap s' !! t = Some tbl
       /\ obj_version prev < nextVersion tbl.
Proof.
  intros Hm Ho Hrange Hrun.
  apply remove_Ok in Hrun as (t & Hget & Htab & _ & Hcase).
  apply getTable_Ok in Hget as [_ Htable].
  rewrite Hm in Hcase.
  destruct Hcase as (prev' & tbl & tombRef & Hp & _ & -> & Ht & Hheap & Hmap & _).
  assert (prev' = prev) as -> by congruence.
  split; [reflexivity|]. split; [rewrite Hmap; apply lookup_delete_eq|].
  exists t, (raisedVersion (wrap64 (obj_version prev + 1)) tbl). split_and!.
  - unfold tableOf. rewrite Htab. exact Htable.
  - rewrite Hheap. apply lookup_insert_eq.
  - unfold raisedVersion. cbn. rewrite wrap64_succ by exact Hrange.
    destruct (Z.ltb_spec (nextVersion tbl) (obj_version prev + 1)); lia.
Qed.

Lemma remove_raises_version_floor_witness :
  exists t tbl,
    tableOf (fst (remove 7 1 noRules 0 demoServer2)) (7, 1) = Some t
    /\ tableHeap (fst (remove 7 1 noRules 0 demoServer2)) !! t = Some tbl
    /\ 2 < nextVersion tbl.
Proof.
  refine (proj2 (proj2 (remove_raises_version_floor 7 1 noRules 0 demoServer2
                          (fst (remove 7 1 noRules 0 demoServer2)) 2
                          (newObjectOf 7 1 2 "world") (Some 2) _ _ _ _))).
  - vm_compute. reflexivity.
  - vm_compute. reflexivity.
  - vm_compute. split; [discriminate | reflexivity].
  - vm_compute. reflexivity.
Defined.

(** A read that returns gives the data and the version of the object of
    the index, which passed the reject rules, and changes nothing. *)
Lemma read_returns_index_object
  (tableId id : Z) (rules : RejectRules) (s s' : MasterServer)
  (data : string) (v : Z) :
  read tableId id rules s = (s', Ok (data, v)) ->
  s' = s
  /\ exists o, contents s !! (tableId, id) = Some o
               /\ data = obj_data o /\ v = obj_version o
               /\ rejectOperation rules v = Ok tt.
Proof.
  intros H. pose proof (read_Ok _ _ _ _ _ _ H) as ->. split; [reflexivity|].
  revert H. run_ops. intros H. crush_M.
  match goal with Hu : () |- _ => destruct Hu end.
  eexists. split; [eapply contents_Some; eassumption|]. auto.
Qed.

Lemma read_returns_index_object_witness :
  fst (read 7 1 noRules demoServer2) = demoServer2
  /\ exists o, contents demoServer2 !! (7, 1) = Some o
               /\ "world" = obj_data o /\ 2 = obj_version o
               /\ rejectOperation noRules 2 = Ok tt.
Proof.
  apply (read_returns_index_object 7 1 noRules demoServer2
           (fst (read 7 1 noRules demoServer2)) "world" 2).
  vm_compute. reflexivity.
Defined.

Lemma rejectOperation_noRules v : rejectOperation noRules v = Ok tt.
Proof. unfold rejectOperation, noRules. cbn. destruct (_ =? _); reflexivity. Qed.

(** Write then read: after an accepted write, a read of the key without
    rules returns the bytes that were written and the version that the
    write returned. *)
Lemma write_then_read
  (tableId id : Z) (rules : RejectRules) (data : string)
  (s s' : MasterServer) (v : Z) :
  write tableId id rules data s = (s', Ok v) ->
  read tableId id noRules s' = (s', Ok (data, v)).
Proof.
  unfold write. intros H.
  apply storeData_Ok in H as (t & objRef & Hget & Hnew & Hmap & Htab & _).
  unfold read.
  assert (Hget' : getTable tableId id s' = (s', Ok t)).
  { unfold getTable in *. rewrite Htab.
    destruct (find _ _); simplify_eq. reflexivity. }
  rewrite (bind_step _ _ _ _ _ Hget'). cbn beta.
  unfold bind at 1, objectMap_lookup. rewrite Hmap, lookup_insert_eq.
  unfold bind at 1, deref. rewrite Hnew.
  unfold bind, lift. rewrite rejectOperation_noRules. reflexivity.
Qed.

Lemma write_then_read_witness :
  read 7 1 noRules demoServer2 = (demoServer2, Ok ("world", 2)).
Proof.
  apply (write_then_read 7 1 noRules "world" demoServer1 demoServer2 2).
  vm_compute. reflexivity.
Defined.

(** ** A fetch that fails *)

(** Whatever the chooser holds: when a task whose RPC is ready ends with
    a transport or client exception, the pass over the slots throws
    SegmentRecoveryFailed, and no other backup is asked. *)
Lemma pollTask_failure_throws env chooser masterId tablets slot r task :
  rec_tasks r !! slot = Some (Some task) ->
  rec_ready r = [] \/ head (rec_ready r) = Some true ->
  (forall buffer,
      env_getRecoveryData env (task_backupLocator task) masterId
        (task_segmentId task) tablets <> RpcData buffer) ->
  exists r',
    pollTask env chooser masterId tablets slot r
    = (r', Throw SegmentRecoveryFailedException)
    /\ rec_master r' = rec_master r.
Proof.
  intros Htask Hready Hfail. unfold pollTask, bind at 1, get.
  rewrite Htask. unfold bind, rpc_isReady, completeTask.
  destruct (rec_ready r) as [|b rest] eqn:Hr.
  - cbn. destruct (env_getRecoveryData _ _ _ _ _) as [buffer| |] eqn:He;
      [destruct (Hfail buffer eq_refl) | |]; unfold throw; eauto.
  - destruct Hready as [|Hb]; [discriminate|]. cbn in Hb.
    injection Hb as ->. cbn.
    destruct (env_getRecoveryData _ _ _ _ _) as [buffer| |] eqn:He;
      [destruct (Hfail buffer eq_refl) | |]; unfold throw; eauto.
Qed.

(** ** The loop of recover replays every segment once *)

Lemma omap_take_task (tasks : list (option Task)) i t :
  tasks !! i = Some (Some t) ->
  omap id tasks ≡ₚ t :: omap id (<[i := None]> tasks).
Proof.
  revert i. induction tasks as [|x tasks IH]; intros i Hi; [discriminate|].
  destruct i as [|i]; cbn in *.
  - injection Hi as ->. reflexivity.
  - destruct x as [t'|].
    + rewrite (IH i Hi). apply perm_swap.
    + apply IH. exact Hi.
Qed.

Lemma omap_put_task (tasks : list (option Task)) i t :
  tasks !! i = Some None ->
  omap id (<[i := Some t]> tasks) ≡ₚ t :: omap id tasks.
Proof.
  revert i. induction tasks as [|x tasks IH]; intros i Hi; [discriminate|].
  destruct i as [|i]; cbn in *.
  - injection Hi as ->. reflexivity.
  - destruct x as [t'|].
    + rewrite (IH i Hi). apply perm_swap.
    + apply IH. exact Hi.
Qed.

Lemma unique_elem x l : x ∈ unique l -> x ∈ l.
Proof.
  induction l as [|y l IH]; [auto|]. cbn [unique].
  destruct l as [|z l]; [auto|].
  destruct (y =? z).
  - intros H. apply elem_of_cons. right. apply IH. exact H.
  - intros H. apply elem_of_cons in H as [->|H]; [apply elem_of_cons; auto|].
    apply elem_of_cons. right. apply IH. exact H.
Qed.

(** The chooser of a list of backups has a locator for every id of its
    schedule, when the shuffle is a permutation. *)
Lemma SegmentLocatorChooser_new_covers shuffle backups :
  (forall l, shuffle l ≡ₚ l) ->
  ChooserCovers (SegmentLocatorChooser_new shuffle backups).
Proof.
  intros Hperm segId. unfold SegmentLocatorChooser_new. cbn.
  set (m := foldl _ _ backups). rewrite Hperm. intros Hin Hnil.
  apply unique_elem, list_elem_of_fmap in Hin as ([k v] & -> & Hin).
  eapply (filter_nil_not_elem_of _ _ (k, v)); [exact Hnil | reflexivity | exact Hin].
Qed.

Lemma SegmentLocatorChooser_get_Ok chooser segId tsc :
  equal_range (chooser_map chooser) segId <> [] ->
  exists locator, SegmentLocatorChooser_get chooser segId tsc = Ok locator.
Proof.
  intros Hne. unfold SegmentLocatorChooser_get.
  destruct (equal_range (chooser_map chooser) segId) as [|e range] eqn:Hr;
    [contradiction|].
  set (count := Z.of_nat (length (e :: range))).
  assert (Hlt : (Z.to_nat (tsc mod count) < length (e :: range))%nat).
  { pose proof (Z.mod_pos_bound tsc count ltac:(unfold count; cbn; lia)).
    unfold count in *. lia. }
  apply lookup_lt_is_Some_2 in Hlt as [x Hx]. rewrite Hx. eauto.
Qed.

(** [construct] on an empty slot, for an id that has a locator. *)
Lemma constructTask_run chooser slot segId r :
  equal_range (chooser_map chooser) segId <> [] ->
  exists locator r',
    constructTask chooser slot segId r = (r', Ok tt)
    /\ rec_tasks r' = <[slot := Some (mkTask segId locator)]> (rec_tasks r)
    /\ rec_master r' = rec_master r
    /\ rec_tombstoneMap r' = rec_tombstoneMap r
    /\ rec_segIds r' = rec_segIds r
    /\ rec_activeSegments r' = rec_activeSegments r
    /\ rec_ready r' = rec_ready r
    /\ rec_replayed r' = rec_replayed r.
Proof.
  intros Hne. unfold constructTask, bind, rdtsc, lift, modify.
  destruct (rec_tscs r) as [|tsc rest].
  - destruct (SegmentLocatorChooser_get_Ok chooser segId 0 Hne) as [loc ->].
    eexists _, _. split; [reflexivity|]. cbn. auto 12.
  - cbn. destruct (SegmentLocatorChooser_get_Ok chooser segId tsc Hne)
      as [loc ->].
    eexists _, _. split; [reflexivity|]. cbn. auto 12.
Qed.

(** [recoverSegment], called by the loop, computes the merge of the
    buffer. *)
Lemma callRecoverSegment_run segId buffer r :
  IndexValid (rec_master r) -> NotBoth (rec_master r) (rec_tombstoneMap r) ->
  exists m tm,
    callRecoverSegment segId buffer r
    = (with_master m tm (with_replayed (rec_replayed r ++ [segId]) r), Ok tt)
    /\ (contents m, tm)
       = foldl mergeEntry (contents (rec_master r), rec_tombstoneMap r) buffer
    /\ IndexValid m /\ NotBoth m tm.
Proof.
  intros Hv Hnb.
  destruct (recoverSegment_simulates segId buffer _ _ Hv Hnb)
    as (m & tm & Hrun & Hc & Hv' & Hnb').
  exists m, tm. unfold callRecoverSegment, bind, modify.
  cbn [rec_tombstoneMap rec_master with_replayed]. rewrite Hrun. auto.
Qed.

Lemma omap_length_le (tasks : list (option Task)) :
  (length (omap id tasks) <= length tasks)%nat.
Proof.
  induction tasks as [|[t|] tasks IH]; cbn; lia.
Qed.

Lemma omap_all_some (tasks : list (option Task)) :
  Forall is_Some tasks -> length (omap id tasks) = length tasks.
Proof.
  induction 1 as [|x l [t ->] _ IH]; cbn; [reflexivity|]. rewrite IH. reflexivity.
Qed.

Lemma omap_nonempty (tasks : list (option Task)) :
  omap id tasks <> [] -> exists i t, tasks !! i = Some (Some t).
Proof.
  induction tasks as [|[t|] tasks IH]; cbn; intros H.
  - contradiction.
  - exists 0%nat, t. reflexivity.
  - destruct (IH H) as (i & t & Hi). exists (S i), t. exact Hi.
Qed.

(** The values that [rdtsc()] and [isReady()] still return are no part of
    the invariant. *)
Lemma RecoverInv_oracles chooser data a0 pre r done t b :
  RecoverInv chooser data a0 pre r done ->
  RecoverInv chooser data a0 pre (with_oracles t b r) done.
Proof. intros H. exact H. Qed.

Lemma inFlight_take r slot task :
  rec_tasks r !! slot = Some (Some task) ->
  inFlight r ≡ₚ task_segmentId task
                 :: (task_segmentId <$> omap id (<[slot := None]> (rec_tasks r))).
Proof.
  intros H. unfold inFlight. rewrite (omap_take_task _ _ _ H). reflexivity.
Qed.

(** A fetch that completes: the segment is replayed, and the slot takes
    the next id or the count of active segments falls. *)
Lemma completeTask_inv env chooser masterId tablets data a0 pre slot task r
  done :
  ChooserCovers chooser ->
  (forall locator segId,
      env_getRecoveryData env locator masterId segId tablets
      = RpcData (data segId)) ->
  RecoverInv chooser data a0 pre r done ->
  rec_tasks r !! slot = Some (Some task) ->
  exists r',
    completeTask env chooser masterId tablets slot task r = (r', Ok tt)
    /\ RecoverInv chooser data a0 pre r' (done ++ [task_segmentId task])
    /\ rec_ready r' = rec_ready r
    /\ (length (rec_segIds r') + length (inFlight r')
        < length (rec_segIds r) + length (inFlight r))%nat.
Proof.
  intros Hcov Henv (Hlen & Hact & Hfull & Hperm & Hv & Hnb & Hc & Hrep) Hslot.
  unfold completeTask. rewrite Henv.
  destruct (callRecoverSegment_run (task_segmentId task)
              (data (task_segmentId task)) r Hv Hnb)
    as (m & tm & Hrun & Hmerge & Hv' & Hnb').
  pose proof (inFlight_take r slot task Hslot) as Htake.
  pose proof (Permutation_length Htake) as Htakelen. cbn [length] in Htakelen.
  pose proof (omap_length_le (rec_tasks r)) as Hle.
  assert (Hfold : (contents m, tm)
                  = foldl mergeEntry a0
                      (concat (data <$> done ++ [task_segmentId task]))).
  { rewrite fmap_app, concat_app, foldl_app, <- Hc. cbn.
    rewrite app_nil_r. exact Hmerge. }
  unfold bind at 1. rewrite Hrun. unfold bind at 1, modify.
  unfold bind at 1, get. cbn [rec_segIds with_tasks with_master with_replayed].
  destruct (rec_segIds r) as [|segId segIds'] eqn:Hpending.
  - eexists. split; [reflexivity|]. cbn. unfold RecoverInv, inFlight. cbn.
    rewrite length_insert. rewrite Hpending.
    unfold inFlight in Hact, Htakelen, Hperm.
    rewrite !length_fmap in Htakelen. rewrite ?length_fmap in Hact |- *.
    repeat split; try assumption.
    + rewrite Hact, Htakelen. unfold wrap32.
      rewrite Z.mod_small; lia.
    + congruence.
    + rewrite <- Hperm, Htake. rewrite <- app_assoc. reflexivity.
    + rewrite Hrep, <- app_assoc. reflexivity.
    + rewrite ?length_fmap. cbn. lia.
  - assert (Hin : segId ∈ chooser_ids chooser).
    { rewrite <- Hperm. rewrite !elem_of_app. right. right.
      apply elem_of_cons. auto. }
    set (r1 := with_segIds segIds'
                 (with_tasks (<[slot:=None]> (rec_tasks r))
                    (with_master m tm
                       (with_replayed
                          (rec_replayed r ++ [task_segmentId task]) r)))).
    destruct (constructTask_run chooser slot segId r1 (Hcov segId Hin))
      as (loc & r' & Hrun' & Htasks & Hm & Htm & Hids & Hactive & Hready
          & Hreplayed).
    exists r'. unfold bind at 1, modify. cbn beta iota.
    split; [exact Hrun'|].
    assert (Hlt : (slot < length (rec_tasks r))%nat)
      by (eapply lookup_lt_Some; exact Hslot).
    assert (Hput : inFlight r' ≡ₚ segId :: (task_segmentId
                     <$> omap id (<[slot := None]> (rec_tasks r)))).
    { unfold inFlight. rewrite Htasks. subst r1. cbn.
      rewrite omap_put_task; [reflexivity|].
      apply list_lookup_insert_eq. exact Hlt. }
    pose proof (Permutation_length Hput) as Hputlen. cbn [length] in Hputlen.
    split; [|split].
    + unfold RecoverInv. rewrite Htasks, Hm, Htm, Hids, Hactive, Hreplayed.
      subst r1. cbn. rewrite !length_insert.
      repeat split; try assumption.
      * rewrite Hact. lia.
      * intros _. rewrite list_insert_insert_eq.
        apply Forall_insert; [|eexists; reflexivity].
        apply Hfull. discriminate.
      * rewrite <- Hperm, Hput, Htake. rewrite <- app_assoc. cbn.
        apply Permutation_app_head. apply perm_skip.
        apply Permutation_middle.
      * rewrite Hrep, <- app_assoc. reflexivity.
    + rewrite Hready. reflexivity.
    + rewrite Hids. subst r1. cbn. lia.
Qed.

(** One slot of one pass: the invariant is kept, and the measure falls
    when the slot holds a task. *)
Lemma pollTask_inv env chooser masterId tablets data a0 pre slot r done :
  ChooserCovers chooser ->
  (forall locator segId,
      env_getRecoveryData env locator masterId segId tablets
      = RpcData (data segId)) ->
  RecoverInv chooser data a0 pre r done ->
  exists r' done',
    pollTask env chooser masterId tablets slot r = (r', Ok tt)
    /\ RecoverInv chooser data a0 pre r' done'
    /\ (recoverMeasure r' <= recoverMeasure r)%nat
    /\ (is_Some (taskAt r slot) ->
        (recoverMeasure r' < recoverMeasure r)%nat)
    /\ (taskAt r slot = None -> r' = r).
Proof.
  intros Hcov Henv Hinv. unfold pollTask, bind at 1, get, taskAt.
  destruct (rec_tasks r !! slot) as [[task|]|] eqn:Hslot.
  2,3: exists r, done; unfold ret;
       refine (conj eq_refl (conj Hinv (conj _ (conj _ _))));
         [lia | intros [? ?]; discriminate | reflexivity].
  unfold bind at 1, rpc_isReady.
  destruct (rec_ready r) as [|b rest] eqn:Hready.
  - cbn [negb].
    destruct (completeTask_inv env chooser masterId tablets data a0 pre slot
                task r done Hcov Henv Hinv Hslot)
      as (r' & Hrun & Hinv' & Hr & Hlt).
    exists r', (done ++ [task_segmentId task]). rewrite Hrun.
    unfold recoverMeasure. rewrite Hr.
    refine (conj eq_refl (conj Hinv' (conj _ (conj _ _))));
      [lia | intros _; lia | discriminate].
  - destruct b; cbn [negb].
    + set (r1 := with_oracles (rec_tscs r) rest r).
      destruct (completeTask_inv env chooser masterId tablets data a0 pre slot
                  task r1 done Hcov Henv
                  (RecoverInv_oracles _ _ _ _ _ _ _ _ Hinv) Hslot)
        as (r' & Hrun & Hinv' & Hr & Hlt).
      exists r', (done ++ [task_segmentId task]). rewrite Hrun.
      unfold recoverMeasure. rewrite Hr, Hready.
      change (inFlight r1) with (inFlight r) in Hlt.
      change (rec_segIds r1) with (rec_segIds r) in Hlt.
      cbn [rec_ready r1 with_oracles length].
      refine (conj eq_refl (conj Hinv' (conj _ (conj _ _))));
        [lia | intros _; lia | discriminate].
    + exists (with_oracles (rec_tscs r) rest r), done. unfold ret.
      unfold recoverMeasure. rewrite Hready.
      change (inFlight (with_oracles (rec_tscs r) rest r)) with (inFlight r).
      cbn [rec_ready rec_segIds with_oracles length].
      refine (conj eq_refl (conj (RecoverInv_oracles _ _ _ _ _ _ _ _ Hinv)
                (conj _ (conj _ _)))); [lia | intros _; lia | discriminate].
Qed.

Lemma pollTasks_inv env chooser masterId tablets data a0 pre slots :
  ChooserCovers chooser ->
  (forall locator segId,
      env_getRecoveryData env locator masterId segId tablets
      = RpcData (data segId)) ->
  forall r done,
    RecoverInv chooser data a0 pre r done ->
    exists r' done',
      pollTasks env chooser masterId tablets slots r = (r', Ok tt)
      /\ RecoverInv chooser data a0 pre r' done'
      /\ (recoverMeasure r' <= recoverMeasure r)%nat
      /\ ((exists slot, slot ∈ slots /\ is_Some (taskAt r slot)) ->
          (recoverMeasure r' < recoverMeasure r)%nat).
Proof.
  intros Hcov Henv. induction slots as [|slot slots IH]; intros r done Hinv.
  - exists r, done. cbn. unfold ret.
    refine (conj eq_refl (conj Hinv (conj _ _))); [lia|].
    intros (slot & Hin & _). inversion Hin.
  - destruct (pollTask_inv env chooser masterId tablets data a0 pre slot r done
                Hcov Henv Hinv) as (r1 & done1 & Hrun & Hinv1 & Hle & Hlt & Hsame).
    destruct (IH r1 done1 Hinv1) as (r2 & done2 & Hrun2 & Hinv2 & Hle2 & Hlt2).
    exists r2, done2. cbn [pollTasks]. unfold bind. rewrite Hrun, Hrun2.
    refine (conj eq_refl (conj Hinv2 (conj _ _))); [lia|].
    intros (slot' & Hin & Hsome).
    apply elem_of_cons in Hin as [->|Hin].
    + specialize (Hlt Hsome). lia.
    + destruct (taskAt r slot) as [t|] eqn:Ht.
      * specialize (Hlt ltac:(eauto)). lia.
      * rewrite (Hsame eq_refl) in *. 
        specialize (Hlt2 ltac:(eauto)). lia.
Qed.

Lemma inFlight_slot r :
  length (rec_tasks r) = 4%nat -> inFlight r <> [] ->
  exists slot, slot ∈ [0; 1; 2; 3]%nat /\ is_Some (taskAt r slot).
Proof.
  intros Hlen Hne.
  destruct (omap_nonempty (rec_tasks r)) as (i & t & Hi).
  { intros H. apply Hne. unfold inFlight. rewrite H. reflexivity. }
  exists i. split.
  - apply lookup_lt_Some in Hi. rewrite Hlen in Hi.
    do 4 (destruct i as [|i]; [set_solver|]). lia.
  - unfold taskAt. rewrite Hi. eauto.
Qed.

(** The second loop ends when the fuel covers the measure. *)
Lemma recoverLoop_inv env chooser masterId tablets data a0 pre fuel :
  ChooserCovers chooser ->
  (forall locator segId,
      env_getRecoveryData env locator masterId segId tablets
      = RpcData (data segId)) ->
  forall r done,
    RecoverInv chooser data a0 pre r done ->
    (recoverMeasure r <= fuel)%nat ->
    exists r' done',
      recoverLoop fuel env chooser masterId tablets r = (r', Ok tt)
      /\ RecoverInv chooser data a0 pre r' done'
      /\ rec_activeSegments r' = 0.
Proof.
  intros Hcov Henv. induction fuel as [|fuel IH]; intros r done Hinv Hfuel.
  - exists r, done. cbn. unfold bind, get.
    assert (H0 : rec_activeSegments r = 0).
    { destruct Hinv as (Hlen & Hact & Hrest). unfold recoverMeasure in Hfuel.
      lia. }
    replace (0 <? rec_activeSegments r) with false
      by (symmetry; apply Z.ltb_ge; lia).
    unfold ret. exact (conj eq_refl (conj Hinv H0)).
  - cbn [recoverLoop]. unfold bind at 1, get.
    destruct (0 <? rec_activeSegments r) eqn:Hpos.
    + apply Z.ltb_lt in Hpos.
      destruct (pollTasks_inv env chooser masterId tablets data a0 pre
                  [0; 1; 2; 3]%nat Hcov Henv r done Hinv)
        as (r1 & done1 & Hrun & Hinv1 & Hle & Hlt).
      assert (Hdec : (recoverMeasure r1 < recoverMeasure r)%nat).
      { apply Hlt. destruct Hinv as (Hlen & Hact & _).
        apply inFlight_slot; [exact Hlen|].
        intros H. rewrite H in Hact. cbn in Hact. lia. }
      destruct (IH r1 done1 Hinv1 ltac:(lia)) as (r2 & done2 & Hrun2 & Hinv2 & H0).
      exists r2, done2. unfold bind. rewrite Hrun, Hrun2. auto.
    + apply Z.ltb_ge in Hpos. exists r, done. unfold ret.
      refine (conj eq_refl (conj Hinv _)).
      destruct Hinv as (Hlen & Hact & Hrest). lia.
Qed.

(** The loop [Start RPCs] from slot [k] on establishes the invariant. *)
Lemma startTasks_inv chooser data a0 pre n :
  ChooserCovers chooser ->
  forall k r,
    (k + n = 4)%nat ->
    length (rec_tasks r) = 4%nat ->
    (forall j, (j < k)%nat -> is_Some (taskAt r j)) ->
    (forall j, (k <= j < 4)%nat -> rec_tasks r !! j = Some None) ->
    rec_activeSegments r = Z.of_nat (length (inFlight r)) ->
    inFlight r ++ rec_segIds r ≡ₚ chooser_ids chooser ->
    IndexValid (rec_master r) ->
    NotBoth (rec_master r) (rec_tombstoneMap r) ->
    (contents (rec_master r), rec_tombstoneMap r) = a0 ->
    rec_replayed r = pre ->
    exists r',
      startTasks chooser (seq k n) r = (r', Ok tt)
      /\ RecoverInv chooser data a0 pre r' []
      /\ rec_ready r' = rec_ready r.
Proof.
  intros Hcov. induction n as [|n IH];
    intros k r Hk Hlen Hsome Hnone Hact Hperm Hv Hnb Hc Hrep.
  - exists r. cbn. unfold ret. split; [reflexivity|]. split; [|reflexivity].
    unfold RecoverInv. cbn.
    repeat split; try assumption; try (rewrite app_nil_r; exact Hrep).
    intros _. apply Forall_lookup. intros i x Hi.
    assert (Hlt : (i < k)%nat)
      by (apply lookup_lt_Some in Hi; lia).
    specialize (Hsome i Hlt). unfold taskAt in Hsome. rewrite Hi in Hsome.
    destruct x; [eauto | destruct Hsome; discriminate].
  - cbn [seq startTasks]. unfold bind at 1, get.
    destruct (rec_segIds r) as [|segId segIds'] eqn:Hpending.
    + exists r. unfold ret. split; [reflexivity|]. split; [|reflexivity].
      unfold RecoverInv. rewrite Hpending. cbn.
      repeat split; try assumption; try (rewrite app_nil_r; exact Hrep).
      congruence.
    + assert (Hin : segId ∈ chooser_ids chooser).
      { rewrite <- Hperm. rewrite elem_of_app. right.
        apply elem_of_cons. auto. }
      destruct (constructTask_run chooser k segId (with_segIds segIds' r)
                  (Hcov segId Hin))
        as (loc & r1 & Hrun & Htasks & Hm & Htm & Hids & Hactive & Hready
            & Hreplayed).
      cbn in Htasks, Hm, Htm, Hids, Hactive, Hready, Hreplayed.
      assert (Hput : inFlight r1 ≡ₚ segId :: inFlight r).
      { unfold inFlight. rewrite Htasks, omap_put_task; [reflexivity|].
        apply Hnone. lia. }
      pose proof (Permutation_length Hput) as Hputlen. cbn in Hputlen.
      pose proof (omap_length_le (rec_tasks r1)) as Hle.
      assert (Hlen1 : length (rec_tasks r1) = 4%nat)
        by (rewrite Htasks, length_insert; exact Hlen).
      set (r2 := with_activeSegments (wrap32 (rec_activeSegments r1 + 1)) r1).
      destruct (IH (S k) r2) as (r' & Hrun' & Hinv & Hready').
      * lia.
      * exact Hlen1.
      * intros j Hj. unfold taskAt. cbn. rewrite Htasks.
        destruct (decide (j = k)) as [->|Hne].
        -- rewrite list_lookup_insert_eq by lia. eauto.
        -- rewrite list_lookup_insert_ne by congruence.
           apply (Hsome j). lia.
      * intros j Hj. cbn. rewrite Htasks.
        rewrite list_lookup_insert_ne by lia. apply Hnone. lia.
      * subst r2. cbn. change (inFlight (with_activeSegments _ r1))
          with (inFlight r1).
        unfold inFlight in Hputlen, Hact. rewrite !length_fmap in Hputlen.
        rewrite length_fmap in Hact.
        rewrite Hactive, Hact. unfold inFlight, wrap32.
        rewrite length_fmap. rewrite Z.mod_small; lia.
      * change (inFlight r2) with (inFlight r1). cbn. rewrite Hids, Hput.
        rewrite <- Hperm. cbn. apply Permutation_middle.
      * cbn. rewrite Hm. exact Hv.
      * cbn. rewrite Hm, Htm. exact Hnb.
      * cbn. rewrite Hm, Htm. exact Hc.
      * cbn. rewrite Hreplayed. exact Hrep.
      * exists r'. unfold bind at 1, modify. cbn beta iota.
        unfold bind at 1. rewrite Hrun. unfold bind at 1, modify.
        cbn beta iota. fold r2. rewrite Hrun'.
        split; [reflexivity|]. split; [exact Hinv|].
        rewrite Hready'. cbn. exact Hready.
Qed.

Lemma concat_fmap_Permutation {A B} (f : A -> list B) l1 l2 :
  l1 ≡ₚ l2 -> concat (f <$> l1) ≡ₚ concat (f <$> l2).
Proof.
  induction 1 as [|x l1 l2 _ IH|x y l|l1 l2 l3 _ IH1 _ IH2]; cbn.
  - reflexivity.
  - rewrite IH. reflexivity.
  - rewrite !app_assoc. apply Permutation_app_tail, Permutation_app_comm.
  - rewrite IH1. exact IH2.
Qed.

(** [recover] returns when every fetch succeeds, and it has then
    replayed the segments of the schedule, each once, in some order
    [done]: these are its calls of [recoverSegment]. *)
Lemma recover_returns
  (fuel : nat) (env : RecoveryEnv) (masterId : Z) (tablets : list Tablet)
  (backups : list ServerListEntry) (data : Z -> list SegmentEntry)
  (r0 : Recovery) :
  let chooser := SegmentLocatorChooser_new (env_shuffle env) backups in
  let ids := SegmentLocatorChooser_getSegmentIdList chooser in
  (forall l, env_shuffle env l ≡ₚ l) ->
  (forall locator segId,
      env_getRecoveryData env locator masterId segId tablets
      = RpcData (data segId)) ->
  IndexValid (rec_master r0) ->
  NotBoth (rec_master r0) (rec_tombstoneMap r0) ->
  (length (rec_ready r0) + length ids <= fuel)%nat ->
  exists r' done,
    recover fuel env masterId tablets backups r0 = (r', Ok tt)
    /\ IndexValid (rec_master r')
    /\ done ≡ₚ ids
    /\ (contents (rec_master r'), rec_tombstoneMap r')
       = foldl mergeEntry (contents (rec_master r0), rec_tombstoneMap r0)
           (concat (data <$> done))
    /\ rec_replayed r' = rec_replayed r0 ++ done.
Proof.
  intros chooser ids Hshuffle Henv Hv Hnb Hfuel.
  pose proof (SegmentLocatorChooser_new_covers (env_shuffle env) backups
                Hshuffle) as Hcov. fold chooser in Hcov.
  set (a0 := (contents (rec_master r0), rec_tombstoneMap r0)).
  (* srand(rdtsc()) *)
  assert (Hseed : exists tsc rest,
             rdtsc r0 = (with_oracles rest (rec_ready r0) r0, Ok tsc)).
  { unfold rdtsc. destruct (rec_tscs r0) as [|x rest] eqn:Htscs.
    - exists 0, []. rewrite <- Htscs. destruct r0; reflexivity.
    - eauto. }
  destruct Hseed as (tsc & rest & Hseed).
  set (r0' := with_oracles rest (rec_ready r0) r0) in *.
  set (r1 := with_activeSegments 0
               (with_segIds ids (with_tasks (replicate 4 None) r0'))).
  destruct (startTasks_inv chooser data a0 (rec_replayed r0) 4 Hcov 0 r1)
    as (r2 & Hrun2 & Hinv2 & Hready2).
  - reflexivity.
  - reflexivity.
  - intros j Hj. lia.
  - intros j Hj. cbn. do 4 (destruct j as [|j]; [reflexivity|]). lia.
  - reflexivity.
  - reflexivity.
  - exact Hv.
  - exact Hnb.
  - reflexivity.
  - reflexivity.
  - assert (Hm : (recoverMeasure r2 <= fuel)%nat).
    { unfold recoverMeasure. rewrite Hready2.
      destruct Hinv2 as (_ & _ & _ & Hperm & _).
      rewrite app_nil_l in Hperm. apply Permutation_length in Hperm.
      rewrite length_app in Hperm.
      change (chooser_ids chooser) with ids in Hperm.
      change (rec_ready r1) with (rec_ready r0). lia. }
    destruct (recoverLoop_inv env chooser masterId tablets data a0
                (rec_replayed r0) fuel
                Hcov Henv r2 [] Hinv2 Hm)
      as (r3 & done & Hrun3
          & (Hlen & Hact & Hfull & Hperm & Hv3 & Hnb3 & Hc3 & Hrep3) & H0).
    exists r3, done. unfold recover. unfold bind at 1. rewrite Hseed.
    fold chooser. unfold bind at 1, modify.
    cbn beta iota. fold ids. fold r1. change [0;1;2;3]%nat with (seq 0 4).
    unfold bind. rewrite Hrun2, Hrun3.
    split; [reflexivity|]. split; [exact Hv3|].
    assert (Hnil : inFlight r3 = []).
    { destruct (inFlight r3); [reflexivity|]. cbn in Hact. lia. }
    assert (Hpend : rec_segIds r3 = []).
    { destruct (rec_segIds r3) as [|x l] eqn:Hp; [reflexivity|].
      pose proof (omap_all_some _ (Hfull ltac:(discriminate))) as Hall'.
      unfold inFlight in Hnil. apply fmap_nil_inv in Hnil.
      rewrite Hnil, Hlen in Hall'. discriminate. }
    rewrite Hnil, Hpend, !app_nil_r in Hperm.
    split; [exact Hperm|]. split; [exact Hc3 | exact Hrep3].
Qed.

(** ** The chooser of backups *)

Lemma multimap_insert_elem k v m x :
  x ∈ multimap_insert k v m <-> x = (k, v) \/ x ∈ m.
Proof.
  induction m as [|[k' v'] m IH]; cbn.
  - rewrite list_elem_of_singleton. split; [auto|]. intros [H|H]; [exact H|inversion H].
  - destruct (k <? k').
    + rewrite elem_of_cons. reflexivity.
    + rewrite !elem_of_cons, IH. tauto.
Qed.

Lemma multimap_insert_sorted k v m :
  keysSorted m -> keysSorted (multimap_insert k v m).
Proof.
  unfold keysSorted. induction m as [|[k' v'] m IH]; cbn; intros Hs.
  - repeat constructor.
  - apply StronglySorted_inv in Hs as [Hs Hall].
    destruct (Z.ltb_spec k k') as [Hlt|Hge]; cbn.
    + constructor; [constructor; assumption|].
      constructor; [lia|]. eapply Forall_impl; [exact Hall|].
      cbn. intros; lia.
    + constructor; [apply IH; exact Hs|].
      apply Forall_forall. intros y Hy.
      apply list_elem_of_fmap in Hy as ([k2 v2] & -> & Hin).
      apply multimap_insert_elem in Hin as [[= -> ->]|Hin]; cbn; [lia|].
      rewrite Forall_forall in Hall. apply Hall.
      apply list_elem_of_fmap. exists (k2, v2). auto.
Qed.

(** The map that the constructor builds: its pairs are the offers of the
    list, and its keys ascend. *)
Lemma chooser_map_spec shuffle list :
  let m := chooser_map (SegmentLocatorChooser_new shuffle list) in
  keysSorted m
  /\ forall segId locator,
       (segId, locator) ∈ m <-> exists e, e ∈ list /\ offers e segId locator.
Proof.
  unfold SegmentLocatorChooser_new. cbn.
  induction list as [|e list IH] using rev_ind; cbn.
  - split; [constructor|]. intros segId locator. split.
    + intros H. inversion H.
    + intros (e & H & _). inversion H.
  - rewrite foldl_app. cbn. destruct IH as [IHs IHm].
    set (m := foldl _ [] list) in *.
    assert (Hold : forall segId locator,
               (exists e0, e0 ∈ list /\ offers e0 segId locator) ->
               exists e0, e0 ∈ list ++ [e] /\ offers e0 segId locator).
    { intros segId locator (e0 & Hin & Ho). exists e0.
      rewrite elem_of_app. auto. }
    assert (Hskip : ~ usableBackup e ->
               forall segId locator,
                 (exists e0, e0 ∈ list ++ [e] /\ offers e0 segId locator) ->
                 exists e0, e0 ∈ list /\ offers e0 segId locator).
    { intros Hno segId locator (e0 & Hin & Ho).
      apply elem_of_app in Hin as [Hin|Hin]; [eauto|].
      apply list_elem_of_singleton in Hin as ->. destruct Ho as [Hu _].
      contradiction. }
    destruct (has_segment_id e) eqn:Hseg; cbn.
    2:{ split; [exact IHs|]. intros segId locator. rewrite IHm.
        split; [apply Hold | apply Hskip].
        intros [Hu _]. congruence. }
    destruct (server_type e) eqn:Hty.
    { split; [exact IHs|]. intros segId locator. rewrite IHm.
      split; [apply Hold | apply Hskip].
      intros [_ Hu]. congruence. }
    split; [apply multimap_insert_sorted; exact IHs|].
    intros segId locator. rewrite multimap_insert_elem, IHm. split.
    + intros [[= -> ->]|H]; [|apply Hold; exact H].
      exists e. rewrite elem_of_app, list_elem_of_singleton.
      unfold offers, usableBackup. auto.
    + intros (e0 & Hin & Ho).
      apply elem_of_app in Hin as [Hin|Hin]; [eauto|].
      apply list_elem_of_singleton in Hin as ->.
      destruct Ho as (_ & <- & <-). auto.
Qed.

Lemma equal_range_elem (m : LocatorMap) segId x :
  x ∈ equal_range m segId <-> fst x = segId /\ x ∈ m.
Proof. unfold equal_range. rewrite list_elem_of_filter. reflexivity. Qed.

(** [get] picks a pair of the range, and every pair of the range is
    picked for some value of [rdtsc()]. *)
Lemma SegmentLocatorChooser_get_range c segId tsc :
  match SegmentLocatorChooser_get c segId tsc with
  | Ok locator => (segId, locator) ∈ chooser_map c
  | Throw e =>
      e = SegmentRecoveryFailedException
      /\ equal_range (chooser_map c) segId = []
  | _ => False
  end.
Proof.
  unfold SegmentLocatorChooser_get.
  destruct (equal_range (chooser_map c) segId) as [|e range] eqn:Hr; [auto|].
  set (count := Z.of_nat (length (e :: range))).
  assert (Hlt : (Z.to_nat (tsc mod count) < length (e :: range))%nat).
  { pose proof (Z.mod_pos_bound tsc count ltac:(unfold count; cbn; lia)).
    unfold count in *. lia. }
  apply lookup_lt_is_Some_2 in Hlt as [[k v] Hx]. rewrite Hx. cbn.
  apply list_elem_of_lookup_2 in Hx. rewrite <- Hr in Hx.
  apply equal_range_elem in Hx as [Hk Hin]. cbn in Hk. subst k. exact Hin.
Qed.

Lemma SegmentLocatorChooser_get_reaches c segId locator :
  (segId, locator) ∈ chooser_map c ->
  exists tsc, 0 <= tsc /\ SegmentLocatorChooser_get c segId tsc = Ok locator.
Proof.
  intros Hin.
  assert (Hr : (segId, locator) ∈ equal_range (chooser_map c) segId)
    by (apply equal_range_elem; auto).
  apply list_elem_of_lookup in Hr as [i Hi].
  pose proof (lookup_lt_Some _ _ _ Hi) as Hlt.
  exists (Z.of_nat i). unfold SegmentLocatorChooser_get.
  destruct (equal_range (chooser_map c) segId) as [|e range] eqn:Hrange;
    [discriminate|].
  rewrite Z.mod_small by lia. rewrite Nat2Z.id, Hi. split; [lia|reflexivity].
Qed.

(** The chooser returns only locators that the list offers: [get] ends
    with the locator of an entry of the list that is a backup with this
    segment id, or throws SegmentRecoveryFailed when the list has no such
    entry; and every such entry is returned for some value of [rdtsc()]. *)
Theorem chooser_get_returns_listed_backup
  (shuffle : list Z -> list Z) (list : list ServerListEntry) (segId : Z) :
  let c := SegmentLocatorChooser_new shuffle list in
  (forall tsc,
      match SegmentLocatorChooser_get c segId tsc with
      | Ok locator => exists e, e ∈ list /\ offers e segId locator
      | Throw ex =>
          ex = SegmentRecoveryFailedException
          /\ forall e locator, e ∈ list -> ~ offers e segId locator
      | _ => False
      end)
  /\ (forall e locator,
         e ∈ list -> offers e segId locator ->
         exists tsc, 0 <= tsc
                     /\ SegmentLocatorChooser_get c segId tsc = Ok locator).
Proof.
  intros c. destruct (chooser_map_spec shuffle list) as [_ Hm]. fold c in Hm.
  split.
  - intros tsc. pose proof (SegmentLocatorChooser_get_range c segId tsc) as H.
    destruct (SegmentLocatorChooser_get c segId tsc) as [loc|ex| | |];
      try contradiction.
    + apply Hm. exact H.
    + destruct H as [-> Hnil]. split; [reflexivity|].
      intros e locator Hin Ho.
      assert (Hr : (segId, locator) ∈ equal_range (chooser_map c) segId).
      { apply equal_range_elem. split; [reflexivity|]. apply Hm. eauto. }
      rewrite Hnil in Hr. inversion Hr.
  - intros e locator Hin Ho. apply SegmentLocatorChooser_get_reaches.
    apply Hm. eauto.
Qed.

Lemma unique_elem_iff x l : x ∈ unique l <-> x ∈ l.
Proof.
  split; [apply unique_elem|].
  induction l as [|y l IH]; [auto|]. cbn [unique].
  destruct l as [|z l]; [auto|].
  destruct (Z.eqb_spec y z) as [->|Hne].
  - intros H. apply IH. apply elem_of_cons in H as [->|H];
      [apply elem_of_cons; auto | exact H].
  - intros H. apply elem_of_cons in H as [->|H]; apply elem_of_cons; auto.
Qed.

(** [std::unique] on an ascending list leaves no element twice. *)
Lemma unique_sorted_NoDup l : StronglySorted Z.le l -> NoDup (unique l).
Proof.
  induction l as [|y l IH]; intros Hs; [constructor|].
  apply StronglySorted_inv in Hs as [Hs Hall]. cbn [unique].
  destruct l as [|z l]; [repeat constructor; inversion 1|].
  destruct (Z.eqb_spec y z) as [->|Hne]; [apply IH; exact Hs|].
  constructor; [|apply IH; exact Hs].
  rewrite unique_elem_iff. intros Hin.
  apply StronglySorted_inv in Hs as [_ Hz].
  apply Forall_cons in Hall as [Hyz _].
  apply elem_of_cons in Hin as [->|Hin]; [congruence|].
  rewrite Forall_forall in Hz. specialize (Hz _ Hin). lia.
Qed.

(** The schedule of the chooser: when the shuffle permutes, the list of
    segment ids has no id twice, and its ids are those of the entries of
    the list that are backups with a segment id. *)
Theorem chooser_schedule_lists_each_segment_once
  (shuffle : list Z -> list Z) (list : list ServerListEntry) :
  (forall l, shuffle l ≡ₚ l) ->
  let c := SegmentLocatorChooser_new shuffle list in
  NoDup (SegmentLocatorChooser_getSegmentIdList c)
  /\ forall segId,
       segId ∈ SegmentLocatorChooser_getSegmentIdList c
       <-> exists e, e ∈ list /\ usableBackup e /\ segment_id e = segId.
Proof.
  intros Hperm c. destruct (chooser_map_spec shuffle list) as [Hs Hm].
  fold c in Hs, Hm.
  assert (Hids : SegmentLocatorChooser_getSegmentIdList c
                 ≡ₚ unique (fst <$> chooser_map c)) by apply Hperm.
  split.
  - rewrite Hids. apply unique_sorted_NoDup. exact Hs.
  - intros segId. rewrite Hids, unique_elem_iff, list_elem_of_fmap. split.
    + intros ([k v] & -> & Hin). apply Hm in Hin as (e & Hin & Hu & Hk & _).
      eauto.
    + intros (e & Hin & Hu & Hk).
      exists (segId, entry_service_locator e). split; [reflexivity|].
      apply Hm. exists e. unfold offers. auto.
Qed.

(** ** recover replays every segment of the schedule once *)

(** The loop of [recover] when every fetch succeeds (lines 348-429): with
    a shuffle that permutes, backups that answer every fetch with the
    records [data segId], an index whose references are valid, versions
    below 2^64-1 and records that agree on equal (kind, key, version),
    [recover] returns once the fuel covers the answers "not ready" to come
    plus the ids of the schedule.  Its calls of [recoverSegment] are then
    the ids of the schedule in some order, the schedule holds no id twice,
    so every scheduled segment was replayed in exactly one call; and the
    two indexes hold the merge of the records of the scheduled segments,
    whatever locators [rdtsc()] picked and in whatever order the fetches
    completed. *)
Theorem recover_replays_every_segment
  (fuel : nat) (env : RecoveryEnv) (masterId : Z) (tablets : list Tablet)
  (backups : list ServerListEntry) (data : Z -> list SegmentEntry)
  (r0 : Recovery) :
  let chooser := SegmentLocatorChooser_new (env_shuffle env) backups in
  let ids := SegmentLocatorChooser_getSegmentIdList chooser in
  (forall l, env_shuffle env l ≡ₚ l) ->
  (forall locator segId,
      env_getRecoveryData env locator masterId segId tablets
      = RpcData (data segId)) ->
  IndexValid (rec_master r0) ->
  ContentsGood (contents (rec_master r0), rec_tombstoneMap r0) ->
  Forall entryBelowMax (concat (data <$> ids)) ->
  GenerationsAgree (concat (data <$> ids)) ->
  (length (rec_ready r0) + length ids <= fuel)%nat ->
  exists r' done,
    recover fuel env masterId tablets backups r0 = (r', Ok tt)
    /\ rec_replayed r' = rec_replayed r0 ++ done
    /\ done ≡ₚ ids
    /\ NoDup ids
    /\ IndexValid (rec_master r')
    /\ (contents (rec_master r'), rec_tombstoneMap r')
       = foldl mergeEntry (contents (rec_master r0), rec_tombstoneMap r0)
           (concat (data <$> ids)).
Proof.
  intros chooser ids Hshuffle Henv Hv Hgood Hall Hagree Hfuel.
  pose proof (ContentsGood_NotBoth _ _ Hv Hgood) as Hnb.
  destruct (recover_returns fuel env masterId tablets backups data r0
              Hshuffle Henv Hv Hnb Hfuel)
    as (r' & done & Hrun & Hv' & Hperm & Hc & Hrep).
  exists r', done. split; [exact Hrun|]. split; [exact Hrep|].
  split; [exact Hperm|]. split; [|split; [exact Hv'|]].
  - destruct (chooser_map_spec (env_shuffle env) backups) as [Hs _].
    fold chooser in Hs.
    assert (Hids : ids ≡ₚ unique (fst <$> chooser_map chooser))
      by apply Hshuffle.
    rewrite Hids. apply unique_sorted_NoDup. exact Hs.
  - rewrite Hc. symmetry. apply merge_permutation.
    + apply concat_fmap_Permutation. symmetry. exact Hperm.
    + exact Hgood.
    + exact Hall.
    + exact Hagree.
Qed.

Lemma recover_replays_every_segment_witness :
  exists r' done,
    recover 3 answeringEnv 99 [demoTablet 7] answeringBackups demoRecovery
    = (r', Ok tt)
    /\ rec_replayed r' = done
    /\ done ≡ₚ [1; 2]
    /\ (contents (rec_master r'), rec_tombstoneMap r')
       = foldl mergeEntry (contents demoServer0, ∅)
           (concat (answeringData <$> [1; 2])).
Proof.
  destruct (recover_replays_every_segment 3 answeringEnv 99 [demoTablet 7]
              answeringBackups answeringData demoRecovery)
    as (r' & done & Hrun & Hrep & Hperm & _ & _ & Hc).
  - reflexivity.
  - reflexivity.
  - apply indexValidb_sound. vm_compute. reflexivity.
  - apply contentsGoodb_sound. vm_compute. reflexivity.
  - apply entriesBelowMaxb_sound. vm_compute. reflexivity.
  - apply generationsAgreeb_sound. vm_compute. reflexivity.
  - vm_compute. lia.
  - exists r', done. split; [exact Hrun|]. split; [exact Hrep|].
    split; [exact Hperm | exact Hc].
Defined.

(** ** markAsDown *)

Lemma eraseFirst_absent segId locator (m : LocatorMap) :
  (segId, locator) ∉ m -> eraseFirst segId locator m = m.
Proof.
  induction m as [|[k v] m IH]; [reflexivity|]. intros Hn. cbn.
  destruct (Z.eqb_spec k segId) as [->|Hk]; cbn.
  - destruct (bool_decide_reflect (v = locator)) as [->|Hv].
    + exfalso. apply Hn. apply elem_of_cons. auto.
    + rewrite IH; [reflexivity|]. intros H. apply Hn, elem_of_cons. auto.
  - rewrite IH; [reflexivity|]. intros H. apply Hn, elem_of_cons. auto.
Qed.

Lemma eraseFirst_present segId locator (m : LocatorMap) :
  (segId, locator) ∈ m -> m ≡ₚ (segId, locator) :: eraseFirst segId locator m.
Proof.
  induction m as [|[k v] m IH]; [inversion 1|]. intros Hin. cbn.
  destruct (Z.eqb_spec k segId) as [->|Hk]; cbn.
  - destruct (bool_decide_reflect (v = locator)) as [->|Hv]; [reflexivity|].
    apply elem_of_cons in Hin as [[= ->]|Hin]; [contradiction|].
    rewrite (IH Hin) at 1. apply perm_swap.
  - apply elem_of_cons in Hin as [[= -> ->]|Hin]; [contradiction|].
    rewrite (IH Hin) at 1. apply perm_swap.
Qed.

Lemma eraseFirst_other segId locator (m : LocatorMap) other :
  other <> segId ->
  equal_range (eraseFirst segId locator m) other = equal_range m other.
Proof.
  intros Hne. unfold equal_range. induction m as [|[k v] m IH]; [reflexivity|].
  cbn [eraseFirst].
  destruct (Z.eqb_spec k segId) as [->|Hk]; cbn [andb].
  - destruct (bool_decide_reflect (v = locator)) as [->|Hv].
    + rewrite filter_cons_False by (cbn; congruence). reflexivity.
    + rewrite !filter_cons_False by (cbn; congruence). exact IH.
  - rewrite !filter_cons. cbn. rewrite IH. reflexivity.
Qed.

(** [markAsDown(segmentId, locator)] erases one listing of the locator
    for the segment and nothing else: the schedule and what [get] returns
    for other segments stay, the map loses exactly one pair
    (segmentId, locator) if it has one and is unchanged otherwise, and
    when the locator was the only one of the segment, [get] of the
    segment throws SegmentRecoveryFailed. *)
Theorem markAsDown_removes_one_listing
  (c : SegmentLocatorChooser) (segId : Z) (locator : string) :
  let c' := SegmentLocatorChooser_markAsDown c segId locator in
  SegmentLocatorChooser_getSegmentIdList c'
  = SegmentLocatorChooser_getSegmentIdList c
  /\ (forall other tsc,
         other <> segId ->
         SegmentLocatorChooser_get c' other tsc
         = SegmentLocatorChooser_get c other tsc)
  /\ ((segId, locator) ∈ chooser_map c ->
      chooser_map c ≡ₚ (segId, locator) :: chooser_map c')
  /\ ((segId, locator) ∉ chooser_map c -> c' = c)
  /\ (equal_range (chooser_map c) segId = [(segId, locator)] ->
      forall tsc,
        SegmentLocatorChooser_get c' segId tsc
        = Throw SegmentRecoveryFailedException).
Proof.
  cbn zeta. split; [reflexivity|]. split; [|split; [|split]].
  - intros other tsc Hne.
    unfold SegmentLocatorChooser_get, SegmentLocatorChooser_markAsDown.
    cbn [chooser_map]. rewrite eraseFirst_other by exact Hne. reflexivity.
  - cbn. apply eraseFirst_present.
  - intros Hn. destruct c as [m ids]. unfold SegmentLocatorChooser_markAsDown.
    cbn in *. rewrite eraseFirst_absent by exact Hn. reflexivity.
  - intros Hone tsc.
    unfold SegmentLocatorChooser_get, SegmentLocatorChooser_markAsDown.
    cbn [chooser_map].
    assert (Hin : (segId, locator) ∈ chooser_map c).
    { assert (H : (segId, locator) ∈ equal_range (chooser_map c) segId)
        by (rewrite Hone; apply elem_of_cons; auto).
      apply equal_range_elem in H. apply H. }
    pose proof (eraseFirst_present _ _ _ Hin) as Hp.
    assert (Hlen : equal_range (chooser_map c) segId
                   ≡ₚ (segId, locator)
                      :: equal_range (eraseFirst segId locator (chooser_map c))
                           segId).
    { unfold equal_range. rewrite Hp at 1. rewrite filter_cons_True by reflexivity.
      reflexivity. }
    rewrite Hone in Hlen. apply Permutation_cons_inv in Hlen.
    apply Permutation_nil_l in Hlen. rewrite <- Hlen. reflexivity.
Qed.

(** ** The callbacks of the log cleaner *)

Lemma getTable_run tableId id s :
  getTable tableId id s
  = match tableOf s (tableId, id) with
    | Some t => (s, Ok t)
    | None => (s, Throw TableDoesntExistException)
    end.
Proof.
  unfold getTable, tableOf. cbn [fst snd].
  destruct (find _ (tablets s)); reflexivity.
Qed.

Lemma Log_object_lt l ref o :
  Log_object l ref = Some o -> (ref < length (logEntries l))%nat.
Proof.
  with_strategy transparent [Log_object] (unfold Log_object).
  destruct (logEntries l !! ref) as [e|] eqn:He; [|discriminate].
  intros _. eapply lookup_lt_Some. exact He.
Qed.

(** [objectEvictionCallback] on an object entry of the log, for an index
    whose references are valid and filed under the key of their object:
    the callback returns, no key of the index refers to the evicted entry
    any more, and the contents of the index are unchanged when a tablet of
    the server holds the object (the indexed object is appended again and
    the index refers to the new entry); when no tablet holds it, the key
    leaves the index. *)
Theorem objectEvictionCallback_releases_entry
  (s : MasterServer) (p : nat) (evictObj : Object) (len : Z) :
  Log_object (log s) p = Some evictObj ->
  IndexValid s -> IndexKeyed s ->
  exists s',
    objectEvictionCallback LOG_ENTRY_TYPE_OBJ (Some p) len s = (s', Ok tt)
    /\ (forall k, objectMap s' !! k <> Some p)
    /\ IndexValid s' /\ IndexKeyed s'
    /\ contents s'
       = match tableOf s (objKey evictObj) with
         | Some _ => contents s
         | None => delete (objKey evictObj) (contents s)
         end.
Proof.
  intros Hp Hv Hk.
  assert (Hother : forall k ref, objectMap s !! k = Some ref ->
                                 k <> objKey evictObj -> ref <> p).
  { intros k ref Href Hne ->. apply Hne. symmetry. eapply Hk; eassumption. }
  unfold objectEvictionCallback. cbn [isNull negb LogEntryType_eqb].
  unfold assert at 1 2. unfold bind at 1 2. unfold bind at 1, deref.
  rewrite Hp. unfold bind at 1, catchTableDoesntExist. unfold bind at 1.
  rewrite getTable_run. fold (objKey evictObj).
  destruct (tableOf s (objKey evictObj)) as [t|] eqn:Ht.
  - unfold ret at 1. unfold bind at 1, objectMap_lookup.
    fold (objKey evictObj).
    destruct (bool_decide_reflect
                (objectMap s !! objKey evictObj = Some p)) as [Hidx|Hidx].
    + unfold bind, log_append, objectMap_replace. cbn [objectMap with_log].
      eexists. split; [reflexivity|].
      set (newRef := snd (Log_append (log s) (PObj evictObj)
                            (Object_size evictObj))).
      set (s' := with_objectMap _ _ _).
      assert (Hmap : objectMap s' = <[objKey evictObj := newRef]> (objectMap s))
        by reflexivity.
      assert (Hnew : Log_object (log s') newRef = Some evictObj)
        by apply Log_object_append_new.
      assert (Hold : forall q o, Log_object (log s) q = Some o ->
                                 Log_object (log s') q = Some o)
        by (intros q o Hq; apply Log_object_append_old; exact Hq).
      destruct (contents_after_insert s s' _ _ _ Hv Hmap Hnew Hold)
        as [Hc Hv'].
      assert (Hfresh : forall q o, Log_object (log s) q = Some o ->
                                   q <> newRef).
      { intros q o Hq. apply Log_object_lt in Hq. unfold newRef.
        rewrite Log_append_ref. lia. }
      split_and!.
      * intros k. rewrite Hmap.
        destruct (decide (k = objKey evictObj)) as [->|Hne].
        -- rewrite lookup_insert_eq. intros [= Heq].
           exact (Hfresh _ _ Hp (eq_sym Heq)).
        -- rewrite lookup_insert_ne by congruence. intros Href.
           exact (Hother _ _ Href Hne eq_refl).
      * exact Hv'.
      * intros k ref o. rewrite Hmap.
        destruct (decide (k = objKey evictObj)) as [->|Hne].
        -- rewrite lookup_insert_eq. intros [= <-]. rewrite Hnew.
           intros [= <-]. reflexivity.
        -- rewrite lookup_insert_ne by congruence. intros Href Ho.
           destruct (Hv _ _ Href) as [o' Ho'].
           rewrite (Hold _ _ Ho') in Ho. injection Ho as <-.
           eapply Hk; eassumption.
      * rewrite Hc. apply insert_id. eapply contents_Some; eassumption.
    + exists s. unfold ret. split; [reflexivity|]. split_and!; try assumption.
      * intros k Href.
        destruct (decide (k = objKey evictObj)) as [->|Hne];
          [contradiction|]. exact (Hother _ _ Href Hne eq_refl).
      * reflexivity.
  - unfold bind, objectMap_remove, ret. fold (objKey evictObj).
    eexists. split; [reflexivity|].
    set (s' := with_objectMap _ _ _).
    assert (Hmap : objectMap s' = delete (objKey evictObj) (objectMap s))
      by reflexivity.
    assert (Hold : forall q o, Log_object (log s) q = Some o ->
                               Log_object (log s') q = Some o)
      by (intros q o Hq; exact Hq).
    destruct (contents_after_delete s s' _ Hv Hmap Hold) as [Hc Hv'].
    split_and!.
    + intros k. rewrite Hmap.
      destruct (decide (k = objKey evictObj)) as [->|Hne].
      * rewrite lookup_delete_eq. discriminate.
      * rewrite lookup_delete_ne by congruence. intros Href.
        exact (Hother _ _ Href Hne eq_refl).
    + exact Hv'.
    + intros k ref o. rewrite Hmap.
      destruct (decide (k = objKey evictObj)) as [->|Hne].
      * rewrite lookup_delete_eq. discriminate.
      * rewrite lookup_delete_ne by congruence. apply Hk.
    + exact Hc.
Qed.

Lemma indexKeyedb_sound s : indexKeyedb s = true -> IndexKeyed s.
Proof.
  unfold indexKeyedb. rewrite forallb_forall. intros H k ref o Hk Ho.
  apply elem_of_map_to_list, list_elem_of_In in Hk.
  specialize (H _ Hk). cbn in H. rewrite Ho in H.
  apply bool_decide_eq_true_1 in H. exact H.
Qed.

Lemma objectEvictionCallback_releases_entry_witness :
  exists s',
    objectEvictionCallback LOG_ENTRY_TYPE_OBJ (Some 0%nat) 41 demoServer1
    = (s', Ok tt)
    /\ (forall k, objectMap s' !! k <> Some 0%nat)
    /\ IndexValid s' /\ IndexKeyed s'
    /\ contents s'
       = match tableOf demoServer1 (objKey (newObjectOf 7 1 1 "hello")) with
         | Some _ => contents demoServer1
         | None => delete (objKey (newObjectOf 7 1 1 "hello"))
                     (contents demoServer1)
         end.
Proof.
  apply (objectEvictionCallback_releases_entry demoServer1 0
           (newObjectOf 7 1 1 "hello") 41).
  - vm_compute. reflexivity.
  - apply indexValidb_sound. vm_compute. reflexivity.
  - apply indexKeyedb_sound. vm_compute. reflexivity.
Defined.

Lemma Log_object_append_tomb l t len q :
  Log_object (fst (Log_append l (PTomb t) len)) q = Log_object l q.
Proof.
  with_strategy transparent [Log_object Log_append]
    (unfold Log_object, Log_append; cbn [logEntries fst]).
  destruct (decide (q < length (logEntries l))%nat) as [Hlt|Hge].
  - rewrite lookup_app_l by exact Hlt. reflexivity.
  - rewrite lookup_app_r by lia.
    rewrite (lookup_ge_None_2 (logEntries l)) by lia.
    destruct (q - length (logEntries l))%nat; reflexivity.
Qed.

Lemma Log_tombstone_append_new l t len :
  Log_tombstone (fst (Log_append l (PTomb t) len))
    (snd (Log_append l (PTomb t) len)) = Some t.
Proof.
  unfold Log_tombstone. rewrite Log_append_entries, Log_append_ref.
  rewrite lookup_app_r, Nat.sub_diag by lia. reflexivity.
Qed.

Lemma Log_tombstone_lt l ref t :
  Log_tombstone l ref = Some t -> (ref < length (logEntries l))%nat.
Proof.
  unfold Log_tombstone.
  destruct (logEntries l !! ref) as [e|] eqn:He; [|discriminate].
  intros _. eapply lookup_lt_Some. exact He.
Qed.

(** [tombstoneEvictionCallback] on a tombstone entry of the log: the
    callback returns, the index and every object of the log stay as they
    are, and the tombstone is appended again exactly when the log says
    that the segment named by its [segmentId] is live; otherwise nothing
    changes. *)
Theorem tombstoneEvictionCallback_keeps_tombstone_of_live_segment
  (s : MasterServer) (p : nat) (tomb : ObjectTombstone) (len : Z) :
  Log_tombstone (log s) p = Some tomb ->
  exists s',
    tombstoneEvictionCallback LOG_ENTRY_TYPE_OBJTOMB (Some p) len s
    = (s', Ok tt)
    /\ objectMap s' = objectMap s
    /\ contents s' = contents s
    /\ (forall q, Log_object (log s') q = Log_object (log s) q)
    /\ if Log_isSegmentLive (log s) (segmentId tomb) then
         exists newRef,
           newRef <> p
           /\ Log_tombstone (log s') newRef = Some tomb
           /\ trace s'
              = trace s ++ [EvLogAppend (PTomb tomb) sizeof_ObjectTombstone
                              newRef]
       else s' = s.
Proof.
  intros Hp. unfold tombstoneEvictionCallback. cbn [isNull negb LogEntryType_eqb].
  unfold assert at 1 2. unfold bind at 1 2. unfold bind at 1, derefTombstone.
  rewrite Hp. unfold bind at 1, log_isSegmentLive.
  destruct (Log_isSegmentLive (log s) (segmentId tomb)).
  - unfold bind, log_append, ret. eexists. split; [reflexivity|].
    cbn [objectMap with_log log trace].
    assert (Hobj : forall q,
               Log_object (fst (Log_append (log s) (PTomb tomb)
                                  sizeof_ObjectTombstone)) q
               = Log_object (log s) q)
      by (intros q; apply Log_object_append_tomb).
    split; [reflexivity|]. split; [|split; [exact Hobj|]].
    + apply map_eq. intros k. rewrite !contents_lookup.
      cbn [objectMap with_log log].
      destruct (objectMap s !! k) as [ref|]; [|reflexivity]. cbn.
      apply Hobj.
    + eexists. split; [|split; [apply Log_tombstone_append_new|reflexivity]].
      rewrite Log_append_ref. apply Log_tombstone_lt in Hp. lia.
  - exists s. unfold ret. auto.
Qed.

Lemma tombstoneEvictionCallback_keeps_tombstone_of_live_segment_witness :
  exists s',
    tombstoneEvictionCallback LOG_ENTRY_TYPE_OBJTOMB (Some 1%nat) 32
      demoServer2 = (s', Ok tt)
    /\ objectMap s' = objectMap demoServer2
    /\ contents s' = contents demoServer2
    /\ (forall q, Log_object (log s') q = Log_object (log demoServer2) q)
    /\ if Log_isSegmentLive (log demoServer2)
            (segmentId (ObjectTombstone_new 0 (newObjectOf 7 1 1 "hello")))
       then
         exists newRef,
           newRef <> 1%nat
           /\ Log_tombstone (log s') newRef
              = Some (ObjectTombstone_new 0 (newObjectOf 7 1 1 "hello"))
           /\ trace s'
              = trace demoServer2
                ++ [EvLogAppend
                      (PTomb (ObjectTombstone_new 0
                                (newObjectOf 7 1 1 "hello")))
                      sizeof_ObjectTombstone newRef]
       else s' = demoServer2.
Proof.
  apply (tombstoneEvictionCallback_keeps_tombstone_of_live_segment
           demoServer2 1 (ObjectTombstone_new 0 (newObjectOf 7 1 1 "hello"))
           32).
  vm_compute. reflexivity.
Defined.

(** ** Further properties of the client operations *)

Lemma storeData_bytesWritten tableId id rules data s s' v :
  storeData tableId id rules data s = (s', Ok v) ->
  bytesWritten s'
  = wrap64 (bytesWritten s + Z.of_nat (String.length data)).
Proof.
  unfold storeData, Table_AllocateVersion, log_free, log_append,
    objectMap_replace. run_M.
  intros H. crush_M; reflexivity.
Qed.

(** An accepted write changes the contents of the index at its key only:
    the key holds the new object, every other key holds what it held, the
    references stay valid, the tablets stay, and [bytesWritten] grows by
    the length of the data, modulo 2^64. *)
Theorem write_changes_only_its_key
  (tableId id : Z) (rules : RejectRules) (data : string)
  (s s' : MasterServer) (v : Z) :
  IndexValid s ->
  write tableId id rules data s = (s', Ok v) ->
  contents s' = <[(tableId, id) := newObjectOf tableId id v data]> (contents s)
  /\ IndexValid s'
  /\ tablets s' = tablets s
  /\ bytesWritten s'
     = wrap64 (bytesWritten s + Z.of_nat (String.length data)).
Proof.
  intros Hv Hw. unfold write in Hw.
  pose proof (storeData_bytesWritten _ _ _ _ _ _ _ Hw) as Hb.
  apply storeData_Ok in Hw as (t & objRef & _ & Hnew & Hmap & Htab & Hold & _).
  destruct (contents_after_insert s s' _ _ _ Hv Hmap Hnew Hold) as [Hc Hv'].
  auto.
Qed.

Lemma write_changes_only_its_key_witness :
  contents demoServer2
  = <[(7, 1) := newObjectOf 7 1 2 "world"]> (contents demoServer1)
  /\ IndexValid demoServer2
  /\ tablets demoServer2 = tablets demoServer1
  /\ bytesWritten demoServer2
     = wrap64 (bytesWritten demoServer1 + Z.of_nat (String.length "world")).
Proof.
  apply (write_changes_only_its_key 7 1 noRules "world" demoServer1
           demoServer2 2).
  - apply indexValidb_sound. vm_compute. reflexivity.
  - vm_compute. reflexivity.
Defined.

(** After an accepted remove, the key has no object: the contents of the
    index are those before without the key, a read of the key throws
    ObjectDoesntExist, and a second remove of the key changes nothing and
    returns without a version (or throws ObjectDoesntExist when its rules
    have [doesntExist]). *)
Theorem remove_then_read
  (tableId id : Z) (rules rules' : RejectRules) (uninit uninit' : Z)
  (s s' : MasterServer) (r : option Z) :
  IndexValid s ->
  remove tableId id rules uninit s = (s', Ok r) ->
  contents s' = delete (tableId, id) (contents s)
  /\ IndexValid s'
  /\ read tableId id rules' s' = (s', Throw ObjectDoesntExistException)
  /\ remove tableId id rules' uninit' s'
     = (s', if doesntExist rules' then Throw ObjectDoesntExistException
            else Ok None).
Proof.
  intros Hv Hr.
  apply remove_Ok in Hr as (t & Hget & Htab & Hold & Hcase).
  assert (Hget' : getTable tableId id s' = (s', Ok t)).
  { unfold getTable in *. rewrite Htab.
    destruct (find _ (tablets s)); simplify_eq. reflexivity. }
  assert (Hmap : objectMap s' = delete (tableId, id) (objectMap s)).
  { destruct (objectMap s !! (tableId, id)) as [ref|] eqn:Hk.
    - destruct Hcase as (prev & tbl & tombRef & _ & _ & _ & _ & _ & Hm & _).
      exact Hm.
    - destruct Hcase as (_ & -> & _). symmetry. apply delete_id. exact Hk. }
  destruct (contents_after_delete s s' _ Hv Hmap Hold) as [Hc Hv'].
  split; [exact Hc|]. split; [exact Hv'|].
  assert (Hnone : objectMap s' !! (tableId, id) = None)
    by (rewrite Hmap; apply lookup_delete_eq).
  split.
  - unfold read. rewrite (bind_step _ _ _ _ _ Hget'). cbn beta.
    unfold bind, objectMap_lookup. rewrite Hnone. reflexivity.
  - unfold remove. rewrite (bind_step _ _ _ _ _ Hget'). cbn beta.
    unfold bind at 1, objectMap_lookup. rewrite Hnone.
    unfold bind, lift, ret, rejectOperation.
    rewrite Z.eqb_refl. destruct (doesntExist rules'); reflexivity.
Qed.

Lemma remove_then_read_witness :
  let s' := fst (remove 7 1 noRules 0 demoServer2) in
  contents s' = delete (7, 1) (contents demoServer2)
  /\ IndexValid s'
  /\ read 7 1 noRules s' = (s', Throw ObjectDoesntExistException)
  /\ remove 7 1 noRules 5 s'
     = (s', if doesntExist noRules then Throw ObjectDoesntExistException
            else Ok None).
Proof.
  apply (remove_then_read 7 1 noRules noRules 0 5 demoServer2
           (fst (remove 7 1 noRules 0 demoServer2)) (Some 2)).
  - apply indexValidb_sound. vm_compute. reflexivity.
  - vm_compute. reflexivity.
Defined.

(** A write over an object whose version is 2^64-1, accepted by the
    rules, fails the [assert] of [storeData]: the next version wraps to 0.
    The server state is the one before the call. *)
Theorem write_at_largest_version_aborts
  (tableId id : Z) (rules : RejectRules) (data : string)
  (s : MasterServer) (ref : nat) (prev : Object) (t : Z) :
  tableOf s (tableId, id) = Some t ->
  objectMap s !! (tableId, id) = Some ref ->
  Log_object (log s) ref = Some prev ->
  obj_version prev = UINT64_MAX ->
  rejectOperation rules UINT64_MAX = Ok tt ->
  write tableId id rules data s = (s, AssertFailed).
Proof.
  intros Ht Hk Hp Hmax Hrules. unfold write, storeData.
  unfold bind at 1. rewrite getTable_run, Ht.
  unfold bind at 1, objectMap_lookup. rewrite Hk.
  unfold bind at 1, derefOpt, bind at 1, deref. rewrite Hp. unfold ret at 1.
  unfold bind at 1, lift. rewrite Hmax, Hrules.
  unfold bind at 1, ret at 1. unfold bind at 1, assert.
  replace (UINT64_MAX <? wrap64 (UINT64_MAX + 1)) with false; reflexivity.
Qed.

Lemma write_at_largest_version_aborts_witness :
  let s := fst (recoverEntry (EntryObj maxObject) ∅ demoServer0) in
  write 7 2 noRules "next" s = (s, AssertFailed).
Proof.
  apply (write_at_largest_version_aborts 7 2 noRules "next"
           (fst (recoverEntry (EntryObj maxObject) ∅ demoServer0))
           0%nat maxObject 1).
  - vm_compute. reflexivity.
  - vm_compute. reflexivity.
  - vm_compute. reflexivity.
  - reflexivity.
  - vm_compute. reflexivity.
Defined.

Lemma AllocateKey_Ok t s s' key :
  Table_AllocateKey t s = (s', Ok key) ->
  log s' = log s /\ objectMap s' = objectMap s /\ tablets s' = tablets s.
Proof. unfold Table_AllocateKey. intros H. crush_M. auto. Qed.

(** [create] never replaces an object: when it returns (id, version),
    the key (tableId, id) held no object before, or one whose version is
    VERSION_NONEXISTENT; afterwards it holds the new object, no other key
    of the index changed, and the server has a tablet for the largest
    object id of the table and one for the id it returned. *)
Theorem create_never_overwrites
  (tableId : Z) (data : string) (s s' : MasterServer) (id v : Z) :
  create tableId data s = (s', Ok (id, v)) ->
  (forall o, contents s !! (tableId, id) = Some o ->
             obj_version o = VERSION_NONEXISTENT)
  /\ contents s' !! (tableId, id) = Some (newObjectOf tableId id v data)
  /\ (forall k, k <> (tableId, id) -> objectMap s' !! k = objectMap s !! k)
  /\ is_Some (tableOf s (tableId, UINT64_MAX))
  /\ is_Some (tableOf s (tableId, id)).
Proof.
  unfold create. intros H.
  apply bind_Ok in H as (s1 & t & Ht & H).
  apply getTable_Ok in Ht as [-> Ht].
  apply bind_Ok in H as (s2 & key & Hkey & H).
  apply AllocateKey_Ok in Hkey as (Hlog & Hmap & Htab).
  apply bind_Ok in H as (s3 & v' & Hstore & H).
  unfold ret in H. injection H as -> -> ->.
  apply storeData_Ok in Hstore
    as (t' & objRef & Hget & Hnew & Hmap' & _ & _ & Hcase).
  apply getTable_Ok in Hget as [_ Ht'].
  split_and!.
  - intros o. rewrite contents_lookup, <- Hmap, <- Hlog.
    destruct (objectMap s2 !! (tableId, id)) as [ref|]; [|discriminate].
    cbn. destruct Hcase as (prev & _ & _ & Hprev & Hrules & _).
    rewrite Hprev. intros [= <-].
    unfold rejectOperation in Hrules. cbn in Hrules.
    destruct (obj_version prev =? VERSION_NONEXISTENT) eqn:He;
      [|discriminate].
    apply Z.eqb_eq in He. exact He.
  - rewrite contents_lookup, Hmap', lookup_insert_eq. exact Hnew.
  - intros k Hne. rewrite Hmap', lookup_insert_ne by congruence.
    rewrite Hmap. reflexivity.
  - rewrite Ht. eauto.
  - unfold tableOf in *. rewrite <- Htab. rewrite Ht'. eauto.
Qed.

Lemma create_never_overwrites_witness :
  let s' := fst (create 7 "first" demoServer2) in
  (forall o, contents demoServer2 !! (7, 2) = Some o ->
             obj_version o = VERSION_NONEXISTENT)
  /\ contents s' !! (7, 2) = Some (newObjectOf 7 2 2 "first")
  /\ (forall k, k <> (7, 2) -> objectMap s' !! k = objectMap demoServer2 !! k)
  /\ is_Some (tableOf demoServer2 (7, UINT64_MAX))
  /\ is_Some (tableOf demoServer2 (7, 2)).
Proof.
  apply (create_never_overwrites 7 "first" demoServer2
           (fst (create 7 "first" demoServer2)) 2 2).
  vm_compute. reflexivity.
Defined.

(** ** setTablets and the objects of the index *)

(** The third loop changes nothing but [user_data]. *)
Lemma assignTables_shape ts :
  forall st st' ts',
    assignTables st ts = (st', ts') ->
    Forall2 (fun tb tb' => tb' = set_user_data (user_data tb') tb) ts ts'.
Proof.
  induction ts as [|tb ts IH]; intros st st' ts' H; cbn in H.
  - injection H as <- <-. constructor.
  - destruct (assignTable st tb) as [st1 tablet1] eqn:H1.
    destruct (assignTables st1 ts) as [st2 rest'] eqn:H2.
    injection H as <- <-. constructor; [|eapply IH; exact H2].
    unfold assignTable in H1. destruct st as [[tables heap] next].
    destruct (default 0 (tables !! wrap32 (table_id tb)) =? 0);
      injection H1 as <- <-; reflexivity.
Qed.

(** On tablets and Tables that fit together [setTablets] returns; it
    changes neither the log nor the index. *)
Lemma setTablets_run newTablets s :
  TablesConsistent s ->
  exists s',
    setTablets newTablets s = (s', Ok tt)
    /\ log s' = log s /\ objectMap s' = objectMap s
    /\ Forall2 (fun tb tb' => tb' = set_user_data (user_data tb') tb)
         newTablets (tablets s').
Proof.
  intros Hcons.
  destruct (assignTables (collectTables (tablets s), deletedHeap newTablets s,
                          heapNext s) newTablets)
    as [[[tables' heap'] next'] ts'] eqn:H.
  exists (with_tables ts' heap' next' s).
  split; [apply (setTablets_Ok _ _ tables'); assumption|].
  cbn. split; [reflexivity|].
  split; [reflexivity|]. eapply assignTables_shape. exact H.
Qed.

Lemma TablesConsistent_new id locator capacity :
  TablesConsistent (MasterServer_new id locator capacity).
Proof.
  unfold TablesConsistent. cbn. split_and!; try lia.
  - intros tb Hin. apply elem_of_nil in Hin. destruct Hin.
  - intros tb1 tb2 Hin. apply elem_of_nil in Hin. destruct Hin.
  - intros p [x Hp]. rewrite lookup_empty in Hp. discriminate.
Qed.

Lemma find_tabletHolds_shape k id ts ts' :
  Forall2 (fun tb tb' => tb' = set_user_data (user_data tb') tb) ts ts' ->
  isNull (find (tabletHolds k id) ts') = isNull (find (tabletHolds k id) ts).
Proof.
  induction 1 as [|tb tb' ts ts' Hx _ IH]; [reflexivity|]. cbn.
  assert (Hsame : tabletHolds k id tb' = tabletHolds k id tb)
    by (rewrite Hx; reflexivity).
  rewrite Hsame. destruct (tabletHolds k id tb); [reflexivity | exact IH].
Qed.

Lemma read_run tableId id rules s :
  read tableId id rules s
  = match tableOf s (tableId, id) with
    | None => (s, Throw TableDoesntExistException)
    | Some _ =>
        match objectMap s !! (tableId, id) with
        | None => (s, Throw ObjectDoesntExistException)
        | Some ref =>
            match Log_object (log s) ref with
            | None => (s, InvalidPointer)
            | Some obj =>
                match rejectOperation rules (obj_version obj) with
                | Ok _ => (s, Ok (obj_data obj, obj_version obj))
                | Throw e => (s, Throw e)
                | AssertFailed => (s, AssertFailed)
                | InvalidPointer => (s, InvalidPointer)
                | OutOfFuel => (s, OutOfFuel)
                end
            end
        end
    end.
Proof.
  unfold read. unfold bind at 1. rewrite getTable_run.
  destruct (tableOf s (tableId, id)); [|reflexivity].
  unfold bind at 1, objectMap_lookup.
  destruct (objectMap s !! (tableId, id)) as [ref|]; [|reflexivity].
  unfold bind at 1, deref.
  destruct (Log_object (log s) ref) as [obj|]; [|reflexivity].
  unfold bind, lift, ret.
  destruct (rejectOperation rules (obj_version obj)); reflexivity.
Qed.

(** [setTablets] does nothing about the objects: on a server whose
    tablets and Tables fit together it returns, the log and the index are
    unchanged, a read of a key that no new tablet holds throws
    TableDoesntExist although the object is still in the index, and a read
    of a key that a tablet holds before and after answers as before. *)
Theorem setTablets_hides_and_keeps_objects
  (newTablets : list Tablet) (s : MasterServer)
  (tableId id : Z) (rules : RejectRules) :
  TablesConsistent s ->
  exists s',
    setTablets newTablets s = (s', Ok tt)
    /\ log s' = log s /\ objectMap s' = objectMap s
    /\ contents s' = contents s
    /\ (find (tabletHolds (wrap32 tableId) id) newTablets = None ->
        read tableId id rules s' = (s', Throw TableDoesntExistException))
    /\ (is_Some (find (tabletHolds (wrap32 tableId) id) newTablets) ->
        is_Some (tableOf s (tableId, id)) ->
        snd (read tableId id rules s') = snd (read tableId id rules s)).
Proof.
  intros Hcons.
  destruct (setTablets_run newTablets s Hcons)
    as (s' & Hrun & Hlog & Hmap & Hshape).
  exists s'. split; [exact Hrun|]. split; [exact Hlog|]. split; [exact Hmap|].
  pose proof (find_tabletHolds_shape (wrap32 tableId) id _ _ Hshape) as Hfind.
  split; [|split].
  - unfold contents. rewrite Hlog, Hmap. reflexivity.
  - intros Hnone. rewrite read_run. unfold tableOf. cbn [fst snd].
    rewrite Hnone in Hfind.
    destruct (find _ (tablets s')); [discriminate|]. reflexivity.
  - intros [tb Htb] [t Ht]. rewrite !read_run, Ht. unfold tableOf.
    cbn [fst snd]. rewrite Htb in Hfind.
    destruct (find _ (tablets s')); [|discriminate]. cbn.
    rewrite Hlog, Hmap.
    destruct (objectMap s !! (tableId, id)) as [ref|]; [|reflexivity].
    destruct (Log_object (log s) ref) as [obj|]; [|reflexivity].
    destruct (rejectOperation rules (obj_version obj)); reflexivity.
Qed.

Lemma setTablets_hides_and_keeps_objects_witness :
  exists s',
    setTablets [demoTablet 8] demoServer1 = (s', Ok tt)
    /\ log s' = log demoServer1 /\ objectMap s' = objectMap demoServer1
    /\ contents s' = contents demoServer1
    /\ (find (tabletHolds (wrap32 7) 1) [demoTablet 8] = None ->
        read 7 1 noRules s' = (s', Throw TableDoesntExistException))
    /\ (is_Some (find (tabletHolds (wrap32 7) 1) [demoTablet 8]) ->
        is_Some (tableOf demoServer1 (7, 1)) ->
        snd (read 7 1 noRules s') = snd (read 7 1 noRules demoServer1)).
Proof.
  apply (setTablets_hides_and_keeps_objects [demoTablet 8] demoServer1 7 1
           noRules).
  apply tablesConsistentb_sound. vm_compute. reflexivity.
Defined.

(** ** What a replay leaves in the indexes *)

Lemma slotRank_supersedes x e :
  slotGood x -> entryBelowMax e -> entryRank e <= slotRank x ->
  supersedes x e.
Proof.
  destruct x as [[o|] [t|]]; intros (Hone & Ho & Ht) He Hr;
    destruct e as [R|R|ty]; cbn in *; trivial;
    try (destruct Hone; discriminate).
  all: try (left; eexists; split; [reflexivity|lia]).
  all: try (right; eexists; split; [reflexivity|lia]).
  all: unfold belowMax in He; lia.
Qed.

(** A record that is not above the slot changes nothing. *)
Lemma mergeEntry_noop a e :
  ContentsGood a -> entryBelowMax e ->
  (forall k, entryKey e = Some k -> entryRank e <= slotRank (slot a k)) ->
  mergeEntry a e = a.
Proof.
  intros Hg He Hr. destruct e as [R|R|ty]; cbn in *; [| |reflexivity].
  - specialize (Hr _ eq_refl). specialize (Hg (objKey R)).
    unfold slot in *. destruct Hg as (Hone & Ho & Ht). cbn in *.
    destruct (a.1 !! objKey R) as [o|], (a.2 !! objKey R) as [t|];
      cbn in *; try (destruct Hone; discriminate).
    + specialize (Ho _ eq_refl). rewrite wrap64_succ by exact Ho.
      destruct (Z.leb_spec (obj_version o + 1) (obj_version R));
        [lia|reflexivity].
    + specialize (Ht _ eq_refl). rewrite wrap64_succ by exact Ht.
      destruct (Z.leb_spec (objectVersion t + 1) (obj_version R));
        [lia|reflexivity].
    + unfold belowMax in He. lia.
  - specialize (Hr _ eq_refl). specialize (Hg (tombKey R)).
    unfold slot in *. destruct Hg as (Hone & Ho & Ht). cbn in *.
    destruct (a.1 !! tombKey R) as [o|], (a.2 !! tombKey R) as [t|];
      cbn in *; try (destruct Hone; discriminate).
    + destruct (Z.leb_spec (obj_version o) (objectVersion R));
        [lia|reflexivity].
    + specialize (Ht _ eq_refl). rewrite wrap64_succ by exact Ht.
      destruct (Z.leb_spec (objectVersion t + 1) (objectVersion R));
        [lia|reflexivity].
    + unfold belowMax in He. lia.
Qed.

(** A record lifts the slot of its key to its rank, when it is above. *)
Lemma mergeSlot_rank x e :
  slotGood x -> entryBelowMax e ->
  slotRank (mergeSlot x e) = Z.max (slotRank x) (entryRank e).
Proof.
  destruct x as [[o|] [t|]]; intros (Hone & Ho & Ht) He;
    destruct e as [R|R|ty]; cbn in *;
    try (destruct Hone; discriminate).
  all: try specialize (Ho _ eq_refl); try specialize (Ht _ eq_refl).
  all: rewrite ?wrap64_succ by assumption.
  all: unfold belowMax in *.
  all: repeat match goal with
         | |- context [if ?a <=? ?b then _ else _] =>
             destruct (Z.leb_spec a b)
         end; cbn; lia.
Qed.

Lemma mergeEntry_rank a e k :
  ContentsGood a -> entryBelowMax e ->
  slotRank (slot (mergeEntry a e) k)
  = if decide (entryKey e = Some k)
    then Z.max (slotRank (slot a k)) (entryRank e)
    else slotRank (slot a k).
Proof.
  intros Hg He. rewrite slot_mergeEntry.
  destruct (decide (entryKey e = Some k)); [|reflexivity].
  apply mergeSlot_rank; [apply Hg | exact He].
Qed.

Lemma foldl_mergeEntry_good l :
  forall a, ContentsGood a -> Forall entryBelowMax l ->
            ContentsGood (foldl mergeEntry a l).
Proof.
  induction l as [|e l IH]; intros a Hg Hall; [exact Hg|].
  apply Forall_cons in Hall as [He Hall]. cbn [foldl].
  apply IH; [apply mergeEntry_good; assumption | exact Hall].
Qed.

Lemma foldl_mergeEntry_rank l :
  forall a k,
    ContentsGood a -> Forall entryBelowMax l ->
    slotRank (slot a k) <= slotRank (slot (foldl mergeEntry a l) k)
    /\ forall e, e ∈ l -> entryKey e = Some k ->
                 entryRank e <= slotRank (slot (foldl mergeEntry a l) k).
Proof.
  induction l as [|e l IH]; intros a k Hg Hall.
  - split; [cbn; lia|]. intros e H. inversion H.
  - apply Forall_cons in Hall as [He Hall]. cbn [foldl].
    pose proof (mergeEntry_good a e Hg He) as Hg1.
    destruct (IH (mergeEntry a e) k Hg1 Hall) as [Hle Hin].
    pose proof (mergeEntry_rank a e k Hg He) as Hstep.
    split.
    + destruct (decide (entryKey e = Some k)); lia.
    + intros e' He' Hk. apply elem_of_cons in He' as [->|He'].
      * rewrite decide_True in Hstep by exact Hk. lia.
      * apply Hin; assumption.
Qed.

Lemma foldl_mergeEntry_noop l :
  forall a,
    ContentsGood a -> Forall entryBelowMax l ->
    (forall e k, e ∈ l -> entryKey e = Some k ->
                 entryRank e <= slotRank (slot a k)) ->
    foldl mergeEntry a l = a.
Proof.
  induction l as [|e l IH]; intros a Hg Hall Hr; [reflexivity|].
  apply Forall_cons in Hall as [He Hall]. cbn [foldl].
  rewrite mergeEntry_noop; [| exact Hg | exact He |].
  - apply IH; [exact Hg | exact Hall |].
    intros e' k He' Hk. apply (Hr e' k); [apply elem_of_cons; auto | exact Hk].
  - intros k Hk. apply (Hr e k); [apply elem_of_cons; auto | exact Hk].
Qed.

Lemma replaySegments_merge segments tm s :
  IndexValid s -> ContentsGood (contents s, tm) ->
  exists s' tm',
    replaySegments segments tm s = (s', Ok tm')
    /\ (contents s', tm')
       = foldl mergeEntry (contents s, tm) (streamRecords segments)
    /\ IndexValid s'.
Proof.
  intros Hv Hg. pose proof (ContentsGood_NotBoth s tm Hv Hg) as Hnb.
  destruct (replaySegments_simulates segments tm s Hv Hnb)
    as (s' & tm' & Hrun & Hc & Hv' & _).
  eauto 10.
Qed.

(** After a replay of segments whose versions are below 2^64-1, from
    indexes with valid references that satisfy I1 and have versions below
    2^64-1, nothing replayed and nothing held before is newer than what
    the indexes hold: for every record and for every object and tombstone
    of the start, the key has an object or a tombstone of at least that
    version (for a tombstone: an object of a later version, or a
    tombstone of at least that version). *)
Theorem replay_keeps_the_newest
  (s : MasterServer) (tm : ObjectTombstoneMap)
  (segments : list (Z * list SegmentEntry)) :
  IndexValid s ->
  ContentsGood (contents s, tm) ->
  Forall entryBelowMax (streamRecords segments) ->
  exists s' tm',
    replaySegments segments tm s = (s', Ok tm')
    /\ (forall e k, e ∈ streamRecords segments -> entryKey e = Some k ->
                    supersedes (slot (contents s', tm') k) e)
    /\ (forall k o, contents s !! k = Some o ->
                    supersedes (slot (contents s', tm') k) (EntryObj o))
    /\ (forall k t, tm !! k = Some t ->
                    supersedes (slot (contents s', tm') k) (EntryTomb t)).
Proof.
  intros Hv Hg Hall.
  destruct (replaySegments_merge segments tm s Hv Hg)
    as (s' & tm' & Hrun & Hc & _).
  exists s', tm'. split; [exact Hrun|]. rewrite Hc.
  pose proof (foldl_mergeEntry_good _ _ Hg Hall) as Hg'.
  split_and!.
  - intros e k He Hk. apply slotRank_supersedes; [apply Hg'| |].
    + rewrite Forall_forall in Hall. apply Hall. exact He.
    + apply (foldl_mergeEntry_rank _ _ k Hg Hall); assumption.
  - intros k o Ho.
    destruct (foldl_mergeEntry_rank (streamRecords segments) _ k Hg Hall)
      as [Hle _].
    destruct (Hg k) as (Hone & Hbo & Hbt). unfold slot in Hone, Hbo, Hbt, Hle.
    cbn in Hone, Hbo, Hbt, Hle. rewrite Ho in *.
    apply slotRank_supersedes; [apply Hg' | apply Hbo; reflexivity |].
    cbn in *. exact Hle.
  - intros k t Ht.
    destruct (foldl_mergeEntry_rank (streamRecords segments) _ k Hg Hall)
      as [Hle _].
    destruct (Hg k) as (Hone & Hbo & Hbt). unfold slot in Hone, Hbo, Hbt, Hle.
    cbn in Hone, Hbo, Hbt, Hle. rewrite Ht in *.
    apply slotRank_supersedes; [apply Hg' | apply Hbt; reflexivity |].
    destruct (contents s !! k); [destruct Hone; discriminate|].
    cbn in *. exact Hle.
Qed.

(** Replaying records a second time changes nothing: after a replay of
    [segments], a replay of any segments made of records of [segments]
    (a segment fetched from a second backup, say) returns and leaves the
    contents of both indexes as they are. *)
Theorem replay_again_changes_nothing
  (s : MasterServer) (tm : ObjectTombstoneMap)
  (segments again : list (Z * list SegmentEntry)) :
  IndexValid s ->
  ContentsGood (contents s, tm) ->
  Forall entryBelowMax (streamRecords segments) ->
  streamRecords again ⊆ streamRecords segments ->
  exists s' tm' s'',
    replaySegments segments tm s = (s', Ok tm')
    /\ replaySegments again tm' s' = (s'', Ok tm')
    /\ contents s'' = contents s'.
Proof.
  intros Hv Hg Hall Hsub.
  destruct (replaySegments_merge segments tm s Hv Hg)
    as (s' & tm' & Hrun & Hc & Hv').
  pose proof (foldl_mergeEntry_good _ _ Hg Hall) as Hg'.
  rewrite <- Hc in Hg'.
  destruct (replaySegments_merge again tm' s' Hv' Hg')
    as (s'' & tm'' & Hrun' & Hc' & _).
  assert (Hall' : Forall entryBelowMax (streamRecords again)).
  { rewrite Forall_forall in *. intros e He. apply Hall, Hsub, He. }
  rewrite foldl_mergeEntry_noop in Hc'; [| exact Hg' | exact Hall' |].
  - injection Hc' as Hc1 ->. exists s', tm', s''. auto.
  - intros e k He Hk. rewrite Hc.
    apply (foldl_mergeEntry_rank _ _ k Hg Hall); [apply Hsub, He | exact Hk].
Qed.

Lemma replay_keeps_the_newest_witness :
  exists s' tm',
    replaySegments [segmentA; segmentB] ∅ demoServer1 = (s', Ok tm')
    /\ (forall e k, e ∈ streamRecords [segmentA; segmentB] ->
                    entryKey e = Some k ->
                    supersedes (slot (contents s', tm') k) e)
    /\ (forall k o, contents demoServer1 !! k = Some o ->
                    supersedes (slot (contents s', tm') k) (EntryObj o))
    /\ (forall k t, (∅ : ObjectTombstoneMap) !! k = Some t ->
                    supersedes (slot (contents s', tm') k) (EntryTomb t)).
Proof.
  apply (replay_keeps_the_newest demoServer1 ∅ [segmentA; segmentB]).
  - apply indexValidb_sound. vm_compute. reflexivity.
  - apply contentsGoodb_sound. vm_compute. reflexivity.
  - apply entriesBelowMaxb_sound. vm_compute. reflexivity.
Defined.

Lemma replay_again_changes_nothing_witness :
  exists s' tm' s'',
    replaySegments [segmentA; segmentB] ∅ demoServer1 = (s', Ok tm')
    /\ replaySegments [segmentA] tm' s' = (s'', Ok tm')
    /\ contents s'' = contents s'.
Proof.
  apply (replay_again_changes_nothing demoServer1 ∅
           [segmentA; segmentB] [segmentA]).
  - apply indexValidb_sound. vm_compute. reflexivity.
  - apply contentsGoodb_sound. vm_compute. reflexivity.
  - apply entriesBelowMaxb_sound. vm_compute. reflexivity.
  - intros e He. apply elem_of_cons in He as [->|He]; [|inversion He].
    apply elem_of_cons. left. reflexivity.
Defined.

Lemma chooser_schedule_lists_each_segment_once_witness :
  let c := SegmentLocatorChooser_new (fun l => l) demoBackups in
  NoDup (SegmentLocatorChooser_getSegmentIdList c)
  /\ forall segId,
       segId ∈ SegmentLocatorChooser_getSegmentIdList c
       <-> exists e, e ∈ demoBackups /\ usableBackup e /\ segment_id e = segId.
Proof.
  apply (chooser_schedule_lists_each_segment_once (fun l => l) demoBackups).
  reflexivity.
Defined.

(** ** Recovery and the tablets *)

#[local] Instance keepsTables_preorder : PreOrder keepsTables.
Proof.
  split.
  - intros s. unfold keepsTables. auto 10.
  - intros s1 s2 s3 (A1 & A2 & A3 & A4 & A5 & A6) (B1 & B2 & B3 & B4 & B5 & B6).
    unfold keepsTables. split_and!; congruence.
Qed.

#[local] Instance recoveryKeepsTables_preorder : PreOrder recoveryKeepsTables.
Proof.
  split.
  - intros r. unfold recoveryKeepsTables. reflexivity.
  - intros r1 r2 r3 H1 H2. unfold recoveryKeepsTables in *.
    etransitivity; eassumption.
Qed.

Lemma recoverEntry_keepsTables e tm : preserves keepsTables (recoverEntry e tm).
Proof.
  assert (Hlook : forall a b, preserves keepsTables (objectMap_lookup a b)).
  { intros a b s s' o H. unfold objectMap_lookup in H.
    injection H as <- <-. reflexivity. }
  assert (Hderef : forall r, preserves keepsTables (derefOpt r)).
  { intros [ref|]; [|apply preserves_ret; apply _].
    intros s s' o H. unfold derefOpt, bind, deref, ret in H.
    destruct (Log_object (log s) ref); injection H as <- <-; reflexivity. }
  assert (Happ : forall p len, preserves keepsTables (log_append p len)).
  { intros p len s s' o H. unfold log_append in H. injection H as <- <-.
    unfold keepsTables. cbn. auto 10. }
  assert (Hfree : forall ref, preserves keepsTables (log_free ref)).
  { intros ref s s' o H. unfold log_free in H. injection H as <- <-.
    unfold keepsTables. cbn. auto 10. }
  assert (Hrep : forall a b ref,
             preserves keepsTables (objectMap_replace a b ref)).
  { intros a b ref s s' o H. unfold objectMap_replace in H.
    injection H as <- <-. unfold keepsTables. cbn. auto 10. }
  assert (Hrem : forall a b, preserves keepsTables (objectMap_remove a b)).
  { intros a b s s' o H. unfold objectMap_remove in H.
    injection H as <- <-. unfold keepsTables. cbn. auto 10. }
  destruct e as [R|R|ty]; cbn [recoverEntry].
  - unfold recoverObject.
    apply preserves_bind; [apply _ | apply Hlook | intros localRef].
    apply preserves_bind; [apply _ | apply preserves_assert; apply _ | intros _].
    apply preserves_bind; [apply _ | apply Hderef | intros localObj].
    destruct (_ <=? _); [|apply preserves_ret; apply _].
    apply preserves_bind; [apply _ | apply Happ | intros newObj].
    apply preserves_bind; [apply _ | apply Hrep | intros _].
    apply preserves_bind; [apply _ | | intros _; apply preserves_ret; apply _].
    destruct localRef; [apply Hfree | apply preserves_ret; apply _].
  - unfold recoverTombstone.
    apply preserves_bind; [apply _ | apply Hlook | intros localRef].
    apply preserves_bind; [apply _ | apply preserves_assert; apply _ | intros _].
    apply preserves_bind; [apply _ | apply Hderef | intros localObj].
    destruct (_ <=? _); [|apply preserves_ret; apply _].
    apply preserves_bind; [apply _ | | intros _; apply preserves_ret; apply _].
    destruct localRef; [|apply preserves_ret; apply _].
    apply preserves_bind; [apply _ | apply Hrem | intros _; apply Hfree].
  - apply preserves_ret. apply _.
Qed.

Lemma recoverSegment_keepsTables segId buffer :
  forall tm, preserves keepsTables (recoverSegment segId buffer tm).
Proof.
  induction buffer as [|e buffer IH]; intros tm; cbn [recoverSegment].
  - apply preserves_ret. apply _.
  - apply preserves_bind; [apply _ | apply recoverEntry_keepsTables | apply IH].
Qed.

Lemma callRecoverSegment_keepsTables segId buffer :
  preserves recoveryKeepsTables (callRecoverSegment segId buffer).
Proof.
  unfold callRecoverSegment.
  apply preserves_bind; [apply _ | | intros _].
  { apply preserves_modify. intros r. unfold recoveryKeepsTables. cbn.
    reflexivity. }
  intros r r' o H.
  destruct (recoverSegment segId buffer (rec_tombstoneMap r) (rec_master r))
    as [m out] eqn:Hrun.
  apply recoverSegment_keepsTables in Hrun.
  destruct out; injection H as <- <-; exact Hrun.
Qed.

Lemma constructTask_keepsTables chooser slot segId :
  preserves recoveryKeepsTables (constructTask chooser slot segId).
Proof.
  unfold constructTask.
  apply preserves_bind; [apply _ | | intros tsc].
  { intros r r' o H. unfold rdtsc in H.
    destruct (rec_tscs r); injection H as <- <-;
      unfold recoveryKeepsTables; cbn; reflexivity. }
  apply preserves_bind; [apply _ | apply preserves_pure; apply _ | intros loc].
  apply preserves_modify. intros r. unfold recoveryKeepsTables. cbn. reflexivity.
Qed.

Lemma startTasks_keepsTables chooser slots :
  preserves recoveryKeepsTables (startTasks chooser slots).
Proof.
  induction slots as [|slot slots IH]; cbn [startTasks].
  - apply preserves_ret. apply _.
  - apply preserves_bind; [apply _ | apply preserves_get; apply _ | intros r].
    destruct (rec_segIds r) as [|segId segIds']; [apply preserves_ret; apply _|].
    apply preserves_bind; [apply _ | | intros _].
    { apply preserves_modify. intros r0. unfold recoveryKeepsTables. cbn. reflexivity. }
    apply preserves_bind;
      [apply _ | apply constructTask_keepsTables | intros _].
    apply preserves_bind; [apply _ | | intros _; exact IH].
    apply preserves_modify. intros r0. unfold recoveryKeepsTables. cbn. reflexivity.
Qed.

Lemma pollTask_keepsTables env chooser masterId tablets slot :
  preserves recoveryKeepsTables (pollTask env chooser masterId tablets slot).
Proof.
  unfold pollTask.
  apply preserves_bind; [apply _ | apply preserves_get; apply _ | intros r].
  destruct (rec_tasks r !! slot) as [[task|]|];
    try (apply preserves_ret; apply _).
  apply preserves_bind; [apply _ | | intros ready].
  { intros r0 r' o H. unfold rpc_isReady in H.
    destruct (rec_ready r0); injection H as <- <-;
      unfold recoveryKeepsTables; cbn; reflexivity. }
  destruct (negb ready); [apply preserves_ret; apply _|].
  unfold completeTask.
  destruct (env_getRecoveryData _ _ _ _ _) as [buffer| |];
    try (apply (preserves_pure recoveryKeepsTables (Throw _))).
  apply preserves_bind;
    [apply _ | apply callRecoverSegment_keepsTables | intros _].
  apply preserves_bind; [apply _ | | intros _].
  { apply preserves_modify. intros r0. unfold recoveryKeepsTables. cbn. reflexivity. }
  apply preserves_bind; [apply _ | apply preserves_get; apply _ | intros r1].
  destruct (rec_segIds r1) as [|segId segIds'].
  - apply preserves_modify. intros r0. unfold recoveryKeepsTables. cbn. reflexivity.
  - apply preserves_bind;
      [apply _ | | intros _; apply constructTask_keepsTables].
    apply preserves_modify. intros r0. unfold recoveryKeepsTables. cbn. reflexivity.
Qed.

Lemma pollTasks_keepsTables env chooser masterId tablets slots :
  preserves recoveryKeepsTables (pollTasks env chooser masterId tablets slots).
Proof.
  induction slots as [|slot slots IH]; cbn [pollTasks].
  - apply preserves_ret. apply _.
  - apply preserves_bind;
      [apply _ | apply pollTask_keepsTables | intros _; exact IH].
Qed.

Lemma recoverLoop_keepsTables fuel env chooser masterId tablets :
  preserves recoveryKeepsTables (recoverLoop fuel env chooser masterId tablets).
Proof.
  induction fuel as [|fuel IH]; cbn [recoverLoop].
  - apply preserves_bind; [apply _ | apply preserves_get; apply _ | intros r].
    destruct (0 <? rec_activeSegments r);
      [apply preserves_pure | apply preserves_ret]; apply _.
  - apply preserves_bind; [apply _ | apply preserves_get; apply _ | intros r].
    destruct (0 <? rec_activeSegments r); [|apply preserves_ret; apply _].
    apply preserves_bind;
      [apply _ | apply pollTasks_keepsTables | intros _; exact IH].
Qed.

(** The replay of a recovery, however it ends, changes neither the
    tablets nor the Tables of the server. *)
Lemma recover_keepsTables fuel env masterId tablets backups :
  preserves recoveryKeepsTables (recover fuel env masterId tablets backups).
Proof.
  unfold recover.
  apply preserves_bind; [apply _ | | intros _].
  { intros r r' o H. unfold rdtsc in H.
    destruct (rec_tscs r); injection H as <- <-;
      unfold recoveryKeepsTables; cbn; reflexivity. }
  apply preserves_bind; [apply _ | | intros _].
  { apply preserves_modify. intros r0. unfold recoveryKeepsTables. cbn. reflexivity. }
  apply preserves_bind; [apply _ | apply startTasks_keepsTables | intros _].
  apply recoverLoop_keepsTables.
Qed.

Lemma TablesConsistent_keepsTables s s' :
  keepsTables s s' -> TablesConsistent s -> TablesConsistent s'.
Proof.
  intros (Htab & Hheap & Hnext & _) H. unfold TablesConsistent in *.
  rewrite Htab, Hheap, Hnext. exact H.
Qed.

(** The RECOVER request and the tablets, on a server whose tablets and
    Tables fit together: when the request returns, the tablets of the
    server are the ones it had followed by the recovery tablets with the
    locator and the id of this server, each with its [user_data] set;
    when it ends in any other way (a failed fetch, say), the tablets and
    the Tables are those before the request, so the server does not serve
    the recovery tablets. *)
Theorem recoverRpc_serves_tablets_only_after_replay
  (fuel : nat) (env : RecoveryEnv) (tscs : list Z) (ready : list bool)
  (masterId : Z) (recoveryTablets : list Tablet)
  (backups : list ServerListEntry) (s s' : MasterServer)
  (out : Outcome unit) :
  TablesConsistent s ->
  recoverRpc fuel env tscs ready masterId recoveryTablets backups s
  = (s', out) ->
  match out with
  | Ok _ =>
      Forall2 (fun tb tb' => tb' = set_user_data (user_data tb') tb)
        (tablets s ++ (takeOver s <$> recoveryTablets)) (tablets s')
  | _ => tablets s' = tablets s /\ tableHeap s' = tableHeap s
  end.
Proof.
  unfold recoverRpc. intros Hcons H.
  destruct (recover fuel env masterId recoveryTablets backups _)
    as [r1 res] eqn:Hrun.
  apply recover_keepsTables in Hrun.
  pose proof (TablesConsistent_keepsTables _ _ Hrun Hcons) as Hcons1.
  destruct Hrun as (Htab & Hheap & _ & Hid & Hloc & _).
  cbn [rec_master] in *.
  destruct res as [u|e| | |].
  - destruct (setTablets_run
                (tablets (rec_master r1)
                 ++ (takeOver (rec_master r1) <$> recoveryTablets))
                (rec_master r1) Hcons1) as (s2 & Hset & _ & _ & Hshape).
    rewrite Hset in H. injection H as <- <-.
    replace (takeOver s) with (takeOver (rec_master r1)).
    + rewrite <- Htab. exact Hshape.
    + unfold takeOver. rewrite Hid, Hloc. reflexivity.
  - injection H as <- <-. auto.
  - injection H as <- <-. auto.
  - injection H as <- <-. auto.
  - injection H as <- <-. auto.
Qed.

Lemma recoverRpc_serves_tablets_only_after_replay_witness :
  tablets (fst (recoverRpc 10 demoEnv [0; 0] [] 99 [demoTablet 8] demoBackups
                  demoServer0)) = tablets demoServer0
  /\ tableHeap (fst (recoverRpc 10 demoEnv [0; 0] [] 99 [demoTablet 8]
                       demoBackups demoServer0)) = tableHeap demoServer0.
Proof.
  apply (recoverRpc_serves_tablets_only_after_replay 10 demoEnv [0; 0] [] 99
           [demoTablet 8] demoBackups demoServer0 _
           (Throw SegmentRecoveryFailedException)).
  - apply tablesConsistentb_sound. vm_compute. reflexivity.
  - vm_compute. reflexivity.
Defined.

(** ** A recovery without backups *)

Lemma chooser_map_without_backups shuffle list :
  Forall (fun e => ~ usableBackup e) list ->
  chooser_map (SegmentLocatorChooser_new shuffle list) = [].
Proof.
  intros Hall. destruct (chooser_map_spec shuffle list) as [_ Hm].
  destruct (chooser_map _) as [|[k v] m]; [reflexivity|].
  destruct (proj1 (Hm k v)) as (e & Hin & Hu & _);
    [apply elem_of_cons; auto|].
  rewrite Forall_forall in Hall. destruct (Hall e Hin Hu).
Qed.

(** A recovery whose list has no backup with a segment id (an empty list,
    say) replays nothing and reports no error: the RECOVER request does
    exactly what [setTablets] does with the recovery tablets added, for
    every fuel and whatever the backups would answer. *)
Theorem recoverRpc_without_backups_replays_nothing
  (fuel : nat) (env : RecoveryEnv) (tscs : list Z) (ready : list bool)
  (masterId : Z) (recoveryTablets : list Tablet)
  (backups : list ServerListEntry) (s : MasterServer) :
  Forall (fun e => ~ usableBackup e) backups ->
  env_shuffle env [] = [] ->
  recoverRpc fuel env tscs ready masterId recoveryTablets backups s
  = setTablets (tablets s ++ (takeOver s <$> recoveryTablets)) s.
Proof.
  intros Hall Hshuffle. unfold recoverRpc, recover.
  unfold SegmentLocatorChooser_getSegmentIdList.
  pose proof (chooser_map_without_backups (env_shuffle env) backups Hall)
    as Hmap.
  assert (Hids : chooser_ids (SegmentLocatorChooser_new (env_shuffle env)
                                backups) = []).
  { unfold SegmentLocatorChooser_new in *. cbn in *. rewrite Hmap. cbn.
    exact Hshuffle. }
  unfold bind at 1, rdtsc. cbn [rec_tscs].
  destruct tscs as [|tsc rest];
    unfold bind at 1, modify; rewrite Hids;
    unfold bind at 1; cbn [startTasks]; unfold bind at 1, get;
    cbn [rec_segIds with_activeSegments with_segIds]; unfold ret at 1;
    destruct fuel; cbn [recoverLoop]; unfold bind, get;
    cbn [rec_activeSegments with_activeSegments Z.ltb Z.compare];
    unfold ret;
    cbn [rec_master with_activeSegments with_segIds with_tasks with_oracles];
    destruct s; reflexivity.
Qed.

Lemma recoverRpc_without_backups_replays_nothing_witness :
  recoverRpc 0 demoEnv [] [] 99 [demoTablet 8]
    [mkServerListEntry false 0 BACKUP backup1;
     mkServerListEntry true 42 MASTER backup2] demoServer1
  = setTablets (tablets demoServer1
                ++ (takeOver demoServer1 <$> [demoTablet 8])) demoServer1.
Proof.
  apply (recoverRpc_without_backups_replays_nothing 0 demoEnv [] [] 99
           [demoTablet 8]
           [mkServerListEntry false 0 BACKUP backup1;
            mkServerListEntry true 42 MASTER backup2] demoServer1).
  - repeat constructor; intros [H1 H2]; discriminate.
  - reflexivity.
Defined.

(** ** A server that keeps serving *)

Lemma rt_bind_Ok {S A B} (m : M S A) (f : A -> M S B) s s1 a :
  m s = (s1, Ok a) -> returnsOrThrows (f a) s1 -> returnsOrThrows (bind m f) s.
Proof.
  intros Hm (s' & res & Hf & Hres). exists s', res.
  rewrite (bind_step _ _ _ _ _ Hm). auto.
Qed.

Lemma rt_bind_Throw {S A B} (m : M S A) (f : A -> M S B) s s1 e :
  m s = (s1, Throw e) -> returnsOrThrows (bind m f) s.
Proof.
  intros Hm. exists s1, (Throw e). unfold bind. rewrite Hm. eauto.
Qed.

Lemma rt_ret {S A} (a : A) (s : S) : returnsOrThrows (ret a) s.
Proof. exists s, (Ok a). unfold ret. eauto. Qed.

Lemma rt_lift_reject {S B} rules v (f : unit -> M S B) (s : S) :
  returnsOrThrows (f tt) s ->
  returnsOrThrows (bind (lift (rejectOperation rules v)) f) s.
Proof.
  intros Hf. unfold rejectOperation.
  repeat match goal with
         | |- context [if ?b then _ else _] => destruct b
         end;
    first [ eapply rt_bind_Throw; reflexivity
          | eapply rt_bind_Ok; [reflexivity | exact Hf] ].
Qed.

Lemma tableOf_tablet s key t :
  tableOf s key = Some t -> exists tb, tb ∈ tablets s /\ user_data tb = t.
Proof.
  unfold tableOf. destruct (find _ (tablets s)) as [tb|] eqn:Hf; [|discriminate].
  intros [= <-]. apply find_some in Hf as [Hin _].
  exists tb. split; [apply list_elem_of_In; exact Hin | reflexivity].
Qed.

Lemma Log_object_getSegmentId l ref o :
  Log_object l ref = Some o -> is_Some (Log_getSegmentId l ref).
Proof.
  with_strategy transparent [Log_object Log_getSegmentId]
    (unfold Log_object, Log_getSegmentId).
  destruct (logEntries l !! ref); [eauto | discriminate].
Qed.

Lemma storeData_safe n tableId id rules data s :
  VersionsWithin n s -> n + 2 < 2 ^ 64 -> TablesReady s ->
  returnsOrThrows (storeData tableId id rules data) s.
Proof.
  intros (Hv & Hobj & _) Hn [Hready _]. unfold storeData.
  destruct (tableOf s (tableId, id)) as [t|] eqn:Ht.
  2:{ eapply rt_bind_Throw. rewrite getTable_run, Ht. reflexivity. }
  eapply rt_bind_Ok; [rewrite getTable_run, Ht; reflexivity|].
  destruct (tableOf_tablet _ _ _ Ht) as (tb & Hin & <-).
  destruct (Hready tb Hin) as [tbl Htbl].
  eapply rt_bind_Ok; [reflexivity|].
  destruct (objectMap s !! (tableId, id)) as [ref|] eqn:Hk.
  - destruct (Hv _ _ Hk) as [prev Hprev].
    pose proof (Hobj _ _ (contents_Some _ _ _ _ Hk Hprev)) as Hrange.
    eapply rt_bind_Ok.
    { unfold derefOpt, bind, deref, ret. rewrite Hprev. reflexivity. }
    apply rt_lift_reject.
    eapply rt_bind_Ok; [reflexivity|].
    rewrite wrap64_small by lia.
    eapply rt_bind_Ok.
    { unfold assert. replace (obj_version prev <? obj_version prev + 1)
        with true by (symmetry; apply Z.ltb_lt; lia). reflexivity. }
    destruct (Log_object_getSegmentId _ _ _ Hprev) as [segId Hseg].
    eapply rt_bind_Ok.
    { unfold bind at 1. unfold log_free at 1. unfold bind at 1.
      unfold log_getSegmentId. cbn [log with_log].
      rewrite Log_getSegmentId_free, Hseg.
      unfold bind, log_append, ret. reflexivity. }
    eapply rt_bind_Ok; [reflexivity|].
    eapply rt_bind_Ok; [reflexivity|].
    eapply rt_bind_Ok.
    { unfold deref. cbn [log with_log with_objectMap].
      rewrite Log_object_append_new. reflexivity. }
    eapply rt_bind_Ok; [reflexivity|]. apply rt_ret.
  - eapply rt_bind_Ok; [reflexivity|].
    apply rt_lift_reject.
    eapply rt_bind_Ok.
    { unfold Table_AllocateVersion, withTable. rewrite Htbl. reflexivity. }
    eapply rt_bind_Ok; [reflexivity|].
    eapply rt_bind_Ok; [reflexivity|].
    eapply rt_bind_Ok; [reflexivity|].
    eapply rt_bind_Ok; [reflexivity|].
    eapply rt_bind_Ok.
    { unfold deref. cbn [log with_log with_objectMap with_tables].
      rewrite Log_object_append_new. reflexivity. }
    eapply rt_bind_Ok; [reflexivity|]. apply rt_ret.
Qed.

Lemma read_safe tableId id rules s :
  IndexValid s -> returnsOrThrows (read tableId id rules) s.
Proof.
  intros Hv. exists s. rewrite read_run.
  destruct (tableOf s (tableId, id)); [|eauto].
  destruct (objectMap s !! (tableId, id)) as [ref|] eqn:Hk; [|eauto].
  destruct (Hv _ _ Hk) as [obj ->].
  unfold rejectOperation.
  repeat match goal with
         | |- context [if ?b then _ else _] => destruct b
         end; eauto.
Qed.

Lemma remove_safe tableId id rules uninit s :
  IndexValid s -> TablesReady s ->
  returnsOrThrows (remove tableId id rules uninit) s.
Proof.
  intros Hv [Hready _]. unfold remove.
  destruct (tableOf s (tableId, id)) as [t|] eqn:Ht.
  2:{ eapply rt_bind_Throw. rewrite getTable_run, Ht. reflexivity. }
  eapply rt_bind_Ok; [rewrite getTable_run, Ht; reflexivity|].
  destruct (tableOf_tablet _ _ _ Ht) as (tb & Hin & <-).
  destruct (Hready tb Hin) as [tbl Htbl].
  eapply rt_bind_Ok; [reflexivity|].
  destruct (objectMap s !! (tableId, id)) as [ref|] eqn:Hk.
  - destruct (Hv _ _ Hk) as [prev Hprev].
    eapply rt_bind_Ok; [unfold deref; rewrite Hprev; reflexivity|].
    apply rt_lift_reject.
    eapply rt_bind_Ok.
    { unfold Table_RaiseVersion, withTable. rewrite Htbl. reflexivity. }
    eapply rt_bind_Ok; [reflexivity|].
    eapply rt_bind_Ok; [reflexivity|].
    eapply rt_bind_Ok; [reflexivity|]. apply rt_ret.
  - apply rt_lift_reject. apply rt_ret.
Qed.

Lemma skipKeys_range fuel m t k key :
  0 <= k < 2 ^ 64 -> skipKeys fuel m t k = Some key -> 0 <= key < 2 ^ 64.
Proof.
  revert k. induction fuel as [|fuel IH]; intros k Hk; cbn.
  - destruct (m !! (t, k)); [discriminate|]. intros [= <-]. exact Hk.
  - destruct (m !! (t, k)); [|intros [= <-]; exact Hk].
    apply IH. unfold wrap64. apply Z.mod_pos_bound. lia.
Qed.

Lemma IndexKeyed_insert s s' k r R :
  IndexValid s -> IndexKeyed s ->
  objectMap s' = <[k := r]> (objectMap s) ->
  Log_object (log s') r = Some R -> objKey R = k ->
  (forall q o, Log_object (log s) q = Some o ->
               Log_object (log s') q = Some o) ->
  IndexKeyed s'.
Proof.
  intros Hv Hk Hmap Hnew Hkey Hold k' ref o. rewrite Hmap.
  destruct (decide (k' = k)) as [->|Hne].
  - rewrite lookup_insert_eq. intros [= <-]. rewrite Hnew.
    intros [= <-]. exact Hkey.
  - rewrite lookup_insert_ne by congruence. intros Href Ho.
    destruct (Hv _ _ Href) as [o' Ho'].
    rewrite (Hold _ _ Ho') in Ho. injection Ho as <-.
    eapply Hk; eassumption.
Qed.

Lemma IndexKeyed_delete s s' k :
  IndexValid s -> IndexKeyed s ->
  objectMap s' = delete k (objectMap s) ->
  (forall q o, Log_object (log s) q = Some o ->
               Log_object (log s') q = Some o) ->
  IndexKeyed s'.
Proof.
  intros Hv Hk Hmap Hold k' ref o. rewrite Hmap.
  destruct (decide (k' = k)) as [->|Hne].
  - rewrite lookup_delete_eq. discriminate.
  - rewrite lookup_delete_ne by congruence. intros Href Ho.
    destruct (Hv _ _ Href) as [o' Ho'].
    rewrite (Hold _ _ Ho') in Ho. injection Ho as <-.
    eapply Hk; eassumption.
Qed.

Lemma TablesReady_update s s' t tbl tbl' :
  TablesReady s -> tablets s' = tablets s ->
  tableHeap s !! t = Some tbl ->
  tableHeap s' = <[t := tbl']> (tableHeap s) ->
  0 <= nextKey tbl' < 2 ^ 64 ->
  TablesReady s'.
Proof.
  intros [Hr Hn] Htab Ht Hheap Hkey. split.
  - intros tb Hin. rewrite Htab in Hin. rewrite Hheap.
    apply lookup_insert_is_Some'. right. apply Hr, Hin.
  - intros p x. rewrite Hheap.
    destruct (decide (t = p)) as [<-|Hne].
    + rewrite lookup_insert_eq. intros [= <-]. exact Hkey.
    + rewrite lookup_insert_ne by done. apply Hn.
Qed.

Lemma storeData_keeps tableId id rules data s s' v :
  IndexValid s -> IndexKeyed s -> TablesReady s ->
  storeData tableId id rules data s = (s', Ok v) ->
  IndexKeyed s' /\ TablesReady s'
  /\ (size (objectMap s') <= S (size (objectMap s)))%nat.
Proof.
  intros Hv Hk Hr H.
  apply storeData_Ok in H as (t & objRef & _ & Hnew & Hmap & Htab & Hold & Hcase).
  split_and!.
  - eapply IndexKeyed_insert; try eassumption. reflexivity.
  - destruct (objectMap s !! (tableId, id)) as [ref|].
    + destruct Hcase as (prev & segId & tombRef & _ & _ & _ & _ & _ & Hheap & _).
      destruct Hr as [Hr Hn]. split.
      * intros tb. rewrite Htab, Hheap. apply Hr.
      * intros p x. rewrite Hheap. apply Hn.
    + destruct Hcase as (tbl & Ht & _ & _ & Hheap & _).
      eapply TablesReady_update; try eassumption.
      unfold allocatedVersion. cbn. destruct Hr as [_ Hn]. eapply Hn, Ht.
  - rewrite Hmap, map_size_insert.
    destruct (objectMap s !! (tableId, id)); cbn; lia.
Qed.

Lemma remove_keeps tableId id rules uninit s s' r :
  IndexValid s -> IndexKeyed s -> TablesReady s ->
  remove tableId id rules uninit s = (s', Ok r) ->
  IndexKeyed s' /\ TablesReady s'
  /\ (size (objectMap s') <= size (objectMap s))%nat.
Proof.
  intros Hv Hk Hr H.
  apply remove_Ok in H as (t & _ & Htab & Hold & Hcase).
  destruct (objectMap s !! (tableId, id)) as [ref|] eqn:Hkey.
  - destruct Hcase as (prev & tbl & tombRef & _ & _ & _ & Ht & Hheap & Hmap & _).
    split_and!.
    + eapply IndexKeyed_delete; eassumption.
    + eapply TablesReady_update; try eassumption.
      unfold raisedVersion. cbn. destruct Hr as [_ Hn]. eapply Hn, Ht.
    + rewrite Hmap, map_size_delete, Hkey. cbn. lia.
  - destruct Hcase as (_ & -> & _). auto.
Qed.

Lemma AllocateKey_run t s tbl :
  tableHeap s !! t = Some tbl ->
  0 <= nextKey tbl < 2 ^ 64 -> Z.of_nat (size (objectMap s)) < 2 ^ 64 ->
  exists key s',
    Table_AllocateKey t s = (s', Ok key)
    /\ 0 <= key < 2 ^ 64
    /\ log s' = log s /\ objectMap s' = objectMap s
    /\ tablets s' = tablets s
    /\ tableHeap s'
       = <[t := {| tbl_tableId := tbl_tableId tbl; nextKey := key;
                   nextVersion := nextVersion tbl |}]> (tableHeap s).
Proof.
  intros Ht Hk Hsize. unfold Table_AllocateKey. rewrite Ht.
  destruct (skipKeys_returns (objectMap s) (tbl_tableId tbl) (nextKey tbl)
              Hk Hsize) as (key & Hskip & _).
  rewrite Hskip. exists key. eexists. split; [reflexivity|].
  split; [eapply skipKeys_range; eassumption|]. cbn. auto.
Qed.

Lemma Serving_mono n m s : n <= m -> Serving n s -> Serving m s.
Proof.
  intros Hle (Hw & Hk & Hr & Hsize). split_and!; try assumption.
  - eapply VersionsWithin_mono; eassumption.
  - lia.
Qed.

(** One request of a client on a serving state: it returns or throws, and
    the state keeps serving. *)
Lemma dispatch_serving n rpc s :
  clientRequest rpc -> Serving n s -> n + 2 < 2 ^ 64 ->
  exists s' res,
    dispatch rpc s = (s', res)
    /\ ((exists r, res = Ok r) \/ (exists e, res = Throw e))
    /\ Serving (n + 1) s'.
Proof.
  intros Hclient Hs Hroom.
  assert (Hstay : Serving (n + 1) s) by (eapply Serving_mono; [|exact Hs]; lia).
  destruct Hs as (Hw & Hk & Hr & Hsize). pose proof Hw as (Hv & _ & _).
  assert (Hfinish : forall s' res,
             dispatch rpc s = (s', res) ->
             ((exists r, res = Ok r) \/ (exists e, res = Throw e)) ->
             IndexKeyed s' -> TablesReady s' ->
             (size (objectMap s') <= S (size (objectMap s)))%nat ->
             exists s' res,
               dispatch rpc s = (s', res)
               /\ ((exists r, res = Ok r) \/ (exists e, res = Throw e))
               /\ Serving (n + 1) s').
  { intros s' res Hrun Hres Hk' Hr' Hsize'. exists s', res.
    split; [exact Hrun|]. split; [exact Hres|].
    destruct (dispatch_step n rpc s s' res Hclient Hw Hroom Hrun Hres)
      as (Hw' & _ & _).
    split_and!; try assumption. lia. }
  destruct rpc as [tId data| |tId id rules| |tId id rules uninit| |tId id rules data];
    cbn in Hclient; try contradiction.
  - (* create *)
    cbn [dispatch] in *. unfold create in *.
    destruct (tableOf s (tId, UINT64_MAX)) as [t|] eqn:Ht.
    2:{ exists s, (Throw TableDoesntExistException).
        unfold bind. rewrite getTable_run, Ht. eauto. }
    destruct (tableOf_tablet _ _ _ Ht) as (tb & Hin & <-).
    destruct Hr as [Hready Hkeys]. destruct (Hready tb Hin) as [tbl Htbl].
    destruct (AllocateKey_run _ _ _ Htbl (Hkeys _ _ Htbl) ltac:(lia))
      as (key & s2 & Hkey & Hrange & Hlog2 & Hmap2 & Htab2 & Hheap2).
    assert (Hr2 : TablesReady s2).
    { apply (TablesReady_update s s2 (user_data tb) tbl _
               (conj Hready Hkeys) Htab2 Htbl Hheap2).
      cbn. exact Hrange. }
    destruct (AllocateKey_step _ _ _ _ _ Hw Hkey) as (Hw2 & _ & _).
    pose proof Hw2 as (Hv2 & _ & _).
    assert (Hk2 : IndexKeyed s2).
    { intros k ref o. rewrite Hmap2, Hlog2. apply Hk. }
    destruct (storeData_safe n tId key
                {| givenVersion := 0; doesntExist := false; rr_exists := true;
                   versionLeGiven := false; versionNeGiven := false |}
                data s2 Hw2 Hroom Hr2) as (s3 & res & Hstore & Hres).
    assert (Hpre : forall f : Z * Z -> M MasterServer Response,
               bind (bind (getTable tId UINT64_MAX)
                       (fun t => bind (Table_AllocateKey t)
                                   (fun id0 => bind (storeData tId id0
                {| givenVersion := 0; doesntExist := false; rr_exists := true;
                   versionLeGiven := false; versionNeGiven := false |} data)
                                   (fun version => ret (id0, version))))) f s
               = bind (storeData tId key
                {| givenVersion := 0; doesntExist := false; rr_exists := true;
                   versionLeGiven := false; versionNeGiven := false |} data)
                   (fun version => f (key, version)) s2).
    { intros f. unfold bind at 1 2. rewrite getTable_run, Ht.
      unfold bind at 1. rewrite Hkey. unfold bind, ret.
      destruct (storeData _ _ _ _ _) as [s4 [v| | | |]]; reflexivity. }
    destruct Hres as [[v ->]|[e ->]].
    + destruct (storeData_keeps _ _ _ _ _ _ _ Hv2 Hk2 Hr2 Hstore)
        as (Hk3 & Hr3 & Hsize3).
      apply (Hfinish s3 (Ok (CreateResponse key v))); eauto.
      * rewrite Hpre. unfold bind. rewrite Hstore. reflexivity.
      * rewrite <- Hmap2. exact Hsize3.
    + apply storeData_Throw in Hstore as Heq. subst s3.
      apply (Hfinish s2 (Throw e)); eauto.
      * rewrite Hpre. unfold bind. rewrite Hstore. reflexivity.
      * rewrite Hmap2. lia.
  - (* ping *)
    exists s, (Ok PingResponse). eauto.
  - (* read *)
    destruct (read_safe tId id rules s Hv) as (s' & res & Hrun & Hres).
    cbn [dispatch]. unfold bind. rewrite Hrun.
    destruct Hres as [[r ->]|[e ->]].
    + apply read_Ok in Hrun as ->. eauto 10.
    + apply read_Throw in Hrun as ->. eauto 10.
  - (* remove *)
    destruct (remove_safe tId id rules uninit s Hv Hr)
      as (s' & res & Hrun & Hres).
    destruct Hres as [[r ->]|[e ->]].
    + destruct (remove_keeps _ _ _ _ _ _ _ Hv Hk Hr Hrun) as (Hk' & Hr' & Hsize').
      apply (Hfinish s' (Ok (RemoveResponse r))); eauto.
      * cbn [dispatch]. unfold bind. rewrite Hrun. reflexivity.
    + cbn [dispatch]. unfold bind. rewrite Hrun.
      apply remove_Throw in Hrun as ->. eauto 10.
  - (* write *)
    destruct (storeData_safe n tId id rules data s Hw Hroom Hr)
      as (s' & res & Hrun & Hres).
    destruct Hres as [[v ->]|[e ->]].
    + destruct (storeData_keeps _ _ _ _ _ _ _ Hv Hk Hr Hrun)
        as (Hk' & Hr' & Hsize').
      apply (Hfinish s' (Ok (WriteResponse v))); eauto.
      cbn [dispatch]. unfold write, bind. rewrite Hrun. reflexivity.
    + cbn [dispatch]. unfold write, bind. rewrite Hrun.
      apply storeData_Throw in Hrun as ->. eauto 10.
Qed.

Lemma serveAll_serving rpcs :
  forall n s,
    Serving n s -> Forall clientRequest rpcs ->
    n + Z.of_nat (length rpcs) + 1 < 2 ^ 64 ->
    exists s', serveAll rpcs s = Some s'
               /\ Serving (n + Z.of_nat (length rpcs)) s'.
Proof.
  induction rpcs as [|rpc rpcs IH]; intros n s Hs Hall Hroom.
  - exists s. split; [reflexivity|]. cbn. rewrite Z.add_0_r. exact Hs.
  - apply Forall_cons in Hall as [Hc Hall].
    cbn [length] in Hroom. rewrite Nat2Z.inj_succ in Hroom.
    destruct (dispatch_serving n rpc s Hc Hs ltac:(lia))
      as (s1 & res & Hrun & Hres & Hs1).
    destruct (IH (n + 1) s1 Hs1 Hall ltac:(lia)) as (s' & Hrest & Hs').
    exists s'. cbn [serveAll length]. rewrite Hrun.
    rewrite Nat2Z.inj_succ.
    replace (n + Z.succ (Z.of_nat (length rpcs)))
      with (n + 1 + Z.of_nat (length rpcs)) by lia.
    destruct Hres as [[r ->]|[e ->]]; auto.
Qed.

Lemma assignTables_new_keys ts :
  forall tables heap next tables' heap' next' ts',
    assignTables (tables, heap, next) ts = ((tables', heap', next'), ts') ->
    (forall p tbl, heap !! p = Some tbl -> nextKey tbl = 1) ->
    forall p tbl, heap' !! p = Some tbl -> nextKey tbl = 1.
Proof.
  induction ts as [|tb ts IH];
    intros tables heap next tables' heap' next' ts' Hrun Hheap.
  - cbn in Hrun. injection Hrun as <- <- <- <-. exact Hheap.
  - cbn [assignTables] in Hrun.
    destruct (assignTable (tables, heap, next) tb)
      as [[[tables1 heap1] next1] tb1] eqn:Hstep.
    destruct (assignTables (tables1, heap1, next1) ts)
      as [[[tables2 heap2] next2] rest'] eqn:Hrest.
    injection Hrun as <- <- <- <-.
    eapply IH; [exact Hrest|].
    unfold assignTable in Hstep.
    destruct (_ =? 0); injection Hstep as <- <- <- <-; [|exact Hheap].
    intros p tbl. destruct (decide (next = p)) as [<-|Hne].
    + rewrite lookup_insert_eq. intros [= <-]. reflexivity.
    + rewrite lookup_insert_ne by done. apply Hheap.
Qed.

(** A new server that was given tablets is serving. *)
Lemma setTablets_new_serving ts id locator capacity :
  Serving 0 (fst (setTablets ts (MasterServer_new id locator capacity))).
Proof.
  split; [apply setTablets_new_within|].
  destruct (setTablets_new_run ts id locator capacity)
    as (tables' & heap' & next' & ts' & Hrun & ->).
  cbn [fst]. split_and!.
  - intros k ref o. cbn. rewrite lookup_empty. discriminate.
  - split.
    + intros tb' Hin. cbn in *.
      destruct (assignTables_post _ _ _ _ _ _ _ _ Hrun ltac:(lia))
        as (_ & _ & _ & _ & _ & P6 & _ & P8).
      { intros q [x Hq]. rewrite lookup_empty in Hq. discriminate. }
      { intros k p Hk. unfold collectTables in Hk. cbn in Hk.
        rewrite lookup_empty in Hk. discriminate. }
      apply list_elem_of_lookup in Hin as [i Hi].
      destruct (Forall2_lookup_r _ _ _ _ _ P8 Hi)
        as (tb & Htb & p & Hp & Hnz & ->).
      cbn. destruct (P6 _ _ Hp) as [Hold|(_ & _ & tb2 & _ & _ & Hh)].
      * unfold collectTables in Hold. cbn in Hold.
        rewrite lookup_empty in Hold. discriminate.
      * rewrite Hh. eauto.
    + intros p tbl Hp. cbn in Hp.
      rewrite (assignTables_new_keys _ _ _ _ _ _ _ _ Hrun) with (p := p);
        [lia | | exact Hp].
      intros q x. rewrite lookup_empty. discriminate.
  - cbn. rewrite map_size_empty. lia.
Qed.

(** A new server that was given tablets serves every run of fewer than
    2^64-1 requests of clients (create, ping, read, remove, write): no
    [assert] fails, no pointer is wild and [AllocateKey] finds a key, so
    that every request returns or throws and the server takes the next
    one; in the end every reference of the index is valid and filed
    under the key of its object, and every tablet has its Table. *)
Theorem new_master_serves_every_client_request
  (id : Z) (locator : string) (capacity : Z) (ts : list Tablet)
  (rpcs : list Request) :
  Forall clientRequest rpcs ->
  Z.of_nat (length rpcs) + 1 < 2 ^ 64 ->
  exists s',
    serveAll rpcs (fst (setTablets ts (MasterServer_new id locator capacity)))
    = Some s'
    /\ IndexValid s' /\ IndexKeyed s' /\ TablesReady s'.
Proof.
  intros Hall Hroom.
  destruct (serveAll_serving rpcs 0 _
              (setTablets_new_serving ts id locator capacity) Hall
              ltac:(lia)) as (s' & Hrun & (Hv & _ & _) & Hk & Hr & _).
  eauto.
Qed.

Lemma new_master_serves_every_client_request_witness :
  exists s',
    serveAll [WriteRpc 7 1 noRules "hello"; CreateRpc 7 "more";
              RemoveRpc 7 1 noRules 0; ReadRpc 7 1 noRules; PingRpc]
      (fst (setTablets [demoTablet 7]
              (MasterServer_new 1 "mock:host=master" 1000)))
    = Some s'
    /\ IndexValid s' /\ IndexKeyed s' /\ TablesReady s'.
Proof.
  apply (new_master_serves_every_client_request 1 "mock:host=master" 1000
           [demoTablet 7]
           [WriteRpc 7 1 noRules "hello"; CreateRpc 7 "more";
            RemoveRpc 7 1 noRules 0; ReadRpc 7 1 noRules; PingRpc]).
  - repeat constructor.
  - vm_compute. reflexivity.
Defined.

(** ** The Tables of the heap *)

(** A Table that the third loop creates is the Table of a tablet. *)
Lemma assignTables_new_referenced ts :
  forall tables heap next tables' heap' next' ts',
    assignTables (tables, heap, next) ts = ((tables', heap', next'), ts') ->
    (forall q, is_Some (heap !! q) -> q < next) ->
    forall q, next <= q -> is_Some (heap' !! q) ->
              exists tb', tb' ∈ ts' /\ user_data tb' = q.
Proof.
  induction ts as [|tb ts IH];
    intros tables heap next tables' heap' next' ts' Hrun Hbelow q Hq Hsome.
  - cbn in Hrun. injection Hrun as <- <- <- <-.
    specialize (Hbelow q Hsome). lia.
  - cbn [assignTables] in Hrun.
    destruct (assignTable (tables, heap, next) tb)
      as [[[tables1 heap1] next1] tb1] eqn:Hstep.
    destruct (assignTables (tables1, heap1, next1) ts)
      as [[[tables2 heap2] next2] rest'] eqn:Hrest.
    injection Hrun as <- <- <- <-.
    unfold assignTable in Hstep.
    destruct (_ =? 0); injection Hstep as <- <- <- <-.
    + destruct (decide (q = next)) as [->|Hne].
      * exists (set_user_data next tb). split; [apply elem_of_cons; auto|].
        reflexivity.
      * destruct (IH _ _ _ _ _ _ _ Hrest) with (q := q)
          as (tb' & Hin & Hu); [| lia | exact Hsome |].
        -- intros p. destruct (decide (next = p)) as [<-|Hp]; [lia|].
           rewrite lookup_insert_ne by done. intros H.
           specialize (Hbelow p H). lia.
        -- exists tb'. split; [apply elem_of_cons; auto | exact Hu].
    + destruct (IH _ _ _ _ _ _ _ Hrest Hbelow q Hq Hsome) as (tb' & Hin & Hu).
      exists tb'. split; [apply elem_of_cons; auto | exact Hu].
Qed.

(** [setTablets] leaks no Table: when the tablets and their Tables fit
    together, every Table of the heap belongs to a tablet and all table
    ids are below 2^32, then after [setTablets] every Table of the heap
    belongs to a tablet again. *)
Theorem setTablets_leaves_no_orphan_table
  (s : MasterServer) (newTablets : list Tablet) :
  TablesConsistent s -> NoOrphans s ->
  Forall (fun tb => isU32 (table_id tb)) (tablets s) ->
  Forall (fun tb => isU32 (table_id tb)) newTablets ->
  NoOrphans (fst (setTablets newTablets s)).
Proof.
  intros Hcons Horph Uold Unew.
  pose proof Hcons as (Wvalid & Wsame & Wheap & Wpos).
  rewrite Forall_forall in Uold, Unew.
  set (tablesA := collectTables (tablets s)).
  set (heapB := deletedHeap newTablets s).
  destruct (assignTables (tablesA, heapB, heapNext s) newTablets)
    as [[[tables' heap'] next'] ts'] eqn:Hrun.
  rewrite (setTablets_Ok _ _ _ _ _ _ Hcons Hrun).
  cbn [fst]. unfold NoOrphans. cbn [tablets tableHeap with_tables].
  assert (A1 : forall old, old ∈ tablets s ->
                           tablesA !! table_id old = Some (user_data old)).
  { intros old Hin.
    destruct (collectTables_elem _ _ Hin) as (tb' & Hin' & Hk & Hp).
    rewrite !wrap32_small in * by auto.
    fold tablesA in Hp. rewrite Hp. f_equal. apply Wsame; auto. }
  assert (A2 : forall k p, tablesA !! k = Some p ->
                           exists old, old ∈ tablets s /\ table_id old = k
                                       /\ user_data old = p).
  { intros k p Hk. destruct (collectTables_lookup _ _ _ Hk)
      as (tb & Hin & Hw & Hp).
    rewrite wrap32_small in Hw by auto. eauto. }
  assert (B3 : forall q, is_Some (heapB !! q) -> is_Some (tableHeap s !! q)).
  { intros q. apply deleteLoop_subset. }
  assert (Hbelow : forall q, is_Some (heapB !! q) -> q < heapNext s).
  { intros q Hq. apply Wheap, B3, Hq. }
  destruct (assignTables_post _ _ _ _ _ _ _ _ Hrun Wpos Hbelow)
    as (P1 & P2 & P3 & P4 & P5 & P6 & P7 & P8).
  { intros k p Hk. destruct (A2 k p Hk) as (old & Hin & _ & <-).
    apply Wheap, Wvalid, Hin. }
  intros q Hq.
  destruct (decide (heapNext s <= q)) as [Hnew|Hold].
  { eapply assignTables_new_referenced; eassumption. }
  rewrite P4 in Hq by lia.
  destruct (Horph q (B3 q Hq)) as (old & Hin & Hu).
  destruct (stillServed newTablets (table_id old)) eqn:Hs.
  - apply stillServed_true in Hs as (tb & Htb & Hid).
    apply list_elem_of_lookup in Htb as [i Hi].
    destruct (Forall2_lookup_l _ _ _ _ _ P8 Hi)
      as (tb' & Htb' & p & Hp & Hnz & ->).
    exists (set_user_data p tb). split; [eapply list_elem_of_lookup_2; exact Htb'|].
    cbn. apply list_elem_of_lookup_2 in Hi.
    rewrite wrap32_small in Hp by auto. rewrite Hid in Hp.
    rewrite (P5 _ _ (A1 old Hin)) in Hp by (apply Wvalid; exact Hin).
    congruence.
  - exfalso. unfold heapB, deletedHeap in Hq.
    rewrite (deleteLoop_deleted _ _ _ (table_id old)) in Hq.
    + destruct Hq; discriminate.
    + apply elem_of_Tables_entries. rewrite <- Hu. apply A1. exact Hin.
    + exact Hs.
Qed.

Lemma noOrphansb_sound s : noOrphansb s = true -> NoOrphans s.
Proof.
  unfold noOrphansb. rewrite forallb_forall. intros H p [tbl Hp].
  apply elem_of_map_to_list, list_elem_of_In in Hp. specialize (H _ Hp).
  cbn in H. apply existsb_exists in H as (tb & Hin & Heq).
  exists tb. split; [apply list_elem_of_In; exact Hin | lia].
Qed.

Lemma setTablets_leaves_no_orphan_table_witness :
  NoOrphans (fst (setTablets [demoTablet 8; demoTablet 9] demoServer1)).
Proof.
  apply (setTablets_leaves_no_orphan_table demoServer1
           [demoTablet 8; demoTablet 9]).
  - apply tablesConsistentb_sound. vm_compute. reflexivity.
  - apply noOrphansb_sound. vm_compute. reflexivity.
  - apply tabletsU32b_sound. vm_compute. reflexivity.
  - apply tabletsU32b_sound. vm_compute. reflexivity.
Defined.

(** ** The destructor *)

Lemma deleteTables_run ps :
  forall s,
    NoDup ps ->
    (forall p, p ∈ ps -> p <> 0 /\ is_Some (tableHeap s !! p)) ->
    exists s',
      deleteTables ps s = (s', Ok tt)
      /\ tablets s' = tablets s
      /\ log s' = log s /\ objectMap s' = objectMap s
      /\ forall q, tableHeap s' !! q
                   = if decide (q ∈ ps) then None else tableHeap s !! q.
Proof.
  induction ps as [|p ps IH]; intros s Hnd Hall.
  - exists s. cbn. unfold ret. split_and!; reflexivity.
  - apply NoDup_cons in Hnd as [Hnotin Hnd].
    destruct (Hall p) as [Hnz [tbl Hp]]; [apply elem_of_cons; auto|].
    set (s1 := with_tables (tablets s) (delete p (tableHeap s)) (heapNext s) s).
    destruct (IH s1 Hnd) as (s' & Hrun & Htab & Hlog & Hmap & Hheap).
    { intros q Hq. destruct (Hall q) as [Hqz Hsome]; [apply elem_of_cons; auto|].
      split; [exact Hqz|]. cbn.
      rewrite lookup_delete_ne by (intros ->; contradiction). exact Hsome. }
    exists s'. cbn [deleteTables]. unfold bind, deleteTable.
    replace (p =? 0) with false by (symmetry; apply Z.eqb_neq; exact Hnz).
    rewrite Hp. fold s1. rewrite Hrun.
    split_and!; try assumption; try reflexivity.
    intros q. rewrite Hheap. cbn.
    destruct (decide (q = p)) as [->|Hne].
    + rewrite decide_False by exact Hnotin.
      rewrite decide_True by (apply elem_of_cons; auto).
      apply lookup_delete_eq.
    + rewrite lookup_delete_ne by congruence.
      destruct (decide (q ∈ ps)) as [Hin|Hout].
      * rewrite decide_True by (apply elem_of_cons; auto). reflexivity.
      * rewrite decide_False; [reflexivity|].
        intros H. apply elem_of_cons in H as [?|?]; contradiction.
Qed.

(** The destructor frees every Table exactly once: when the tablets and
    their Tables fit together and every Table of the heap belongs to a
    tablet, the destructor returns (no [delete] meets an address that
    holds no Table) and leaves no Table in the heap; the log and the
    index are not touched. *)
Theorem destructor_frees_every_table_once (s : MasterServer) :
  TablesConsistent s -> NoOrphans s ->
  exists s',
    MasterServer_destroy s = (s', Ok tt)
    /\ tableHeap s' = ∅
    /\ tablets s' = tablets s /\ log s' = log s /\ objectMap s' = objectMap s.
Proof.
  intros (Wvalid & _) Horph. unfold MasterServer_destroy.
  set (tables := list_to_set (user_data <$> tablets s) : gset Z).
  assert (Hperm : merge_sort Z.le (elements tables) ≡ₚ elements tables)
    by apply merge_sort_Permutation.
  assert (Hmem : forall p, p ∈ merge_sort Z.le (elements tables)
                           <-> exists tb, tb ∈ tablets s /\ user_data tb = p).
  { intros p. rewrite Hperm, elem_of_elements. unfold tables.
    rewrite elem_of_list_to_set, list_elem_of_fmap. split.
    - intros (tb & -> & Hin). eauto.
    - intros (tb & Hin & <-). eauto. }
  destruct (deleteTables_run (merge_sort Z.le (elements tables)) s)
    as (s' & Hrun & Htab & Hlog & Hmap & Hheap).
  - rewrite Hperm. apply NoDup_elements.
  - intros p Hp. apply Hmem in Hp as (tb & Hin & <-). apply Wvalid, Hin.
  - exists s'. split; [exact Hrun|]. split_and!; try assumption.
    apply map_eq. intros q. rewrite Hheap, lookup_empty.
    destruct (decide (q ∈ merge_sort Z.le (elements tables))) as [Hin|Hout];
      [reflexivity|].
    destruct (tableHeap s !! q) eqn:Hq; [|reflexivity].
    exfalso. apply Hout, Hmem, Horph. eauto.
Qed.

Lemma destructor_frees_every_table_once_witness :
  exists s',
    MasterServer_destroy demoServer2 = (s', Ok tt)
    /\ tableHeap s' = ∅
    /\ tablets s' = tablets demoServer2 /\ log s' = log demoServer2
    /\ objectMap s' = objectMap demoServer2.
Proof.
  apply (destructor_frees_every_table_once demoServer2).
  - apply tablesConsistentb_sound. vm_compute. reflexivity.
  - apply noOrphansb_sound. vm_compute. reflexivity.
Defined.

(** ** Reading what a recovery replayed *)

Lemma find_tabletHolds_takeOver k id s l r :
  isNull (find (tabletHolds k id) (l ++ (takeOver s <$> r)))
  = isNull (find (tabletHolds k id) (l ++ r)).
Proof.
  induction l as [|tb l IH]; cbn.
  - induction r as [|tb r IH]; [reflexivity|]. cbn.
    change (tabletHolds k id (takeOver s tb)) with (tabletHolds k id tb).
    destruct (tabletHolds k id tb); [reflexivity | exact IH].
  - destruct (tabletHolds k id tb); [reflexivity | exact IH].
Qed.

(** After a recovery in which every fetch succeeds (the hypotheses of the
    loop of [recover]) on a server whose tablets and Tables fit together,
    the RECOVER request returns, the index holds the
    merge of the records of every scheduled segment, and a read without
    rules of a key that an old or a recovery tablet holds returns the
    data and the version of the merged object of the key, or throws
    ObjectDoesntExist when the merge left none. *)
Theorem recovered_objects_are_readable
  (fuel : nat) (env : RecoveryEnv) (tscs : list Z) (ready : list bool)
  (masterId : Z) (recoveryTablets : list Tablet)
  (backups : list ServerListEntry) (data : Z -> list SegmentEntry)
  (s : MasterServer) (tableId id : Z) :
  let chooser := SegmentLocatorChooser_new (env_shuffle env) backups in
  let ids := SegmentLocatorChooser_getSegmentIdList chooser in
  let merged := foldl mergeEntry (contents s, ∅) (concat (data <$> ids)) in
  (forall l, env_shuffle env l ≡ₚ l) ->
  (forall locator segId,
      env_getRecoveryData env locator masterId segId recoveryTablets
      = RpcData (data segId)) ->
  IndexValid s ->
  TablesConsistent s ->
  ContentsGood (contents s, ∅) ->
  Forall entryBelowMax (concat (data <$> ids)) ->
  GenerationsAgree (concat (data <$> ids)) ->
  (length ready + length ids <= fuel)%nat ->
  is_Some (find (tabletHolds (wrap32 tableId) id)
             (tablets s ++ recoveryTablets)) ->
  exists s',
    recoverRpc fuel env tscs ready masterId recoveryTablets backups s
    = (s', Ok tt)
    /\ contents s' = merged.1
    /\ read tableId id noRules s'
       = (s', match merged.1 !! (tableId, id) with
              | Some o => Ok (obj_data o, obj_version o)
              | None => Throw ObjectDoesntExistException
              end).
Proof.
  intros chooser ids merged Hshuffle Henv Hv Hcons Hgood Hall Hagree Hfuel
    Hheld.
  set (r0 := {| rec_master := s; rec_tombstoneMap := ∅;
                rec_tasks := replicate 4 None; rec_segIds := [];
                rec_activeSegments := 0; rec_tscs := tscs;
                rec_ready := ready; rec_replayed := [] |}).
  pose proof (ContentsGood_NotBoth _ _ Hv Hgood) as Hnb.
  destruct (recover_returns fuel env masterId recoveryTablets backups data r0
              Hshuffle Henv Hv Hnb Hfuel)
    as (r1 & done & Hrun & Hv1 & Hperm & Hc & _).
  assert (Hmerged : (contents (rec_master r1), rec_tombstoneMap r1) = merged).
  { rewrite Hc. symmetry. apply merge_permutation; try assumption.
    apply concat_fmap_Permutation. symmetry. exact Hperm. }
  pose proof (recover_keepsTables _ _ _ _ _ _ _ _ Hrun) as Hkeeps.
  pose proof (TablesConsistent_keepsTables _ _ Hkeeps Hcons) as Hcons1.
  destruct Hkeeps as (Htab & _ & _ & Hid & Hloc & _).
  cbn in Htab, Hid, Hloc.
  destruct (setTablets_run
              (tablets (rec_master r1)
               ++ (takeOver (rec_master r1) <$> recoveryTablets))
              (rec_master r1) Hcons1) as (s' & Hset & Hlog & Hmap & Hshape).
  assert (Hcont : contents s' = merged.1).
  { rewrite <- Hmerged. unfold contents. rewrite Hlog, Hmap. reflexivity. }
  exists s'. split; [|split; [exact Hcont|]].
  - unfold recoverRpc. fold r0. rewrite Hrun. exact Hset.
  - rewrite read_run, <- Hcont, contents_lookup.
    pose proof (find_tabletHolds_shape (wrap32 tableId) id _ _ Hshape) as Hf.
    rewrite find_tabletHolds_takeOver, Htab in Hf.
    unfold tableOf. cbn [fst snd].
    destruct Hheld as [tb Htb]. rewrite Htb in Hf.
    destruct (find _ (tablets s')) as [tb'|]; [|discriminate]. cbn.
    destruct (objectMap s' !! (tableId, id)) as [ref|] eqn:Hk; [|reflexivity].
    cbn. assert (Hv' : IndexValid s').
    { intros k r. rewrite Hmap, Hlog. apply Hv1. }
    destruct (Hv' _ _ Hk) as [o ->].
    rewrite rejectOperation_noRules. reflexivity.
Qed.

Lemma recovered_objects_are_readable_witness :
  let merged :=
    foldl mergeEntry (contents demoServer1, ∅)
      (concat (savedData <$> [1; 2])) in
  exists s',
    recoverRpc 3 savedEnv [] [false] 99 [demoTablet 8] answeringBackups
      demoServer1 = (s', Ok tt)
    /\ contents s' = merged.1
    /\ read 8 3 noRules s'
       = (s', match merged.1 !! (8, 3) with
              | Some o => Ok (obj_data o, obj_version o)
              | None => Throw ObjectDoesntExistException
              end).
Proof.
  apply (recovered_objects_are_readable 3 savedEnv [] [false] 99
           [demoTablet 8] answeringBackups savedData demoServer1 8 3).
  - reflexivity.
  - reflexivity.
  - apply indexValidb_sound. vm_compute. reflexivity.
  - apply tablesConsistentb_sound. vm_compute. reflexivity.
  - apply contentsGoodb_sound. vm_compute. reflexivity.
  - apply entriesBelowMaxb_sound. vm_compute. reflexivity.
  - apply generationsAgreeb_sound. vm_compute. reflexivity.
  - vm_compute. lia.
  - vm_compute. eauto.
Defined.

(** ** Conditional writes *)

(** Of two conditional writes on one version only the first wins: when a
    write whose rules have [versionNeGiven] is accepted on an existing
    object (of a version that is not VERSION_NONEXISTENT), the object had
    the given version, the new version is the given version plus one, and
    a second write with the same rules is rejected with WrongVersion and
    changes nothing. *)
Theorem conditional_write_wins_once
  (tableId id : Z) (rules : RejectRules) (data data' : string)
  (s s' : MasterServer) (prev : Object) (v : Z) :
  versionNeGiven rules = true ->
  contents s !! (tableId, id) = Some prev ->
  0 <= obj_version prev ->
  obj_version prev <> VERSION_NONEXISTENT ->
  write tableId id rules data s = (s', Ok v) ->
  obj_version prev = givenVersion rules
  /\ v = wrap64 (givenVersion rules + 1)
  /\ write tableId id rules data' s' = (s', Throw WrongVersionException).
Proof.
  intros Hne Hprev Hpos Hreal Hw. unfold write in *.
  apply storeData_Ok in Hw
    as (t & objRef & Hget & Hnew & Hmap & Htab & Hold & Hcase).
  rewrite contents_lookup in Hprev.
  destruct (objectMap s !! (tableId, id)) as [ref|] eqn:Hk; [|discriminate].
  cbn in Hprev.
  destruct Hcase as (prev' & segId & tombRef & Hprev' & Hrules & Hlt & Hv & _).
  rewrite Hprev in Hprev'. injection Hprev' as <-.
  assert (Hflags : rr_exists rules = false
                   /\ obj_version prev = givenVersion rules).
  { unfold rejectOperation in Hrules. rewrite Hne in Hrules.
    destruct (Z.eqb_spec (obj_version prev) VERSION_NONEXISTENT);
      [contradiction|].
    destruct (rr_exists rules); [discriminate|]. split; [reflexivity|].
    destruct (versionLeGiven rules && _); [discriminate|]. cbn in Hrules.
    destruct (Z.eqb_spec (obj_version prev) (givenVersion rules));
      [assumption | discriminate]. }
  destruct Hflags as [Hex Hgiven].
  split; [exact Hgiven|]. split; [rewrite <- Hgiven; exact Hv|].
  assert (Hget' : getTable tableId id s' = (s', Ok t)).
  { unfold getTable in *. rewrite Htab.
    destruct (find _ (tablets s)); simplify_eq. reflexivity. }
  unfold storeData. rewrite (bind_step _ _ _ _ _ Hget'). cbn beta.
  unfold bind at 1, objectMap_lookup. rewrite Hmap, lookup_insert_eq.
  unfold bind at 1, derefOpt, bind at 1, deref. rewrite Hnew.
  unfold ret at 1. unfold bind at 1, lift. cbn [obj_version newObjectOf].
  assert (Hrej : rejectOperation rules v = Throw WrongVersionException).
  { unfold rejectOperation. rewrite Hne, Hex.
    destruct (Z.eqb_spec v VERSION_NONEXISTENT) as [Hz|_];
      [unfold VERSION_NONEXISTENT in Hz; lia|].
    destruct (versionLeGiven rules && (v <=? givenVersion rules));
      [reflexivity|]. cbn.
    destruct (Z.eqb_spec v (givenVersion rules)); [lia|reflexivity]. }
  rewrite Hrej. reflexivity.
Qed.

Lemma conditional_write_wins_once_witness :
  let rules := {| givenVersion := 1; doesntExist := false;
                  rr_exists := false; versionLeGiven := false;
                  versionNeGiven := true |} in
  let s' := fst (write 7 1 rules "mine" demoServer1) in
  obj_version (newObjectOf 7 1 1 "hello") = givenVersion rules
  /\ 2 = wrap64 (givenVersion rules + 1)
  /\ write 7 1 rules "yours" s' = (s', Throw WrongVersionException).
Proof.
  apply (conditional_write_wins_once 7 1
           {| givenVersion := 1; doesntExist := false;
              rr_exists := false; versionLeGiven := false;
              versionNeGiven := true |} "mine" "yours" demoServer1
           _ (newObjectOf 7 1 1 "hello") 2).
  - reflexivity.
  - vm_compute. reflexivity.
  - vm_compute. discriminate.
  - vm_compute. discriminate.
  - vm_compute. reflexivity.
Defined.

(** ** The log as a journal *)

Lemma mergeSlot_origin x e : mergeSlot x e = x \/ mergeSlot x e = slotOf e.
Proof.
  destruct e as [R|R|ty]; cbn; [| |auto];
    destruct (_ <=? _); auto.
Qed.

Lemma foldl_mergeEntry_origin l :
  forall a k,
    slot (foldl mergeEntry a l) k = slot a k
    \/ exists e, e ∈ l /\ entryKey e = Some k
                 /\ slot (foldl mergeEntry a l) k = slotOf e.
Proof.
  induction l as [|e l IH]; intros a k; [left; reflexivity|].
  cbn [foldl]. destruct (IH (mergeEntry a e) k) as [Hsame|(e' & Hin & Hk & Hs)].
  - rewrite Hsame, slot_mergeEntry.
    destruct (decide (entryKey e = Some k)) as [Hk|Hk]; [|auto].
    destruct (mergeSlot_origin (slot a k) e) as [->| ->]; [auto|].
    right. exists e. split; [apply elem_of_cons; auto|]. auto.
  - right. exists e'. split; [apply elem_of_cons; auto|]. auto.
Qed.

Lemma slotRank_slotOf e : slotRank (slotOf e) = entryRank e.
Proof. destruct e; reflexivity. Qed.

Lemma ContentsGood_empty : ContentsGood (∅, ∅).
Proof.
  intros k. unfold slot, slotGood. cbn. rewrite !lookup_empty.
  split_and!; [auto | discriminate | discriminate].
Qed.

(** A replay from empty indexes of records that tell the contents [c]
    ends with the object index [c], whatever the order of the records and
    however often a record comes. *)
Lemma Tells_replay l c :
  Forall entryBelowMax l -> Tells l c ->
  (foldl mergeEntry (∅, ∅) l).1 = c.
Proof.
  intros Hall [Hobj Hnone]. apply map_eq. intros k.
  destruct (foldl_mergeEntry_rank l (∅, ∅) k ContentsGood_empty Hall)
    as [_ Hmax].
  pose proof (foldl_mergeEntry_origin l (∅, ∅) k) as Horigin.
  unfold slot in Horigin, Hmax. cbn [fst snd] in Horigin, Hmax.
  rewrite !lookup_empty in Horigin.
  set (final := foldl mergeEntry (∅, ∅) l) in *.
  destruct (c !! k) as [o|] eqn:Hc.
  - destruct (Hobj k o Hc) as (Hin & Hkey & Htop).
    assert (Hk : entryKey (EntryObj o) = Some k) by (cbn; congruence).
    pose proof (Hmax _ Hin Hk) as Hge.
    assert (Hpos : 0 <= obj_version o).
    { rewrite Forall_forall in Hall. apply (Hall _ Hin). }
    destruct Horigin as [Heq|(e & He & Hek & Heq)].
    + rewrite Heq in Hge. cbn in Hge. lia.
    + rewrite Heq, slotRank_slotOf in Hge.
      destruct (Htop e He Hek) as [Hlt| ->]; [cbn in *; lia|].
      cbn in Heq. congruence.
  - destruct Horigin as [Heq|(e & He & Hek & Heq)]; [congruence|].
    destruct e as [R|R|ty]; cbn in Heq; [|congruence|congruence].
    destruct (Hnone k _ Hc He Hek) as (t & Ht & Htk & Hle).
    assert (Htk' : entryKey (EntryTomb t) = Some k) by (cbn; congruence).
    pose proof (Hmax _ Ht Htk') as Hge.
    rewrite Heq in Hge. cbn in Hge, Hle. lia.
Qed.

Lemma logRecords_append l p len :
  logRecords (fst (Log_append l p len)) = logRecords l ++ [payloadEntry p].
Proof.
  unfold logRecords. rewrite Log_append_entries, fmap_app. reflexivity.
Qed.

Lemma logRecords_free l ref : logRecords (Log_free l ref) = logRecords l.
Proof.
  unfold logRecords.
  with_strategy transparent [Log_free] (unfold Log_free; cbn [logEntries]).
  apply list_eq. intros i. rewrite !list_lookup_fmap.
  destruct (decide (i = ref)) as [->|Hne].
  - rewrite list_lookup_alter_eq. destruct (logEntries l !! ref); reflexivity.
  - rewrite list_lookup_alter_ne by done. reflexivity.
Qed.

Lemma Log_object_record l ref o :
  Log_object l ref = Some o -> EntryObj o ∈ logRecords l.
Proof.
  with_strategy transparent [Log_object] (unfold Log_object).
  destruct (logEntries l !! ref) as [e|] eqn:He; [|discriminate].
  destruct (payload e) as [o'|t] eqn:Hp; [|discriminate]. intros [= ->].
  unfold logRecords. apply list_elem_of_fmap. exists e.
  rewrite Hp. split; [reflexivity|]. eapply list_elem_of_lookup_2. exact He.
Qed.

(** The records that an accepted [storeData] appends. *)
Lemma storeData_records tableId id rules data s s' v :
  storeData tableId id rules data s = (s', Ok v) ->
  logRecords (log s')
  = logRecords (log s)
    ++ match objectMap s !! (tableId, id) with
       | Some ref =>
           match Log_getSegmentId (log s) ref, Log_object (log s) ref with
           | Some segId, Some prev =>
               [EntryTomb (ObjectTombstone_new segId prev)]
           | _, _ => []
           end
       | None => []
       end
    ++ [EntryObj (newObjectOf tableId id v data)].
Proof.
  intros H. pose proof (storeData_Ok _ _ _ _ _ _ _ H) as Hok. cbn zeta in Hok.
  destruct Hok as (t & objRef & Hget & _ & _ & _ & _ & Hcase).
  revert H. unfold storeData.
  rewrite (bind_step _ _ _ _ _ Hget). cbn beta.
  unfold bind at 1, objectMap_lookup.
  destruct (objectMap s !! (tableId, id)) as [ref|] eqn:Hk.
  - destruct Hcase
      as (prev & segId & tombRef & Hprev & Hrules & Hlt & Hv & Hseg & _).
    unfold bind at 1, derefOpt, bind at 1, deref. rewrite Hprev.
    unfold ret at 1. unfold bind at 1, lift. rewrite Hrules.
    unfold bind at 1, ret at 1. unfold bind at 1, assert.
    rewrite <- Hv.
    replace (obj_version prev <? v) with true
      by (symmetry; apply Z.ltb_lt; exact Hlt).
    unfold bind, log_free, log_getSegmentId, log_append, objectMap_replace,
      deref, modify, ret.
    cbn [log with_log with_objectMap with_bytesWritten].
    rewrite Log_getSegmentId_free, Hseg.
    cbn [log with_log with_objectMap with_bytesWritten fst snd].
    rewrite Log_object_append_new.
    intros Heq. apply (f_equal fst) in Heq. cbn [fst] in Heq. subst s'. cbn [log with_log with_objectMap with_bytesWritten].
    rewrite !logRecords_append, logRecords_free.
    rewrite <- app_assoc. reflexivity.
  - destruct Hcase as (tbl & Htbl & Hrules & Hv & _).
    unfold bind at 1, derefOpt, ret at 1. unfold bind at 1, lift.
    rewrite Hrules. unfold bind at 1, Table_AllocateVersion, withTable.
    rewrite Htbl. unfold bind at 1, assert.
    unfold bind, log_append, objectMap_replace, deref, modify, ret.
    cbn [log with_log with_objectMap with_bytesWritten with_tables fst snd].
    rewrite Log_object_append_new.
    intros Heq. apply (f_equal fst) in Heq. cbn [fst] in Heq. subst s'.
    cbn [log with_log with_objectMap with_bytesWritten with_tables].
    rewrite logRecords_append, <- Hv. reflexivity.
Qed.

(** The record that an accepted [remove] of an object appends. *)
Lemma remove_records tableId id rules uninit s s' r :
  remove tableId id rules uninit s = (s', Ok r) ->
  logRecords (log s')
  = logRecords (log s)
    ++ match objectMap s !! (tableId, id) with
       | Some ref =>
           match Log_object (log s) ref with
           | Some prev => [EntryTomb (ObjectTombstone_new uninit prev)]
           | None => []
           end
       | None => []
       end.
Proof.
  intros H. pose proof (remove_Ok _ _ _ _ _ _ _ H) as Hok.
  destruct Hok as (t & Hget & _ & _ & Hcase).
  revert H. unfold remove.
  rewrite (bind_step _ _ _ _ _ Hget). cbn beta.
  unfold bind at 1, objectMap_lookup.
  destruct (objectMap s !! (tableId, id)) as [ref|] eqn:Hk.
  - destruct Hcase as (prev & tbl & tombRef & Hprev & Hrules & _ & Htbl & _).
    unfold bind at 1, deref. rewrite Hprev.
    unfold bind at 1, lift. rewrite Hrules.
    unfold bind at 1, Table_RaiseVersion, withTable. rewrite Htbl.
    unfold bind, log_free, log_append, objectMap_remove, ret.
    cbn [log with_log with_objectMap with_tables fst snd].
    intros Heq. apply (f_equal fst) in Heq. cbn [fst] in Heq. subst s'. cbn [log with_log with_objectMap with_tables].
    rewrite logRecords_append, logRecords_free. reflexivity.
  - destruct Hcase as (_ & -> & _). intros _. rewrite app_nil_r. reflexivity.
Qed.

Lemma entryRank_version e :
  2 * entryVersion e <= entryRank e + 1 /\ entryRank e <= 2 * entryVersion e + 1.
Proof. destruct e; cbn; lia. Qed.

Lemma Journal_mono n m s : n <= m -> Journal n s -> Journal m s.
Proof.
  intros Hle [Hcov Htells]. split; [|exact Htells].
  intros e k He Hk. destruct (Hcov e k He Hk) as [Hr Hb]. split; [lia|exact Hb].
Qed.

Lemma Journal_same n s s' :
  log s' = log s -> objectMap s' = objectMap s ->
  (forall k v', Below s k v' -> Below s' k v') ->
  Journal n s -> Journal n s'.
Proof.
  intros Hlog Hmap Hb [Hcov Htells]. unfold Journal, contents.
  rewrite Hlog, Hmap. split; [|exact Htells].
  intros e k He Hk. destruct (Hcov e k He Hk) as [Hr Hbelow]. auto.
Qed.

Lemma storeData_journal n tableId id rules data s s' v :
  Serving n s -> Journal n s -> n + 2 < 2 ^ 64 ->
  storeData tableId id rules data s = (s', Ok v) ->
  Journal (n + 1) s'.
Proof.
  intros (Hw & Hkeyed & _ & _) [Hcov [Hobj Hnone]] Hroom H.
  pose proof Hw as (Hv & Hrange & _).
  destruct (storeData_step _ _ _ _ _ _ _ _ Hw Hroom H)
    as [(Hw' & _ & Hmono) Hnewer].
  pose proof Hw' as (_ & Hrange' & _).
  pose proof (storeData_records _ _ _ _ _ _ _ H) as Hrecs.
  apply storeData_Ok in H
    as (t & objRef & _ & Hnew & Hmap & _ & Hold & _).
  destruct (contents_after_insert s s' _ _ _ Hv Hmap Hnew Hold) as [Hc _].
  set (k0 := (tableId, id)) in *.
  set (N := newObjectOf tableId id v data) in *.
  assert (HvN : 0 <= v <= n + 1).
  { apply (Hrange' k0 N). rewrite Hc. apply lookup_insert_eq. }
  (* the records of the new log *)
  assert (Hin' : forall e,
             e ∈ logRecords (log s') ->
             e ∈ logRecords (log s)
             \/ (entryKey e = Some k0 /\ 0 <= entryVersion e <= n
                 /\ entryVersion e < v /\ Below s k0 (entryVersion e))
             \/ e = EntryObj N).
  { intros e. rewrite Hrecs, !elem_of_app.
    intros [He|[He|He]]; [auto| |apply list_elem_of_singleton in He; auto].
    right. left.
    destruct (objectMap s !! k0) as [ref|] eqn:Hk; [|inversion He].
    destruct (Log_getSegmentId (log s) ref) as [segId|]; [|inversion He].
    destruct (Log_object (log s) ref) as [prev|] eqn:Hprev; [|inversion He].
    apply list_elem_of_singleton in He as ->. cbn.
    assert (Hbelow : Below s k0 (obj_version prev)).
    { unfold Below. rewrite Hk. exists prev. split; [exact Hprev|lia]. }
    split_and!.
    - f_equal. apply (Hkeyed _ _ _ Hk Hprev).
    - apply (Hrange k0 prev). eapply contents_Some; eassumption.
    - apply (Hrange k0 prev). eapply contents_Some; eassumption.
    - apply Hnewer. exact Hbelow.
    - exact Hbelow. }
  assert (Hsub : forall e, e ∈ logRecords (log s) -> e ∈ logRecords (log s')).
  { intros e He. rewrite Hrecs, elem_of_app. auto. }
  assert (HN : EntryObj N ∈ logRecords (log s')).
  { rewrite Hrecs, !elem_of_app. right. right. apply list_elem_of_singleton.
    reflexivity. }
  split; [|split].
  - intros e k He Hk.
    destruct (Hin' e He) as [Hold'|[(Hk0 & Hr & Hlt & Hb)| ->]].
    + destruct (Hcov e k Hold' Hk) as [Hr Hb]. split; [lia|]. apply Hmono, Hb.
    + assert (k = k0) as -> by congruence. split; [lia|]. apply Hmono, Hb.
    + cbn in Hk. injection Hk as <-. split; [exact HvN|].
      unfold Below. fold k0. rewrite Hmap, lookup_insert_eq.
      exists N. split; [exact Hnew | cbn; lia].
  - intros k o. rewrite Hc. destruct (decide (k = k0)) as [->|Hne].
    + rewrite lookup_insert_eq. intros [= <-].
      split; [exact HN|]. split; [reflexivity|].
      intros e He Hk.
      destruct (Hin' e He) as [Hold'|[(_ & _ & Hlt & _)| ->]]; [| |auto].
      * destruct (Hcov e k0 Hold' Hk) as [_ Hb].
        specialize (Hnewer _ Hb). left.
        pose proof (entryRank_version e). cbn. lia.
      * left. pose proof (entryRank_version e). cbn. lia.
    + rewrite lookup_insert_ne by congruence. intros Ho.
      destruct (Hobj k o Ho) as (Hin & Hkey & Htop).
      split; [apply Hsub, Hin|]. split; [exact Hkey|].
      intros e He Hk.
      destruct (Hin' e He) as [Hold'|[(Hk0 & _)| ->]].
      * apply Htop; assumption.
      * congruence.
      * exfalso. apply Hne. cbn in Hk. injection Hk as <-. reflexivity.
  - intros k e. rewrite Hc. destruct (decide (k = k0)) as [->|Hne].
    + rewrite lookup_insert_eq. discriminate.
    + rewrite lookup_insert_ne by congruence. intros Hc0 He Hk.
      destruct (Hin' e He) as [Hold'|[(Hk0 & _)| ->]].
      * destruct (Hnone k e Hc0 Hold' Hk) as (t0 & Ht0 & Htk & Hle).
        exists t0. split; [apply Hsub, Ht0|]. auto.
      * congruence.
      * exfalso. apply Hne. cbn in Hk. injection Hk as <-. reflexivity.
Qed.

Lemma remove_journal n tableId id rules uninit s s' r :
  Serving n s -> Journal n s -> n + 2 < 2 ^ 64 ->
  remove tableId id rules uninit s = (s', Ok r) ->
  Journal (n + 1) s'.
Proof.
  intros (Hw & Hkeyed & _ & _) HJ Hroom H.
  pose proof HJ as [Hcov [Hobj Hnone]].
  pose proof Hw as (Hv & Hrange & _).
  destruct (remove_step _ _ _ _ _ _ _ _ Hw Hroom H) as (_ & _ & Hmono).
  pose proof (remove_records _ _ _ _ _ _ _ H) as Hrecs.
  apply remove_Ok in H as (t & _ & _ & Hold & Hcase).
  set (k0 := (tableId, id)) in *.
  destruct (objectMap s !! k0) as [ref|] eqn:Hk0.
  2:{ destruct Hcase as (_ & -> & _). eapply Journal_mono; [|exact HJ]. lia. }
  destruct Hcase as (prev & tbl & tombRef & Hprev & _ & _ & _ & _ & Hmap & _).
  rewrite Hprev in Hrecs.
  destruct (contents_after_delete s s' _ Hv Hmap Hold) as [Hc _].
  set (T := ObjectTombstone_new uninit prev) in *.
  pose proof (contents_Some _ _ _ _ Hk0 Hprev) as Hcprev.
  assert (HkT : tombKey T = k0) by (apply (Hkeyed _ _ _ Hk0 Hprev)).
  assert (Hbelow : Below s k0 (obj_version prev)).
  { unfold Below. rewrite Hk0. exists prev. split; [exact Hprev|lia]. }
  assert (Hin' : forall e, e ∈ logRecords (log s') ->
                           e ∈ logRecords (log s) \/ e = EntryTomb T).
  { intros e. rewrite Hrecs, elem_of_app, list_elem_of_singleton. auto. }
  assert (Hsub : forall e, e ∈ logRecords (log s) -> e ∈ logRecords (log s')).
  { intros e He. rewrite Hrecs, elem_of_app. auto. }
  assert (HT : EntryTomb T ∈ logRecords (log s')).
  { rewrite Hrecs, elem_of_app, list_elem_of_singleton. auto. }
  split; [|split].
  - intros e k He Hk. destruct (Hin' e He) as [Hold'| ->].
    + destruct (Hcov e k Hold' Hk) as [Hr Hb]. split; [lia|]. apply Hmono, Hb.
    + cbn in Hk. fold (tombKey T) in Hk. rewrite HkT in Hk.
      injection Hk as <-. cbn.
      split; [|apply Hmono, Hbelow].
      pose proof (Hrange k0 prev Hcprev). lia.
  - intros k o. rewrite Hc. destruct (decide (k = k0)) as [->|Hne].
    + rewrite lookup_delete_eq. discriminate.
    + rewrite lookup_delete_ne by congruence. intros Ho.
      destruct (Hobj k o Ho) as (Hin & Hkey & Htop).
      split; [apply Hsub, Hin|]. split; [exact Hkey|].
      intros e He Hk. destruct (Hin' e He) as [Hold'| ->].
      * apply Htop; assumption.
      * exfalso. apply Hne. cbn in Hk. fold (tombKey T) in Hk.
        rewrite HkT in Hk. injection Hk as <-. reflexivity.
  - intros k e. rewrite Hc. destruct (decide (k = k0)) as [->|Hne].
    + intros _ He Hk. exists T. split; [exact HT|]. split; [exact HkT|].
      destruct (Hin' e He) as [Hold'| ->]; [|lia].
      destruct (Hobj k0 prev Hcprev) as (_ & _ & Htop).
      destruct (Htop e Hold' Hk) as [Hlt| ->]; cbn in *; lia.
    + rewrite lookup_delete_ne by congruence. intros Hc0 He Hk.
      destruct (Hin' e He) as [Hold'| ->].
      * destruct (Hnone k e Hc0 Hold' Hk) as (t0 & Ht0 & Htk & Hle).
        exists t0. split; [apply Hsub, Ht0|]. auto.
      * exfalso. apply Hne. cbn in Hk. fold (tombKey T) in Hk.
        rewrite HkT in Hk. injection Hk as <-. reflexivity.
Qed.

Lemma dispatch_journal n rpc s s' res :
  clientRequest rpc -> Serving n s -> Journal n s -> n + 2 < 2 ^ 64 ->
  dispatch rpc s = (s', res) ->
  (exists r, res = Ok r) \/ (exists e, res = Throw e) ->
  Journal (n + 1) s'.
Proof.
  intros Hclient Hs HJ Hroom Hrun Hres.
  assert (Hstay : Journal (n + 1) s) by (eapply Journal_mono; [|exact HJ]; lia).
  pose proof Hs as (Hw & Hkeyed & Hready & Hsize).
  destruct rpc as [tId data| |tId id rules| |tId id rules uninit| |tId id rules data];
    cbn in Hclient; try contradiction; cbn [dispatch] in Hrun.
  - (* create *)
    unfold create in Hrun. unfold bind at 1 2 in Hrun.
    rewrite getTable_run in Hrun.
    destruct (tableOf s (tId, UINT64_MAX)) as [t|] eqn:Ht;
      [|injection Hrun as <- _; exact Hstay].
    unfold bind at 1 in Hrun.
    destruct (Table_AllocateKey t s) as [s2 [key|e| | |]] eqn:Hkey;
      try (injection Hrun as _ <-; destruct Hres as [[? ?]|[? ?]];
           discriminate).
    2:{ unfold Table_AllocateKey in Hkey.
        destruct (tableHeap s !! t); [|discriminate].
        destruct (skipKeys _ _ _ _); discriminate. }
    destruct (AllocateKey_step _ _ _ _ _ Hw Hkey) as (Hw2 & Htab2 & Hb2).
    pose proof (AllocateKey_Ok _ _ _ _ Hkey) as (Hlog2 & Hmap2 & _).
    assert (HJ2 : Journal n s2) by (eapply Journal_same; eassumption).
    assert (Hs2 : Serving n s2).
    { destruct (tableOf_tablet _ _ _ Ht) as (tb & Hin & <-).
      destruct Hready as [Hr Hn]. destruct (Hr tb Hin) as [tbl Htbl].
      destruct (AllocateKey_run _ _ _ Htbl (Hn _ _ Htbl) ltac:(lia))
        as (key' & s2' & Hkey' & Hrange & _ & _ & Htab' & Hheap').
      rewrite Hkey in Hkey'. injection Hkey' as <- <-.
      split_and!.
      - exact Hw2.
      - intros k ref o. rewrite Hmap2, Hlog2. apply Hkeyed.
      - apply (TablesReady_update s s2 (user_data tb) tbl _
                 (conj Hr Hn) Htab' Htbl Hheap'). cbn. exact Hrange.
      - rewrite Hmap2. exact Hsize. }
    unfold bind in Hrun.
    destruct (storeData tId key _ data s2) as [s3 [v|e| | |]] eqn:Hstore;
      try (injection Hrun as _ <-; destruct Hres as [[? ?]|[? ?]];
           discriminate).
    + unfold ret in Hrun. injection Hrun as <- _.
      eapply storeData_journal; eassumption.
    + injection Hrun as <- _. apply storeData_Throw in Hstore as ->.
      eapply Journal_mono; [|exact HJ2]. lia.
  - (* ping *)
    unfold ret in Hrun. injection Hrun as <- _. exact Hstay.
  - (* read *)
    unfold bind in Hrun.
    destruct (read tId id rules s) as [s1 [r|e| | |]] eqn:Hread;
      try (injection Hrun as _ <-; destruct Hres as [[? ?]|[? ?]];
           discriminate).
    + unfold ret in Hrun. injection Hrun as <- _.
      apply read_Ok in Hread as ->. exact Hstay.
    + injection Hrun as <- _. apply read_Throw in Hread as ->. exact Hstay.
  - (* remove *)
    unfold bind in Hrun.
    destruct (remove tId id rules uninit s) as [s1 [r|e| | |]] eqn:Hrem;
      try (injection Hrun as _ <-; destruct Hres as [[? ?]|[? ?]];
           discriminate).
    + unfold ret in Hrun. injection Hrun as <- _.
      eapply remove_journal; eassumption.
    + injection Hrun as <- _. apply remove_Throw in Hrem as ->. exact Hstay.
  - (* write *)
    unfold bind, write in Hrun.
    destruct (storeData tId id rules data s) as [s1 [r|e| | |]] eqn:Hstore;
      try (injection Hrun as _ <-; destruct Hres as [[? ?]|[? ?]];
           discriminate).
    + unfold ret in Hrun. injection Hrun as <- _.
      eapply storeData_journal; eassumption.
    + injection Hrun as <- _. apply storeData_Throw in Hstore as ->.
      exact Hstay.
Qed.

Lemma serveAll_journal rpcs :
  forall n s s',
    Serving n s -> Journal n s -> Forall clientRequest rpcs ->
    n + Z.of_nat (length rpcs) + 1 < 2 ^ 64 ->
    serveAll rpcs s = Some s' ->
    Serving (n + Z.of_nat (length rpcs)) s'
    /\ Journal (n + Z.of_nat (length rpcs)) s'.
Proof.
  induction rpcs as [|rpc rpcs IH]; intros n s s' Hs HJ Hall Hroom Hrun.
  - cbn in *. injection Hrun as <-. rewrite Z.add_0_r. auto.
  - apply Forall_cons in Hall as [Hc Hall].
    cbn [length] in *. rewrite Nat2Z.inj_succ in *.
    destruct (dispatch_serving n rpc s Hc Hs ltac:(lia))
      as (s1 & res & Hstep & Hres & Hs1).
    pose proof (dispatch_journal n rpc s s1 res Hc Hs HJ ltac:(lia) Hstep Hres)
      as HJ1.
    cbn [serveAll] in Hrun. rewrite Hstep in Hrun.
    replace (n + Z.succ (Z.of_nat (length rpcs)))
      with (n + 1 + Z.of_nat (length rpcs)) by lia.
    destruct Hres as [[r ->]|[e ->]];
      apply (IH (n + 1) s1 s' Hs1 HJ1 Hall ltac:(lia) Hrun).
Qed.

Lemma setTablets_new_journal ts id locator capacity :
  Journal 0 (fst (setTablets ts (MasterServer_new id locator capacity))).
Proof.
  destruct (setTablets_run ts (MasterServer_new id locator capacity)
              (TablesConsistent_new id locator capacity))
    as (s' & Hrun & Hlog & Hmap & _).
  rewrite Hrun. cbn [fst]. unfold Journal, Tells, contents.
  rewrite Hlog, Hmap. cbn.
  split; [|split].
  - intros e k He. inversion He.
  - intros k o. rewrite omap_empty, lookup_empty. discriminate.
  - intros k e _ He. inversion He.
Qed.

(** The log is a journal of the index.  Take a new server that was given
    tablets and then served fewer than 2^64-1 requests of clients; replay
    the records of its log, dead or live, in any order, cut into any
    segments and with any repetitions, on a server whose index is empty:
    the replay returns, and the object index it builds has the contents
    of the index of the first server. *)
Theorem replaying_the_log_restores_the_index
  (id : Z) (locator : string) (capacity : Z) (ts : list Tablet)
  (rpcs : list Request) (s : MasterServer)
  (segments : list (Z * list SegmentEntry)) (fresh : MasterServer) :
  Forall clientRequest rpcs ->
  Z.of_nat (length rpcs) + 1 < 2 ^ 64 ->
  serveAll rpcs (fst (setTablets ts (MasterServer_new id locator capacity)))
  = Some s ->
  (forall e, e ∈ streamRecords segments <-> e ∈ logRecords (log s)) ->
  objectMap fresh = ∅ ->
  exists fresh' tm',
    replaySegments segments ∅ fresh = (fresh', Ok tm')
    /\ contents fresh' = contents s.
Proof.
  intros Hall Hroom Hrun Hsame Hempty.
  destruct (serveAll_journal rpcs 0 _ s
              (setTablets_new_serving ts id locator capacity)
              (setTablets_new_journal ts id locator capacity)
              Hall ltac:(lia) Hrun) as [_ [Hcov [Hobj Hnone]]].
  rewrite Z.add_0_l in Hcov.
  assert (Hv : IndexValid fresh).
  { intros k ref. rewrite Hempty, lookup_empty. discriminate. }
  assert (Hc0 : contents fresh = ∅).
  { unfold contents. rewrite Hempty. apply omap_empty. }
  assert (Hnb : NotBoth fresh ∅) by (intros k; right; apply lookup_empty).
  destruct (replaySegments_simulates segments ∅ fresh Hv Hnb)
    as (fresh' & tm' & Hreplay & Hc & _).
  exists fresh', tm'. split; [exact Hreplay|].
  rewrite Hc0 in Hc.
  change (contents fresh') with ((contents fresh', tm').1). rewrite Hc.
  apply Tells_replay.
  - apply Forall_forall. intros e He. apply Hsame in He.
    destruct e as [R|R|ty]; cbn; [| |exact I].
    + destruct (Hcov _ _ He eq_refl) as [Hr _]. cbn in Hr.
      unfold belowMax, UINT64_MAX. lia.
    + destruct (Hcov _ _ He eq_refl) as [Hr _]. cbn in Hr.
      unfold belowMax, UINT64_MAX. lia.
  - split.
    + intros k o Ho. destruct (Hobj k o Ho) as (Hin & Hkey & Htop).
      split; [apply Hsame, Hin|]. split; [exact Hkey|].
      intros e He. apply Htop, Hsame, He.
    + intros k e Hk He Hek.
      destruct (Hnone k e Hk (proj1 (Hsame e) He) Hek) as (t & Ht & Htk & Hle).
      exists t. split; [apply Hsame, Ht|]. auto.
Qed.

Lemma replaying_the_log_restores_the_index_witness :
  exists fresh' tm',
    replaySegments [(1, reverse (logRecords (log demoServer3)))] ∅
      (MasterServer_new 2 "mock:host=recovery" 1000) = (fresh', Ok tm')
    /\ contents fresh' = contents demoServer3.
Proof.
  apply (replaying_the_log_restores_the_index 1 "mock:host=master" 1000
           [demoTablet 7]
           [WriteRpc 7 1 noRules "hello"; WriteRpc 7 1 noRules "world";
            RemoveRpc 7 1 noRules 0; CreateRpc 7 "more"]
           demoServer3).
  - repeat constructor.
  - vm_compute. reflexivity.
  - vm_compute. reflexivity.
  - intros e. unfold streamRecords. cbn [fmap list_fmap snd concat].
    rewrite app_nil_r. apply elem_of_reverse.
  - reflexivity.
Defined.

(** ** The index after a replay *)

Lemma recoverEntry_keeps_keyed e tm s s' tm' :
  IndexValid s -> IndexKeyed s ->
  recoverEntry e tm s = (s', Ok tm') -> IndexKeyed s'.
Proof.
  intros Hv Hk H. destruct e as [R|R|ty]; cbn in H.
  - apply recoverObject_Ok in H as (_ & _ & [[_ Ha]|(_ & -> & ->)]);
      [|exact Hk].
    destruct Ha as (newRef & Hmap & Hnew & Hold & _).
    eapply IndexKeyed_insert; try eassumption. reflexivity.
  - apply recoverTombstone_Ok in H as (_ & _ & [[_ Ha]|(_ & -> & ->)]);
      [|exact Hk].
    destruct Ha as (Hmap & Hold & _).
    eapply IndexKeyed_delete; eassumption.
  - unfold ret in H. injection H as <- <-. exact Hk.
Qed.

(** A replay keeps the index sound and leaves the tablets alone: from an
    index whose references are valid and filed under the key of their
    object, with I1, the replay of a segment returns, the index has the
    same three properties afterwards, and the tablets, the Tables, the
    identity of the server and [bytesWritten] are unchanged. *)
Theorem replay_keeps_the_index_sound
  (segId : Z) (buffer : list SegmentEntry) (tm : ObjectTombstoneMap)
  (s : MasterServer) :
  IndexValid s -> IndexKeyed s -> NotBoth s tm ->
  exists s' tm',
    recoverSegment segId buffer tm s = (s', Ok tm')
    /\ IndexValid s' /\ IndexKeyed s' /\ NotBoth s' tm'
    /\ keepsTables s s'.
Proof.
  revert tm s. induction buffer as [|e buffer IH]; intros tm s Hv Hk Hnb.
  - exists s, tm. cbn. unfold ret. split_and!; try assumption; reflexivity.
  - destruct (recoverEntry_simulates e tm s Hv Hnb)
      as (s1 & tm1 & Hrun & _ & Hv1 & Hnb1).
    pose proof (recoverEntry_keeps_keyed _ _ _ _ _ Hv Hk Hrun) as Hk1.
    pose proof (recoverEntry_keepsTables _ _ _ _ _ Hrun) as Ht1.
    destruct (IH tm1 s1 Hv1 Hk1 Hnb1)
      as (s' & tm' & Hrest & Hv' & Hk' & Hnb' & Ht').
    exists s', tm'. cbn [recoverSegment].
    rewrite (bind_step _ _ _ _ _ Hrun). split; [exact Hrest|].
    split_and!; try assumption. etransitivity; eassumption.
Qed.

Lemma replay_keeps_the_index_sound_witness :
  exists s' tm',
    recoverSegment 1 (snd segmentA ++ snd segmentB) ∅ demoServer1
    = (s', Ok tm')
    /\ IndexValid s' /\ IndexKeyed s' /\ NotBoth s' tm'
    /\ keepsTables demoServer1 s'.
Proof.
  apply (replay_keeps_the_index_sound 1 (snd segmentA ++ snd segmentB) ∅
           demoServer1).
  - apply indexValidb_sound. vm_compute. reflexivity.
  - apply indexKeyedb_sound. vm_compute. reflexivity.
  - apply notBothb_sound. vm_compute. reflexivity.
Defined.

(** ** The calls on the log *)

Lemma freedRefs_app tr1 tr2 :
  freedRefs (tr1 ++ tr2) = freedRefs tr1 ++ freedRefs tr2.
Proof. unfold freedRefs. apply omap_app. Qed.

Lemma appendedObjects_app tr1 tr2 :
  appendedObjects (tr1 ++ tr2) = appendedObjects tr1 ++ appendedObjects tr2.
Proof. unfold appendedObjects. apply omap_app. Qed.

Lemma Log_append_length l p len :
  length (logEntries (fst (Log_append l p len))) = S (length (logEntries l)).
Proof. rewrite Log_append_entries, length_app. cbn. lia. Qed.

(** The state after an accepted [storeData]: the entry of the new object
    is a new entry of the log. *)
Lemma storeData_new_entry tableId id rules data s s' v :
  storeData tableId id rules data s = (s', Ok v) ->
  exists objRef,
    objectMap s' = <[(tableId, id) := objRef]> (objectMap s)
    /\ (length (logEntries (log s)) <= objRef)%nat
    /\ (objRef < length (logEntries (log s')))%nat
    /\ trace s'
       = trace s
         ++ match objectMap s !! (tableId, id) with
            | Some ref =>
                match Log_getSegmentId (log s) ref, Log_object (log s) ref with
                | Some segId, Some prev =>
                    [EvLogFree ref;
                     EvLogAppend (PTomb (ObjectTombstone_new segId prev))
                       sizeof_ObjectTombstone (length (logEntries (log s)))]
                | _, _ => []
                end
            | None => []
            end
         ++ [EvLogAppend (PObj (newObjectOf tableId id v data))
               (Object_size (newObjectOf tableId id v data)) objRef;
             EvMapReplace (tableId, id) objRef].
Proof.
  intros H. pose proof (storeData_Ok _ _ _ _ _ _ _ H) as Hok. cbn zeta in Hok.
  destruct Hok as (t & objRef & Hget & _ & _ & _ & _ & Hcase).
  revert H. unfold storeData.
  rewrite (bind_step _ _ _ _ _ Hget). cbn beta.
  unfold bind at 1, objectMap_lookup.
  destruct (objectMap s !! (tableId, id)) as [ref|] eqn:Hk.
  - destruct Hcase
      as (prev & segId & tombRef & Hprev & Hrules & Hlt & Hv & Hseg & _).
    unfold bind at 1, derefOpt, bind at 1, deref. rewrite Hprev.
    unfold ret at 1. unfold bind at 1, lift. rewrite Hrules.
    unfold bind at 1, ret at 1. unfold bind at 1, assert.
    rewrite <- Hv.
    replace (obj_version prev <? v) with true
      by (symmetry; apply Z.ltb_lt; exact Hlt).
    unfold bind, log_free, log_getSegmentId, log_append, objectMap_replace,
      deref, modify, ret.
    cbn [log with_log with_objectMap with_bytesWritten].
    rewrite Log_getSegmentId_free, Hseg.
    cbn [log with_log with_objectMap with_bytesWritten fst snd].
    rewrite Log_object_append_new.
    intros Heq. apply (f_equal fst) in Heq. cbn [fst] in Heq. subst s'.
    cbn [log objectMap trace with_log with_objectMap with_bytesWritten].
    eexists. split; [reflexivity|].
    rewrite !Log_append_ref, !Log_append_length, Log_free_length.
    split; [lia|]. split; [lia|].
    rewrite <- !app_assoc. reflexivity.
  - destruct Hcase as (tbl & Htbl & Hrules & Hv & _).
    unfold bind at 1, derefOpt, ret at 1. unfold bind at 1, lift.
    rewrite Hrules. unfold bind at 1, Table_AllocateVersion, withTable.
    rewrite Htbl. unfold bind at 1, assert.
    unfold bind, log_append, objectMap_replace, deref, modify, ret.
    cbn [log with_log with_objectMap with_bytesWritten with_tables fst snd].
    rewrite Log_object_append_new.
    intros Heq. apply (f_equal fst) in Heq. cbn [fst] in Heq. subst s'.
    cbn [log objectMap trace with_log with_objectMap with_bytesWritten
           with_tables].
    eexists. split; [reflexivity|].
    rewrite !Log_append_ref, !Log_append_length.
    split; [lia|]. split; [lia|].
    rewrite <- Hv, <- !app_assoc. reflexivity.
Qed.

Lemma index_injective s k1 k2 ref :
  IndexValid s -> IndexKeyed s ->
  objectMap s !! k1 = Some ref -> objectMap s !! k2 = Some ref -> k1 = k2.
Proof.
  intros Hv Hk H1 H2. destruct (Hv _ _ H1) as [o Ho].
  rewrite <- (Hk _ _ _ H1 Ho). apply (Hk _ _ _ H2 Ho).
Qed.

Lemma storeData_freedOnce tableId id rules data s s' v :
  IndexValid s -> IndexKeyed s -> FreedOnce s -> refsBelow s ->
  storeData tableId id rules data s = (s', Ok v) ->
  FreedOnce s' /\ refsBelow s'.
Proof.
  intros Hv Hkeyed (Hnd & Hidx & Hfreed & Happ) Hbelow H.
  destruct (storeData_new_entry _ _ _ _ _ _ _ H)
    as (objRef & Hmap & Hge & Hlt & Htrace).
  apply storeData_Ok in H as (t & objRef' & _ & Hnew & Hmap' & _ & Hold & _).
  assert (objRef' = objRef) as ->.
  { assert (Heq : objectMap s' !! (tableId, id) = Some objRef')
      by (rewrite Hmap'; apply lookup_insert_eq).
    rewrite Hmap, lookup_insert_eq in Heq. congruence. }
  clear Hmap'. set (k0 := (tableId, id)) in *.
  set (N := newObjectOf tableId id v data) in *.
  assert (Hfresh : forall o, (objRef, o) ∉ appendedObjects (trace s)).
  { intros o Hin. specialize (Hbelow _ _ Hin). lia. }
  assert (Hnotfreed : objRef ∉ freedRefs (trace s)).
  { intros Hin. destruct (Hfreed _ Hin) as [o Ho]. exact (Hfresh o Ho). }
  assert (Hnotidx : forall k, objectMap s !! k <> Some objRef).
  { intros k Hk. destruct (Happ _ _ Hk) as (o & Ho & _). exact (Hfresh o Ho). }
  assert (Hfreed' : freedRefs (trace s')
                    = freedRefs (trace s)
                      ++ match objectMap s !! k0 with
                         | Some ref => [ref]
                         | None => []
                         end
          /\ appendedObjects (trace s')
             = appendedObjects (trace s) ++ [(objRef, N)]).
  { rewrite Htrace, !freedRefs_app, !appendedObjects_app.
    destruct (objectMap s !! k0) as [ref|] eqn:Hk0.
    - destruct (Hv _ _ Hk0) as [prev Hprev].
      destruct (Log_object_getSegmentId _ _ _ Hprev) as [segId Hseg].
      rewrite Hseg, Hprev. cbn. rewrite ?app_nil_r. auto.
    - cbn. rewrite ?app_nil_r. auto. }
  destruct Hfreed' as [Hf Ha].
  assert (Hfin : forall r, r ∈ freedRefs (trace s') <->
                           r ∈ freedRefs (trace s)
                           \/ objectMap s !! k0 = Some r).
  { intros r. rewrite Hf, elem_of_app.
    destruct (objectMap s !! k0) as [ref|].
    - rewrite list_elem_of_singleton. split.
      + intros [H1| ->]; [left; exact H1 | right; reflexivity].
      + intros [H1|[= ->]]; [left; exact H1 | right; reflexivity].
    - split.
      + intros [H1|H1]; [left; exact H1 | inversion H1].
      + intros [H1|H1]; [left; exact H1 | discriminate]. }
  split; [split_and!|].
  - rewrite Hf. apply NoDup_app. split; [exact Hnd|]. split.
    + intros r Hr Hr'. destruct (objectMap s !! k0) as [ref|] eqn:Hk0;
        [|inversion Hr'].
      apply list_elem_of_singleton in Hr' as ->. exact (Hidx _ _ Hk0 Hr).
    + destruct (objectMap s !! k0); [apply NoDup_singleton | constructor].
  - intros k r. rewrite Hmap, Hfin.
    destruct (decide (k = k0)) as [->|Hne].
    + rewrite lookup_insert_eq. intros [= <-] [Hin|Hin];
        [exact (Hnotfreed Hin) | exact (Hnotidx _ Hin)].
    + rewrite lookup_insert_ne by congruence. intros Hk [Hin|Hin].
      * exact (Hidx _ _ Hk Hin).
      * apply Hne. eapply index_injective; eassumption.
  - intros r. rewrite Hfin, Ha. intros [Hin|Hin].
    + destruct (Hfreed _ Hin) as [o Ho]. exists o. apply elem_of_app. auto.
    + destruct (Happ _ _ Hin) as (o & Ho & _). exists o.
      apply elem_of_app. auto.
  - intros k r. rewrite Hmap, Ha.
    destruct (decide (k = k0)) as [->|Hne].
    + rewrite lookup_insert_eq. intros [= <-]. exists N.
      split; [|exact Hnew]. apply elem_of_app. right.
      apply list_elem_of_singleton. reflexivity.
    + rewrite lookup_insert_ne by congruence. intros Hk.
      destruct (Happ _ _ Hk) as (o & Ho & Hobj). exists o.
      split; [apply elem_of_app; auto | apply Hold, Hobj].
  - intros r o. rewrite Ha, elem_of_app, list_elem_of_singleton.
    intros [Hin|[= -> ->]]; [|exact Hlt].
    specialize (Hbelow _ _ Hin). lia.
Qed.

Lemma remove_freedOnce tableId id rules uninit s s' r :
  IndexValid s -> IndexKeyed s -> FreedOnce s -> refsBelow s ->
  remove tableId id rules uninit s = (s', Ok r) ->
  FreedOnce s' /\ refsBelow s'.
Proof.
  intros Hv Hkeyed HA Hbelow H.
  pose proof HA as (Hnd & Hidx & Hfreed & Happ).
  pose proof (remove_records _ _ _ _ _ _ _ H) as Hrecs.
  apply remove_Ok in H as (t & _ & _ & Hold & Hcase).
  set (k0 := (tableId, id)) in *.
  destruct (objectMap s !! k0) as [ref|] eqn:Hk0.
  2:{ destruct Hcase as (_ & -> & _). auto. }
  destruct Hcase
    as (prev & tbl & tombRef & Hprev & _ & _ & _ & _ & Hmap & Htrace).
  assert (Hf : freedRefs (trace s') = freedRefs (trace s) ++ [ref]).
  { rewrite Htrace, freedRefs_app. reflexivity. }
  assert (Ha : appendedObjects (trace s') = appendedObjects (trace s)).
  { rewrite Htrace, appendedObjects_app. cbn. apply app_nil_r. }
  assert (Hlen : (length (logEntries (log s))
                  <= length (logEntries (log s')))%nat).
  { apply (f_equal length) in Hrecs. unfold logRecords in Hrecs.
    rewrite length_app, !length_fmap in Hrecs. lia. }
  split; [split_and!|].
  - rewrite Hf. apply NoDup_app. split; [exact Hnd|]. split.
    + intros x Hx Hx'. apply list_elem_of_singleton in Hx' as ->.
      exact (Hidx _ _ Hk0 Hx).
    + apply NoDup_singleton.
  - intros k x. rewrite Hmap, Hf, elem_of_app, list_elem_of_singleton.
    destruct (decide (k = k0)) as [->|Hne].
    + rewrite lookup_delete_eq. discriminate.
    + rewrite lookup_delete_ne by congruence. intros Hk [Hin| ->].
      * exact (Hidx _ _ Hk Hin).
      * apply Hne. eapply index_injective; eassumption.
  - intros x. rewrite Hf, Ha, elem_of_app, list_elem_of_singleton.
    intros [Hin| ->]; [apply Hfreed, Hin|].
    destruct (Happ _ _ Hk0) as (o & Ho & _). eauto.
  - intros k x. rewrite Hmap, Ha.
    destruct (decide (k = k0)) as [->|Hne].
    + rewrite lookup_delete_eq. discriminate.
    + rewrite lookup_delete_ne by congruence. intros Hk.
      destruct (Happ _ _ Hk) as (o & Ho & Hobj). exists o.
      split; [exact Ho | apply Hold, Hobj].
  - intros x o. rewrite Ha. intros Hin. specialize (Hbelow _ _ Hin). lia.
Qed.

Lemma AllocateKey_trace t s s' key :
  Table_AllocateKey t s = (s', Ok key) -> trace s' = trace s.
Proof. unfold Table_AllocateKey. intros H. crush_M. reflexivity. Qed.

Lemma dispatch_freedOnce n rpc s s' res :
  clientRequest rpc -> Serving n s -> FreedOnce s /\ refsBelow s ->
  dispatch rpc s = (s', res) ->
  (exists r, res = Ok r) \/ (exists e, res = Throw e) ->
  FreedOnce s' /\ refsBelow s'.
Proof.
  intros Hclient ((Hv & _ & _) & Hkeyed & _ & _) [HA HB] Hrun Hres.
  destruct rpc as [tId data| |tId id rules| |tId id rules uninit| |tId id rules data];
    cbn in Hclient; try contradiction; cbn [dispatch] in Hrun.
  - (* create *)
    unfold create in Hrun. unfold bind at 1 2 in Hrun.
    rewrite getTable_run in Hrun.
    destruct (tableOf s (tId, UINT64_MAX)) as [t|] eqn:Ht;
      [|injection Hrun as <- _; auto].
    unfold bind at 1 in Hrun.
    destruct (Table_AllocateKey t s) as [s2 [key|e| | |]] eqn:Hkey;
      try (injection Hrun as _ <-; destruct Hres as [[? ?]|[? ?]];
           discriminate).
    2:{ unfold Table_AllocateKey in Hkey.
        destruct (tableHeap s !! t); [|discriminate].
        destruct (skipKeys _ _ _ _); discriminate. }
    pose proof (AllocateKey_Ok _ _ _ _ Hkey) as (Hlog2 & Hmap2 & _).
    pose proof (AllocateKey_trace _ _ _ _ Hkey) as Htr2.
    assert (H2 : IndexValid s2 /\ IndexKeyed s2 /\ FreedOnce s2
                 /\ refsBelow s2).
    { unfold IndexValid, IndexKeyed, FreedOnce, refsBelow.
      rewrite Hlog2, Hmap2, Htr2. auto. }
    destruct H2 as (Hv2 & Hk2 & HA2 & HB2).
    unfold bind in Hrun.
    destruct (storeData tId key _ data s2) as [s3 [v|e| | |]] eqn:Hstore;
      try (injection Hrun as _ <-; destruct Hres as [[? ?]|[? ?]];
           discriminate).
    + unfold ret in Hrun. injection Hrun as <- _.
      eapply storeData_freedOnce; eassumption.
    + injection Hrun as <- _. apply storeData_Throw in Hstore as ->. auto.
  - (* ping *)
    unfold ret in Hrun. injection Hrun as <- _. auto.
  - (* read *)
    unfold bind in Hrun.
    destruct (read tId id rules s) as [s1 [r|e| | |]] eqn:Hread;
      try (injection Hrun as _ <-; destruct Hres as [[? ?]|[? ?]];
           discriminate).
    + unfold ret in Hrun. injection Hrun as <- _.
      apply read_Ok in Hread as ->. auto.
    + injection Hrun as <- _. apply read_Throw in Hread as ->. auto.
  - (* remove *)
    unfold bind in Hrun.
    destruct (remove tId id rules uninit s) as [s1 [r|e| | |]] eqn:Hrem;
      try (injection Hrun as _ <-; destruct Hres as [[? ?]|[? ?]];
           discriminate).
    + unfold ret in Hrun. injection Hrun as <- _.
      eapply remove_freedOnce; eassumption.
    + injection Hrun as <- _. apply remove_Throw in Hrem as ->. auto.
  - (* write *)
    unfold bind, write in Hrun.
    destruct (storeData tId id rules data s) as [s1 [r|e| | |]] eqn:Hstore;
      try (injection Hrun as _ <-; destruct Hres as [[? ?]|[? ?]];
           discriminate).
    + unfold ret in Hrun. injection Hrun as <- _.
      eapply storeData_freedOnce; eassumption.
    + injection Hrun as <- _. apply storeData_Throw in Hstore as ->. auto.
Qed.

(** ** The calls on the log, with the cleaner *)

(** The three ways of [objectEvictionCallback] on an object entry: no
    tablet holds the object and the key leaves the index; the index
    refers to the entry, and the object is appended again; or nothing
    changes. *)
Lemma objectEvictionCallback_run s p o len :
  Log_object (log s) p = Some o ->
  objectEvictionCallback LOG_ENTRY_TYPE_OBJ (Some p) len s
  = match tableOf s (objKey o) with
    | None =>
        (with_objectMap (delete (objKey o) (objectMap s))
           [EvMapRemove (objKey o)] s, Ok tt)
    | Some _ =>
        if bool_decide (objectMap s !! objKey o = Some p) then
          let r := Log_append (log s) (PObj o) (Object_size o) in
          (with_objectMap (<[objKey o := snd r]> (objectMap s))
             [EvMapReplace (objKey o) (snd r)]
             (with_log (fst r)
                [EvLogAppend (PObj o) (Object_size o) (snd r)] s), Ok tt)
        else (s, Ok tt)
    end.
Proof.
  intros Hp. unfold objectEvictionCallback. cbn [isNull negb LogEntryType_eqb].
  unfold assert at 1 2. unfold bind at 1 2. unfold bind at 1, deref.
  rewrite Hp. unfold bind at 1, catchTableDoesntExist. unfold bind at 1.
  rewrite getTable_run. fold (objKey o).
  destruct (tableOf s (objKey o)) as [t|].
  - unfold ret at 1. unfold bind at 1, objectMap_lookup. fold (objKey o).
    destruct (bool_decide (objectMap s !! objKey o = Some p)); reflexivity.
  - reflexivity.
Qed.

Lemma objectEvictionCallback_wild s p len :
  Log_object (log s) p = None ->
  objectEvictionCallback LOG_ENTRY_TYPE_OBJ (Some p) len s
  = (s, InvalidPointer).
Proof.
  intros Hp. unfold objectEvictionCallback. cbn [isNull negb LogEntryType_eqb].
  unfold assert at 1 2. unfold bind at 1 2. unfold bind at 1, deref.
  rewrite Hp. reflexivity.
Qed.

Lemma tombstoneEvictionCallback_run s p len :
  tombstoneEvictionCallback LOG_ENTRY_TYPE_OBJTOMB (Some p) len s
  = match Log_tombstone (log s) p with
    | None => (s, InvalidPointer)
    | Some tomb =>
        if Log_isSegmentLive (log s) (segmentId tomb) then
          let r := Log_append (log s) (PTomb tomb) sizeof_ObjectTombstone in
          (with_log (fst r)
             [EvLogAppend (PTomb tomb) sizeof_ObjectTombstone (snd r)] s,
           Ok tt)
        else (s, Ok tt)
    end.
Proof.
  unfold tombstoneEvictionCallback. cbn [isNull negb LogEntryType_eqb].
  unfold assert at 1 2. unfold bind at 1 2. unfold bind at 1, derefTombstone.
  destruct (Log_tombstone (log s) p) as [tomb|]; [|reflexivity].
  unfold bind at 1, log_isSegmentLive.
  destruct (Log_isSegmentLive (log s) (segmentId tomb)); reflexivity.
Qed.

(** An eviction of an object entry keeps the state of a serving server
    and what holds of the calls of [log.free]. *)
Lemma evictObject_keeps n s p len s' res :
  Serving n s -> FreedOnce s /\ refsBelow s ->
  objectEvictionCallback LOG_ENTRY_TYPE_OBJ (Some p) len s = (s', res) ->
  (exists r, res = Ok r) \/ (exists e, res = Throw e) ->
  Serving n s' /\ FreedOnce s' /\ refsBelow s'.
Proof.
  intros Hs [HF HB] Hrun Hres.
  destruct (Log_object (log s) p) as [o|] eqn:Hp.
  2:{ rewrite (objectEvictionCallback_wild _ _ _ Hp) in Hrun.
      injection Hrun as _ <-. destruct Hres as [[? ?]|[? ?]]; discriminate. }
  rewrite (objectEvictionCallback_run _ _ _ _ Hp) in Hrun.
  pose proof Hs as ((Hv & Hobj & Htbl) & Hkeyed & Hready & Hsize).
  pose proof HF as (Hnd & Hidx & Hfreed & Happ).
  destruct (tableOf s (objKey o)) as [t|].
  - destruct (bool_decide_reflect (objectMap s !! objKey o = Some p))
      as [Hk|Hk]; [|injection Hrun as <- _; auto].
    cbv zeta in Hrun. injection Hrun as <- _.
    set (newRef := snd (Log_append (log s) (PObj o) (Object_size o))).
    set (s' := with_objectMap _ _ _).
    assert (Hmap : objectMap s' = <[objKey o := newRef]> (objectMap s))
      by reflexivity.
    assert (Hnew : Log_object (log s') newRef = Some o)
      by apply Log_object_append_new.
    assert (Hold : forall q x, Log_object (log s) q = Some x ->
                               Log_object (log s') q = Some x)
      by (intros q x Hq; apply Log_object_append_old; exact Hq).
    destruct (contents_after_insert s s' _ _ _ Hv Hmap Hnew Hold)
      as [Hc Hv'].
    rewrite insert_id in Hc by (eapply contents_Some; eassumption).
    assert (HnewRef : newRef = length (logEntries (log s)))
      by apply Log_append_ref.
    assert (Hf : freedRefs (trace s') = freedRefs (trace s)).
    { unfold s'. cbn [trace with_objectMap with_log].
      rewrite !freedRefs_app. cbn. rewrite !app_nil_r. reflexivity. }
    assert (Ha : appendedObjects (trace s')
                 = appendedObjects (trace s) ++ [(newRef, o)]).
    { unfold s'. cbn [trace with_objectMap with_log].
      rewrite !appendedObjects_app. cbn. rewrite app_nil_r. reflexivity. }
    assert (Hfresh : forall x, (newRef, x) ∉ appendedObjects (trace s)).
    { intros x Hin. specialize (HB _ _ Hin). lia. }
    split; [|split].
    + split_and!.
      * split_and!; [exact Hv' | rewrite Hc; exact Hobj | exact Htbl].
      * exact (IndexKeyed_insert s s' (objKey o) newRef o Hv Hkeyed Hmap
                 Hnew eq_refl Hold).
      * exact Hready.
      * rewrite Hmap, map_size_insert_Some by eauto. exact Hsize.
    + unfold FreedOnce. rewrite Hf, Ha, Hmap. split_and!.
      * exact Hnd.
      * intros k r. destruct (decide (k = objKey o)) as [->|Hne].
        -- rewrite lookup_insert_eq. intros [= <-] Hin.
           destruct (Hfreed _ Hin) as [x Hx]. exact (Hfresh x Hx).
        -- rewrite lookup_insert_ne by congruence. apply Hidx.
      * intros r Hin. destruct (Hfreed _ Hin) as [x Hx]. exists x.
        apply elem_of_app. auto.
      * intros k r. destruct (decide (k = objKey o)) as [->|Hne].
        -- rewrite lookup_insert_eq. intros [= <-]. exists o.
           split; [|exact Hnew]. apply elem_of_app. right.
           apply list_elem_of_singleton. reflexivity.
        -- rewrite lookup_insert_ne by congruence. intros Hr.
           destruct (Happ _ _ Hr) as (x & Hx & Hlog). exists x.
           split; [apply elem_of_app; auto | apply Hold, Hlog].
    + unfold refsBelow. rewrite Ha. intros r x.
      assert (Hlen : length (logEntries (log s'))
                     = S (length (logEntries (log s))))
        by apply Log_append_length.
      intros Hin. rewrite Hlen. apply elem_of_app in Hin as [Hin|Hin].
      * specialize (HB _ _ Hin). lia.
      * apply list_elem_of_singleton in Hin. injection Hin as -> _. lia.
  - injection Hrun as <- _.
    set (s' := with_objectMap _ _ _).
    assert (Hmap : objectMap s' = delete (objKey o) (objectMap s))
      by reflexivity.
    assert (Hold : forall q x, Log_object (log s) q = Some x ->
                               Log_object (log s') q = Some x)
      by (intros q x Hq; exact Hq).
    destruct (contents_after_delete s s' _ Hv Hmap Hold) as [Hc Hv'].
    assert (Hf : freedRefs (trace s') = freedRefs (trace s)).
    { unfold s'. cbn [trace with_objectMap]. rewrite freedRefs_app. cbn.
      apply app_nil_r. }
    assert (Ha : appendedObjects (trace s') = appendedObjects (trace s)).
    { unfold s'. cbn [trace with_objectMap]. rewrite appendedObjects_app.
      cbn. apply app_nil_r. }
    split; [|split].
    + split_and!.
      * split_and!; [exact Hv' | | exact Htbl].
        intros key x. rewrite Hc. intros Hx.
        apply lookup_delete_Some in Hx as [_ Hx]. eapply Hobj; exact Hx.
      * exact (IndexKeyed_delete s s' (objKey o) Hv Hkeyed Hmap Hold).
      * exact Hready.
      * rewrite Hmap. pose proof (map_size_delete (objKey o) (objectMap s)).
        destruct (objectMap s !! objKey o); cbn in *; lia.
    + unfold FreedOnce. rewrite Hf, Ha, Hmap. split_and!.
      * exact Hnd.
      * intros k r Hr. apply lookup_delete_Some in Hr as [_ Hr].
        eapply Hidx; exact Hr.
      * exact Hfreed.
      * intros k r Hr. apply lookup_delete_Some in Hr as [_ Hr].
        eapply Happ; exact Hr.
    + unfold refsBelow. rewrite Ha. exact HB.
Qed.

(** An eviction of a tombstone entry does the same. *)
Lemma evictTombstone_keeps n s p len s' res :
  Serving n s -> FreedOnce s /\ refsBelow s ->
  tombstoneEvictionCallback LOG_ENTRY_TYPE_OBJTOMB (Some p) len s = (s', res) ->
  (exists r, res = Ok r) \/ (exists e, res = Throw e) ->
  Serving n s' /\ FreedOnce s' /\ refsBelow s'.
Proof.
  intros Hs [HF HB] Hrun Hres.
  rewrite tombstoneEvictionCallback_run in Hrun.
  destruct (Log_tombstone (log s) p) as [tomb|].
  2:{ injection Hrun as _ <-. destruct Hres as [[? ?]|[? ?]]; discriminate. }
  destruct (Log_isSegmentLive (log s) (segmentId tomb));
    [|injection Hrun as <- _; auto].
  cbv zeta in Hrun. injection Hrun as <- _.
  set (s' := with_log _ _ _).
  pose proof Hs as ((Hv & Hobj & Htbl) & Hkeyed & Hready & Hsize).
  pose proof HF as (Hnd & Hidx & Hfreed & Happ).
  assert (Hlog : forall q, Log_object (log s') q = Log_object (log s) q)
    by (intros q; apply Log_object_append_tomb).
  assert (Hc : contents s' = contents s).
  { apply map_eq. intros k. rewrite !contents_lookup.
    change (objectMap s') with (objectMap s).
    destruct (objectMap s !! k) as [ref|]; [|reflexivity]. cbn. apply Hlog. }
  assert (Hf : freedRefs (trace s') = freedRefs (trace s)).
  { unfold s'. cbn [trace with_log]. rewrite freedRefs_app. cbn.
    apply app_nil_r. }
  assert (Ha : appendedObjects (trace s') = appendedObjects (trace s)).
  { unfold s'. cbn [trace with_log]. rewrite appendedObjects_app. cbn.
    apply app_nil_r. }
  split; [|split].
  - split_and!.
    + split_and!; [| rewrite Hc; exact Hobj | exact Htbl].
      intros k ref Hk. rewrite Hlog. eapply Hv. exact Hk.
    + intros k ref x Hk. rewrite Hlog. apply Hkeyed. exact Hk.
    + exact Hready.
    + exact Hsize.
  - unfold FreedOnce. rewrite Hf, Ha.
    change (objectMap s') with (objectMap s). split_and!; try assumption.
    intros k r Hr. destruct (Happ _ _ Hr) as (x & Hx & Hlx). exists x.
    rewrite Hlog. auto.
  - unfold refsBelow. rewrite Ha. intros r x Hin.
    assert (Hlen : length (logEntries (log s'))
                   = S (length (logEntries (log s))))
      by apply Log_append_length.
    specialize (HB _ _ Hin). lia.
Qed.

(** A run of requests of clients and evictions from a serving state. *)
Lemma serveAndClean_keeps acts :
  forall n s s',
    Serving n s -> FreedOnce s /\ refsBelow s -> Forall clientAction acts ->
    n + Z.of_nat (length acts) + 1 < 2 ^ 64 ->
    serveAndClean acts s = Some s' ->
    Serving (n + Z.of_nat (length acts)) s' /\ FreedOnce s' /\ refsBelow s'.
Proof.
  induction acts as [|a acts IH]; intros n s s' Hs HP Hall Hroom Hrun.
  - cbn in *. injection Hrun as <-. rewrite Z.add_0_r.
    destruct HP. auto.
  - apply Forall_cons in Hall as [Hc Hall].
    cbn [length] in *. rewrite Nat2Z.inj_succ in *.
    replace (n + Z.succ (Z.of_nat (length acts)))
      with (n + 1 + Z.of_nat (length acts)) by lia.
    cbn [serveAndClean] in Hrun.
    assert (Hstep : exists s1,
               serveAndClean acts s1 = Some s'
               /\ Serving (n + 1) s1 /\ FreedOnce s1 /\ refsBelow s1).
    { destruct a as [rpc|p len|p len]; cbn [act clientAction] in *.
      - destruct (dispatch_serving n rpc s Hc Hs ltac:(lia))
          as (s1 & res & Hd & Hres & Hs1).
        pose proof (dispatch_freedOnce n rpc s s1 res Hc Hs HP Hd Hres)
          as [HF1 HB1].
        exists s1. unfold bind, ret in Hrun. rewrite Hd in Hrun.
        destruct Hres as [[r ->]|[e ->]]; auto.
      - destruct (objectEvictionCallback _ _ _ s) as [s1 res] eqn:Hd.
        assert (Hres : (exists r, res = Ok r) \/ (exists e, res = Throw e))
          by (destruct res; try discriminate; eauto).
        destruct (evictObject_keeps n s p len s1 res Hs HP Hd Hres)
          as (Hs1 & HF1 & HB1).
        exists s1. split; [destruct res; try discriminate; exact Hrun|].
        split; [eapply Serving_mono; [|exact Hs1]; lia | auto].
      - destruct (tombstoneEvictionCallback _ _ _ s) as [s1 res] eqn:Hd.
        assert (Hres : (exists r, res = Ok r) \/ (exists e, res = Throw e))
          by (destruct res; try discriminate; eauto).
        destruct (evictTombstone_keeps n s p len s1 res Hs HP Hd Hres)
          as (Hs1 & HF1 & HB1).
        exists s1. split; [destruct res; try discriminate; exact Hrun|].
        split; [eapply Serving_mono; [|exact Hs1]; lia | auto]. }
    destruct Hstep as (s1 & Hrest & Hs1 & HF1 & HB1).
    apply (IH (n + 1) s1 s' Hs1 (conj HF1 HB1) Hall ltac:(lia) Hrest).
Qed.

(** The calls of [log.free] over a run of requests of clients and of
    evictions by the cleaner between them, on a new server that was given
    tablets: when the run of fewer than 2^64-1 actions ends without a
    failed [assert] or a wild pointer, no entry was freed twice, no entry
    that the index refers to was freed, and every entry that was freed or
    is in the index is an object entry that was appended; the index
    refers to valid entries filed under the key of their object. *)
Theorem log_entries_are_freed_at_most_once
  (id : Z) (locator : string) (capacity : Z) (ts : list Tablet)
  (acts : list Action) (s : MasterServer) :
  Forall clientAction acts ->
  Z.of_nat (length acts) + 1 < 2 ^ 64 ->
  serveAndClean acts
    (fst (setTablets ts (MasterServer_new id locator capacity))) = Some s ->
  FreedOnce s /\ IndexValid s /\ IndexKeyed s.
Proof.
  intros Hall Hroom Hrun.
  assert (H0 : FreedOnce (fst (setTablets ts (MasterServer_new id locator
                                                 capacity)))
               /\ refsBelow (fst (setTablets ts (MasterServer_new id locator
                                                   capacity)))).
  2:{ destruct (serveAndClean_keeps acts 0 _ s
                  (setTablets_new_serving ts id locator capacity) H0 Hall
                  ltac:(lia) Hrun) as (((Hv & _) & Hk & _) & HF & _).
      auto. }
  destruct (setTablets_new_run ts id locator capacity)
    as (tables' & heap' & next' & ts' & _ & ->).
  cbn [fst]. unfold FreedOnce, refsBelow. cbn.
  split; [split_and!|].
  - constructor.
  - intros k ref. rewrite lookup_empty. discriminate.
  - intros ref H. inversion H.
  - intros k ref. rewrite lookup_empty. discriminate.
  - intros ref o H. inversion H.
Qed.

Lemma log_entries_are_freed_at_most_once_witness :
  exists s,
    serveAndClean demoActions demoServer0 = Some s
    /\ FreedOnce s /\ IndexValid s /\ IndexKeyed s.
Proof.
  assert (H : exists s, serveAndClean demoActions demoServer0 = Some s)
    by (vm_compute; eexists; reflexivity).
  destruct H as [s H]. exists s. split; [exact H|].
  apply (log_entries_are_freed_at_most_once 1 "mock:host=master" 1000
           [demoTablet 7] demoActions s).
  - repeat constructor.
  - vm_compute. reflexivity.
  - exact H.
Defined.
